(** * inindexer-ts: the correlation state machine, the orchestrator and the
      ordered fetch pipeline, embedded from the TypeScript sources.

    Source files embedded here:
    - [src/types.ts]           the block message data model;
    - [ts/src/indexer.ts]      [Indexer], [AutoContinue], [runIndexer] and the
                               state machine [InternalIndexerState];
    - the stand-alone state machine [IndexerState] (same algorithm plus a
      [blocksReceived] counter);
    - [ts/src/neardata.ts]     [NeardataProvider], [ProviderStreamer] and
                               [ParallelProviderStreamer], the class
                               [AsyncQueue] and the HTTP fetchers;
    - [near_utils]             [isReceiptSuccessful], the log parser
                               [deserializeTknFarmTransferLog] and the event
                               validators;
    - the indexer combinators  [MultiIndexer], [chainIndexers],
                               [MapErrorIndexer], [ParallelMultiIndexer];
    - [ts/examples]            [makeMockFetcher] and [withRateLimitFetcher].

    Conventions.  A JS [number] holding a block height is a [Z] (heights are
    safe integers).  [Map<string, V>] objects that are only read with
    [get]/[set]/[delete] are [gmap string V]; the per-transaction [receipts]
    map, whose [values()] order is observable, is an insertion-ordered
    association list ([JsMap]).  Awaited user callbacks are recorded in a call
    log; a callback may reject, which aborts the enclosing async function the
    way a JS exception does. *)

From stdpp Require Import gmap strings list fin_maps pretty sorting.

Open Scope Z_scope.

(** ** Data model ([src/types.ts]) *)

Abbreviation BlockHeight := Z.
Abbreviation BlockHeightDelta := Z.

Inductive ExecutionStatusView :=
| Failure (error : option string)
| SuccessValue (value : option string)
| SuccessReceiptId (id : string)
| Unknown.

(** [IndexerExecutionOutcomeWithReceipt]: the nested objects
    [execution_outcome.outcome] and [receipt] are flattened. *)
Record IndexerExecutionOutcomeWithReceipt := {
  status : ExecutionStatusView;   (* execution_outcome.outcome.status *)
  receipt_ids : list string;      (* execution_outcome.outcome.receipt_ids *)
  logs : list string;             (* execution_outcome.outcome.logs *)
  receipt_id : string;            (* receipt.receipt_id *)
  receiver_id : string;           (* receipt.receiver_id *)
}.

(** [IndexerTransactionWithOutcome]. *)
Record IndexerTransactionWithOutcome := {
  tx_hash : string;               (* transaction.hash *)
  tx_signer_id : string;          (* transaction.signer_id *)
  tx_receiver_id : string;        (* transaction.receiver_id *)
  tx_receipt_ids : list string;   (* outcome.execution_outcome.outcome.receipt_ids *)
}.

(** [IndexerShard]; [chunk] is optional. *)
Record IndexerShard := {
  shard_id : Z;
  chunk : option (list IndexerTransactionWithOutcome);  (* chunk?.transactions *)
  receipt_execution_outcomes : list IndexerExecutionOutcomeWithReceipt;
}.

(** [timestamp_nanosec : string | number].  The code reads a timestamp only
    through [String(...)].  A number is a double, and [String] prints the
    shortest decimal that reads back as the same double, which is not the
    exact decimal expansion once the value exceeds 2^53 (nanosecond timestamps
    do); a numeric timestamp is therefore carried as the text [String] prints
    for it. *)
Inductive Timestamp :=
| TsString (s : string)
| TsNumber (printed : string).

Record StreamerMessage := {
  height : BlockHeight;           (* block.header.height *)
  timestamp_nanosec : Timestamp;  (* block.header.timestamp_nanosec *)
  shards : list IndexerShard;
}.

(** JS [String(x)] on a timestamp: a string is returned as it is, a number
    gives its printed text. *)
Definition String_of (t : Timestamp) : string :=
  match t with
  | TsString s => s
  | TsNumber printed => printed
  end.

(** JS truthiness of a string: only the empty string is falsy. *)
Definition truthy (s : string) : bool := bool_decide (s ≠ EmptyString).

(** ** Insertion-ordered maps (JS [Map] where [values()] is observed) *)

Module JsMap.
Section Ops.
Context {V : Type}.

(** [m.set(k, v)]: an existing key keeps its position, a new key goes last. *)
Fixpoint set (k : string) (v : V) (m : list (string * V)) : list (string * V) :=
  match m with
  | [] => [(k, v)]
  | (k', v') :: m' =>
      if decide (k' = k) then (k, v) :: m' else (k', v') :: set k v m'
  end.

Fixpoint get (k : string) (m : list (string * V)) : option V :=
  match m with
  | [] => None
  | (k', v') :: m' => if decide (k' = k) then Some v' else get k m'
  end.

Definition has (k : string) (m : list (string * V)) : bool :=
  match get k m with Some _ => true | None => false end.

Definition keys (m : list (string * V)) : list string := m.*1.
Definition values (m : list (string * V)) : list V := m.*2.
End Ops.
End JsMap.

(** ** Records handed to the user indexer ([ts/src/indexer.ts]) *)

(** [TransactionReceipt]; its method [isSuccessful] is the function
    [isSuccessful] below. *)
Record TransactionReceipt := {
  receipt : IndexerExecutionOutcomeWithReceipt;
  block_height : BlockHeight;
  block_timestamp_nanosec : string;
}.

Record IncompleteTransaction := {
  transaction : IndexerTransactionWithOutcome;
  receipts : list (string * option TransactionReceipt);  (* Map<string, TransactionReceipt | null> *)
}.

(** [CompleteTransaction]; its method [allReceiptsSuccessful] is the function
    [allReceiptsSuccessful] below. *)
Record CompleteTransaction := {
  c_transaction : IndexerTransactionWithOutcome;
  c_receipts : list TransactionReceipt;
}.

(** The [isSuccessful(ifUnknown)] method of the receipt object literal built in
    [processBlock]. *)
Definition isSuccessful (r : TransactionReceipt) (ifUnknown : bool) : bool :=
  match status (receipt r) with
  | Failure _ => false
  | SuccessValue _ => true
  | SuccessReceiptId _ => true
  | Unknown => ifUnknown
  end.

(** [allReceiptsSuccessful()]: [this.receipts.every((r) => r.isSuccessful(true))]. *)
Definition allReceiptsSuccessful (c : CompleteTransaction) : bool :=
  forallb (λ r, isSuccessful r true) (c_receipts c).

(** [near_utils.isReceiptSuccessful]: [undefined] is [None]. *)
Definition isReceiptSuccessful (r : IndexerExecutionOutcomeWithReceipt) : option bool :=
  match status r with
  | Failure _ => Some false
  | SuccessValue _ => Some true
  | SuccessReceiptId _ => Some true
  | Unknown => None
  end.

(** [DefaultTransactionReceipt.isSuccessful]. *)
Definition DefaultTransactionReceipt_isSuccessful
    (r : TransactionReceipt) (ifUnknown : bool) : bool :=
  match isReceiptSuccessful (receipt r) with
  | None => ifUnknown
  | Some b => b
  end.

Record BlockProcessingOptions := {
  opt_height : BlockHeight;
  preprocess : bool;
  preprocess_new_transactions : bool;
  handle_raw_events : bool;
  handle_preprocessed_transactions_by_indexer : bool;
}.

(** ** Calls to the outside world *)

(** Every awaited call that leaves the orchestrator: the seven optional
    indexer hooks, the resume-cursor collaborator ([load], [save]), the
    post-processor ([afterBlock]) and the pipeline handle. *)
Inductive Event :=
| CProcessBlock (block : StreamerMessage)
| CProcessTransaction (tx : IndexerTransactionWithOutcome) (block : StreamerMessage)
| CProcessReceipt (r : IndexerExecutionOutcomeWithReceipt) (block : StreamerMessage)
| COnTransaction (tx : CompleteTransaction) (block : StreamerMessage)
| COnReceipt (r : TransactionReceipt) (tx : IncompleteTransaction) (block : StreamerMessage)
| CProcessBlockEnd (block : StreamerMessage)
| CFinalize
| CLoad
| CSave (h : BlockHeight)
| CAfterBlock (block : StreamerMessage) (stopping : bool)
| CAwaitHandle.

Definition Err := string.

(** [interface Indexer]: each hook is optional ([has_*]); whether an invocation
    rejects may depend on everything the indexer has been called with so far. *)
Record Indexer := {
  has_processBlock : bool;
  has_processTransaction : bool;
  has_processReceipt : bool;
  has_onTransaction : bool;
  has_onReceipt : bool;
  has_processBlockEnd : bool;
  has_finalize : bool;
  throws : list Event → Event → option Err;
}.

(** ** Async functions: state, call log, rejection *)

Inductive Result (A : Type) :=
| Ok (a : A)
| Threw (e : Err).
Arguments Ok {A} a.
Arguments Threw {A} e.

(** What becomes of the promise of an async function: it settles (resolves
    with a value or rejects with an error), or it stays pending for ever,
    when the function awaits a promise that never settles. *)
Inductive Outcome (A : Type) :=
| Settled (r : Result A)
| Pending.
Arguments Settled {A} r.
Arguments Pending {A}.
Coercion Settled : Result >-> Outcome.

(** In a pair, the expected type is used first, so that a [Result] written
    where an [Outcome] is expected is read as a settled outcome. *)
#[local] Arguments pair {A B}%_type_scope & _ _.

Definition M (S A : Type) : Type := S * list Event → S * list Event * Outcome A.

Definition ret {S A} (a : A) : M S A := λ w, (w, Ok a).

Definition bind {S A B} (c : M S A) (k : A → M S B) : M S B := λ w,
  match c w with
  | (w', Settled (Ok a)) => k a w'
  | (w', Settled (Threw e)) => (w', Threw e)
  | (w', Pending) => (w', Pending)
  end.

Notation "'let*' x ':=' c 'in' k" := (bind c (λ x, k))
  (at level 10, x binder, c at level 100, k at level 200).
Notation "c ';;;' k" := (bind c (λ _, k))
  (at level 100, k at level 200, right associativity).

Definition get_state {S} : M S S := λ w, (w, Ok w.1).
Definition modify {S} (f : S → S) : M S unit := λ w, ((f w.1, w.2), Ok tt).
Definition throw {S A} (e : Err) : M S A := λ w, (w, Threw e).

(** [await hook(args)]: the call is logged, then resolves or rejects. *)
Definition await_call {S} (oracle : list Event → Event → option Err) (e : Event) : M S unit :=
  λ w,
    match oracle w.2 e with
    | Some err => ((w.1, w.2 ++ [e]), Threw err)
    | None => ((w.1, w.2 ++ [e]), Ok tt)
    end.

(** Entering a method of a collaborator: only recorded. *)
Definition log {S} (e : Event) : M S unit := λ w, ((w.1, w.2 ++ [e]), Ok tt).

Definition when {S} (b : bool) (c : M S unit) : M S unit :=
  if b then c else ret tt.

(** [for (const x of l) body(x)]. *)
Fixpoint for_each {S X} (l : list X) (body : X → M S unit) : M S unit :=
  match l with
  | [] => ret tt
  | x :: l' => body x ;;; for_each l' body
  end.

(** [try { c } catch (e) { h(e) }]. *)
Definition try_catch {S A} (c : M S A) (h : Err → M S A) : M S A := λ w,
  match c w with
  | (w', Settled (Ok a)) => (w', Ok a)
  | (w', Settled (Threw e)) => h e w'
  | (w', Pending) => (w', Pending)
  end.

(** [try { c } finally { f }]: [f] runs once [c] has settled; if it rejects,
    its error wins; if it stays pending, so does the whole. *)
Definition try_finally {S A} (c : M S A) (f : M S unit) : M S A := λ w,
  match c w with
  | (w', Pending) => (w', Pending)
  | (w', Settled r) =>
      match f w' with
      | (w'', Settled (Ok _)) => (w'', Settled r)
      | (w'', Settled (Threw e)) => (w'', Threw e)
      | (w'', Pending) => (w'', Pending)
      end
  end.

(** The [TransactionReceipt] literal built for a correlated receipt. *)
Definition processed_receipt
    (r : IndexerExecutionOutcomeWithReceipt) (message : StreamerMessage)
  : TransactionReceipt :=
  {| receipt := r;
     block_height := height message;
     block_timestamp_nanosec := String_of (timestamp_nanosec message) |}.

(** [all.every((r) => r !== null)]. *)
Definition every_not_null (all : list (option TransactionReceipt)) : bool :=
  forallb (λ r, match r with Some _ => true | None => false end) all.

(** [all as TransactionReceipt[]], used once every element is non-null. *)
Definition as_receipts (all : list (option TransactionReceipt)) : list TransactionReceipt :=
  omap id all.

(** [const receipts = new Map(); for (const r of ids) receipts.set(r, null)]. *)
Definition fresh_receipts (ids : list string) : list (string * option TransactionReceipt) :=
  foldl (λ m r, JsMap.set r None m) [] ids.

(** [for (const r of ids) receiptToTx.set(r, hash)]. *)
Definition point_at (hash : string) (ids : list string) (r2t : gmap string string)
  : gmap string string :=
  foldl (λ m r, <[r := hash]> m) r2t ids.

(** The loop over a resolved receipt's follow-on ids: each id is pointed at the
    owning hash and, when the transaction does not yet know it, added as
    unresolved. *)
Definition absorb_follow_ons (txId : string) (ids : list string)
    (acc : gmap string string * list (string * option TransactionReceipt))
  : gmap string string * list (string * option TransactionReceipt) :=
  foldl (λ a newReceiptId,
           (<[newReceiptId := txId]> a.1,
            if JsMap.has newReceiptId a.2 then a.2 else JsMap.set newReceiptId None a.2))
        acc ids.

(** ** The state machine used by [runIndexer] ([class InternalIndexerState]) *)

Module InternalIndexerState.

Record t := {
  pendingTransactions : gmap string IncompleteTransaction;
  receiptToTx : gmap string string;
}.

Definition new : t := {| pendingTransactions := ∅; receiptToTx := ∅ |}.

(** The state change made for one transaction of a chunk. *)
Definition register_transaction
    (options : BlockProcessingOptions) (tx : IndexerTransactionWithOutcome) (s : t) : t :=
  if preprocess options then
    let r2t := point_at (tx_hash tx) (tx_receipt_ids tx) (receiptToTx s) in
    if preprocess_new_transactions options then
      {| pendingTransactions :=
           <[tx_hash tx := {| transaction := tx;
                              receipts := fresh_receipts (tx_receipt_ids tx) |}]>
             (pendingTransactions s);
         receiptToTx := r2t |}
    else {| pendingTransactions := pendingTransactions s; receiptToTx := r2t |}
  else s.

(** [pendingTransactions] and [receiptToTx] after the in-place updates of the
    object stored under [txId]. *)
Definition store (txId : string) (incomplete : IncompleteTransaction)
    (r2t : gmap string string) (s : t) : t :=
  {| pendingTransactions := <[txId := incomplete]> (pendingTransactions s);
     receiptToTx := r2t |}.

Definition forget (txId : string) (s : t) : t :=
  {| pendingTransactions := delete txId (pendingTransactions s);
     receiptToTx := receiptToTx s |}.

(** The correlation part of the receipt loop body. *)
Definition correlate (indexer : Indexer) (message : StreamerMessage)
    (options : BlockProcessingOptions) (r : IndexerExecutionOutcomeWithReceipt) : M t unit :=
  let* s := get_state in
  match receiptToTx s !! receipt_id r with
  | Some txId =>
      if truthy txId && preprocess options then
        match pendingTransactions s !! txId with
        | Some incomplete =>
            let processed := processed_receipt r message in
            when (has_onReceipt indexer && handle_preprocessed_transactions_by_indexer options)
              (await_call (throws indexer) (COnReceipt processed incomplete message)) ;;;
            let* s1 := get_state in
            let a := absorb_follow_ons txId (receipt_ids r)
                       (receiptToTx s1,
                        JsMap.set (receipt_id r) (Some processed) (receipts incomplete)) in
            modify (store txId {| transaction := transaction incomplete; receipts := a.2 |} a.1) ;;;
            (* Try to complete *)
            let all := JsMap.values a.2 in
            if every_not_null all then
              modify (forget txId) ;;;
              when (has_onTransaction indexer
                    && handle_preprocessed_transactions_by_indexer options)
                (await_call (throws indexer)
                   (COnTransaction {| c_transaction := transaction incomplete;
                                      c_receipts := as_receipts all |} message))
            else ret tt
        | None => ret tt
        end
      else ret tt
  | None => ret tt
  end.

Definition processBlock (indexer : Indexer) (message : StreamerMessage)
    (options : BlockProcessingOptions) : M t unit :=
  when (has_processBlock indexer && handle_raw_events options)
    (await_call (throws indexer) (CProcessBlock message)) ;;;
  (* Process transactions *)
  for_each (shards message) (λ shard,
    match chunk shard with
    | None => ret tt
    | Some transactions =>
        for_each transactions (λ tx,
          modify (register_transaction options tx) ;;;
          when (has_processTransaction indexer && handle_raw_events options)
            (await_call (throws indexer) (CProcessTransaction tx message)))
    end) ;;;
  (* Process receipts *)
  for_each (shards message) (λ shard,
    for_each (receipt_execution_outcomes shard) (λ r,
      correlate indexer message options r ;;;
      when (has_processReceipt indexer && handle_raw_events options)
        (await_call (throws indexer) (CProcessReceipt r message)))) ;;;
  when (has_processBlockEnd indexer)
    (await_call (throws indexer) (CProcessBlockEnd message)).

End InternalIndexerState.

(** ** The stand-alone state machine ([export class IndexerState]) *)

Module IndexerState.

Record t := {
  pendingTransactions : gmap string IncompleteTransaction;
  receiptToTx : gmap string string;
  blocksReceived : Z;
}.

Definition new : t :=
  {| pendingTransactions := ∅; receiptToTx := ∅; blocksReceived := 0 |}.

Definition count_block (s : t) : t :=
  {| pendingTransactions := pendingTransactions s;
     receiptToTx := receiptToTx s;
     blocksReceived := blocksReceived s + 1 |}.

Definition register_transaction
    (options : BlockProcessingOptions) (tx : IndexerTransactionWithOutcome) (s : t) : t :=
  if preprocess options then
    let r2t := point_at (tx_hash tx) (tx_receipt_ids tx) (receiptToTx s) in
    if preprocess_new_transactions options then
      {| pendingTransactions :=
           <[tx_hash tx := {| transaction := tx;
                              receipts := fresh_receipts (tx_receipt_ids tx) |}]>
             (pendingTransactions s);
         receiptToTx := r2t;
         blocksReceived := blocksReceived s |}
    else {| pendingTransactions := pendingTransactions s;
            receiptToTx := r2t;
            blocksReceived := blocksReceived s |}
  else s.

Definition store (txId : string) (incomplete : IncompleteTransaction)
    (r2t : gmap string string) (s : t) : t :=
  {| pendingTransactions := <[txId := incomplete]> (pendingTransactions s);
     receiptToTx := r2t;
     blocksReceived := blocksReceived s |}.

Definition forget (txId : string) (s : t) : t :=
  {| pendingTransactions := delete txId (pendingTransactions s);
     receiptToTx := receiptToTx s;
     blocksReceived := blocksReceived s |}.

Definition correlate (indexer : Indexer) (message : StreamerMessage)
    (options : BlockProcessingOptions) (r : IndexerExecutionOutcomeWithReceipt) : M t unit :=
  let* s := get_state in
  match receiptToTx s !! receipt_id r with
  | Some txId =>
      if truthy txId && preprocess options then
        match pendingTransactions s !! txId with
        | Some incomplete =>
            let processed := processed_receipt r message in
            when (has_onReceipt indexer && handle_preprocessed_transactions_by_indexer options)
              (await_call (throws indexer) (COnReceipt processed incomplete message)) ;;;
            let* s1 := get_state in
            let a := absorb_follow_ons txId (receipt_ids r)
                       (receiptToTx s1,
                        JsMap.set (receipt_id r) (Some processed) (receipts incomplete)) in
            modify (store txId {| transaction := transaction incomplete; receipts := a.2 |} a.1) ;;;
            let all := JsMap.values a.2 in
            if every_not_null all then
              modify (forget txId) ;;;
              when (has_onTransaction indexer
                    && handle_preprocessed_transactions_by_indexer options)
                (await_call (throws indexer)
                   (COnTransaction {| c_transaction := transaction incomplete;
                                      c_receipts := as_receipts all |} message))
            else ret tt
        | None => ret tt
        end
      else ret tt
  | None => ret tt
  end.

Definition processBlock (indexer : Indexer) (message : StreamerMessage)
    (options : BlockProcessingOptions) : M t unit :=
  modify count_block ;;;
  when (has_processBlock indexer && handle_raw_events options)
    (await_call (throws indexer) (CProcessBlock message)) ;;;
  for_each (shards message) (λ shard,
    match chunk shard with
    | None => ret tt
    | Some transactions =>
        for_each transactions (λ tx,
          modify (register_transaction options tx) ;;;
          when (has_processTransaction indexer && handle_raw_events options)
            (await_call (throws indexer) (CProcessTransaction tx message)))
    end) ;;;
  for_each (shards message) (λ shard,
    for_each (receipt_execution_outcomes shard) (λ r,
      correlate indexer message options r ;;;
      when (has_processReceipt indexer && handle_raw_events options)
        (await_call (throws indexer) (CProcessReceipt r message)))) ;;;
  when (has_processBlockEnd indexer)
    (await_call (throws indexer) (CProcessBlockEnd message)).

End IndexerState.

(** ** The orchestrator ([runIndexer] and [AutoContinue]) *)

Definition MAX_SAFE_INTEGER : Z := 9007199254740991.
Definition MAINNET_GENESIS_BLOCK_HEIGHT : Z := 9820210.

(** [interface SaveLocation].  [load()] resolves with a height or [undefined],
    or rejects; [save(h)] resolves or rejects. *)
Inductive LoadOutcome :=
| Loaded (h : option BlockHeight)
| LoadRejected (e : Err).

Record SaveLocation := {
  load : LoadOutcome;
  save_throws : list Event → Event → option Err;
}.

Inductive AutoContinueEnd :=
| EndHeight (h : BlockHeight)
| EndCount (count : BlockHeightDelta)
| EndInfinite.

Record AutoContinue := {
  save_location : SaveLocation;
  start_height_if_does_not_exist : BlockHeight;
  auto_end : AutoContinueEnd;
}.

Inductive BlockRange :=
| Range (start_inclusive : BlockHeight) (end_exclusive : option BlockHeight)
| AutoContinueRange (auto : AutoContinue).

Record PreprocessTransactionsSettings := {
  prefetch_blocks : Z;
  postfetch_blocks : Z;
}.

Definition DefaultPreprocessSettings : PreprocessTransactionsSettings :=
  {| prefetch_blocks := 100; postfetch_blocks := 100 |}.

Record IndexerOptions := {
  stop_on_error : bool;
  range : BlockRange;
  preprocess_transactions : option PreprocessTransactionsSettings;
  genesis_block_height : BlockHeight;
  ctrl_c_handler : bool;
}.

Definition defaultOptions (r : BlockRange) : IndexerOptions :=
  {| stop_on_error := false;
     range := r;
     preprocess_transactions := None;
     genesis_block_height := MAINNET_GENESIS_BLOCK_HEIGHT;
     ctrl_c_handler := true |}.

(** What [streamer.stream(first, last)] hands back, as far as one run can
    observe it: the messages the receiver yields before it ends (when the loop
    is left early, the later ones are never looked at), whether it ends by
    throwing, and what becomes of the awaited [handle]: it resolves, it
    rejects, or it never settles (the handle of [ProviderStreamer] is its
    whole producer loop, which goes on after the consumer has stopped).  A
    receiver that neither ends nor throws keeps the run inside the loop for
    ever; such runs are not described. *)
Record Stream := {
  receiver : list StreamerMessage;
  receiver_throws : option Err;
  handle : Outcome unit;
}.

Definition MessageStreamer := BlockHeight → option BlockHeight → Stream.

(** [await this.save_location.load()]. *)
Definition await_load {S} (loc : SaveLocation) : M S (option BlockHeight) := λ w,
  match load loc with
  | Loaded h => ((w.1, w.2 ++ [CLoad]), Ok h)
  | LoadRejected e => ((w.1, w.2 ++ [CLoad]), Threw e)
  end.

(** [AutoContinue.getStartBlock]: [(await load()) ?? start_height_if_does_not_exist]. *)
Definition getStartBlock {S} (a : AutoContinue) : M S BlockHeight :=
  let* loaded := await_load (save_location a) in
  ret (default (start_height_if_does_not_exist a) loaded).

(** [AutoContinue.range]. *)
Definition AutoContinue_range {S} (a : AutoContinue) : M S (BlockHeight * BlockHeight) :=
  let* start := getStartBlock a in
  let end_ :=
    match auto_end a with
    | EndHeight h => h
    | EndCount count => start + count
    | EndInfinite => MAX_SAFE_INTEGER
    end in
  ret (start, end_).

(** [AutoContinue.afterBlock]. *)
Definition afterBlock {S} (a : AutoContinue) (block : StreamerMessage)
    (_options : BlockProcessingOptions) (stopping : bool) : M S unit :=
  log (CAfterBlock block stopping) ;;;
  if negb stopping
  then await_call (save_throws (save_location a)) (CSave (height block + 1))
  else ret tt.

(** JS truthiness of [number | undefined]: [undefined] and [0] are falsy. *)
Definition truthy_height (h : option BlockHeight) : bool :=
  match h with
  | Some z => bool_decide (z ≠ 0)
  | None => false
  end.

Record HeightRange := { range_start : Z; range_end : Z }.

(** [h >= r.start && h < r.end]. *)
Definition in_range (r : HeightRange) (h : BlockHeight) : bool :=
  (range_start r <=? h) && (h <? range_end r).

(** The constants [runIndexer] computes before it starts streaming. *)
Record Plan := {
  start_block_height : BlockHeight;
  end_block_height : option BlockHeight;
  post_processor : option AutoContinue;
  prefetchRange : HeightRange;
  postfetchRange : HeightRange;
  startWithPrefetch : BlockHeight;
  endWithPostfetch : option BlockHeight;
}.

(** The arithmetic of heights is that of the integers: it agrees with the
    arithmetic of JS numbers as long as the heights and the sums computed
    from them are safe integers (below [2^53]), as block heights are. *)
Definition make_plan (options : IndexerOptions)
    (start_block_height : BlockHeight) (end_block_height : option BlockHeight)
    (post_processor : option AutoContinue) : Plan :=
  let preprocess := preprocess_transactions options in
  let prefetch_blocks := default 0 (prefetch_blocks <$> preprocess) in
  let postfetch_blocks := default 0 (postfetch_blocks <$> preprocess) in
  let prefetchRangeStart :=
    Z.max (start_block_height - prefetch_blocks) (genesis_block_height options) in
  {| start_block_height := start_block_height;
     end_block_height := end_block_height;
     post_processor := post_processor;
     prefetchRange := {| range_start := prefetchRangeStart; range_end := start_block_height |};
     postfetchRange :=
       {| range_start := default MAX_SAFE_INTEGER end_block_height;
          range_end :=
            if truthy_height end_block_height
            then default 0 end_block_height + postfetch_blocks
            else MAX_SAFE_INTEGER |};
     startWithPrefetch :=
       Z.max (genesis_block_height options) (start_block_height - prefetch_blocks);
     endWithPostfetch :=
       if truthy_height end_block_height
       then Some (default 0 end_block_height + postfetch_blocks)
       else None |}.

(** The first statement of [runIndexer]: resolve the range. *)
Definition resolve_range {S} (options : IndexerOptions) : M S Plan :=
  match range options with
  | Range start_inclusive end_exclusive =>
      ret (make_plan options start_inclusive end_exclusive None)
  | AutoContinueRange auto =>
      let* r := AutoContinue_range auto in
      ret (make_plan options r.1
             (if bool_decide (r.2 = MAX_SAFE_INTEGER) then None else Some r.2)
             (Some auto))
  end.

Definition inPrefetch (plan : Plan) (message : StreamerMessage) : bool :=
  in_range (prefetchRange plan) (height message).

Definition inPostfetch (plan : Plan) (message : StreamerMessage) : bool :=
  in_range (postfetchRange plan) (height message).

Definition processingOptions (options : IndexerOptions) (plan : Plan)
    (message : StreamerMessage) : BlockProcessingOptions :=
  {| opt_height := height message;
     preprocess := bool_decide (is_Some (preprocess_transactions options));
     preprocess_new_transactions := negb (inPostfetch plan message);
     handle_raw_events := negb (inPostfetch plan message) && negb (inPrefetch plan message);
     handle_preprocessed_transactions_by_indexer := negb (inPrefetch plan message) |}.

(** One iteration of [for await (const message of receiver)]; the result is
    the new value of [hasSentPostfetchMessage]. *)
Definition on_message (indexer : Indexer) (options : IndexerOptions) (plan : Plan)
    (hasSentPostfetchMessage : bool) (message : StreamerMessage)
  : M InternalIndexerState.t bool :=
  let hasSent := if inPostfetch plan message && negb hasSentPostfetchMessage
                 then true else hasSentPostfetchMessage in
  let opts := processingOptions options plan message in
  try_catch (InternalIndexerState.processBlock indexer message opts)
    (λ e, if stop_on_error options then throw e else ret tt) ;;;
  (if negb (inPrefetch plan message)
   then match post_processor plan with
        | Some pp => afterBlock pp message opts (inPostfetch plan message)
        | None => ret tt
        end
   else ret tt) ;;;
  ret hasSent.

Fixpoint receive (indexer : Indexer) (options : IndexerOptions) (plan : Plan)
    (hasSentPostfetchMessage : bool) (messages : list StreamerMessage)
  : M InternalIndexerState.t unit :=
  match messages with
  | [] => ret tt
  | message :: rest =>
      let* hasSent := on_message indexer options plan hasSentPostfetchMessage message in
      receive indexer options plan hasSent rest
  end.

(** [await handle]. *)
Definition await_handle {S} (stream : Stream) : M S unit := λ w,
  ((w.1, w.2 ++ [CAwaitHandle]), handle stream).

(** The [try { for await ... } finally { ... }] of [runIndexer], entered once
    the range is resolved and the stream is open. *)
Definition stream_and_finalize (indexer : Indexer) (options : IndexerOptions)
    (plan : Plan) (stream : Stream) : M InternalIndexerState.t unit :=
  try_finally
    (receive indexer options plan false (receiver stream) ;;;
     match receiver_throws stream with
     | Some e => throw e
     | None => ret tt
     end)
    (await_handle stream ;;;
     when (has_finalize indexer) (await_call (throws indexer) CFinalize)).

Definition runIndexer (indexer : Indexer) (streamer : MessageStreamer)
    (options : IndexerOptions) : M InternalIndexerState.t unit :=
  let* plan := resolve_range options in
  stream_and_finalize indexer options plan
    (streamer (startWithPrefetch plan) (endWithPostfetch plan)).

(** A whole run: [runIndexer] starts from a fresh state machine. *)
Definition run (indexer : Indexer) (streamer : MessageStreamer) (options : IndexerOptions)
  : InternalIndexerState.t * list Event * Outcome unit :=
  runIndexer indexer streamer options (InternalIndexerState.new, []).

(** ** The fetch pipelines ([ts/src/neardata.ts]) *)

(** One settled call of [provider.getMessage(h)]: it rejects, or resolves with
    a message or [null] (the height is absent). *)
Inductive Attempt :=
| Rejects
| Resolves (msg : option StreamerMessage).

(** [interface MessageProvider]: the outcome of the call for height [h] that
    follows [retries] rejected ones. *)
Definition MessageProvider := BlockHeight → nat → Attempt.

(** [class AsyncQueue], producer side: the values pushed so far, in order, and
    the [done] flag.  The consumer reads the values first in, first out. *)
Record AsyncQueue := {
  values : list StreamerMessage;
  done : bool;
}.

Definition AsyncQueue_new : AsyncQueue := {| values := []; done := false |}.

Definition push (v : StreamerMessage) (q : AsyncQueue) : AsyncQueue :=
  if done q then q else {| values := values q ++ [v]; done := done q |}.

Definition close (q : AsyncQueue) : AsyncQueue :=
  {| values := values q; done := true |}.

(** [if (msg) queue.push(msg)]. *)
Definition push_if_present (msg : option StreamerMessage) (q : AsyncQueue) : AsyncQueue :=
  match msg with
  | Some m => push m q
  | None => q
  end.

Module ProviderStreamer.

(** The retry loop around [getMessage(h)]; [fuel] bounds the number of calls. *)
Fixpoint fetch (fuel : nat) (provider : MessageProvider) (h : BlockHeight) (retries : nat)
  : option (option StreamerMessage) :=
  match fuel with
  | O => None
  | S fuel' =>
      match provider h retries with
      | Resolves msg => Some msg
      | Rejects => fetch fuel' provider h (S retries)
      end
  end.

(** [for (let h = first; h < end; h++)], as a loop over the heights. *)
Fixpoint produce (fuel : nat) (provider : MessageProvider) (heights : list BlockHeight)
    (queue : AsyncQueue) : option AsyncQueue :=
  match heights with
  | [] => Some queue
  | h :: rest =>
      match fetch fuel provider h 0 with
      | Some msg => produce fuel provider rest (push_if_present msg queue)
      | None => None
      end
  end.

(** The [handle] of [stream(first, lastExclusive)]: the queue once the producer
    has closed it, or [None] when a retry loop outlives [fuel]. *)
Definition stream (fuel : nat) (provider : MessageProvider)
    (first : BlockHeight) (lastExclusive : option BlockHeight) : option AsyncQueue :=
  let end_ := default MAX_SAFE_INTEGER lastExclusive in
  close <$> produce fuel provider (seqZ first (end_ - first)) AsyncQueue_new.

End ProviderStreamer.

Module ParallelProviderStreamer.

(** The variables captured by [scheduleOne], and the calls of [scheduleOne]
    that are suspended in [await getMessage(h)] ([waiting]: height and value
    of [retries]). *)
Record t := {
  nextToEmit : BlockHeight;
  results : gmap Z (option StreamerMessage);
  active : Z;
  scheduled : BlockHeight;
  waiting : list (BlockHeight * nat);
  queue : AsyncQueue;
}.

Definition init (first : BlockHeight) : t :=
  {| nextToEmit := first; results := ∅; active := 0; scheduled := first;
     waiting := []; queue := AsyncQueue_new |}.

(** [const h = scheduled++; scheduleOne(h)] up to the first [await]. *)
Definition schedule_next (s : t) : t :=
  {| nextToEmit := nextToEmit s;
     results := results s;
     active := active s + 1;
     scheduled := scheduled s + 1;
     waiting := waiting s ++ [(scheduled s, O)];
     queue := queue s |}.

(** [for (let i = 0; i < this.workers && scheduled < end; i++)]. *)
Fixpoint prime (workers : nat) (end_ : BlockHeight) (s : t) : t :=
  match workers with
  | O => s
  | S workers' =>
      if scheduled s <? end_ then prime workers' end_ (schedule_next s) else s
  end.

(** The drain loop; every iteration deletes one entry of [results], so
    [fuel = size results] iterations are enough. *)
Fixpoint drain (fuel : nat) (s : t) : t :=
  match fuel with
  | O => s
  | S fuel' =>
      match results s !! nextToEmit s with
      | None => s
      | Some msg =>
          drain fuel'
            {| nextToEmit := nextToEmit s + 1;
               results := delete (nextToEmit s) (results s);
               active := active s;
               scheduled := scheduled s;
               waiting := waiting s;
               queue := push_if_present msg (queue s) |}
      end
  end.

(** [getMessage(h)] resolved with [msg] in the call number [i] of [waiting]:
    the rest of the [try] block and the [finally] block of [scheduleOne]. *)
Definition resolved (end_ : BlockHeight) (i : nat) (h : BlockHeight)
    (msg : option StreamerMessage) (s : t) : t :=
  let s1 := {| nextToEmit := nextToEmit s;
               results := <[h := msg]> (results s);
               active := active s - 1;
               scheduled := scheduled s;
               waiting := delete i (waiting s);
               queue := queue s |} in
  let s2 := drain (size (results s1)) s1 in
  if scheduled s2 <? end_ then schedule_next s2
  else if (active s2 =? 0) && bool_decide (size (results s2) = O)
       then {| nextToEmit := nextToEmit s2; results := results s2; active := active s2;
               scheduled := scheduled s2; waiting := waiting s2;
               queue := close (queue s2) |}
       else s2.

(** [getMessage(h)] rejected: [retries++], back off, call again. *)
Definition rejected (i : nat) (h : BlockHeight) (retries : nat) (s : t) : t :=
  {| nextToEmit := nextToEmit s; results := results s; active := active s;
     scheduled := scheduled s;
     waiting := <[i := (h, S retries)]> (waiting s);
     queue := queue s |}.

(** The call number [i] of [waiting] settles. *)
Definition settle (provider : MessageProvider) (end_ : BlockHeight) (i : nat) (s : t) : t :=
  match waiting s !! i with
  | None => s
  | Some (h, retries) =>
      match provider h retries with
      | Rejects => rejected i h retries s
      | Resolves msg => resolved end_ i h msg s
      end
  end.

(** One turn of the event loop: some suspended call settles. *)
Inductive step (provider : MessageProvider) (end_ : BlockHeight) : t → t → Prop :=
| step_settle s i :
    is_Some (waiting s !! i) →
    step provider end_ s (settle provider end_ i s).

(** The state after [stream(first, lastExclusive)] has primed its workers. *)
Definition start (workers : nat) (first : BlockHeight) (lastExclusive : option BlockHeight) : t :=
  prime workers (default MAX_SAFE_INTEGER lastExclusive) (init first).

(** The states a run can be in, whatever the order in which fetches settle. *)
Definition reachable (provider : MessageProvider) (workers : nat)
    (first : BlockHeight) (lastExclusive : option BlockHeight) (s : t) : Prop :=
  rtc (step provider (default MAX_SAFE_INTEGER lastExclusive))
      (start workers first lastExclusive) s.

(** A run along a given settle order. *)
Definition run_order (provider : MessageProvider) (end_ : BlockHeight)
    (order : list nat) (s : t) : t :=
  foldl (λ s i, settle provider end_ i s) s order.

End ParallelProviderStreamer.

(** ** [NeardataProvider] *)

(** [type Fetcher]: what one call returns for a height (the configuration is
    fixed): a message, [null], or an exception. *)
Definition Fetcher := BlockHeight → Result (option StreamerMessage).

Module NeardataProvider.

(** The generator of [stream]: [for (h = first; h < end; h++)], yielding the
    messages that are not [null]; an exception of the fetcher ends it. *)
Fixpoint gen (fetcher : Fetcher) (heights : list BlockHeight)
  : list StreamerMessage * option Err :=
  match heights with
  | [] => ([], None)
  | h :: rest =>
      match fetcher h with
      | Threw e => ([], Some e)
      | Ok msg => let '(yielded, e) := gen fetcher rest in (option_list msg ++ yielded, e)
      end
  end.

Definition stream (fetcher : Fetcher) : MessageStreamer := λ first lastExclusive,
  let end_ := default MAX_SAFE_INTEGER lastExclusive in
  let g := gen fetcher (seqZ first (end_ - first)) in
  {| receiver := g.1; receiver_throws := g.2; handle := Ok tt |}.

End NeardataProvider.

(** ** Indexer combinators ([MultiIndexer], [chainIndexers],
       [MapErrorIndexer], [ParallelMultiIndexer]) *)

(** Whether an indexer has the hook a call goes to; calls that are not
    indexer hooks ([load], [save], ...) go to no hook. *)
Definition has_hook (i : Indexer) (e : Event) : bool :=
  match e with
  | CProcessBlock _ => has_processBlock i
  | CProcessTransaction _ _ => has_processTransaction i
  | CProcessReceipt _ _ => has_processReceipt i
  | COnTransaction _ _ => has_onTransaction i
  | COnReceipt _ _ _ => has_onReceipt i
  | CProcessBlockEnd _ => has_processBlockEnd i
  | CFinalize => has_finalize i
  | CLoad | CSave _ | CAfterBlock _ _ | CAwaitHandle => false
  end.

(** A member of a combinator: the indexer and the calls it has received so
    far, which is what its answers depend on. *)
Abbreviation Member := (Indexer * list Event)%type.

(** [if (i.hook) await i.hook(args)] on one member: the call is recorded in
    the member's own history, then resolves or rejects. *)
Definition call_member (e : Event) (m : Member) : Member * option Err :=
  if has_hook m.1 e then ((m.1, m.2 ++ [e]), throws m.1 m.2 e) else (m, None).

Module MultiIndexer.

(** [for (const i of this.indexers) if (i.hook) await i.hook(args)]: the
    members are called in order; a rejection leaves the loop. *)
Fixpoint dispatch (e : Event) (members : list Member) : list Member * option Err :=
  match members with
  | [] => ([], None)
  | m :: rest =>
      match call_member e m with
      | (m', Some err) => (m' :: rest, Some err)
      | (m', None) => let '(rest', r) := dispatch e rest in (m' :: rest', r)
      end
  end.

(** The members when the [MultiIndexer] is constructed. *)
Definition fresh (indexers : list Indexer) : list Member := (λ i, (i, [])) <$> indexers.

(** The members after the calls [calls] have been made on the [MultiIndexer]. *)
Definition replay (indexers : list Indexer) (calls : list Event) : list Member :=
  foldl (λ members e, (dispatch e members).1) (fresh indexers) calls.

(** [new MultiIndexer(indexers)]: the class defines all seven hooks. *)
Definition new (indexers : list Indexer) : Indexer :=
  {| has_processBlock := true; has_processTransaction := true;
     has_processReceipt := true; has_onTransaction := true; has_onReceipt := true;
     has_processBlockEnd := true; has_finalize := true;
     throws := λ calls e, (dispatch e (replay indexers calls)).2 |}.

End MultiIndexer.

(** What [chainIndexers] can tell about its first argument:
    [a instanceof MultiIndexer]. *)
Inductive IndexerObject :=
| AMultiIndexer (indexers : list Indexer)
| AnIndexer (i : Indexer).

Definition as_indexer (o : IndexerObject) : Indexer :=
  match o with
  | AMultiIndexer indexers => MultiIndexer.new indexers
  | AnIndexer i => i
  end.

(** [chainIndexers(a, b)]: the [indexers] of the [MultiIndexer] it returns. *)
Definition chainIndexers (a : IndexerObject) (b : Indexer) : list Indexer :=
  match a with
  | AMultiIndexer indexers => indexers ++ [b]
  | AnIndexer i => [i; b]
  end.

Module MapErrorIndexer.

(** [new MapErrorIndexer(indexer, map)]: all seven hooks are defined; a hook
    returns at once when the wrapped indexer does not have it, and otherwise
    forwards the call and maps the error of a rejection.  The wrapped indexer
    has received the calls for the hooks it has. *)
Definition new (indexer : Indexer) (map : Err → Err) : Indexer :=
  {| has_processBlock := true; has_processTransaction := true;
     has_processReceipt := true; has_onTransaction := true; has_onReceipt := true;
     has_processBlockEnd := true; has_finalize := true;
     throws := λ calls e,
       if has_hook indexer e
       then map <$> throws indexer (List.filter (has_hook indexer) calls) e
       else None |}.

End MapErrorIndexer.

Module ParallelMultiIndexer.

(** [this.indexers.map((i) => (i.hook ? i.hook(args) : undefined))]: every
    member that has the hook is called, whatever the others answer; the
    rejections are listed in member order. *)
Fixpoint invoke (e : Event) (members : list Member) : list Member * list Err :=
  match members with
  | [] => ([], [])
  | m :: rest =>
      let '(m', r) := call_member e m in
      let '(rest', errs) := invoke e rest in
      (m' :: rest', option_list r ++ errs)
  end.

Definition replay (indexers : list Indexer) (calls : list Event) : list Member :=
  foldl (λ members e, (invoke e members).1) (MultiIndexer.fresh indexers) calls.

(** [await Promise.all(...)] rejects when one of the promises rejects, with
    the reason of the one that rejects first in time; [race] stands for the
    order in which the hooks settle: it picks the first among the rejections
    (given in member order). *)
Definition new (race : Err → list Err → Err) (indexers : list Indexer) : Indexer :=
  {| has_processBlock := true; has_processTransaction := true;
     has_processReceipt := true; has_onTransaction := true; has_onReceipt := true;
     has_processBlockEnd := true; has_finalize := true;
     throws := λ calls e,
       match (invoke e (replay indexers calls)).2 with
       | [] => None
       | err :: errs => Some (race err errs)
       end |}.

End ParallelMultiIndexer.

(** ** [class AsyncQueue], both sides *)

(** The record [AsyncQueue] above is the producer's side of the class.  This
    is the whole class: the buffer [values], the [resolvers] of the promises
    the generators wait on, the [done] flag, and the generators made by
    [iterator()].  A generator is numbered; it is ready (not started, or
    suspended at a [yield], with no [next()] request left to serve),
    suspended at [await new Promise(...)], or has returned.  An async
    generator queues the [next()] requests it receives while it runs: a
    generator suspended at the [await] carries the number of requests queued
    behind the one it is serving, and serves them, in order, as soon as it
    has yielded.  [delivered] lists what the generators have yielded, in
    yield order.  An operation is taken together with the generator steps it
    enables, up to the next [await] that has to wait, [yield] without a
    request, or [return]. *)
Module AsyncQueueClass.

Inductive GenState := Ready | Awaiting (queued : nat) | Returned.

Section Queue.
Context {T : Type}.

Record t := {
  values : list T;
  resolvers : list nat;
  done : bool;
  generators : gmap nat GenState;
  delivered : list (nat * T);
}.

Definition new : t :=
  {| values := []; resolvers := []; done := false; generators := ∅; delivered := [] |}.

Definition generator (q : t) (g : nat) : GenState := default Ready (generators q !! g).

(** The loop of [iterator()], run by the generator [g] with [requests]
    requests of [next()] to serve: a buffered value is yielded to the oldest
    request; with an empty buffer the generator returns if the queue is
    closed (which settles every request left), and otherwise pushes a
    resolver and waits. *)
Fixpoint serve (g : nat) (requests : nat) (q : t) : t :=
  match requests with
  | O =>
      {| values := values q; resolvers := resolvers q; done := done q;
         generators := <[g := Ready]> (generators q); delivered := delivered q |}
  | S queued =>
      match values q with
      | v :: rest =>
          serve g queued
            {| values := rest; resolvers := resolvers q; done := done q;
               generators := generators q; delivered := delivered q ++ [(g, v)] |}
      | [] =>
          if done q
          then {| values := []; resolvers := resolvers q; done := done q;
                  generators := <[g := Returned]> (generators q);
                  delivered := delivered q |}
          else {| values := []; resolvers := resolvers q ++ [g]; done := done q;
                  generators := <[g := Awaiting queued]> (generators q);
                  delivered := delivered q |}
      end
  end.

(** [push(v)]: dropped once the queue is closed; handed to the oldest
    resolver if there is one, whose generator yields it and goes on with the
    requests queued behind; buffered otherwise. *)
Definition push (v : T) (q : t) : t :=
  if done q then q
  else match resolvers q with
       | g :: rest =>
           serve g (match generator q g with Awaiting queued => queued | _ => O end)
             {| values := values q; resolvers := rest; done := done q;
                generators := generators q;
                delivered := delivered q ++ [(g, v)] |}
       | [] =>
           {| values := values q ++ [v]; resolvers := resolvers q; done := done q;
              generators := generators q; delivered := delivered q |}
       end.

(** [close()]: every resolver is called with [done: true], which makes its
    generator return. *)
Definition close (q : t) : t :=
  {| values := values q; resolvers := []; done := true;
     generators := foldr (λ g gens, <[g := Returned]> gens) (generators q) (resolvers q);
     delivered := delivered q |}.

(** [next()] on the generator [g]: a ready generator serves the request; a
    generator suspended at the [await] queues it; a generator that has
    returned answers [done: true]. *)
Definition next (g : nat) (q : t) : t :=
  match generator q g with
  | Ready => serve g 1 q
  | Awaiting queued =>
      {| values := values q; resolvers := resolvers q; done := done q;
         generators := <[g := Awaiting (S queued)]> (generators q);
         delivered := delivered q |}
  | Returned => q
  end.

(** What the producer and the consumers do to a queue, in time order. *)
Inductive Op :=
| Push (v : T)
| Close
| Next (g : nat).

Definition apply (q : t) (op : Op) : t :=
  match op with
  | Push v => push v q
  | Close => close q
  | Next g => next g q
  end.

Definition run (ops : list Op) : t := foldl apply new ops.

End Queue.
Arguments t : clear implicits.
Arguments Op : clear implicits.
End AsyncQueueClass.

(** ** HTTP fetchers ([ts/src/neardata.ts]) *)

(** The characters U+0020 (space), U+002E (full stop) and U+002F (solidus). *)
Definition space : Ascii.ascii := Eval cbv in Ascii.ascii_of_nat 32.
Definition full_stop : Ascii.ascii := Eval cbv in Ascii.ascii_of_nat 46.
Definition solidus : Ascii.ascii := Eval cbv in Ascii.ascii_of_nat 47.

Module Http.

Inductive ChainId := mainnet | testnet.
Inductive Finality := Final | Optimistic.

Record FetcherConfig := {
  chain_id : ChainId;
  finality : option Finality;
  user_agent : option string;
}.

Definition baseUrlForChain (chain : ChainId) : string :=
  match chain with
  | mainnet => "https://mainnet.neardata.xyz/"
  | testnet => "https://testnet.neardata.xyz/"
  end.

(** [s.replace(/\/$/, '')]: a solidus that ends the text is removed. *)
Fixpoint strip_trailing_slash (s : string) : string :=
  match s with
  | EmptyString => EmptyString
  | String c EmptyString => if Ascii.eqb c solidus then EmptyString else s
  | String c s' => String c (strip_trailing_slash s')
  end.

(** JS truthiness of [string | undefined]: [undefined] and the empty text
    are falsy. *)
Definition truthy_text (s : option string) : bool :=
  match s with
  | Some (String _ _) => true
  | _ => false
  end.

Definition Headers := gmap string string.

(** The second argument of [fetch]: [{ headers }]. *)
Record RequestInit := { init_headers : option Headers }.

Definition Request := (string * RequestInit)%type.

Section Fetchers.
(** The parsed body of a response is kept abstract; [as_message] is the type
    assertion [json as StreamerMessage]. *)
Context {Json : Type} (as_message : Json → StreamerMessage).

(** What the code reads of a response: [status], [ok], and the outcomes of
    [await res.text()] and [await res.json()]. *)
Record Response := {
  status : Z;
  ok : bool;
  text : Result string;
  json : Result Json;
}.

(** [globalThis.fetch]: absent, or a function whose answer to a request may
    depend on the requests made before; it resolves with a response or
    rejects. *)
Definition FetchFn := option (list Request → Request → Result Response).

Record HttpFetcherOptions := {
  baseUrl : option string;
  headers : option Headers;
  pathBuilder : option (BlockHeight → string);
  map : option (Json → Result StreamerMessage);
}.

(** [`Neardata fetch failed ${res.status}: ${text}`] with
    [text = await res.text().catch(() => '')]. *)
Definition fetch_failed (res : Response) : Err :=
  let text := match text res with Ok t => t | Threw _ => EmptyString end in
  "Neardata fetch failed " +:+ pretty (status res) +:+ ": " +:+ text.

(** [return map ? map(json) : (json as StreamerMessage)]. *)
Definition map_body (map : option (Json → Result StreamerMessage)) (j : Json)
  : Result (option StreamerMessage) :=
  match map with
  | Some m => match m j with Ok msg => Ok (Some msg) | Threw e => Threw e end
  | None => Ok (Some (as_message j))
  end.

(** The fetcher [makeNeardataHttpFetcher(opts)] returns, called with [cfg] and
    [height] after the requests [calls]: the requests made by the end of the
    call, and what the call resolves or rejects with. *)
Definition makeNeardataHttpFetcher (fetchFn : FetchFn) (opts : HttpFetcherOptions)
    (cfg : FetcherConfig) (height : BlockHeight) (calls : list Request)
  : list Request * Result (option StreamerMessage) :=
  let base := strip_trailing_slash (default (baseUrlForChain (chain_id cfg)) (baseUrl opts)) in
  let defaultPath :=
    match finality cfg with
    | Some Optimistic => "v0/block_opt/" +:+ pretty height
    | _ => "v0/block/" +:+ pretty height
    end in
  let url := base +:+ "/" +:+
             match pathBuilder opts with
             | Some build => build height
             | None => defaultPath
             end in
  match fetchFn with
  | None => (calls, Threw "global fetch not available (Node 18+ required)")
  | Some fetch =>
      let hdrs : Headers :=
        (if truthy_text (user_agent cfg)
         then {[ "user-agent"%string := default EmptyString (user_agent cfg) ]}
         else ∅) ∪ default ∅ (headers opts) in
      let request := (url, {| init_headers := Some hdrs |}) in
      (calls ++ [request],
       match fetch calls request with
       | Threw e => Threw e
       | Ok res =>
           if status res =? 404 then Ok None
           else if negb (ok res) then Threw (fetch_failed res)
           else match json res with
                | Threw e => Threw e
                | Ok j => map_body (map opts) j
                end
       end)
  end.

(** [makeNeardataHttpFetcherFromChain(chain, options)]; [options] has no
    [baseUrl]. *)
Definition makeNeardataHttpFetcherFromChain (fetchFn : FetchFn) (chain : ChainId)
    (headers : option Headers) (pathBuilder : option (BlockHeight → string))
    (map : option (Json → Result StreamerMessage))
  : FetcherConfig → BlockHeight → list Request
    → list Request * Result (option StreamerMessage) :=
  makeNeardataHttpFetcher fetchFn
    {| baseUrl := Some (baseUrlForChain chain); headers := headers;
       pathBuilder := pathBuilder; map := map |}.

(** One pass through the loop body of [makeNeardataHttpFetcherMulti]: the
    function returns a message, goes on to the next pattern after a 404, or
    lands in [catch]. *)
Inductive Attempt :=
| Found (msg : option StreamerMessage)
| NotFound
| Failed (e : Err).

Definition multi_request (base : string) (headers : option Headers)
    (height : BlockHeight) (prefix : string) : Request :=
  (base +:+ "/" +:+ strip_trailing_slash prefix +:+ "/" +:+ pretty height,
   {| init_headers := headers |}).

Definition try_prefix (fetch : list Request → Request → Result Response)
    (map : option (Json → Result StreamerMessage))
    (calls : list Request) (request : Request) : Attempt :=
  match fetch calls request with
  | Threw e => Failed e
  | Ok res =>
      if status res =? 404 then NotFound
      else if negb (ok res) then Failed (fetch_failed res)
      else match json res with
           | Threw e => Failed e
           | Ok j => match map_body map j with
                     | Ok msg => Found msg
                     | Threw e => Failed e
                     end
           end
  end.

(** [truthy_reason] is the JS truthiness of a caught value ([if (lastErr)]). *)
Fixpoint multi_loop (truthy_reason : Err → bool)
    (fetch : list Request → Request → Result Response)
    (map : option (Json → Result StreamerMessage))
    (requests : list Request) (lastErr : option Err) (calls : list Request)
  : list Request * Result (option StreamerMessage) :=
  match requests with
  | [] =>
      (calls,
       match lastErr with
       | Some e => if truthy_reason e then Threw e else Ok None
       | None => Ok None
       end)
  | request :: rest =>
      match try_prefix fetch map calls request with
      | Found msg => (calls ++ [request], Ok msg)
      | NotFound => multi_loop truthy_reason fetch map rest lastErr (calls ++ [request])
      | Failed e => multi_loop truthy_reason fetch map rest (Some e) (calls ++ [request])
      end
  end.

(** The fetcher [makeNeardataHttpFetcherMulti(chain, pathPrefixes, options)]
    returns; it does not read its configuration argument. *)
Definition makeNeardataHttpFetcherMulti (truthy_reason : Err → bool) (fetchFn : FetchFn)
    (chain : ChainId) (pathPrefixes : list string)
    (headers : option Headers) (map : option (Json → Result StreamerMessage))
    (_cfg : FetcherConfig) (height : BlockHeight) (calls : list Request)
  : list Request * Result (option StreamerMessage) :=
  let base := strip_trailing_slash (baseUrlForChain chain) in
  match fetchFn with
  | None => (calls, Threw "global fetch not available (Node 18+ required)")
  | Some fetch =>
      multi_loop truthy_reason fetch map
        (multi_request base headers height <$> pathPrefixes) None calls
  end.

(** The default of [pathPrefixes]. *)
Definition default_pathPrefixes : list string := ["streamer/block"; "block"; "blocks"].

End Fetchers.

End Http.

(** ** Log parsing ([near_utils]) *)

(** The methods of [String.prototype] that [near_utils] calls, on texts as
    sequences of characters. *)
Module JsString.

(** [s.startsWith(p)]. *)
Fixpoint startsWith (s p : string) {struct p} : bool :=
  match p, s with
  | EmptyString, _ => true
  | String a p', String b s' => Ascii.eqb a b && startsWith s' p'
  | String _ _, EmptyString => false
  end.

(** [s.slice(n)] for [0 ≤ n]: the text from index [n] on. *)
Fixpoint slice (n : nat) (s : string) : string :=
  match n, s with
  | S k, String _ s' => slice k s'
  | _, _ => s
  end.

(** [s.split(sep)] for a separator that is not empty: the text is scanned
    from the left; where [sep] matches, the piece read so far is emitted and
    the scan resumes after the match; the rest of the text is the last piece.
    [skip] counts the characters of a match still to be passed over, [cur] is
    the piece read so far. *)
Fixpoint split_from (sep : string) (skip : nat) (cur : string) (s : string)
  : list string :=
  match s with
  | EmptyString => [cur]
  | String c s' =>
      match skip with
      | S k => split_from sep k cur s'
      | O =>
          if startsWith s sep
          then cur :: split_from sep (String.length sep - 1) EmptyString s'
          else split_from sep 0 (cur +:+ String c EmptyString) s'
      end
  end.

Definition split (s sep : string) : list string := split_from sep 0 EmptyString s.

(** [s.includes(sub)]. *)
Fixpoint includes (s sub : string) : bool :=
  startsWith s sub
  || match s with
     | EmptyString => false
     | String _ s' => includes s' sub
     end.

(** [s.toLowerCase()] on the letters A to Z; other characters are kept. *)
Definition lower (c : Ascii.ascii) : Ascii.ascii :=
  let n := Ascii.nat_of_ascii c in
  if (65 <=? n)%nat && (n <=? 90)%nat then Ascii.ascii_of_nat (n + 32) else c.

Fixpoint toLowerCase (s : string) : string :=
  match s with
  | EmptyString => EmptyString
  | String c s' => String (lower c) (toLowerCase s')
  end.

End JsString.

(** [interface FtTransferEvent]; [memo] is optional. *)
Record FtTransferEvent := {
  old_owner_id : string;
  new_owner_id : string;
  amount : string;
  memo : option string;
}.

(** [deserializeTknFarmTransferLog]: ["Transfer <amount> from <old> to <new>"]. *)
Definition deserializeTknFarmTransferLog (log : string) : Result (list FtTransferEvent) :=
  if negb (JsString.startsWith log "Transfer ")
  then Threw "Log doesn't start with 'Transfer '"
  else
    let tail := JsString.slice (String.length "Transfer ") log in
    let parts1 := JsString.split tail " from " in
    match parts1 with
    | [amount; parts1_1] =>
        let parts2 := JsString.split parts1_1 " to " in
        match parts2 with
        | [old_owner_id; new_owner_id] =>
            Ok [{| old_owner_id := old_owner_id; new_owner_id := new_owner_id;
                   amount := amount; memo := None |}]
        | _ => Threw "Log doesn't contain ' to '"
        end
    | _ => Threw "Log doesn't contain ' from '"
    end.

(** [interface EventLogData<T>]: the NEP-297 log container. *)
Record EventLogData (T : Type) := {
  standard : string;
  version : string;
  event : string;
  data : T;
}.
Arguments standard {T} _.
Arguments version {T} _.
Arguments event {T} _.
Arguments data {T} _.

Definition NEP141_EVENT_STANDARD_STRING : string := "nep141".
Definition NEP171_EVENT_STANDARD_STRING : string := "nep171".

Section Validate.
(** [Number(s) === 1]: whether the text [s] converts to the number one. *)
Context (Number_is_1 : string → bool).

(** [const [majorStr] = evt.version.split('.')], then [Number(majorStr) === 1];
    an empty array would give [undefined], which converts to [NaN]. *)
Definition major_is_1 (version : string) : bool :=
  match JsString.split version "." with
  | majorStr :: _ => Number_is_1 majorStr
  | [] => false
  end.

(** [validateFtEvent]; on a container whose fields are texts nothing in the
    [try] block throws. *)
Definition validateFtEvent {T} (evt : EventLogData T) (eventName : string) : bool :=
  let major := major_is_1 (version evt) in
  String.eqb (standard evt) NEP141_EVENT_STANDARD_STRING
  && String.eqb (event evt) eventName
  && major.

(** [validateNftEvent]. *)
Definition validateNftEvent {T} (evt : EventLogData T) (eventName : string) : bool :=
  let major := major_is_1 (version evt) in
  String.eqb (standard evt) NEP171_EVENT_STANDARD_STRING
  && String.eqb (event evt) eventName
  && major.

End Validate.

(** ** The rate-limited fetcher ([ts/examples/watch_bet.ts]) *)

Module RateLimit.

(** The [opts] of [withRateLimitFetcher]; every field is optional. *)
Record Options := {
  minIntervalMs : option Z;
  nullDelayMs : option Z;
  on429DelayMs : option Z;
  maxRetries : option Z;
}.

(** What a call of the wrapped fetcher does, in order: [await sleep(ms)] and
    [await fetcher(cfg, height)]. *)
Inductive Effect :=
| Sleep (ms : Z)
| Call.

(** [msg.includes('429') || msg.toLowerCase().includes('rate-limit')] on the
    message of the caught error. *)
Definition rate_limited (e : Err) : bool :=
  JsString.includes e "429" || JsString.includes (JsString.toLowerCase e) "rate-limit".

(** [for (let attempt = 0; attempt <= maxRetries; attempt++) { ... }] followed
    by the last try.  [fetcher k] is the outcome of the call of the wrapped
    fetcher that follows [k] earlier ones; [rounds] is the number of rounds
    of the loop still to run and [made] the number of calls made. *)
Fixpoint attempts (fetcher : nat → Result (option StreamerMessage))
    (nullDelayMs on429DelayMs : Z) (rounds made : nat)
  : list Effect * Result (option StreamerMessage) :=
  match rounds with
  | O => ([Call], fetcher made)
  | S rounds' =>
      match fetcher made with
      | Ok msg =>
          (Call :: match msg with None => [Sleep nullDelayMs] | Some _ => [] end, Ok msg)
      | Threw e =>
          if rate_limited e
          then
            let r := attempts fetcher nullDelayMs on429DelayMs rounds' (S made) in
            (Call :: Sleep on429DelayMs :: r.1, r.2)
          else ([Call], Threw e)
      end
  end.

(** One call of the function [withRateLimitFetcher(fetcher, opts)] returns.
    [lastCall] is the closure variable, [now1] and [now2] are the two readings
    of [Date.now()]; the result is the new [lastCall], what the call did, and
    what it resolves or rejects with. *)
Definition withRateLimitFetcher (opts : Options)
    (fetcher : nat → Result (option StreamerMessage))
    (now1 now2 : Z) (lastCall : Z)
  : Z * list Effect * Result (option StreamerMessage) :=
  let minIntervalMs := default 400 (minIntervalMs opts) in
  let nullDelayMs := default 200 (nullDelayMs opts) in
  let on429DelayMs := default 5000 (on429DelayMs opts) in
  let maxRetries := default 3 (maxRetries opts) in
  let delta := now1 - lastCall in
  let wait := if delta <? minIntervalMs then [Sleep (minIntervalMs - delta)] else [] in
  let r := attempts fetcher nullDelayMs on429DelayMs (Z.to_nat (maxRetries + 1)) 0 in
  (now2, wait ++ r.1, r.2).

End RateLimit.

(** ** The mock fetcher ([ts/examples/mock_fetcher.ts]) *)

(** The character U+0022. *)
Definition quotation_mark : Ascii.ascii := Eval cbv in Ascii.ascii_of_nat 34.

(** A JSON string literal of a text without characters to escape. *)
Definition quoted (s : string) : string :=
  String quotation_mark s +:+ String quotation_mark EmptyString.

(** ['EVENT_JSON:' + JSON.stringify({ standard: 'nep141', ... })]. *)
Definition mock_ftLog : string :=
  "EVENT_JSON:" +:+
  "{" +:+ quoted "standard" +:+ ":" +:+ quoted "nep141" +:+ "," +:+
          quoted "version" +:+ ":" +:+ quoted "1.0.0" +:+ "," +:+
          quoted "event" +:+ ":" +:+ quoted "ft_transfer" +:+ "," +:+
          quoted "data" +:+ ":[{" +:+
            quoted "old_owner_id" +:+ ":" +:+ quoted "alice.near" +:+ "," +:+
            quoted "new_owner_id" +:+ ":" +:+ quoted "bob.near" +:+ "," +:+
            quoted "amount" +:+ ":" +:+ quoted "1000000000000000000000" +:+
          "}]}".

(** [makeMockFetcher(startHeight)]: three consecutive blocks, each with one
    transaction and the receipt it announces. *)
Definition makeMockFetcher (startHeight : BlockHeight) : Fetcher := λ height,
  if (height <? startHeight) || (height >=? startHeight + 3) then Ok None
  else
    let receipt_id := "rid-" +:+ pretty height in
    Ok (Some
      {| height := height;
         timestamp_nanosec := TsString (pretty (1700000000000000000 + height));
         shards :=
           [{| shard_id := 0;
               chunk := Some [{| tx_hash := "tx-" +:+ pretty height;
                                 tx_signer_id := "signer.near";
                                 tx_receiver_id := "token.near";
                                 tx_receipt_ids := [receipt_id] |}];
               receipt_execution_outcomes :=
                 [{| status := SuccessValue (Some EmptyString);
                     receipt_ids := [];
                     logs := [mock_ftLog];
                     receipt_id := receipt_id;
                     receiver_id := "token.near" |}] |}] |}).

(** * Vocabulary of the properties *)

(** [emits P c]: whatever [c] does, it only appends to the call log, and every
    call it appends satisfies [P]. *)
Definition emits {S A} (P : Event → Prop) (c : M S A) : Prop :=
  ∀ w w' r, c w = (w', r) → ∃ evs, w'.2 = w.2 ++ evs ∧ Forall P evs.

(** [settles c]: the promise of [c] settles, from every world. *)
Definition settles {S A} (c : M S A) : Prop := ∀ w, (c w).2 ≠ Pending.

(** The hooks the state machine calls on an indexer. *)
Definition block_hook (message : StreamerMessage) (e : Event) : Prop :=
  match e with
  | CProcessBlock b | CProcessTransaction _ b | CProcessReceipt _ b
  | COnTransaction _ b | COnReceipt _ _ b | CProcessBlockEnd b => b = message
  | _ => False
  end.

(** [h] lies in the half-open range [r]. *)
Definition in_region (r : HeightRange) (h : BlockHeight) : Prop :=
  range_start r ≤ h < range_end r.

(** The calls made after [processBlock] for one message. *)
Definition post_calls (plan : Plan) (message : StreamerMessage) : list Event :=
  if inPrefetch plan message then []
  else if inPostfetch plan message then [CAfterBlock message true]
  else [CAfterBlock message false; CSave (height message + 1)].

(** An indexer with every hook, none of which ever rejects. *)
Definition quiet_indexer : Indexer :=
  {| has_processBlock := true; has_processTransaction := true;
     has_processReceipt := true; has_onTransaction := true; has_onReceipt := true;
     has_processBlockEnd := true; has_finalize := true;
     throws := λ _ _, None |}.

(** A resume cursor that loads [h] and never fails. *)
Definition memory_cursor (h : option BlockHeight) : SaveLocation :=
  {| load := Loaded h; save_throws := λ _ _, None |}.

(** A block without shards. *)
Definition empty_block (h : BlockHeight) : StreamerMessage :=
  {| height := h; timestamp_nanosec := TsNumber "0"; shards := [] |}.

(** An auto-continuing range resumed at height 100, three blocks long. *)
Definition demo_auto : AutoContinue :=
  {| save_location := memory_cursor (Some 100);
     start_height_if_does_not_exist := 7;
     auto_end := EndCount 3 |}.

Definition demo_auto_plan : Plan :=
  make_plan (defaultOptions (AutoContinueRange demo_auto)) 100 (Some 103) (Some demo_auto).

(** Margins of two blocks on either side. *)
Definition two_blocks_margins : PreprocessTransactionsSettings :=
  {| prefetch_blocks := 2; postfetch_blocks := 2 |}.

(** Options for [demo_auto] with these margins: the prefetch range is
    [[98, 100)], the requested range [[100, 103)], the postfetch range
    [[103, 105)]. *)
Definition windowed_options : IndexerOptions :=
  {| stop_on_error := false; range := AutoContinueRange demo_auto;
     preprocess_transactions := Some two_blocks_margins; genesis_block_height := 0;
     ctrl_c_handler := false |}.

(** A streamer that yields one block of each region. *)
Definition window_blocks : MessageStreamer :=
  λ _ _, {| receiver := [empty_block 99; empty_block 101; empty_block 104];
            receiver_throws := None; handle := Ok tt |}.

(** An auto-continuing range resumed at height 0 and zero blocks long: its
    end is [0 + 0 = 0]. *)
Definition zero_end_auto : AutoContinue :=
  {| save_location := memory_cursor (Some 0);
     start_height_if_does_not_exist := 0;
     auto_end := EndCount 0 |}.

Definition zero_end_options : IndexerOptions :=
  {| stop_on_error := false; range := AutoContinueRange zero_end_auto;
     preprocess_transactions := Some two_blocks_margins; genesis_block_height := 0;
     ctrl_c_handler := false |}.

(** A streamer that yields the empty block 7. *)
Definition block_seven : MessageStreamer :=
  λ _ _, {| receiver := [empty_block 7]; receiver_throws := None; handle := Ok tt |}.

(** A resume cursor whose [load()] rejects. *)
Definition failing_cursor : SaveLocation :=
  {| load := LoadRejected "cursor file unreadable"; save_throws := λ _ _, None |}.

Definition failing_auto : AutoContinue :=
  {| save_location := failing_cursor;
     start_height_if_does_not_exist := 42;
     auto_end := EndInfinite |}.

(** A streamer that yields nothing. *)
Definition no_blocks : MessageStreamer :=
  λ _ _, {| receiver := []; receiver_throws := None; handle := Ok tt |}.

(** The calls made while messages are being received. *)
Definition loop_call (e : Event) : Prop :=
  match e with
  | CFinalize | CAwaitHandle | CLoad => False
  | _ => True
  end.

(** An indexer whose [processBlock] hook always rejects. *)
Definition rejecting_indexer : Indexer :=
  {| has_processBlock := true; has_processTransaction := false;
     has_processReceipt := false; has_onTransaction := false; has_onReceipt := false;
     has_processBlockEnd := false; has_finalize := true;
     throws := λ _ e, match e with CProcessBlock _ => Some "boom"%string | _ => None end |}.

(** A streamer that yields the empty blocks 100, 101, 102. *)
Definition three_blocks : MessageStreamer :=
  λ _ _, {| receiver := [empty_block 100; empty_block 101; empty_block 102];
            receiver_throws := None; handle := Ok tt |}.

Definition stop_options : IndexerOptions :=
  {| stop_on_error := true; range := Range 100 (Some 103);
     preprocess_transactions := None; genesis_block_height := 0;
     ctrl_c_handler := false |}.

(** The same under an open-ended range. *)
Definition open_stop_options : IndexerOptions :=
  {| stop_on_error := true; range := Range 100 None;
     preprocess_transactions := None; genesis_block_height := 0;
     ctrl_c_handler := false |}.

(** A stream whose handle never settles within the run, as the handle of
    [ProviderStreamer] over an open-ended range: the handle is the producer
    loop itself, which runs up to [MAX_SAFE_INTEGER] whether or not the
    consumer still reads. *)
Definition endless_producer : MessageStreamer :=
  λ _ _, {| receiver := [empty_block 100]; receiver_throws := None; handle := Pending |}.

(** What [IndexerState] shares with [InternalIndexerState]. *)
Definition forget_counter (s : IndexerState.t) : InternalIndexerState.t :=
  {| InternalIndexerState.pendingTransactions := IndexerState.pendingTransactions s;
     InternalIndexerState.receiptToTx := IndexerState.receiptToTx s |}.

(** Two worlds agree: same maps, same call log. *)
Definition agree (w1 : InternalIndexerState.t * list Event)
    (w2 : IndexerState.t * list Event) : Prop :=
  w1.1 = forget_counter w2.1 ∧ w1.2 = w2.2.

(** Two async functions started in agreeing worlds end in agreeing worlds
    with the same outcome (results related by [Q]), and the second does not
    touch the counter. *)
Definition mirrors {A1 A2} (Q : A1 → A2 → Prop)
    (c1 : M InternalIndexerState.t A1) (c2 : M IndexerState.t A2) : Prop :=
  ∀ w1 w2, agree w1 w2 →
    agree (c1 w1).1 (c2 w2).1
    ∧ IndexerState.blocksReceived (c2 w2).1.1 = IndexerState.blocksReceived w2.1
    ∧ match (c1 w1).2, (c2 w2).2 with
      | Settled (Ok a1), Settled (Ok a2) => Q a1 a2
      | Settled (Threw e1), Settled (Threw e2) => e1 = e2
      | Pending, Pending => True
      | _, _ => False
      end.

(** A caller that feeds blocks one after the other, whatever each call's
    outcome, and keeps the outcomes. *)
Fixpoint feed {S} (processBlock : StreamerMessage → BlockProcessingOptions → M S unit)
    (inputs : list (StreamerMessage * BlockProcessingOptions)) (w : S * list Event)
  : S * list Event * list (Outcome unit) :=
  match inputs with
  | [] => (w, [])
  | (message, options) :: rest =>
      let '(w', r) := processBlock message options w in
      let '(w'', rs) := feed processBlock rest w' in
      (w'', r :: rs)
  end.

(** [preserves I c]: if [I] holds of the state machine before [c], it holds
    after, whatever the outcome of [c]. *)
Definition preserves {S A} (I : S → Prop) (c : M S A) : Prop :=
  ∀ w w' r, c w = (w', r) → I w.1 → I w'.1.

(** Every entry of the receipt map is resolved. *)
Definition all_resolved (itx : IncompleteTransaction) : Prop :=
  every_not_null (JsMap.values (receipts itx)) = true.

(** An open transaction that knows at least one receipt id still waits for one. *)
Definition open_inv (s : InternalIndexerState.t) : Prop :=
  ∀ k itx, InternalIndexerState.pendingTransactions s !! k = Some itx →
           all_resolved itx → receipts itx = [].

(** A transaction that produced no receipt id. *)
Definition lonely_tx : IndexerTransactionWithOutcome :=
  {| tx_hash := "T0"; tx_signer_id := "alice.near"; tx_receiver_id := "bob.near";
     tx_receipt_ids := [] |}.

(** The flags of an in-range block with preprocessing enabled. *)
Definition in_range_flags (h : BlockHeight) : BlockProcessingOptions :=
  {| opt_height := h; preprocess := true; preprocess_new_transactions := true;
     handle_raw_events := true; handle_preprocessed_transactions_by_indexer := true |}.

(** The flags of a block in the postfetch region, with preprocessing on. *)
Definition postfetch_flags (h : BlockHeight) : BlockProcessingOptions :=
  {| opt_height := h; preprocess := true; preprocess_new_transactions := false;
     handle_raw_events := false; handle_preprocessed_transactions_by_indexer := true |}.

(** A block with one shard. *)
Definition block_of (h : BlockHeight) (txs : list IndexerTransactionWithOutcome)
    (outcomes : list IndexerExecutionOutcomeWithReceipt) : StreamerMessage :=
  {| height := h; timestamp_nanosec := TsNumber "0";
     shards := [ {| shard_id := 0; chunk := Some txs;
                    receipt_execution_outcomes := outcomes |} ] |}.

(** [getMessage(h)] resolves with [r] after only rejections. *)
Definition first_return (provider : MessageProvider) (h : BlockHeight)
    (r : option StreamerMessage) : Prop :=
  ∃ k, provider h k = Resolves r ∧ ∀ j, (j < k)%nat → provider h j = Rejects.

(** The Message Source contract: the message returned for a height is the
    message at that height. *)
Definition honest (provider : MessageProvider) : Prop :=
  ∀ h k m, provider h k = Resolves (Some m) → height m = h.

(** A provider for the window [[100, 104)]: height 101 is absent, height 102
    is rejected twice before it resolves, height 103 once. *)
Definition flaky_provider : MessageProvider := λ h retries,
  if bool_decide (h = 101) then Resolves None
  else if bool_decide (h = 102) && bool_decide (retries < 2)%nat then Rejects
  else if bool_decide (h = 103) && bool_decide (retries < 1)%nat then Rejects
  else Resolves (Some (empty_block h)).

(** Three workers; heights 102 and 101 complete before height 100. *)
Definition out_of_order_run : ParallelProviderStreamer.t :=
  ParallelProviderStreamer.run_order flaky_provider 104 [2; 2; 2; 1; 1; 0; 0]%nat
    (ParallelProviderStreamer.start 3 100 (Some 104)).

(** The transactions and the receipt outcomes of a block, in the order in
    which [processBlock] visits them. *)
Definition block_transactions (message : StreamerMessage)
  : list IndexerTransactionWithOutcome :=
  concat ((λ shard, default [] (chunk shard)) <$> shards message).

Definition block_outcomes (message : StreamerMessage)
  : list IndexerExecutionOutcomeWithReceipt :=
  concat (receipt_execution_outcomes <$> shards message).

(** The [onTransaction] calls made for the transaction with hash [h]. *)
Definition completions (h : string) (calls : list Event)
  : list (CompleteTransaction * StreamerMessage) :=
  omap (λ e, match e with
             | COnTransaction c block =>
                 if decide (tx_hash (c_transaction c) = h) then Some (c, block) else None
             | _ => None
             end) calls.

(** The receipt ids owed to transaction [T] once the first [k] of its
    receipts [outcomes] are resolved: its own, and their follow-ons. *)
Definition owed (T : IndexerTransactionWithOutcome)
    (outcomes : list IndexerExecutionOutcomeWithReceipt) (k : nat) : list string :=
  tx_receipt_ids T ++ concat (receipt_ids <$> take k outcomes).

(** Transactions and receipts of somebody else: another hash, and no receipt
    id in common with the ids [U] of the followed transaction. *)
Definition foreign_tx (h : string) (U : list string) (t : IndexerTransactionWithOutcome) : Prop :=
  tx_hash t ≠ h ∧ ∀ r, r ∈ tx_receipt_ids t → r ∉ U.

Definition foreign_outcome (U : list string) (o : IndexerExecutionOutcomeWithReceipt) : Prop :=
  (receipt_id o ∉ U) ∧ (∀ r, r ∈ receipt_ids o → r ∉ U).

(** The receipts of a block whose id is in [U], in the order in which
    [processBlock] visits them. *)
Definition own_outcomes (U : list string) (message : StreamerMessage)
  : list IndexerExecutionOutcomeWithReceipt :=
  filter (λ o, receipt_id o ∈ U) (block_outcomes message).

(** For each receipt of [U] carried by [inputs], the block that carries it. *)
Definition resolving_blocks (U : list string)
    (inputs : list (StreamerMessage * BlockProcessingOptions)) : list StreamerMessage :=
  concat ((λ input, replicate (length (own_outcomes U input.1)) input.1) <$> inputs).

(** Block number [k] of the scenario: correlation is on and reported; the
    first block registers [T]; a block resolves any number of receipts of
    [T], possibly none; everything else in the block is foreign. *)
Definition carries (T : IndexerTransactionWithOutcome)
    (outcomes : list IndexerExecutionOutcomeWithReceipt) (k : nat)
    (message : StreamerMessage) (options : BlockProcessingOptions) : Prop :=
  let U := receipt_id <$> outcomes in
  preprocess options = true
  ∧ handle_preprocessed_transactions_by_indexer options = true
  ∧ (if decide (k = O)
     then preprocess_new_transactions options = true
          ∧ ∃ pre post, block_transactions message = pre ++ T :: post
                        ∧ Forall (foreign_tx (tx_hash T) U) pre
                        ∧ Forall (foreign_tx (tx_hash T) U) post
     else Forall (foreign_tx (tx_hash T) U) (block_transactions message))
  ∧ Forall (λ o, receipt_id o ∈ U ∨ foreign_outcome U o) (block_outcomes message).

(** A block in which nothing belongs to the followed transaction. *)
Definition foreign_block (h : string) (U : list string) (message : StreamerMessage) : Prop :=
  Forall (foreign_tx h U) (block_transactions message)
  ∧ Forall (foreign_outcome U) (block_outcomes message).

(** Every open transaction is stored under its own hash. *)
Definition keyed_by_hash (s : InternalIndexerState.t) : Prop :=
  ∀ k itx, InternalIndexerState.pendingTransactions s !! k = Some itx →
           tx_hash (transaction itx) = k.

(** Only ids of [U] point at [h]. *)
Definition common (h : string) (U : list string)
    (w : InternalIndexerState.t * list Event) : Prop :=
  (∀ r, InternalIndexerState.receiptToTx w.1 !! r = Some h → r ∈ U)
  ∧ keyed_by_hash w.1.

(** Two worlds look the same from the transaction [h]. *)
Definition same_view (h : string) (U : list string)
    (w w' : InternalIndexerState.t * list Event) : Prop :=
  InternalIndexerState.pendingTransactions w.1 !! h
  = InternalIndexerState.pendingTransactions w'.1 !! h
  ∧ (∀ r, r ∈ U → InternalIndexerState.receiptToTx w.1 !! r
                  = InternalIndexerState.receiptToTx w'.1 !! r)
  ∧ completions h w.2 = completions h w'.2.

(** [c] runs to the end and changes nothing that [h] can see. *)
Definition unseen (h : string) (U : list string) (c : M InternalIndexerState.t unit) : Prop :=
  ∀ w, common h U w → ∃ w', c w = (w', Ok tt) ∧ common h U w' ∧ same_view h U w w'.

(** [T] is open, the first [k] receipts are resolved, every other owed id is
    known and unresolved, and [onTransaction] has not been called for it
    since the call log was [calls0]. *)
Definition tracked (T : IndexerTransactionWithOutcome)
    (outcomes : list IndexerExecutionOutcomeWithReceipt)
    (msgs : list StreamerMessage) (calls0 : list Event) (k : nat)
    (w : InternalIndexerState.t * list Event) : Prop :=
  let U := receipt_id <$> outcomes in
  ∃ m, InternalIndexerState.pendingTransactions w.1 !! tx_hash T
       = Some {| transaction := T; receipts := m |}
     ∧ NoDup (JsMap.keys m)
     ∧ (∀ r, r ∈ JsMap.keys m ↔ r ∈ owed T outcomes k)
     ∧ (∀ j o msg, (j < k)%nat → outcomes !! j = Some o → msgs !! j = Some msg →
          JsMap.get (receipt_id o) m = Some (Some (processed_receipt o msg)))
     ∧ (∀ r, r ∈ JsMap.keys m → r ∉ take k U → JsMap.get r m = Some None)
     ∧ (∀ r, r ∈ owed T outcomes k →
          InternalIndexerState.receiptToTx w.1 !! r = Some (tx_hash T))
     ∧ common (tx_hash T) U w
     ∧ completions (tx_hash T) w.2 = completions (tx_hash T) calls0.

(** [T] is closed and [onTransaction] has been called for it once, in block
    [last], with all the resolved receipts. *)
Definition finished (T : IndexerTransactionWithOutcome)
    (outcomes : list IndexerExecutionOutcomeWithReceipt)
    (msgs : list StreamerMessage) (calls0 : list Event) (last : StreamerMessage)
    (w : InternalIndexerState.t * list Event) : Prop :=
  InternalIndexerState.pendingTransactions w.1 !! tx_hash T = None
  ∧ common (tx_hash T) (receipt_id <$> outcomes) w
  ∧ ∃ c, completions (tx_hash T) w.2 = completions (tx_hash T) calls0 ++ [(c, last)]
         ∧ c_transaction c = T
         ∧ c_receipts c ≡ₚ zip_with processed_receipt outcomes msgs.

(** From [P], [c] runs to the end and establishes [Q]. *)
Definition reaches {S} (P Q : S * list Event → Prop) (c : M S unit) : Prop :=
  ∀ w, P w → ∃ w', c w = (w', Ok tt) ∧ Q w'.

(** [P] only depends on what [h] can see. *)
Definition framed (h : string) (U : list string)
    (P : InternalIndexerState.t * list Event → Prop) : Prop :=
  (∀ w, P w → common h U w)
  ∧ (∀ w w', P w → common h U w' → same_view h U w w' → P w').

(** A two-block scenario: [T1] is registered at height 100 with receipt [r1],
    which runs in the same block and produces [r2]; [r2] runs at height 101.
    Block 100 also carries a foreign transaction and its receipt. *)
Definition tx_T1 : IndexerTransactionWithOutcome :=
  {| tx_hash := "T1"; tx_signer_id := "alice.near"; tx_receiver_id := "token.near";
     tx_receipt_ids := ["r1"] |}.

Definition tx_F1 : IndexerTransactionWithOutcome :=
  {| tx_hash := "F1"; tx_signer_id := "carol.near"; tx_receiver_id := "token.near";
     tx_receipt_ids := ["f1"] |}.

Definition outcome_r1 : IndexerExecutionOutcomeWithReceipt :=
  {| status := SuccessReceiptId "r2"; receipt_ids := ["r2"]; logs := [];
     receipt_id := "r1"; receiver_id := "token.near" |}.

Definition outcome_r2 : IndexerExecutionOutcomeWithReceipt :=
  {| status := SuccessValue None; receipt_ids := []; logs := [];
     receipt_id := "r2"; receiver_id := "bob.near" |}.

Definition outcome_f1 : IndexerExecutionOutcomeWithReceipt :=
  {| status := Failure None; receipt_ids := []; logs := [];
     receipt_id := "f1"; receiver_id := "token.near" |}.

Definition two_blocks : list (StreamerMessage * BlockProcessingOptions) :=
  [ (block_of 100 [tx_F1; tx_T1] [outcome_r1; outcome_f1], in_range_flags 100);
    (block_of 101 [] [outcome_r2], in_range_flags 101) ].

(** A three-block scenario over the range [[100, 102)] with a postfetch
    margin: [T1] is registered at height 100, in a block that resolves none
    of its receipts; [r1] runs at height 101 and produces [r2]; [r2] runs at
    height 102, in the postfetch region. *)
Definition staggered_blocks : list (StreamerMessage * BlockProcessingOptions) :=
  [ (block_of 100 [tx_F1; tx_T1] [outcome_f1], in_range_flags 100);
    (block_of 101 [] [outcome_r1], in_range_flags 101);
    (block_of 102 [] [outcome_r2], postfetch_flags 102) ].

(** A one-block scenario: [T1] is registered and both its receipts run at
    height 100. *)
Definition crowded_block : list (StreamerMessage * BlockProcessingOptions) :=
  [ (block_of 100 [tx_T1] [outcome_r1; outcome_f1; outcome_r2], in_range_flags 100) ].

(** A later block that carries only a foreign receipt. *)
Definition later_block : list (StreamerMessage * BlockProcessingOptions) :=
  [ (block_of 102 [] [outcome_f1], in_range_flags 102) ].

Definition tx_T : IndexerTransactionWithOutcome :=
  {| tx_hash := "T"; tx_signer_id := "alice.near"; tx_receiver_id := "token.near";
     tx_receipt_ids := ["r1"] |}.

Definition r1_with (st : ExecutionStatusView) : IndexerExecutionOutcomeWithReceipt :=
  {| status := st; receipt_ids := []; logs := [];
     receipt_id := "r1"; receiver_id := "token.near" |}.

(** [T] and its receipt [r1] (with status [st]) at height 100, empty blocks
    elsewhere. *)
Definition same_block_fetcher (st : ExecutionStatusView) : Fetcher := λ h,
  Ok (Some (if bool_decide (h = 100) then block_of 100 [tx_T] [r1_with st]
            else block_of h [] [])).

(** [T] at height 100, its receipt [r1] at height 101. *)
Definition next_block_fetcher : Fetcher := λ h,
  Ok (Some (if bool_decide (h = 100) then block_of 100 [tx_T] []
            else if bool_decide (h = 101) then block_of 101 [] [r1_with (SuccessValue None)]
            else block_of h [] [])).

Definition scenario_options (first last : BlockHeight)
    (pre : option PreprocessTransactionsSettings) : IndexerOptions :=
  {| stop_on_error := false; range := Range first (Some last);
     preprocess_transactions := pre; genesis_block_height := 0;
     ctrl_c_handler := false |}.

(** A call, reduced to its hook and the height of its block. *)
Definition call_shape (e : Event) : string * Z :=
  match e with
  | CProcessBlock b => ("processBlock", height b)
  | CProcessTransaction _ b => ("processTransaction", height b)
  | CProcessReceipt _ b => ("processReceipt", height b)
  | COnTransaction _ b => ("onTransaction", height b)
  | COnReceipt _ _ b => ("onReceipt", height b)
  | CProcessBlockEnd b => ("processBlockEnd", height b)
  | CFinalize => ("finalize", 0)
  | CLoad => ("load", 0)
  | CSave h => ("save", h)
  | CAfterBlock b _ => ("afterBlock", height b)
  | CAwaitHandle => ("handle", 0)
  end.

(** The calls of [getMessage] still to settle: for every waiting call the
    ones left for its height, and for every height not yet scheduled all
    of its calls ([nfail h] rejected ones and the one that resolves). *)
Definition remaining (nfail : Z → nat) (end_ : BlockHeight)
    (s : ParallelProviderStreamer.t) : nat :=
  (sum_list_with (λ w, S (nfail w.1) - w.2) (ParallelProviderStreamer.waiting s)
   + sum_list_with (λ h, S (nfail h))
       (seqZ (ParallelProviderStreamer.scheduled s)
             (end_ - ParallelProviderStreamer.scheduled s)))%nat.

(** ** Invariants of the parallel pipeline *)

Module PipelineInvariant.
Import ParallelProviderStreamer.

(** What holds between two turns of the event loop, and inside the drain
    loop. *)
Record inv (provider : MessageProvider) (first end_ : BlockHeight) (s : t) : Prop := {
  inv_bounds : first ≤ nextToEmit s ≤ scheduled s;
  inv_sched : scheduled s ≤ Z.max first end_;
  inv_active : active s = Z.of_nat (length (waiting s));
  inv_results : ∀ h r, results s !! h = Some r →
      first_return provider h r ∧ nextToEmit s ≤ h < scheduled s;
  inv_waiting : ∀ h k, (h, k) ∈ waiting s →
      nextToEmit s ≤ h < scheduled s ∧ results s !! h = None
      ∧ ∀ j, (j < k)%nat → provider h j = Rejects;
  inv_nodup : NoDup (waiting s).*1;
  inv_cover : ∀ h, nextToEmit s ≤ h < scheduled s →
      is_Some (results s !! h) ∨ h ∈ (waiting s).*1;
  inv_sorted : StronglySorted Z.lt (height <$> values (queue s));
  inv_delivered : ∀ m, m ∈ values (queue s) →
      first ≤ height m < nextToEmit s ∧ first_return provider (height m) (Some m);
  inv_complete : ∀ h r, first ≤ h < nextToEmit s → first_return provider h r →
      match r with Some m => m ∈ values (queue s) | None => True end;
  inv_fetched : ∀ h, first ≤ h < nextToEmit s → ∃ r, first_return provider h r;
}.

(** Between two turns the loop has drained, a worker is busy while heights
    remain, and the queue is closed once nothing is left to do. *)
Record settled (provider : MessageProvider) (first end_ : BlockHeight) (s : t) : Prop := {
  settled_inv : inv provider first end_ s;
  settled_head : results s !! nextToEmit s = None;
  settled_open : done (queue s) = true → waiting s = [];
}.

(** With at least one worker, a call is waiting as long as heights remain, and
    the queue is closed by the call that leaves nothing to wait for. *)
Definition live (provider : MessageProvider) (first end_ : BlockHeight) (s : t) : Prop :=
  settled provider first end_ s
  ∧ (scheduled s < end_ → waiting s ≠ [])
  ∧ (waiting s = [] → first < end_ → done (queue s) = true).

End PipelineInvariant.

(** ** Stages of a followed transaction *)

(** Before the block that registers [T]. *)
Definition ready (T : IndexerTransactionWithOutcome)
    (outcomes : list IndexerExecutionOutcomeWithReceipt) (calls0 : list Event)
    (w : InternalIndexerState.t * list Event) : Prop :=
  common (tx_hash T) (receipt_id <$> outcomes) w
  ∧ completions (tx_hash T) w.2 = completions (tx_hash T) calls0.

(** Where [T] stands once [k] of its receipts are resolved: still tracked,
    or, with the last one, finished in the block that resolved it. *)
Definition stage (T : IndexerTransactionWithOutcome)
    (outcomes : list IndexerExecutionOutcomeWithReceipt)
    (msgs : list StreamerMessage) (calls0 : list Event) (k : nat)
    (w : InternalIndexerState.t * list Event) : Prop :=
  if decide (k < length outcomes)%nat
  then tracked T outcomes msgs calls0 k w
  else ∃ last, msgs !! (length outcomes - 1)%nat = Some last
               ∧ finished T outcomes msgs calls0 last w.

(** Where [T] stands once the blocks [pre] are processed. *)
Definition stage_at (T : IndexerTransactionWithOutcome)
    (outcomes : list IndexerExecutionOutcomeWithReceipt)
    (msgs : list StreamerMessage) (calls0 : list Event)
    (pre : list (StreamerMessage * BlockProcessingOptions))
    (w : InternalIndexerState.t * list Event) : Prop :=
  if decide (pre = [])
  then ready T outcomes calls0 w
  else stage T outcomes msgs calls0
         (length (concat ((λ input, own_outcomes (receipt_id <$> outcomes) input.1) <$> pre))) w.

(** What the next block has to reach: [T] still tracked, or finished. *)
Definition stage_after (T : IndexerTransactionWithOutcome)
    (outcomes : list IndexerExecutionOutcomeWithReceipt)
    (msgs : list StreamerMessage) (calls0 : list Event) (k : nat) (message : StreamerMessage)
    (w : InternalIndexerState.t * list Event) : Prop :=
  if decide (S k = length outcomes)
  then finished T outcomes msgs calls0 message w
  else tracked T outcomes msgs calls0 (S k) w.

(** ** Whole runs of the orchestrator *)

(** [maintains I P c]: [c] keeps the invariant [I] of the state machine, only
    appends to the call log, and every call it appends satisfies [P]. *)
Definition maintains {S A} (I : S → Prop) (P : Event → Prop) (c : M S A) : Prop :=
  ∀ w w' r, c w = (w', r) → I w.1 →
    I w'.1 ∧ ∃ evs, w'.2 = w.2 ++ evs ∧ Forall P evs.

(** The calls [runIndexer] can make while it handles [message]: which hook
    is open depends on whether the height lies in the prefetch range, in the
    postfetch range, or in neither. *)
Definition allowed_call (plan : Plan) (message : StreamerMessage) (e : Event) : Prop :=
  let pre := inPrefetch plan message in
  let post := inPostfetch plan message in
  match e with
  | CProcessBlock b | CProcessTransaction _ b | CProcessReceipt _ b =>
      b = message ∧ pre = false ∧ post = false
  | COnReceipt _ _ b | COnTransaction _ b => b = message ∧ pre = false
  | CProcessBlockEnd b => b = message
  | CAfterBlock b stopping => b = message ∧ pre = false ∧ stopping = post
  | CSave h => h = height message + 1 ∧ pre = false ∧ post = false
  | CFinalize | CLoad | CAwaitHandle => False
  end.

(** A call that is not one of the two correlated hooks. *)
Definition raw_call (e : Event) : Prop :=
  match e with
  | COnTransaction _ _ | COnReceipt _ _ _ => False
  | _ => True
  end.

(** The two correlated hooks, called about [message]. *)
Definition correlated_hook (message : StreamerMessage) (e : Event) : Prop :=
  match e with
  | COnTransaction _ b | COnReceipt _ _ b => b = message
  | _ => False
  end.

(** The heights handed to [save], in call order. *)
Definition saved (calls : list Event) : list BlockHeight :=
  omap (λ e, match e with CSave h => Some h | _ => None end) calls.

(** The blocks handed to the [processBlock] hook, in call order. *)
Definition offered (calls : list Event) : list StreamerMessage :=
  omap (λ e, match e with CProcessBlock b => Some b | _ => None end) calls.

(** The message lies neither in the prefetch nor in the postfetch range. *)
Definition inRange (plan : Plan) (message : StreamerMessage) : bool :=
  negb (inPrefetch plan message) && negb (inPostfetch plan message).

(** [processBlock] after its first hook: the transaction loop, the receipt
    loop and [processBlockEnd]. *)
Definition block_body (indexer : Indexer) (message : StreamerMessage)
    (options : BlockProcessingOptions) : M InternalIndexerState.t unit :=
  for_each (block_transactions message) (λ tx,
    modify (InternalIndexerState.register_transaction options tx) ;;;
    when (has_processTransaction indexer && handle_raw_events options)
      (await_call (throws indexer) (CProcessTransaction tx message))) ;;;
  for_each (block_outcomes message) (λ r,
    InternalIndexerState.correlate indexer message options r ;;;
    when (has_processReceipt indexer && handle_raw_events options)
      (await_call (throws indexer) (CProcessReceipt r message))) ;;;
  when (has_processBlockEnd indexer)
    (await_call (throws indexer) (CProcessBlockEnd message)).

(** What [finalize] answers when it is called after the calls [calls]. *)
Definition finalize_outcome (indexer : Indexer) (calls : list Event) : option Err :=
  if has_finalize indexer then throws indexer calls CFinalize else None.

(** A stream whose producer task fails after three blocks were delivered. *)
Definition broken_handle : Stream :=
  {| receiver := [empty_block 100; empty_block 101; empty_block 102];
     receiver_throws := None; handle := Threw "producer crashed" |}.

(** ** The order of a transaction's receipts *)

(** The ids of [ids] in order of first appearance. *)
Definition first_seen (ids : list string) : list string :=
  foldl (λ acc id, if decide (id ∈ acc) then acc else acc ++ [id]) [] ids.

(** The ids of the receipts handed over with a completed transaction. *)
Definition completed_ids (c : CompleteTransaction) : list string :=
  (λ p, receipt_id (receipt p)) <$> c_receipts c.

(** Every open transaction keeps its receipt map in shape: no id twice, a
    resolved entry sits under the id of its own receipt, and the ids the
    transaction itself listed come first, in the order listed. *)
Definition well_keyed (s : InternalIndexerState.t) : Prop :=
  ∀ h itx, InternalIndexerState.pendingTransactions s !! h = Some itx →
    NoDup (JsMap.keys (receipts itx))
    ∧ (∀ k p, (k, Some p) ∈ receipts itx → receipt_id (receipt p) = k)
    ∧ first_seen (tx_receipt_ids (transaction itx)) `prefix_of` JsMap.keys (receipts itx).

(** An [onTransaction] call lists each receipt once, the transaction's own
    receipts first, in the order in which the transaction lists their ids. *)
Definition receipts_in_id_order (e : Event) : Prop :=
  match e with
  | COnTransaction c _ =>
      NoDup (completed_ids c)
      ∧ first_seen (tx_receipt_ids (c_transaction c)) `prefix_of` completed_ids c
  | _ => True
  end.

(** A transaction with two receipts, the second of which runs first. *)
Definition tx_AB : IndexerTransactionWithOutcome :=
  {| tx_hash := "AB"; tx_signer_id := "alice.near"; tx_receiver_id := "token.near";
     tx_receipt_ids := ["a"; "b"] |}.

Definition outcome_of (id : string) : IndexerExecutionOutcomeWithReceipt :=
  {| status := SuccessValue None; receipt_ids := []; logs := [];
     receipt_id := id; receiver_id := "token.near" |}.

Definition b_before_a : Fetcher := λ h,
  Ok (Some (if bool_decide (h = 100) then block_of 100 [tx_AB] [outcome_of "b"]
            else if bool_decide (h = 101) then block_of 101 [] [outcome_of "a"]
            else block_of h [] [])).

(** ** Indexers composed *)

(** A call to one of the seven indexer hooks. *)
Definition is_hook (e : Event) : bool := has_hook quiet_indexer e.

(** The calls of a run with a wrapper that the wrapped indexer would see in
    a run of its own: everything but the hooks it does not have. *)
Definition kept (inner : Indexer) (e : Event) : bool :=
  has_hook inner e || negb (is_hook e).

(** An indexer whose answers depend on the calls it received, and on nothing
    else that is in the call log. *)
Definition own_calls_only (i : Indexer) : Prop :=
  ∀ calls e, throws i calls e = throws i (List.filter (has_hook i) calls) e.

(** A cursor store whose answers do not depend on the calls made to the
    indexer. *)
Definition cursor_ignores_hooks (options : IndexerOptions) : Prop :=
  ∀ auto, range options = AutoContinueRange auto →
    ∀ calls e, save_throws (save_location auto) calls e
               = save_throws (save_location auto)
                   (List.filter (λ c, negb (is_hook c)) calls) e.

(** The world of a run with the wrapped indexer alone, next to the world of
    the same run with the wrapper: same state machine, and the call log of
    the first is what the wrapped indexer can see of the second. *)
Definition seen_by (inner : Indexer)
    (w1 w2 : InternalIndexerState.t * list Event) : Prop :=
  w1.1 = w2.1 ∧ w1.2 = List.filter (kept inner) w2.2.

(** Both resolve with the same value, or both reject, the second with the
    error of the first or with its image under [f], or neither settles. *)
Definition same_outcome {A} (f : Err → Err) (r1 r2 : Outcome A) : Prop :=
  match r1, r2 with
  | Settled (Ok a1), Settled (Ok a2) => a1 = a2
  | Settled (Threw e1), Settled (Threw e2) => e2 = e1 ∨ e2 = f e1
  | Pending, Pending => True
  | _, _ => False
  end.

(** [c2] does with the wrapper what [c1] does with the wrapped indexer. *)
Definition wraps {A} (inner : Indexer) (f : Err → Err)
    (c1 c2 : M InternalIndexerState.t A) : Prop :=
  ∀ w1 w2, seen_by inner w1 w2 →
    seen_by inner (c1 w1).1 (c2 w2).1 ∧ same_outcome f (c1 w1).2 (c2 w2).2.

(** An indexer that never rejects. *)
Definition never_rejects (i : Indexer) : Prop := ∀ calls e, throws i calls e = None.

(** An indexer with only a [processReceipt] hook, which rejects receipts
    addressed to [bob.near]. *)
Definition picky_indexer : Indexer :=
  {| has_processBlock := false; has_processTransaction := false;
     has_processReceipt := true; has_onTransaction := false; has_onReceipt := false;
     has_processBlockEnd := false; has_finalize := false;
     throws := λ _ e, match e with
                      | CProcessReceipt r _ =>
                          if bool_decide (receiver_id r = "bob.near"%string)
                          then Some "no receipts for bob"%string else None
                      | _ => None
                      end |}.

(** An indexer with only a [processBlock] hook, which never rejects. *)
Definition block_counter : Indexer :=
  {| has_processBlock := true; has_processTransaction := false;
     has_processReceipt := false; has_onTransaction := false; has_onReceipt := false;
     has_processBlockEnd := false; has_finalize := false;
     throws := λ _ _, None |}.

(** ** The async queue and the pipelines *)

(** The values a queue accepted: the ones pushed before the first [close()]. *)
Fixpoint accepted {T} (ops : list (AsyncQueueClass.Op T)) : list T :=
  match ops with
  | [] => []
  | AsyncQueueClass.Push v :: rest => v :: accepted rest
  | AsyncQueueClass.Close :: _ => []
  | AsyncQueueClass.Next _ :: rest => accepted rest
  end.

(** [close()] is among the operations. *)
Definition closed {T} (ops : list (AsyncQueueClass.Op T)) : bool :=
  existsb (λ op, match op with AsyncQueueClass.Close => true | _ => false end) ops.

(** What holds of a queue between any two operations: nothing is lost or
    reordered, a [next()] is pending only while the buffer is empty and the
    queue open, and the pending ones are exactly the awaiting generators. *)
Record queue_inv {T} (ops : list (AsyncQueueClass.Op T)) (q : AsyncQueueClass.t T)
  : Prop := {
  qi_fifo : (AsyncQueueClass.delivered q).*2 ++ AsyncQueueClass.values q = accepted ops;
  qi_idle : AsyncQueueClass.values q ≠ [] → AsyncQueueClass.resolvers q = [];
  qi_closed : AsyncQueueClass.done q = closed ops;
  qi_done : AsyncQueueClass.done q = true → AsyncQueueClass.resolvers q = [];
  qi_waiting : ∀ g, g ∈ AsyncQueueClass.resolvers q
                    ↔ ∃ queued, AsyncQueueClass.generator q g
                                = AsyncQueueClass.Awaiting queued;
  qi_nodup : NoDup (AsyncQueueClass.resolvers q);
  qi_returned : ∀ g, AsyncQueueClass.generator q g = AsyncQueueClass.Returned →
                     AsyncQueueClass.done q = true;
}.

(** The same while the generator [g] runs: [g] has no resolver pending, and
    its recorded state is not yet up to date. *)
Record queue_inv_but {T} (g : nat) (ops : list (AsyncQueueClass.Op T))
    (q : AsyncQueueClass.t T) : Prop := {
  qb_fifo : (AsyncQueueClass.delivered q).*2 ++ AsyncQueueClass.values q = accepted ops;
  qb_idle : AsyncQueueClass.values q ≠ [] → AsyncQueueClass.resolvers q = [];
  qb_closed : AsyncQueueClass.done q = closed ops;
  qb_done : AsyncQueueClass.done q = true → AsyncQueueClass.resolvers q = [];
  qb_waiting : ∀ g', g' ≠ g →
                 (g' ∈ AsyncQueueClass.resolvers q
                  ↔ ∃ queued, AsyncQueueClass.generator q g'
                              = AsyncQueueClass.Awaiting queued);
  qb_running : g ∉ AsyncQueueClass.resolvers q;
  qb_nodup : NoDup (AsyncQueueClass.resolvers q);
  qb_returned : ∀ g', g' ≠ g →
                  AsyncQueueClass.generator q g' = AsyncQueueClass.Returned →
                  AsyncQueueClass.done q = true;
}.


(** At most [workers] calls of [getMessage] are suspended, and [active]
    counts them. *)
Definition in_flight (workers : nat) (s : ParallelProviderStreamer.t) : Prop :=
  (length (ParallelProviderStreamer.waiting s) ≤ workers)%nat
  ∧ ParallelProviderStreamer.active s
    = Z.of_nat (length (ParallelProviderStreamer.waiting s)).

(** A message provider that answers like a fetcher: a throw is a rejection. *)
Definition provider_of (fetcher : Fetcher) : MessageProvider := λ h _,
  match fetcher h with
  | Ok msg => Resolves msg
  | Threw _ => Rejects
  end.

(** What a fetcher resolves with, [null] when it throws. *)
Definition fetched (fetcher : Fetcher) (h : BlockHeight) : option StreamerMessage :=
  match fetcher h with
  | Ok msg => msg
  | Threw _ => None
  end.

(** A fetcher that serves empty blocks and fails at height 102. *)
Definition failing_fetcher : Fetcher := λ h,
  if bool_decide (h = 102) then Threw "HTTP 500" else Ok (Some (empty_block h)).

(** ** Texts *)

(** [pieces.join(sep)] for a list that is not empty. *)
Fixpoint Array_join (sep : string) (pieces : list string) : string :=
  match pieces with
  | [] => EmptyString
  | [piece] => piece
  | piece :: rest => piece +:+ sep +:+ Array_join sep rest
  end.

(** The character [c] occurs in [s]. *)
Fixpoint mentions (c : Ascii.ascii) (s : string) : bool :=
  match s with
  | EmptyString => false
  | String b s' => Ascii.eqb c b || mentions c s'
  end.

(** The log line a tkn.farm token writes for a transfer. *)
Definition tkn_farm_log (amount old_owner_id new_owner_id : string) : string :=
  "Transfer " +:+ amount +:+ " from " +:+ old_owner_id +:+ " to " +:+ new_owner_id.

(** The container [evt] with another version text. *)
Definition with_version {T} (evt : EventLogData T) (v : string) : EventLogData T :=
  {| standard := standard evt; version := v; event := event evt; data := data evt |}.

(** ** The HTTP fetchers *)

(** What the patterns answer when they are asked one after the other,
    starting after the requests [calls]. *)
Fixpoint answers {Json} (as_message : Json → StreamerMessage)
    (fetch : list Http.Request → Http.Request → Result (Http.Response (Json:=Json)))
    (map : option (Json → Result StreamerMessage))
    (calls requests : list Http.Request) : list Http.Attempt :=
  match requests with
  | [] => []
  | request :: rest =>
      Http.try_prefix as_message fetch map calls request
      :: answers as_message fetch map (calls ++ [request]) rest
  end.

Definition is_found (a : Http.Attempt) : bool :=
  match a with Http.Found _ => true | _ => false end.

(** The error of the last answer that is a failure. *)
Definition last_failure (l : list Http.Attempt) : option Err :=
  last (omap (λ a, match a with Http.Failed e => Some e | _ => None end) l).

(** [s] ends with a solidus. *)
Fixpoint ends_with_slash (s : string) : bool :=
  match s with
  | EmptyString => false
  | String c EmptyString => Ascii.eqb c solidus
  | String _ s' => ends_with_slash s'
  end.

Definition with_baseUrl {Json} (opts : Http.HttpFetcherOptions (Json:=Json))
    (b : option string) : Http.HttpFetcherOptions :=
  {| Http.baseUrl := b; Http.headers := Http.headers opts;
     Http.pathBuilder := Http.pathBuilder opts; Http.map := Http.map opts |}.

Definition with_chain_id (cfg : Http.FetcherConfig) (chain : Http.ChainId)
  : Http.FetcherConfig :=
  {| Http.chain_id := chain; Http.finality := Http.finality cfg;
     Http.user_agent := Http.user_agent cfg |}.

(** A server whose first answer is a failure, whose second is the block of
    height 100, and which then answers 404. *)
Definition flaky_server (calls : list Http.Request) (_ : Http.Request)
  : Result (Http.Response (Json:=StreamerMessage)) :=
  match calls with
  | [] => Ok {| Http.status := 500; Http.ok := false; Http.text := Ok "oops"%string;
                Http.json := Threw "no body"%string |}
  | [_] => Ok {| Http.status := 200; Http.ok := true; Http.text := Ok "{}"%string;
                 Http.json := Ok (empty_block 100) |}
  | _ => Ok {| Http.status := 404; Http.ok := false; Http.text := Ok "not found"%string;
               Http.json := Threw "no body"%string |}
  end.

(** A server whose first answer is a failure and which then answers 404. *)
Definition down_server (calls : list Http.Request) (_ : Http.Request)
  : Result (Http.Response (Json:=StreamerMessage)) :=
  match calls with
  | [] => Ok {| Http.status := 500; Http.ok := false; Http.text := Ok "oops"%string;
                Http.json := Threw "no body"%string |}
  | _ => Ok {| Http.status := 404; Http.ok := false; Http.text := Ok "not found"%string;
               Http.json := Threw "no body"%string |}
  end.

(** A server that throttles every request. *)
Definition throttling_server (_ : list Http.Request) (_ : Http.Request)
  : Result (Http.Response (Json:=StreamerMessage)) :=
  Ok {| Http.status := 429; Http.ok := false; Http.text := Ok "slow down"%string;
        Http.json := Threw "no body"%string |}.

Definition mainnet_final : Http.FetcherConfig :=
  {| Http.chain_id := Http.mainnet; Http.finality := Some Http.Final;
     Http.user_agent := None |}.

(** ** The rate-limited fetcher *)

(** A fetcher that is throttled twice and then serves the block of height 100. *)
Definition throttled_fetcher (k : nat) : Result (option StreamerMessage) :=
  match k with
  | 0%nat | 1%nat => Threw "Neardata fetch failed 429: slow down"%string
  | _ => Ok (Some (empty_block 100))
  end.

Definition default_rate_limit : RateLimit.Options :=
  {| RateLimit.minIntervalMs := None; RateLimit.nullDelayMs := None;
     RateLimit.on429DelayMs := None; RateLimit.maxRetries := None |}.

(** * Properties *)

(** ** Success predicates *)

Lemma isSuccessful_default_class (r : TransactionReceipt) (ifUnknown : bool) :
  DefaultTransactionReceipt_isSuccessful r ifUnknown = isSuccessful r ifUnknown.
Proof.
  unfold DefaultTransactionReceipt_isSuccessful, isReceiptSuccessful, isSuccessful.
  by destruct (status (receipt r)).
Qed.

(** C8. The success predicate of a resolved receipt is [false] on [Failure],
    [true] on [SuccessValue] and [SuccessReceiptId], and the caller's default
    on [Unknown]; a completed transaction's [allReceiptsSuccessful()] is true
    exactly when [isSuccessful(true)] is true of every one of its receipts. *)
Theorem success_predicates :
  (∀ rcpt message ifUnknown,
     isSuccessful (processed_receipt rcpt message) ifUnknown =
       match status rcpt with
       | Failure _ => false
       | SuccessValue _ | SuccessReceiptId _ => true
       | Unknown => ifUnknown
       end)
  ∧ (∀ r ifUnknown error, status (receipt r) = Failure error →
       isSuccessful r ifUnknown = false)
  ∧ (∀ r ifUnknown value, status (receipt r) = SuccessValue value →
       isSuccessful r ifUnknown = true)
  ∧ (∀ r ifUnknown id, status (receipt r) = SuccessReceiptId id →
       isSuccessful r ifUnknown = true)
  ∧ (∀ r ifUnknown, status (receipt r) = Unknown →
       isSuccessful r ifUnknown = ifUnknown)
  ∧ (∀ c, allReceiptsSuccessful c = true ↔
          ∀ r, r ∈ c_receipts c → isSuccessful r true = true).
Proof.
  split_and!.
  - intros rcpt message d. unfold isSuccessful. simpl. by destruct (status rcpt).
  - intros r d e H. unfold isSuccessful. by rewrite H.
  - intros r d e H. unfold isSuccessful. by rewrite H.
  - intros r d e H. unfold isSuccessful. by rewrite H.
  - intros r d H. unfold isSuccessful. by rewrite H.
  - intros c. unfold allReceiptsSuccessful. rewrite forallb_forall.
    split; intros H r Hr; apply H; by apply list_elem_of_In.
Qed.

(** ** Reasoning about async functions *)

Lemma bind_ok {S A B} (c : M S A) (k : A → M S B) w w' a :
  c w = (w', Ok a) → bind c k w = k a w'.
Proof. unfold bind. by intros ->. Qed.

Lemma bind_threw {S A B} (c : M S A) (k : A → M S B) w w' e :
  c w = (w', Threw e) → bind c k w = (w', Threw e).
Proof. unfold bind. by intros ->. Qed.

Lemma for_each_app {S X} (l1 l2 : list X) (body : X → M S unit) w :
  for_each (l1 ++ l2) body w = (for_each l1 body ;;; for_each l2 body) w.
Proof.
  revert w. induction l1 as [|x l1 IH]; intros w; simpl.
  - done.
  - unfold bind in *. destruct (body x w) as [w1 [[[]|e]|]]; [apply IH | done | done].
Qed.

(** A loop nested in a loop runs its body over the concatenation. *)
Lemma for_each_nested {S X Y} (l : list X) (inner : X → list Y) (body : Y → M S unit) w :
  for_each l (λ x, for_each (inner x) body) w = for_each (concat (inner <$> l)) body w.
Proof.
  revert w. induction l as [|x l IH]; intros w; simpl; [done|].
  rewrite for_each_app. unfold bind.
  destruct (for_each (inner x) body w) as [w1 [[[]|e]|]]; [apply IH | done | done].
Qed.

(** Awaited hooks and collaborators settle, so everything up to the awaited
    handle does. *)
Lemma settles_ret {S A} (a : A) : settles (S:=S) (ret a).
Proof. by intros w. Qed.

Lemma settles_throw {S A} e : settles (S:=S) (A:=A) (throw e).
Proof. by intros w. Qed.

Lemma settles_get_state {S} : settles (S:=S) get_state.
Proof. by intros w. Qed.

Lemma settles_modify {S} (f : S → S) : settles (modify f).
Proof. by intros w. Qed.

Lemma settles_log {S} e : settles (S:=S) (log e).
Proof. by intros w. Qed.

Lemma settles_await_call {S} oracle e : settles (S:=S) (await_call oracle e).
Proof. intros w. unfold await_call. by destruct (oracle w.2 e). Qed.

Lemma settles_bind {S A B} (c : M S A) (k : A → M S B) :
  settles c → (∀ a, settles (k a)) → settles (bind c k).
Proof.
  intros Hc Hk w. unfold bind. specialize (Hc w).
  destruct (c w) as [w1 [[a|e]|]]; [apply Hk | done | done].
Qed.

Lemma settles_when {S} b (c : M S unit) : settles c → settles (when b c).
Proof. destruct b; [done | intros _; apply settles_ret]. Qed.

Lemma settles_for_each {S X} (l : list X) (body : X → M S unit) :
  (∀ x, settles (body x)) → settles (for_each l body).
Proof.
  intros Hb. induction l as [|x l IH]; simpl.
  - apply settles_ret.
  - apply settles_bind; [apply Hb | intros _; apply IH].
Qed.

Lemma settles_try_catch {S A} (c : M S A) (h : Err → M S A) :
  settles c → (∀ e, settles (h e)) → settles (try_catch c h).
Proof.
  intros Hc Hh w. unfold try_catch. specialize (Hc w).
  destruct (c w) as [w1 [[a|e]|]]; [done | apply Hh | done].
Qed.

Lemma processBlock_settles indexer message options :
  settles (InternalIndexerState.processBlock indexer message options).
Proof.
  unfold InternalIndexerState.processBlock.
  apply settles_bind; [apply settles_when, settles_await_call | intros _].
  apply settles_bind; [| intros _].
  { apply settles_for_each. intros shard. destruct (chunk shard); [| apply settles_ret].
    apply settles_for_each. intros tx.
    apply settles_bind; [apply settles_modify | intros _].
    apply settles_when, settles_await_call. }
  apply settles_bind; [| intros _; apply settles_when, settles_await_call].
  apply settles_for_each. intros shard. apply settles_for_each. intros r.
  apply settles_bind; [| intros _; apply settles_when, settles_await_call].
  unfold InternalIndexerState.correlate.
  apply settles_bind; [apply settles_get_state | intros s].
  destruct (InternalIndexerState.receiptToTx s !! receipt_id r) as [txId|];
    [| apply settles_ret].
  destruct (truthy txId && preprocess options); [| apply settles_ret].
  destruct (InternalIndexerState.pendingTransactions s !! txId) as [incomplete|];
    [| apply settles_ret].
  apply settles_bind; [apply settles_when, settles_await_call | intros _].
  apply settles_bind; [apply settles_get_state | intros s1].
  apply settles_bind; [apply settles_modify | intros _].
  destruct (every_not_null _); [| apply settles_ret].
  apply settles_bind; [apply settles_modify | intros _].
  apply settles_when, settles_await_call.
Qed.

Lemma on_message_settles indexer options plan hasSent message :
  settles (on_message indexer options plan hasSent message).
Proof.
  unfold on_message.
  apply settles_bind; [| intros _].
  { apply settles_try_catch; [apply processBlock_settles|].
    intros e. destruct (stop_on_error options); [apply settles_throw | apply settles_ret]. }
  apply settles_bind; [| intros _; apply settles_ret].
  destruct (negb _); [| apply settles_ret].
  destruct (post_processor plan) as [pp|]; [| apply settles_ret].
  unfold afterBlock. apply settles_bind; [apply settles_log | intros _].
  destruct (negb _); [apply settles_await_call | apply settles_ret].
Qed.

Lemma receive_settles indexer options plan hasSent messages :
  settles (receive indexer options plan hasSent messages).
Proof.
  revert hasSent. induction messages as [|m ms IH]; intros hasSent; simpl.
  - apply settles_ret.
  - apply settles_bind; [apply on_message_settles | intros hs; apply IH].
Qed.

Lemma emits_ret {S A} P (a : A) : emits (S:=S) P (ret a).
Proof. intros w w' r [= <- <-]. exists []. by rewrite app_nil_r. Qed.

Lemma emits_throw {S A} P e : emits (S:=S) (A:=A) P (throw e).
Proof. intros w w' r [= <- <-]. exists []. by rewrite app_nil_r. Qed.

Lemma emits_get_state {S} P : emits (S:=S) P get_state.
Proof. intros w w' r [= <- <-]. exists []. by rewrite app_nil_r. Qed.

Lemma emits_modify {S} P (f : S → S) : emits P (modify f).
Proof. intros w w' r [= <- <-]. exists []. by rewrite app_nil_r. Qed.

Lemma emits_log {S} (P : Event → Prop) e : P e → emits (S:=S) P (log e).
Proof. intros He w w' r [= <- <-]. exists [e]. split; [done | by constructor]. Qed.

Lemma emits_await_call {S} (P : Event → Prop) oracle e :
  P e → emits (S:=S) P (await_call oracle e).
Proof.
  intros He w w' r. unfold await_call.
  destruct (oracle w.2 e); intros [= <- <-]; exists [e]; (split; [done | by constructor]).
Qed.

Lemma emits_bind {S A B} P (c : M S A) (k : A → M S B) :
  emits P c → (∀ a, emits P (k a)) → emits P (bind c k).
Proof.
  intros Hc Hk w w' r. unfold bind.
  destruct (c w) as [w1 [[a|e]|]] eqn:E.
  - intros Hka. destruct (Hc _ _ _ E) as (ev1 & E1 & F1).
    destruct (Hk a _ _ _ Hka) as (ev2 & E2 & F2).
    exists (ev1 ++ ev2). rewrite E2, E1, app_assoc. split; [done | by apply Forall_app].
  - intros [= <- <-]. by apply (Hc _ _ _ E).
  - intros [= <- <-]. by apply (Hc _ _ _ E).
Qed.

Lemma emits_when {S} P b (c : M S unit) : emits P c → emits P (when b c).
Proof. destruct b; [done | intros _; apply emits_ret]. Qed.

Lemma emits_for_each {S X} P (l : list X) (body : X → M S unit) :
  (∀ x, emits P (body x)) → emits P (for_each l body).
Proof.
  intros Hb. induction l as [|x l IH]; simpl.
  - apply emits_ret.
  - apply emits_bind; [apply Hb | intros _; apply IH].
Qed.

Lemma emits_try_catch {S A} P (c : M S A) (h : Err → M S A) :
  emits P c → (∀ e, emits P (h e)) → emits P (try_catch c h).
Proof.
  intros Hc Hh w w' r. unfold try_catch.
  destruct (c w) as [w1 [[a|e]|]] eqn:E.
  - intros [= <- <-]. by apply (Hc _ _ _ E).
  - intros Hhe. destruct (Hc _ _ _ E) as (ev1 & E1 & F1).
    destruct (Hh e _ _ _ Hhe) as (ev2 & E2 & F2).
    exists (ev1 ++ ev2). rewrite E2, E1, app_assoc. split; [done | by apply Forall_app].
  - intros [= <- <-]. by apply (Hc _ _ _ E).
Qed.

Lemma emits_weaken {S A} (P Q : Event → Prop) (c : M S A) :
  (∀ e, P e → Q e) → emits P c → emits Q c.
Proof.
  intros HPQ Hc w w' r E. destruct (Hc _ _ _ E) as (evs & E1 & F).
  exists evs. split; [done | by eapply Forall_impl].
Qed.

Lemma correlate_emits indexer message options r :
  emits (block_hook message) (InternalIndexerState.correlate indexer message options r).
Proof.
  unfold InternalIndexerState.correlate.
  apply emits_bind; [apply emits_get_state | intros s].
  destruct (InternalIndexerState.receiptToTx s !! receipt_id r) as [txId|];
    [| apply emits_ret].
  destruct (truthy txId && preprocess options); [| apply emits_ret].
  destruct (InternalIndexerState.pendingTransactions s !! txId) as [incomplete|];
    [| apply emits_ret].
  apply emits_bind; [by apply emits_when, emits_await_call | intros _].
  apply emits_bind; [apply emits_get_state | intros s1].
  apply emits_bind; [apply emits_modify | intros _].
  destruct (every_not_null _); [| apply emits_ret].
  apply emits_bind; [apply emits_modify | intros _].
  by apply emits_when, emits_await_call.
Qed.

Lemma processBlock_emits indexer message options :
  emits (block_hook message) (InternalIndexerState.processBlock indexer message options).
Proof.
  unfold InternalIndexerState.processBlock.
  apply emits_bind; [by apply emits_when, emits_await_call | intros _].
  apply emits_bind; [| intros _].
  { apply emits_for_each. intros shard. destruct (chunk shard); [| apply emits_ret].
    apply emits_for_each. intros tx.
    apply emits_bind; [apply emits_modify | intros _].
    by apply emits_when, emits_await_call. }
  apply emits_bind; [| intros _].
  { apply emits_for_each. intros shard. apply emits_for_each. intros r.
    apply emits_bind; [apply correlate_emits | intros _].
    by apply emits_when, emits_await_call. }
  by apply emits_when, emits_await_call.
Qed.

(** ** The window planner *)

Lemma in_range_spec r h : in_range r h = true ↔ in_region r h.
Proof. unfold in_range, in_region. rewrite andb_true_iff, Z.leb_le, Z.ltb_lt. done. Qed.

Lemma in_range_false r h : in_range r h = false ↔ ¬ in_region r h.
Proof. rewrite <- in_range_spec. by destruct (in_range r h). Qed.

(** The prefetch region of a plan is [max(genesis, start − P), start). *)
Lemma prefetch_region options start end_ pp h :
  in_region (prefetchRange (make_plan options start end_ pp)) h ↔
  Z.max (genesis_block_height options)
        (start - default 0 (prefetch_blocks <$> preprocess_transactions options)) ≤ h < start.
Proof. unfold in_region, make_plan. simpl. lia. Qed.

(** With a requested end [e ≠ 0] the postfetch region is [e, e + Q). *)
Lemma postfetch_region_bounded options start e pp h :
  e ≠ 0 →
  in_region (postfetchRange (make_plan options start (Some e) pp)) h ↔
  e ≤ h < e + default 0 (postfetch_blocks <$> preprocess_transactions options).
Proof.
  intros He. unfold in_region, make_plan, truthy_height. simpl.
  by rewrite bool_decide_eq_true_2.
Qed.

(** Without a requested end there is no postfetch region. *)
Lemma postfetch_region_unbounded options start pp h :
  ¬ in_region (postfetchRange (make_plan options start None pp)) h.
Proof. unfold in_region, make_plan. simpl. lia. Qed.

(** A requested end of [0] is falsy in [end_block_height ? … : …]: the
    postfetch range then runs from [0] to [MAX_SAFE_INTEGER], and the stream
    is opened without an end. *)
Lemma postfetch_region_end_zero options start pp h :
  (in_region (postfetchRange (make_plan options start (Some 0) pp)) h ↔
   0 ≤ h < MAX_SAFE_INTEGER)
  ∧ endWithPostfetch (make_plan options start (Some 0) pp) = None.
Proof. unfold in_region, make_plan. simpl. done. Qed.

(** The fetch window opens at the start of the prefetch region. *)
Lemma startWithPrefetch_prefetchRange options start end_ pp :
  startWithPrefetch (make_plan options start end_ pp) =
  range_start (prefetchRange (make_plan options start end_ pp)).
Proof. unfold make_plan. simpl. lia. Qed.

(** What [resolve_range] returns for an explicit range. *)
Lemma resolve_range_explicit {S} options start end_ (w : S * list Event) :
  range options = Range start end_ →
  resolve_range options w = (w, Ok (make_plan options start end_ None)).
Proof. intros Hr. unfold resolve_range. by rewrite Hr. Qed.



(** In range, with preprocessing enabled, every flag is on: these are the
    blocks the correlation results below are about. *)
Lemma in_range_processing_options options plan message :
  is_Some (preprocess_transactions options) →
  ¬ in_region (prefetchRange plan) (height message) →
  ¬ in_region (postfetchRange plan) (height message) →
  processingOptions options plan message
  = {| opt_height := height message; preprocess := true;
       preprocess_new_transactions := true; handle_raw_events := true;
       handle_preprocessed_transactions_by_indexer := true |}.
Proof.
  intros Hpre Hnpre Hnpost. unfold processingOptions, inPrefetch, inPostfetch.
  apply in_range_false in Hnpre, Hnpost. rewrite Hnpre, Hnpost. simpl.
  by rewrite bool_decide_eq_true_2.
Qed.

(** ** Resume-cursor handling *)

Lemma resolve_range_auto {S} options auto (w w' : S * list Event) plan :
  range options = AutoContinueRange auto →
  resolve_range options w = (w', Ok plan) →
  post_processor plan = Some auto ∧ w'.1 = w.1 ∧ w'.2 = w.2 ++ [CLoad]
  ∧ ∃ h, load (save_location auto) = Loaded h.
Proof.
  intros Hr. unfold resolve_range, AutoContinue_range, getStartBlock, await_load, bind, ret.
  rewrite Hr. destruct (load (save_location auto)) as [h|e]; [| done].
  intros [= <- <-]. simpl. eauto.
Qed.

(** The plan of a run over an auto-continuing range whose cursor loads. *)
Lemma resolve_range_plan_auto {S} options auto loaded (w : S * list Event) :
  range options = AutoContinueRange auto →
  load (save_location auto) = Loaded loaded →
  let start := default (start_height_if_does_not_exist auto) loaded in
  let end_ := match auto_end auto with
              | EndHeight h => h
              | EndCount count => start + count
              | EndInfinite => MAX_SAFE_INTEGER
              end in
  resolve_range options w
  = ((w.1, w.2 ++ [CLoad]),
     Ok (make_plan options start
           (if bool_decide (end_ = MAX_SAFE_INTEGER) then None else Some end_)
           (Some auto))).
Proof.
  intros Hr Hl. unfold resolve_range, AutoContinue_range, getStartBlock, await_load, bind, ret.
  by rewrite Hr, Hl.
Qed.

(** What [runIndexer] does with a message once [processBlock] is over and the
    run goes on. *)
Lemma on_message_post_calls (indexer : Indexer) (options : IndexerOptions)
    (auto : AutoContinue) (plan : Plan) (hasSent : bool) (message : StreamerMessage)
    (w w1 : InternalIndexerState.t * list Event) (r1 : Outcome unit) :
  post_processor plan = Some auto →
  InternalIndexerState.processBlock indexer message
    (processingOptions options plan message) w = (w1, r1) →
  r1 = Ok tt ∨ stop_on_error options = false →
  ∃ r, on_message indexer options plan hasSent message w
       = ((w1.1, w1.2 ++ post_calls plan message), r).
Proof.
  intros Hpp Hpb Hgo.
  pose proof (processBlock_settles indexer message
                (processingOptions options plan message) w) as Hs.
  unfold on_message, post_calls, try_catch, bind. rewrite Hpb in *. rewrite Hpp.
  assert (match r1 with
          | Settled (Ok a) => (w1, Settled (Ok a))
          | Settled (Threw e) => (if stop_on_error options then throw e else ret ()) w1
          | Pending => (w1, Pending)
          end = (w1, Settled (Ok tt))) as ->.
  { destruct r1 as [[[]|e]|]; [done | | done].
    destruct Hgo as [? | ->]; done. }
  destruct (inPrefetch plan message); simpl.
  - rewrite app_nil_r. destruct w1. by eexists.
  - unfold afterBlock, bind, log. simpl.
    destruct (inPostfetch plan message); simpl.
    + by eexists.
    + unfold await_call. simpl.
      destruct (save_throws _ _ _); rewrite <- app_assoc; by eexists.
Qed.




(** A run over one block of each region: the prefetch block 99 is followed by
    no call of the post-processor, the block 101 by [save(102)], the
    postfetch block 104 by a call with [stopping] set and no [save]. *)
Example cursor_persistence_run :
  run quiet_indexer window_blocks windowed_options
  = ((InternalIndexerState.new,
      [CLoad;
       CProcessBlockEnd (empty_block 99);
       CProcessBlock (empty_block 101); CProcessBlockEnd (empty_block 101);
       CAfterBlock (empty_block 101) false; CSave 102;
       CProcessBlockEnd (empty_block 104); CAfterBlock (empty_block 104) true;
       CAwaitHandle; CFinalize]), Ok tt).
Proof. reflexivity. Qed.

(** ** Resolving the start of an auto-continuing range *)

(** C9, as stated, fails: when [load()] rejects, [getStartBlock] does not
    fall back to the default start [42]; it rejects with the same error, and
    so does the whole run. *)
Lemma load_failure_not_defaulted :
  getStartBlock failing_auto (InternalIndexerState.new, [])
    = ((InternalIndexerState.new, [CLoad]), Threw "cursor file unreadable")
  ∧ (getStartBlock failing_auto (InternalIndexerState.new, [])).2 ≠ Ok 42
  ∧ run quiet_indexer no_blocks (defaultOptions (AutoContinueRange failing_auto))
    = ((InternalIndexerState.new, [CLoad]), Threw "cursor file unreadable").
Proof. split_and!; [reflexivity | discriminate | reflexivity]. Qed.

(** C9, amended.  [getStartBlock] returns the loaded height when there is one
    and the caller's default when [load()] resolves with [undefined]; a
    rejection of [load()] is not caught: it leaves [getStartBlock],
    [AutoContinue.range] and [runIndexer] as a rejection, before the stream is
    opened and before any hook of the indexer is called. *)
Theorem start_height_resolution (a : AutoContinue) (w : InternalIndexerState.t * list Event) :
  (∀ h, load (save_location a) = Loaded (Some h) →
        getStartBlock a w = ((w.1, w.2 ++ [CLoad]), Ok h))
  ∧ (load (save_location a) = Loaded None →
        getStartBlock a w = ((w.1, w.2 ++ [CLoad]), Ok (start_height_if_does_not_exist a)))
  ∧ (∀ e, load (save_location a) = LoadRejected e →
        getStartBlock a w = ((w.1, w.2 ++ [CLoad]), Threw e)
        ∧ AutoContinue_range a w = ((w.1, w.2 ++ [CLoad]), Threw e)
        ∧ ∀ indexer streamer options,
            range options = AutoContinueRange a →
            runIndexer indexer streamer options w = ((w.1, w.2 ++ [CLoad]), Threw e)).
Proof.
  unfold runIndexer, resolve_range, AutoContinue_range, getStartBlock, await_load, bind, ret.
  split_and!.
  - by intros h ->.
  - by intros ->.
  - intros e He. rewrite He. split_and!; [done | done |].
    intros indexer streamer options Hr. by rewrite Hr, He.
Qed.

(** ** Shutdown *)

Lemma block_hook_loop_call message e : block_hook message e → loop_call e.
Proof. by destruct e. Qed.

Lemma on_message_emits indexer options plan hasSent message :
  emits loop_call (on_message indexer options plan hasSent message).
Proof.
  unfold on_message.
  apply emits_bind; [| intros _].
  { apply emits_try_catch.
    - eapply emits_weaken; [apply block_hook_loop_call | apply processBlock_emits].
    - intros e. destruct (stop_on_error options); [apply emits_throw | apply emits_ret]. }
  apply emits_bind; [| intros _; apply emits_ret].
  destruct (negb _); [| apply emits_ret].
  destruct (post_processor plan) as [pp|]; [| apply emits_ret].
  unfold afterBlock. apply emits_bind; [by apply emits_log | intros _].
  destruct (negb _); [by apply emits_await_call | apply emits_ret].
Qed.

Lemma receive_emits indexer options plan hasSent messages :
  emits loop_call (receive indexer options plan hasSent messages).
Proof.
  revert hasSent. induction messages as [|m ms IH]; intros hasSent; simpl.
  - apply emits_ret.
  - apply emits_bind; [apply on_message_emits | intros hs; apply IH].
Qed.

(** The [finally] block runs after the loop whatever the loop's outcome: the
    handle is awaited, and [finalize] is called when, and only when, the
    handle resolves and the indexer has the hook. *)
Lemma stream_and_finalize_calls indexer options plan stream w :
  ∃ s body,
    Forall loop_call body
    ∧ (handle stream = Ok tt →
       ∃ r, stream_and_finalize indexer options plan stream w
            = ((s, w.2 ++ body ++ [CAwaitHandle]
                      ++ (if has_finalize indexer then [CFinalize] else [])), r))
    ∧ (∀ e, handle stream = Threw e →
       stream_and_finalize indexer options plan stream w
       = ((s, w.2 ++ body ++ [CAwaitHandle]), Threw e))
    ∧ (handle stream = Pending →
       stream_and_finalize indexer options plan stream w
       = ((s, w.2 ++ body ++ [CAwaitHandle]), Pending)).
Proof.
  unfold stream_and_finalize, try_finally.
  set (loop := bind _ _).
  assert (emits loop_call loop) as Hem.
  { apply emits_bind; [apply receive_emits | intros _].
    destruct (receiver_throws stream); [apply emits_throw | apply emits_ret]. }
  assert (settles loop) as Hs.
  { apply settles_bind; [apply receive_settles | intros _].
    destruct (receiver_throws stream); [apply settles_throw | apply settles_ret]. }
  specialize (Hs w).
  destruct (loop w) as [[s1 l1] r1] eqn:E.
  destruct (Hem _ _ _ E) as (body & Hbody & Fbody). simpl in Hbody. subst l1.
  destruct r1 as [r1|]; [| done].
  exists s1, body. split; [exact Fbody|].
  unfold bind, await_handle, when, await_call. simpl.
  split_and!.
  - intros ->. destruct (has_finalize indexer).
    + simpl. destruct (throws indexer _ CFinalize); eexists; by rewrite <- !app_assoc.
    + simpl. eexists. by rewrite <- !app_assoc.
  - intros e ->. by rewrite <- !app_assoc.
  - intros ->. by rewrite <- !app_assoc.
Qed.

(** C5, as stated, fails when the pipeline's completion signal is a failure
    and when it never comes.  A run to the end of the range over a stream
    whose handle rejects awaits the handle and then rejects with its error;
    under [stop_on_error], with a handle that never settles, the first
    block's hook rejects, the loop stops and the handle is awaited for ever.
    Neither run calls the [finalize] hook the indexer has. *)
Lemma finalize_not_reached :
  has_finalize quiet_indexer = true
  ∧ run quiet_indexer (λ _ _, broken_handle) (scenario_options 100 103 None)
    = ((InternalIndexerState.new,
        [CProcessBlock (empty_block 100); CProcessBlockEnd (empty_block 100);
         CProcessBlock (empty_block 101); CProcessBlockEnd (empty_block 101);
         CProcessBlock (empty_block 102); CProcessBlockEnd (empty_block 102);
         CAwaitHandle]), Threw "producer crashed"%string)
  ∧ has_finalize rejecting_indexer = true
  ∧ run rejecting_indexer endless_producer open_stop_options
    = ((InternalIndexerState.new, [CProcessBlock (empty_block 100); CAwaitHandle]), Pending).
Proof. split_and!; reflexivity. Qed.

(** C5, amended.  Once [runIndexer] has resolved its range and opened the
    stream, however the receiving loop ends (the stream is exhausted, the
    receiver throws, a hook rejects under [stop_on_error], or [save]
    rejects), the orchestrator awaits the handle, exactly once and after
    every call of the loop.  When the handle resolves, the indexer's
    [finalize] hook, if it has one, is called exactly once, as the last call
    of the run.  When the handle rejects, [finalize] is not called and the
    run rejects with the handle's error.  When the handle never settles,
    [finalize] is not called and the run never ends. *)
Theorem finalize_once (indexer : Indexer) (streamer : MessageStreamer)
    (options : IndexerOptions) (plan : Plan)
    (w w1 : InternalIndexerState.t * list Event) :
  let stream := streamer (startWithPrefetch plan) (endWithPostfetch plan) in
  resolve_range options w = (w1, Ok plan) →
  ∃ s body,
    Forall (λ e, e ≠ CAwaitHandle ∧ e ≠ CFinalize) body
    ∧ (handle stream = Ok tt →
       ∃ r, runIndexer indexer streamer options w
            = ((s, w1.2 ++ body ++ [CAwaitHandle]
                       ++ (if has_finalize indexer then [CFinalize] else [])), r))
    ∧ (∀ e, handle stream = Threw e →
       runIndexer indexer streamer options w
       = ((s, w1.2 ++ body ++ [CAwaitHandle]), Threw e))
    ∧ (handle stream = Pending →
       runIndexer indexer streamer options w
       = ((s, w1.2 ++ body ++ [CAwaitHandle]), Pending)).
Proof.
  intros stream Hplan. unfold runIndexer, bind. rewrite Hplan.
  destruct (stream_and_finalize_calls indexer options plan stream w1)
    as (s & body & F & Hok & Hrej & Hpend).
  exists s, body. split; [| done].
  eapply Forall_impl; [exact F|]. intros e He. by destruct e.
Qed.

Lemma finalize_once_witness :
  ∃ s body r,
    runIndexer rejecting_indexer three_blocks stop_options (InternalIndexerState.new, [])
      = ((s, [] ++ body ++ [CAwaitHandle] ++ [CFinalize]), r)
    ∧ Forall (λ e, e ≠ CAwaitHandle ∧ e ≠ CFinalize) body.
Proof.
  destruct (finalize_once rejecting_indexer three_blocks stop_options
              (make_plan stop_options 100 (Some 103) None)
              (InternalIndexerState.new, []) (InternalIndexerState.new, []) eq_refl)
    as (s & body & F & Hok & _ & _).
  destruct (Hok eq_refl) as [r Hr].
  exists s, body, r. split; [exact Hr | exact F].
Defined.

(** A run under [stop_on_error]: the first block's hook rejects, the loop
    stops, the handle is awaited and [finalize] is called. *)
Example stop_on_error_run :
  run rejecting_indexer three_blocks stop_options
  = ((InternalIndexerState.new,
      [CProcessBlock (empty_block 100); CAwaitHandle; CFinalize]), Threw "boom"%string).
Proof. reflexivity. Qed.

(** ** The two state machines *)

Lemma mirrors_ret {A1 A2} (Q : A1 → A2 → Prop) a1 a2 :
  Q a1 a2 → mirrors Q (ret a1) (ret a2).
Proof. by intros HQ w1 w2 Hw. Qed.

Lemma mirrors_bind {A1 A2 B1 B2} (Q : A1 → A2 → Prop) (Q' : B1 → B2 → Prop)
    (c1 : M _ A1) (c2 : M _ A2) (k1 : A1 → M _ B1) (k2 : A2 → M _ B2) :
  mirrors Q c1 c2 →
  (∀ a1 a2, Q a1 a2 → mirrors Q' (k1 a1) (k2 a2)) →
  mirrors Q' (bind c1 k1) (bind c2 k2).
Proof.
  intros Hc Hk w1 w2 Hw. unfold bind.
  destruct (Hc w1 w2 Hw) as (Hag & Hd & Hr).
  destruct (c1 w1) as [w1' [[a1|e1]|]], (c2 w2) as [w2' [[a2|e2]|]]; simpl in *; try done.
  destruct (Hk a1 a2 Hr w1' w2' Hag) as (Hag' & Hd' & Hr').
  split_and!; [done | congruence | done].
Qed.

Lemma mirrors_get_state :
  mirrors (λ s1 s2, s1 = forget_counter s2) get_state get_state.
Proof. intros w1 w2 Hw. simpl. split_and!; [done | done | apply Hw]. Qed.

Lemma mirrors_modify (f1 : InternalIndexerState.t → InternalIndexerState.t)
    (f2 : IndexerState.t → IndexerState.t) :
  (∀ s, f1 (forget_counter s) = forget_counter (f2 s)) →
  (∀ s, IndexerState.blocksReceived (f2 s) = IndexerState.blocksReceived s) →
  mirrors (λ _ _, True) (modify f1) (modify f2).
Proof.
  intros Hf Hc [s1 l1] [s2 l2] [H1 H2]. simpl in *. subst.
  split_and!; [by split; simpl | done | done].
Qed.

Lemma mirrors_await_call oracle e :
  mirrors (λ _ _, True) (await_call oracle e) (await_call oracle e).
Proof.
  intros [s1 l1] [s2 l2] [H1 H2]. simpl in *. subst. unfold await_call. simpl.
  by destruct (oracle l2 e).
Qed.

Lemma mirrors_when b c1 c2 :
  mirrors (λ _ _ : unit, True) c1 c2 → mirrors (λ _ _ : unit, True) (when b c1) (when b c2).
Proof. destruct b; [done | intros _; by apply mirrors_ret]. Qed.

Lemma mirrors_for_each {X} (l : list X) body1 body2 :
  (∀ x, mirrors (λ _ _ : unit, True) (body1 x) (body2 x)) →
  mirrors (λ _ _ : unit, True) (for_each l body1) (for_each l body2).
Proof.
  intros Hb. induction l as [|x l IH]; simpl.
  - by apply mirrors_ret.
  - eapply mirrors_bind; [apply Hb | intros _ _ _; apply IH].
Qed.

Lemma correlate_mirrors indexer message options r :
  mirrors (λ _ _, True)
    (InternalIndexerState.correlate indexer message options r)
    (IndexerState.correlate indexer message options r).
Proof.
  unfold InternalIndexerState.correlate, IndexerState.correlate.
  eapply mirrors_bind; [apply mirrors_get_state | intros s1 s2 ->]. simpl.
  destruct (IndexerState.receiptToTx s2 !! receipt_id r) as [txId|];
    [| by apply mirrors_ret].
  destruct (truthy txId && preprocess options); [| by apply mirrors_ret].
  destruct (IndexerState.pendingTransactions s2 !! txId) as [incomplete|];
    [| by apply mirrors_ret].
  eapply mirrors_bind; [apply mirrors_when, mirrors_await_call | intros _ _ _].
  eapply mirrors_bind; [apply mirrors_get_state | intros s1' s2' ->]. simpl.
  eapply mirrors_bind; [by apply mirrors_modify | intros _ _ _].
  destruct (every_not_null _); [| by apply mirrors_ret].
  eapply mirrors_bind; [by apply mirrors_modify | intros _ _ _].
  apply mirrors_when, mirrors_await_call.
Qed.

Lemma register_transaction_mirrors options tx :
  mirrors (λ _ _, True)
    (modify (InternalIndexerState.register_transaction options tx))
    (modify (IndexerState.register_transaction options tx)).
Proof.
  apply mirrors_modify; intros s;
    unfold InternalIndexerState.register_transaction, IndexerState.register_transaction;
    by destruct (preprocess options), (preprocess_new_transactions options).
Qed.

(** One call of [processBlock] on each machine, from agreeing worlds. *)
Lemma processBlock_agree indexer message options w1 w2 :
  agree w1 w2 →
  agree (InternalIndexerState.processBlock indexer message options w1).1
        (IndexerState.processBlock indexer message options w2).1
  ∧ IndexerState.blocksReceived
      (IndexerState.processBlock indexer message options w2).1.1
    = IndexerState.blocksReceived w2.1 + 1
  ∧ (InternalIndexerState.processBlock indexer message options w1).2
    = (IndexerState.processBlock indexer message options w2).2.
Proof.
  intros Hw. unfold IndexerState.processBlock.
  rewrite (bind_ok _ _ w2 (IndexerState.count_block w2.1, w2.2) tt eq_refl).
  cbv beta.
  match goal with
  | |- context [bind (when ?b ?c) ?k (IndexerState.count_block _, _)] =>
      assert (mirrors (λ _ _ : unit, True)
                (InternalIndexerState.processBlock indexer message options)
                (bind (when b c) k)) as Hm
  end.
  { unfold InternalIndexerState.processBlock.
    eapply mirrors_bind; [apply mirrors_when, mirrors_await_call | intros _ _ _].
    eapply mirrors_bind; [| intros _ _ _].
    { apply mirrors_for_each. intros shard.
      destruct (chunk shard); [| by apply mirrors_ret].
      apply mirrors_for_each. intros tx.
      eapply mirrors_bind; [apply register_transaction_mirrors | intros _ _ _].
      apply mirrors_when, mirrors_await_call. }
    eapply mirrors_bind; [| intros _ _ _].
    { apply mirrors_for_each. intros shard. apply mirrors_for_each. intros r.
      eapply mirrors_bind; [apply correlate_mirrors | intros _ _ _].
      apply mirrors_when, mirrors_await_call. }
    apply mirrors_when, mirrors_await_call. }
  destruct (Hm w1 (IndexerState.count_block w2.1, w2.2)) as (Hag & Hc & Hr).
  { destruct Hw as [H1 H2]. split; [| done]. by rewrite H1. }
  split_and!; [done | by rewrite Hc |].
  destruct (InternalIndexerState.processBlock indexer message options w1).2 as [[[]|e1]|],
    (bind _ _ (IndexerState.count_block w2.1, w2.2)).2 as [[[]|e2]|]; by try subst.
Qed.

(** C10. For every indexer and every sequence of (message, options) inputs,
    [InternalIndexerState.processBlock] and [IndexerState.processBlock],
    started from fresh machines, make the same calls with the same arguments
    in the same order, end every call with the same outcome, and hold the same
    [pendingTransactions] and [receiptToTx]; the second also counts the calls
    in [blocksReceived]. *)
Theorem state_machines_equivalent (indexer : Indexer)
    (inputs : list (StreamerMessage * BlockProcessingOptions)) :
  let run1 := feed (InternalIndexerState.processBlock indexer) inputs
                   (InternalIndexerState.new, []) in
  let run2 := feed (IndexerState.processBlock indexer) inputs (IndexerState.new, []) in
  run1.1.2 = run2.1.2
  ∧ run1.2 = run2.2
  ∧ InternalIndexerState.pendingTransactions run1.1.1
    = IndexerState.pendingTransactions run2.1.1
  ∧ InternalIndexerState.receiptToTx run1.1.1 = IndexerState.receiptToTx run2.1.1
  ∧ IndexerState.blocksReceived run2.1.1 = Z.of_nat (length inputs).
Proof.
  cut (∀ w1 w2, agree w1 w2 →
         let run1 := feed (InternalIndexerState.processBlock indexer) inputs w1 in
         let run2 := feed (IndexerState.processBlock indexer) inputs w2 in
         agree run1.1 run2.1 ∧ run1.2 = run2.2
         ∧ IndexerState.blocksReceived run2.1.1
           = IndexerState.blocksReceived w2.1 + Z.of_nat (length inputs)).
  { intros H. destruct (H (InternalIndexerState.new, []) (IndexerState.new, []))
      as ([Hs Hl] & Hr & Hc); [done|].
    simpl. split_and!; [done | done | by rewrite Hs | by rewrite Hs | by rewrite Hc]. }
  induction inputs as [|[message options] rest IH]; intros w1 w2 Hw; simpl.
  - split_and!; [done | done | lia].
  - destruct (processBlock_agree indexer message options w1 w2 Hw) as (Hag & Hc & Hr).
    destruct (InternalIndexerState.processBlock indexer message options w1) as [w1' r1].
    destruct (IndexerState.processBlock indexer message options w2) as [w2' r2].
    simpl in *. specialize (IH w1' w2' Hag). simpl in IH.
    destruct (feed _ rest w1') as [w1'' rs1], (feed _ rest w2') as [w2'' rs2].
    simpl in *. destruct IH as (Hag' & Hrs & Hc').
    split_and!; [done | congruence | lia].
Qed.

(** ** When an open transaction is closed *)

Lemma preserves_ret {S A} (I : S → Prop) (a : A) : preserves I (ret a).
Proof. by intros w w' r [= <- <-]. Qed.

Lemma preserves_get_state {S} (I : S → Prop) : preserves I get_state.
Proof. by intros w w' r [= <- <-]. Qed.

Lemma preserves_await_call {S} (I : S → Prop) oracle e : preserves I (await_call oracle e).
Proof. intros w w' r. unfold await_call. by destruct (oracle w.2 e); intros [= <- <-]. Qed.

Lemma preserves_modify {S} (I : S → Prop) (f : S → S) :
  (∀ s, I s → I (f s)) → preserves I (modify f).
Proof. intros Hf w w' r [= <- <-]. apply Hf. Qed.

Lemma preserves_bind {S A B} (I : S → Prop) (c : M S A) (k : A → M S B) :
  preserves I c → (∀ a, preserves I (k a)) → preserves I (bind c k).
Proof.
  intros Hc Hk w w' r. unfold bind. destruct (c w) as [w1 [[a|e]|]] eqn:E.
  - intros Hka HI. eapply Hk; [exact Hka|]. by eapply Hc.
  - intros [= <- <-] HI. by eapply Hc.
  - intros [= <- <-] HI. by eapply Hc.
Qed.

Lemma preserves_when {S} (I : S → Prop) b (c : M S unit) :
  preserves I c → preserves I (when b c).
Proof. destruct b; [done | intros _; apply preserves_ret]. Qed.

Lemma preserves_for_each {S X} (I : S → Prop) (l : list X) (body : X → M S unit) :
  (∀ x, preserves I (body x)) → preserves I (for_each l body).
Proof.
  intros Hb. induction l as [|x l IH]; simpl.
  - apply preserves_ret.
  - apply preserves_bind; [apply Hb | intros _; apply IH].
Qed.

(** *** Facts about insertion-ordered maps *)

Lemma get_set {V} k k' (v : V) m :
  JsMap.get k' (JsMap.set k v m) = if decide (k = k') then Some v else JsMap.get k' m.
Proof.
  induction m as [|[k0 v0] m IH]; simpl.
  - destruct (decide (k = k')); [done|]. done.
  - destruct (decide (k0 = k)) as [->|Hne]; simpl.
    + destruct (decide (k = k')); done.
    + rewrite IH. destruct (decide (k0 = k')) as [->|]; [|done].
      by rewrite decide_False.
Qed.

Lemma elem_of_keys_get {V} k (m : list (string * V)) :
  k ∈ JsMap.keys m ↔ is_Some (JsMap.get k m).
Proof.
  unfold JsMap.keys. induction m as [|[k0 v0] m IH]; simpl.
  - rewrite elem_of_nil. split; [done | by intros [? ?]].
  - rewrite elem_of_cons, IH. destruct (decide (k0 = k)) as [->|Hne].
    + split; [by eexists | by left].
    + split; [intros [?|?]; [congruence | done] | by right].
Qed.

Lemma keys_set_NoDup {V} k (v : V) m :
  NoDup (JsMap.keys m) → NoDup (JsMap.keys (JsMap.set k v m)).
Proof.
  unfold JsMap.keys. induction m as [|[k0 v0] m IH]; simpl; intros Hnd.
  - apply NoDup_singleton.
  - apply NoDup_cons in Hnd as [Hnotin Hnd].
    destruct (decide (k0 = k)) as [->|Hne]; simpl.
    + by apply NoDup_cons.
    + apply NoDup_cons. split; [| by apply IH].
      intros Hin. apply Hnotin.
      apply (elem_of_keys_get k0) in Hin. rewrite get_set in Hin.
      rewrite decide_False in Hin by done. by apply elem_of_keys_get.
Qed.

Lemma elem_of_get {V} k (v : V) m :
  NoDup (JsMap.keys m) → (k, v) ∈ m ↔ JsMap.get k m = Some v.
Proof.
  unfold JsMap.keys. induction m as [|[k0 v0] m IH]; simpl; intros Hnd.
  - by rewrite elem_of_nil.
  - apply NoDup_cons in Hnd as [Hnotin Hnd]. rewrite elem_of_cons, (IH Hnd).
    destruct (decide (k0 = k)) as [->|Hne].
    + split; [intros [[= ->]|Hget]; [done|] | intros [= ->]; by left].
      exfalso. apply Hnotin. apply (elem_of_keys_get k). by rewrite Hget.
    + split; [intros [[= ? ?]|?]; [congruence | done] | by right].
Qed.

Lemma every_not_null_spec (m : list (string * option TransactionReceipt)) :
  every_not_null (JsMap.values m) = true ↔ ∀ k, (k, None) ∉ m.
Proof.
  unfold every_not_null, JsMap.values. induction m as [|[k0 v0] m IH]; simpl.
  - split; [intros _ k; apply not_elem_of_nil | done].
  - rewrite andb_true_iff, IH. split.
    + intros [Hv Hm] k. rewrite elem_of_cons. intros [[= ? ?]|Hin]; [by subst|].
      by apply (Hm k).
    + intros H. split.
      * destruct v0; [done|]. exfalso. apply (H k0). by left.
      * intros k Hin. apply (H k). by right.
Qed.

Lemma every_not_null_false (m : list (string * option TransactionReceipt)) :
  every_not_null (JsMap.values m) = false → ∃ k, (k, None) ∈ m.
Proof.
  unfold every_not_null, JsMap.values. induction m as [|[k0 v0] m IH]; simpl; [done|].
  destruct v0 as [v|]; simpl.
  - intros H. destruct (IH H) as [k Hk]. exists k. by right.
  - intros _. exists k0. by left.
Qed.

Lemma set_not_nil {V} k (v : V) m : JsMap.set k v m ≠ [].
Proof. destruct m as [|[k' v'] m]; simpl; [done | by destruct (decide (k' = k))]. Qed.

Lemma set_all_null k (m : list (string * option TransactionReceipt)) :
  Forall (λ kv, kv.2 = None) m → Forall (λ kv, kv.2 = None) (JsMap.set k None m).
Proof.
  induction m as [|[k' v'] m IH]; simpl; intros H.
  - by repeat constructor.
  - inversion H; subst. destruct (decide (k' = k)); constructor; auto.
Qed.

Lemma fold_set_null_all_null ids (m : list (string * option TransactionReceipt)) :
  Forall (λ kv, kv.2 = None) m →
  Forall (λ kv, kv.2 = None) (foldl (λ m r, JsMap.set r None m) m ids).
Proof.
  revert m. induction ids as [|r ids IH]; intros m Hm; simpl; [done|].
  by apply IH, set_all_null.
Qed.

Lemma fold_set_null_nil ids (m : list (string * option TransactionReceipt)) :
  foldl (λ m r, JsMap.set r None m) m ids = [] → m = [] ∧ ids = [].
Proof.
  revert m. induction ids as [|r ids IH]; intros m; simpl; [done|].
  intros H. apply IH in H as [H _]. by apply set_not_nil in H.
Qed.

(** A freshly registered transaction has every id unresolved; its map is all
    resolved only when it has no id at all. *)
Lemma fresh_receipts_resolved ids :
  every_not_null (JsMap.values (fresh_receipts ids)) = true → ids = [].
Proof.
  intros H. pose proof (fold_set_null_all_null ids [] (Forall_nil_2 _)) as Hnull.
  fold (fresh_receipts ids) in Hnull.
  destruct (fresh_receipts ids) as [|[k v] m] eqn:E.
  - unfold fresh_receipts in E. by apply fold_set_null_nil in E as [_ ?].
  - inversion Hnull; subst. simpl in *. subst. done.
Qed.

Lemma register_transaction_open_inv options tx s :
  open_inv s → open_inv (InternalIndexerState.register_transaction options tx s).
Proof.
  intros HI. unfold InternalIndexerState.register_transaction.
  destruct (preprocess options); [| done].
  destruct (preprocess_new_transactions options); [| done].
  intros k itx. simpl. rewrite lookup_insert.
  destruct (decide (tx_hash tx = k)) as [_|Hne]; [| apply HI].
  intros [= <-]. unfold all_resolved. simpl. intros H.
  apply fresh_receipts_resolved in H. by rewrite H.
Qed.

(** The updates of one correlated receipt: the stored transaction is either
    removed or keeps an unresolved entry. *)
Lemma close_or_keep_open_inv indexer message options txId (itx : IncompleteTransaction)
    (r2t : gmap string string) :
  preserves open_inv
    (modify (InternalIndexerState.store txId itx r2t) ;;;
     if every_not_null (JsMap.values (receipts itx)) then
       modify (InternalIndexerState.forget txId) ;;;
       when (has_onTransaction indexer && handle_preprocessed_transactions_by_indexer options)
         (await_call (throws indexer)
            (COnTransaction {| c_transaction := transaction itx;
                               c_receipts := as_receipts (JsMap.values (receipts itx)) |}
               message))
     else ret tt).
Proof.
  intros w w' r. unfold bind, modify. simpl.
  destruct (every_not_null (JsMap.values (receipts itx))) eqn:Hall.
  - intros Hrun HI.
    assert (open_inv (InternalIndexerState.forget txId
                        (InternalIndexerState.store txId itx r2t w.1))) as HI'.
    { intros k itx'. simpl. rewrite lookup_delete.
      destruct (decide (txId = k)); [done|]. rewrite lookup_insert_ne by done. apply HI. }
    revert Hrun. unfold when, await_call, ret. simpl.
    destruct (_ && _); [destruct (throws indexer _ _) |]; by intros [= <- <-].
  - intros [= <- <-] HI k itx'. simpl. rewrite lookup_insert.
    destruct (decide (txId = k)); [| apply HI].
    intros [= <-]. unfold all_resolved. by rewrite Hall.
Qed.

Lemma correlate_open_inv indexer message options r :
  preserves open_inv (InternalIndexerState.correlate indexer message options r).
Proof.
  unfold InternalIndexerState.correlate.
  apply preserves_bind; [apply preserves_get_state | intros s].
  destruct (InternalIndexerState.receiptToTx s !! receipt_id r) as [txId|];
    [| apply preserves_ret].
  destruct (truthy txId && preprocess options); [| apply preserves_ret].
  destruct (InternalIndexerState.pendingTransactions s !! txId) as [incomplete|];
    [| apply preserves_ret].
  apply preserves_bind; [apply preserves_when, preserves_await_call | intros _].
  apply preserves_bind; [apply preserves_get_state | intros s1].
  apply (close_or_keep_open_inv indexer message options txId
           {| transaction := transaction incomplete;
              receipts := (absorb_follow_ons txId (receipt_ids r)
                             (InternalIndexerState.receiptToTx s1,
                              JsMap.set (receipt_id r)
                                (Some (processed_receipt r message))
                                (receipts incomplete))).2 |}).
Qed.

Lemma processBlock_open_inv indexer message options :
  preserves open_inv (InternalIndexerState.processBlock indexer message options).
Proof.
  unfold InternalIndexerState.processBlock.
  apply preserves_bind; [apply preserves_when, preserves_await_call | intros _].
  apply preserves_bind; [| intros _].
  { apply preserves_for_each. intros shard. destruct (chunk shard); [| apply preserves_ret].
    apply preserves_for_each. intros tx.
    apply preserves_bind; [| intros _; apply preserves_when, preserves_await_call].
    apply preserves_modify, register_transaction_open_inv. }
  apply preserves_bind; [| intros _; apply preserves_when, preserves_await_call].
  apply preserves_for_each. intros shard. apply preserves_for_each. intros r.
  apply preserves_bind; [apply correlate_open_inv | intros _].
  apply preserves_when, preserves_await_call.
Qed.

Lemma feed_open_inv indexer inputs w :
  open_inv w.1 → open_inv (feed (InternalIndexerState.processBlock indexer) inputs w).1.1.
Proof.
  revert w. induction inputs as [|[message options] rest IH]; intros w HI; simpl; [done|].
  destruct (InternalIndexerState.processBlock indexer message options w) as [w' r] eqn:E.
  specialize (IH w'). destruct (feed _ rest w') as [w'' rs]. simpl in *.
  apply IH. by eapply processBlock_open_inv.
Qed.

(** C6, as stated, fails: a transaction registered with no receipt id has a
    receipt map that is (vacuously) all resolved, yet after the block that
    registers it, it is still in [pendingTransactions] and [onTransaction] has
    not been called. *)
Lemma zero_receipt_transaction_stays_open :
  InternalIndexerState.pendingTransactions
    (InternalIndexerState.processBlock quiet_indexer (block_of 100 [lonely_tx] [])
       (in_range_flags 100) (InternalIndexerState.new, [])).1.1 !! "T0"
  = Some {| transaction := lonely_tx; receipts := [] |}
  ∧ all_resolved {| transaction := lonely_tx; receipts := [] |}
  ∧ (InternalIndexerState.processBlock quiet_indexer (block_of 100 [lonely_tx] [])
       (in_range_flags 100) (InternalIndexerState.new, [])).1.2
    = [CProcessBlock (block_of 100 [lonely_tx] []);
       CProcessTransaction lonely_tx (block_of 100 [lonely_tx] []);
       CProcessBlockEnd (block_of 100 [lonely_tx] [])].
Proof. split_and!; reflexivity. Qed.

(** C6, amended.  (1) In every state the machine can reach, an open
    transaction that knows at least one receipt id still has an unresolved
    entry: one whose entries are all resolved has been removed.  (2) The
    removal happens in the very receipt step that resolves the last entry,
    and that step calls [onTransaction] (hook and flag permitting) with the
    values of the map.  (3) Registration runs no completion test: a
    transaction registered with no receipt id stays open. *)
Theorem open_transaction_closing :
  (∀ indexer inputs k itx,
     InternalIndexerState.pendingTransactions
       (feed (InternalIndexerState.processBlock indexer) inputs
             (InternalIndexerState.new, [])).1.1 !! k = Some itx →
     receipts itx ≠ [] → ∃ id, (id, None) ∈ receipts itx)
  ∧ (∀ indexer message options r s calls txId incomplete,
       InternalIndexerState.receiptToTx s !! receipt_id r = Some txId →
       truthy txId = true →
       preprocess options = true →
       InternalIndexerState.pendingTransactions s !! txId = Some incomplete →
       (has_onReceipt indexer && handle_preprocessed_transactions_by_indexer options = true →
        throws indexer calls
          (COnReceipt (processed_receipt r message) incomplete message) = None) →
       let m := (absorb_follow_ons txId (receipt_ids r)
                   (InternalIndexerState.receiptToTx s,
                    JsMap.set (receipt_id r) (Some (processed_receipt r message))
                      (receipts incomplete))).2 in
       let w := (InternalIndexerState.correlate indexer message options r (s, calls)).1 in
       (every_not_null (JsMap.values m) = true →
          InternalIndexerState.pendingTransactions w.1 !! txId = None
          ∧ (has_onTransaction indexer
             && handle_preprocessed_transactions_by_indexer options = true →
             last w.2 = Some (COnTransaction
                                {| c_transaction := transaction incomplete;
                                   c_receipts := as_receipts (JsMap.values m) |}
                                message)))
       ∧ (every_not_null (JsMap.values m) = false →
          InternalIndexerState.pendingTransactions w.1 !! txId
          = Some {| transaction := transaction incomplete; receipts := m |}))
  ∧ (∀ options tx s,
       preprocess options = true →
       preprocess_new_transactions options = true →
       tx_receipt_ids tx = [] →
       InternalIndexerState.pendingTransactions
         (InternalIndexerState.register_transaction options tx s) !! tx_hash tx
       = Some {| transaction := tx; receipts := [] |}).
Proof.
  split_and!.
  - intros indexer inputs k itx Hk Hne.
    pose proof (feed_open_inv indexer inputs (InternalIndexerState.new, [])) as HI.
    destruct (every_not_null (JsMap.values (receipts itx))) eqn:Hall.
    + exfalso. apply Hne. eapply HI; [| exact Hk | exact Hall].
      intros k' itx'. simpl. by rewrite lookup_empty.
    + by apply every_not_null_false.
  - intros indexer message options r s calls txId incomplete Hr2t Htruthy Hpre Hpend Hquiet.
    unfold InternalIndexerState.correlate, bind, get_state. simpl.
    rewrite Hr2t, Htruthy, Hpre, Hpend. simpl.
    set (a := absorb_follow_ons txId (receipt_ids r) _).
    assert (∃ calls',
      when (has_onReceipt indexer && handle_preprocessed_transactions_by_indexer options)
        (await_call (throws indexer)
           (COnReceipt (processed_receipt r message) incomplete message)) (s, calls)
      = ((s, calls'), Ok tt)) as [calls' ->].
    { unfold when, await_call.
      destruct (has_onReceipt indexer && _); [| by eexists].
      simpl. rewrite Hquiet by done. by eexists. }
    simpl. fold a. unfold modify. simpl.
    destruct (every_not_null (JsMap.values a.2)) eqn:Hall; simpl.
    + split; [| done]. intros _. unfold when, await_call.
      destruct (has_onTransaction indexer && _); simpl.
      * split; [| intros _].
        -- destruct (throws indexer calls' _); simpl; apply lookup_delete_eq.
        -- destruct (throws indexer calls' _); simpl; apply last_snoc.
      * split; [apply lookup_delete_eq | done].
    + split; [done | intros _]. apply lookup_insert_eq.
  - intros options tx s Hpre Hnew Hids.
    unfold InternalIndexerState.register_transaction. rewrite Hpre, Hnew, Hids. simpl.
    apply lookup_insert_eq.
Qed.

(** ** The ordered fetch pipeline *)

Lemma first_return_unique provider h r1 r2 :
  first_return provider h r1 → first_return provider h r2 → r1 = r2.
Proof.
  intros (k1 & H1 & L1) (k2 & H2 & L2).
  destruct (lt_eq_lt_dec k1 k2) as [[Hlt | ->] | Hlt].
  - rewrite (L2 _ Hlt) in H1. done.
  - congruence.
  - rewrite (L1 _ Hlt) in H2. done.
Qed.

Lemma push_if_present_open msg q :
  done q = false →
  values (push_if_present msg q) = values q ++ option_list msg
  ∧ done (push_if_present msg q) = false.
Proof.
  intros Hd. destruct msg as [m|]; simpl.
  - unfold push. by rewrite Hd.
  - by rewrite app_nil_r.
Qed.

Module ParallelFacts.
Import ParallelProviderStreamer PipelineInvariant.

Section Invariant.
Context (provider : MessageProvider) (first end_ : BlockHeight).
Context (Hhonest : honest provider).

Local Abbreviation inv := (PipelineInvariant.inv provider first end_).
Local Abbreviation settled := (PipelineInvariant.settled provider first end_).
Local Abbreviation live := (PipelineInvariant.live provider first end_).

Lemma inv_init : inv (init first).
Proof.
  split; simpl; try done; try lia.
  - intros h k H. by apply elem_of_nil in H.
  - constructor.
  - constructor.
  - intros m H. by apply elem_of_nil in H.
Qed.

Lemma inv_schedule_next s :
  inv s → scheduled s < end_ → inv (schedule_next s).
Proof.
  intros [] Hlt. split; simpl.
  - lia.
  - lia.
  - rewrite length_app. simpl. lia.
  - intros h r Hr. destruct (inv_results0 h r Hr). split; [done | lia].
  - intros h k. rewrite elem_of_app, list_elem_of_singleton.
    intros [Hin | [= -> ->]].
    + destruct (inv_waiting0 h k Hin) as (? & ? & ?). split_and!; try done; lia.
    + assert (results s !! scheduled s = None).
      { destruct (results s !! scheduled s) as [r|] eqn:E; [| done].
        destruct (inv_results0 _ _ E). lia. }
      split_and!; try done; try lia.
  - rewrite fmap_app. simpl. apply NoDup_app. split_and!; [done | | apply NoDup_singleton].
    intros h Hin. rewrite list_elem_of_singleton. intros ->.
    apply list_elem_of_fmap in Hin as ([h k] & Heq & Hin). simpl in Heq. subst.
    destruct (inv_waiting0 _ _ Hin). lia.
  - intros h Hh. rewrite fmap_app, elem_of_app. simpl.
    destruct (decide (h = scheduled s)) as [->|Hne].
    + right. right. by apply list_elem_of_singleton.
    + destruct (inv_cover0 h) as [|]; [lia | by left | by right; left].
  - done.
  - done.
  - done.
  - done.
Qed.

Lemma prime_inv workers s : inv s → inv (prime workers end_ s).
Proof.
  revert s. induction workers as [|n IH]; intros s Hs; simpl; [done|].
  destruct (Z.ltb_spec (scheduled s) end_); [| done].
  by apply IH, inv_schedule_next.
Qed.

(** One iteration of the drain loop keeps the invariant. *)
Lemma inv_drain_step s msg :
  inv s → done (queue s) = false → results s !! nextToEmit s = Some msg →
  inv {| nextToEmit := nextToEmit s + 1;
         results := delete (nextToEmit s) (results s);
         active := active s; scheduled := scheduled s; waiting := waiting s;
         queue := push_if_present msg (queue s) |}
  ∧ done (push_if_present msg (queue s)) = false.
Proof.
  intros [] Hopen Hhead.
  destruct (push_if_present_open msg _ Hopen) as [Hvals Hd]. split; [| done].
  destruct (inv_results0 _ _ Hhead) as [Hfr Hrange].
  split; simpl.
  - lia.
  - lia.
  - done.
  - intros h r. rewrite lookup_delete_Some. intros [Hne Hr].
    destruct (inv_results0 _ _ Hr). split; [done | lia].
  - intros h k Hin. destruct (inv_waiting0 _ _ Hin) as (? & Hnone & ?).
    assert (h ≠ nextToEmit s) by (intros ->; congruence).
    rewrite lookup_delete_ne by done.
    split_and!; try done; lia.
  - done.
  - intros h Hh. destruct (inv_cover0 h) as [Hs | Hw]; [lia | left | by right].
    rewrite lookup_delete_ne by lia. done.
  - rewrite Hvals, fmap_app. apply StronglySorted_app_2; [| done |].
    + intros x1 x2 Hx1 Hx2.
      apply list_elem_of_fmap in Hx1 as (m1 & -> & Hm1).
      destruct (inv_delivered0 _ Hm1) as [? _].
      destruct msg as [m|]; simpl in Hx2; [| by apply elem_of_nil in Hx2].
      apply list_elem_of_singleton in Hx2 as ->.
      destruct Hfr as (k & Hk & _). rewrite (Hhonest _ _ _ Hk). lia.
    + destruct msg; simpl; repeat constructor.
  - intros m. rewrite Hvals, elem_of_app. intros [Hin | Hin].
    + destruct (inv_delivered0 _ Hin). split; [lia | done].
    + destruct msg as [m'|]; simpl in Hin; [| by apply elem_of_nil in Hin].
      apply list_elem_of_singleton in Hin as ->.
      assert (height m' = nextToEmit s) as Hm.
      { destruct Hfr as (k & Hk & _). by apply (Hhonest _ _ _ Hk). }
      rewrite Hm. split; [lia | done].
  - intros h r Hh Hr. rewrite Hvals.
    destruct (decide (h = nextToEmit s)) as [->|Hne].
    + rewrite (first_return_unique _ _ _ _ Hr Hfr).
      destruct msg; [| done]. apply elem_of_app. right. by left.
    + specialize (inv_complete0 h r). destruct r; [| done].
      apply elem_of_app. left. apply inv_complete0; [lia | done].
  - intros h Hh. destruct (decide (h = nextToEmit s)) as [->|Hne]; [by eexists|].
    apply inv_fetched0. lia.
Qed.

Lemma drain_inv fuel s :
  inv s → done (queue s) = false →
  inv (drain fuel s) ∧ done (queue (drain fuel s)) = false
  ∧ waiting (drain fuel s) = waiting s ∧ active (drain fuel s) = active s
  ∧ scheduled (drain fuel s) = scheduled s.
Proof.
  revert s. induction fuel as [|fuel IH]; intros s Hs Hopen; simpl; [done|].
  destruct (results s !! nextToEmit s) as [msg|] eqn:Hhead; [| done].
  destruct (inv_drain_step s msg Hs Hopen Hhead) as [Hs' Hopen'].
  destruct (IH _ Hs' Hopen') as (? & ? & ? & ? & ?). done.
Qed.

(** With [size results] iterations the drain loop stops on its own test. *)
Lemma drain_exits fuel s :
  (size (results s) ≤ fuel)%nat →
  results (drain fuel s) !! nextToEmit (drain fuel s) = None.
Proof.
  revert s. induction fuel as [|fuel IH]; intros s Hsize; simpl.
  - assert (results s = ∅) as ->; [| by rewrite lookup_empty].
    apply map_size_empty_iff. lia.
  - destruct (results s !! nextToEmit s) as [msg|] eqn:Hhead; [| done].
    apply IH. simpl. rewrite map_size_delete_Some by eauto. 
    assert (size (results s) ≠ 0)%nat; [| lia].
    rewrite map_size_empty_iff. intros E. by rewrite E, lookup_empty in Hhead.
Qed.

Lemma settled_start workers : settled (prime workers end_ (init first)).
Proof.
  pose proof (prime_inv workers _ inv_init) as Hinv.
  assert (∀ n s, results s = ∅ → done (queue s) = false →
            results (prime n end_ s) = ∅ ∧ done (queue (prime n end_ s)) = false) as H.
  { induction n as [|n IH]; intros s Hr Hd; simpl; [done|].
    destruct (scheduled s <? end_); [| done]. by apply IH. }
  destruct (H workers (init first)) as [Hr Hd]; [done | done |].
  split; [done | by rewrite Hr, lookup_empty | by rewrite Hd].
Qed.

(** A rejected call goes back to waiting with one more retry. *)
Lemma settled_rejected s i h k :
  settled s → waiting s !! i = Some (h, k) → provider h k = Rejects →
  settled (rejected i h k s).
Proof.
  intros [[] Hhead Hopen] Hi Hrej.
  assert ((<[i := (h, S k)]> (waiting s)).*1 = (waiting s).*1) as Hfst.
  { rewrite list_fmap_insert. simpl. apply list_insert_id.
    by rewrite list_lookup_fmap, Hi. }
  split; [split |..]; simpl; try done.
  - by rewrite length_insert.
  - intros h' k' Hin. apply list_elem_of_lookup in Hin as [j Hj].
    apply list_lookup_insert_Some in Hj as [(_ & [= <- <-] & _) | [_ Hj]].
    + destruct (inv_waiting0 h k) as (? & ? & Hk); [by eapply list_elem_of_lookup_2|].
      split; [lia|]. split; [done|].
      intros j' Hlt. destruct (decide (j' = k)) as [->|]; [done|]. apply Hk. lia.
    + apply inv_waiting0. by eapply list_elem_of_lookup_2.
  - by rewrite Hfst.
  - by rewrite Hfst.
  - intros Hd. specialize (Hopen Hd). by rewrite Hopen in Hi.
Qed.

(** A resolved call: store, drain, then schedule the next height or close. *)
Lemma settled_resolved s i h k msg :
  settled s → waiting s !! i = Some (h, k) → provider h k = Resolves msg →
  settled (resolved end_ i h msg s).
Proof.
  intros [Hinv Hhead Hopen] Hi Hres.
  assert (done (queue s) = false) as Hd.
  { destruct (done (queue s)) eqn:E; [| done]. rewrite Hopen in Hi; done. }
  pose proof Hinv as [].
  assert ((h, k) ∈ waiting s) as Hin by (by eapply list_elem_of_lookup_2).
  destruct (inv_waiting0 h k Hin) as (Hh & Hnone & Hrej).
  pose proof (delete_Permutation _ _ _ Hi) as Hperm.
  assert ((waiting s).*1 ≡ₚ h :: (delete i (waiting s)).*1) as Hperm1.
  { by rewrite Hperm at 1. }
  assert (NoDup (h :: (delete i (waiting s)).*1)) as Hnd by (by rewrite <- Hperm1).
  apply NoDup_cons in Hnd as [Hnotin Hnd].
  unfold resolved.
  set (s1 := {| nextToEmit := nextToEmit s; results := <[h:=msg]> (results s);
                active := active s - 1; scheduled := scheduled s;
                waiting := delete i (waiting s); queue := queue s |}).
  assert (inv s1) as Hinv1.
  { split; simpl; try done.
    - rewrite length_delete by eauto.
      assert (length (waiting s) ≠ 0)%nat; [| lia].
      intros E. apply nil_length_inv in E. by rewrite E in Hi.
    - intros h' r. rewrite lookup_insert_Some. intros [[<- <-] | [Hne Hr]].
      + split; [by exists k | done].
      + by apply inv_results0.
    - intros h' k' Hin'. 
      assert (h' ≠ h).
      { intros ->. apply Hnotin. apply list_elem_of_fmap. by exists (h, k'). }
      rewrite lookup_insert_ne by done.
      apply inv_waiting0. by eapply list_elem_of_delete_inv.
    - intros h' Hh'. destruct (decide (h' = h)) as [->|Hne].
      + left. rewrite lookup_insert_eq. by eexists.
      + rewrite lookup_insert_ne by done.
        destruct (inv_cover0 h' Hh') as [|Hw]; [by left | right].
        rewrite Hperm1 in Hw. apply elem_of_cons in Hw as [|]; done. }
  destruct (drain_inv (size (results s1)) s1 Hinv1 Hd) as (Hinv2 & Hd2 & Hw2 & Ha2 & Hs2).
  pose proof (drain_exits (size (results s1)) s1 (le_n _)) as Hhead2.
  set (s2 := drain (size (results s1)) s1) in *.
  destruct (Z.ltb_spec (scheduled s2) end_) as [Hlt | Hge].
  - split; [by apply inv_schedule_next | | ].
    + simpl. done.
    + simpl. by rewrite Hd2.
  - destruct (active s2 =? 0) eqn:Hact; simpl.
    + destruct (bool_decide_reflect (size (results s2) = 0%nat)); simpl.
      * split; [by destruct Hinv2 | done |]. simpl. intros _.
        apply Z.eqb_eq in Hact. destruct Hinv2. 
        apply nil_length_inv. lia.
      * split; [done | done | by rewrite Hd2].
    + split; [done | done | by rewrite Hd2].
Qed.

Lemma settled_settle s i : settled s → settled (settle provider end_ i s).
Proof.
  intros Hs. unfold settle. destruct (waiting s !! i) as [[h k]|] eqn:Hi; [| done].
  destruct (provider h k) as [|msg] eqn:Hp.
  - by apply settled_rejected.
  - by eapply settled_resolved.
Qed.

Lemma settled_step s s' : step provider end_ s s' → settled s → settled s'.
Proof. intros [s0 i _]. apply settled_settle. Qed.

Lemma live_start workers :
  (1 ≤ workers)%nat → live (prime workers end_ (init first)).
Proof.
  intros Hw. split; [apply settled_start|].
  destruct workers as [|n]; [lia|]. simpl.
  destruct (Z.ltb_spec first end_) as [Hlt | Hge].
  - assert (∀ n s, waiting s ≠ [] → waiting (prime n end_ s) ≠ []) as H.
    { clear. induction n as [|n IH]; intros s Hs; simpl; [done|].
      destruct (scheduled s <? end_); [| done]. apply IH. simpl.
      intros E. by apply app_nil in E as [_ ?]. }
    split; [intros _ | intros E; exfalso; revert E]; by apply H.
  - simpl. split; [lia | lia].
Qed.

Lemma live_settle s i : is_Some (waiting s !! i) → live s → live (settle provider end_ i s).
Proof.
  intros [[h k] Hi] (Hs & Hbusy & Hclosed).
  split; [by apply settled_settle|].
  unfold settle. rewrite Hi. destruct (provider h k) as [|msg] eqn:Hp.
  - assert (waiting (rejected i h k s) ≠ []) as Hne.
    { simpl. intros E. apply (f_equal length) in E. rewrite length_insert in E.
      apply lookup_lt_Some in Hi. simpl in E. lia. }
    done.
  - pose proof (settled_resolved s i h k msg Hs Hi Hp) as [Hinv' Hhead' _].
    revert Hinv' Hhead'. unfold resolved.
    set (s2 := drain _ _).
    destruct (Z.ltb_spec (scheduled s2) end_) as [Hlt | Hge].
    + intros _ _. simpl.
      split; [intros _ | intros E; exfalso; revert E];
        intros E; by apply app_nil in E as [_ ?].
    + destruct (active s2 =? 0) eqn:Hact; simpl.
      * destruct (bool_decide_reflect (size (results s2) = 0%nat)) as [Hz | Hnz]; simpl.
        -- intros _ _. split; [lia | done].
        -- intros Hinv' Hhead'. split; [lia|]. intros Hw _. exfalso.
           apply Hnz. apply map_size_empty_iff. apply map_empty. intros h'.
           destruct (results s2 !! h') as [r|] eqn:E; [| done]. exfalso.
           destruct Hinv'. destruct (inv_results0 _ _ E) as [_ Hr].
           destruct (inv_cover0 (nextToEmit s2)) as [[? Hsome] | Hin]; [lia | congruence |].
           rewrite Hw in Hin. by apply elem_of_nil in Hin.
      * intros Hinv' _. split; [lia|]. intros Hw _. exfalso.
        destruct Hinv'. rewrite Hw in inv_active0. simpl in inv_active0.
        apply Z.eqb_neq in Hact. lia.
Qed.

(** When no call is waiting any more, every height up to the end of the
    window has been emitted and nothing is left in the reorder buffer. *)
Lemma live_quiescent s :
  live s → waiting s = [] → first ≤ end_ →
  nextToEmit s = end_ ∧ results s = ∅.
Proof.
  intros ([[] Hhead _] & Hbusy & _) Hw Hle.
  assert (nextToEmit s = scheduled s) as Hn.
  { destruct (decide (nextToEmit s = scheduled s)) as [|Hne]; [done|]. exfalso.
    destruct (inv_cover0 (nextToEmit s)) as [[? Hsome] | Hin]; [lia | congruence |].
    rewrite Hw in Hin. by apply elem_of_nil in Hin. }
  split.
  - destruct (Z.ltb_spec (scheduled s) end_) as [Hlt | Hge]; [by destruct (Hbusy Hlt) | lia].
  - apply map_empty. intros h. destruct (results s !! h) as [r|] eqn:E; [| done].
    destruct (inv_results0 _ _ E). lia.
Qed.
End Invariant.
End ParallelFacts.

Lemma reachable_settled provider workers first lastExclusive s :
  honest provider →
  ParallelProviderStreamer.reachable provider workers first lastExclusive s →
  PipelineInvariant.settled provider first (default MAX_SAFE_INTEGER lastExclusive) s.
Proof.
  intros Hh. revert s. apply rtc_ind_r.
  - apply ParallelFacts.settled_start.
  - intros s1 s2 _ [s0 i _] IH. by apply ParallelFacts.settled_settle.
Qed.

Lemma reachable_live provider workers first lastExclusive s :
  honest provider → (1 ≤ workers)%nat →
  ParallelProviderStreamer.reachable provider workers first lastExclusive s →
  PipelineInvariant.live provider first (default MAX_SAFE_INTEGER lastExclusive) s.
Proof.
  intros Hh Hw. revert s. apply rtc_ind_r.
  - by apply ParallelFacts.live_start.
  - intros s1 s2 _ [s0 i Hi] IH. by apply ParallelFacts.live_settle.
Qed.

Lemma StronglySorted_lookup_lt {A} (R : relation A) l i j x y :
  StronglySorted R l → l !! i = Some x → l !! j = Some y → (i < j)%nat → R x y.
Proof.
  intros Hs. revert i j. induction Hs as [|a l Hs IH Hall]; intros i j Hi Hj Hlt.
  - done.
  - destruct j as [|j]; [lia|]. destruct i as [|i]; simpl in *.
    + injection Hi as ->. rewrite Forall_forall in Hall. apply Hall.
      by eapply list_elem_of_lookup_2.
    + apply (IH i j); [done | done | lia].
Qed.

Lemma StronglySorted_lt_NoDup (l : list Z) : StronglySorted Z.lt l → NoDup l.
Proof.
  induction 1 as [|a l Hs IH Hall]; [constructor|].
  apply NoDup_cons. split; [| done].
  intros Hin. rewrite Forall_forall in Hall. specialize (Hall _ Hin). lia.
Qed.

(** C2. Whatever the number of workers and the order in which the fetches
    settle (and however often they are retried), in every state of a run of
    the parallel pipeline the messages delivered so far are strictly
    increasing in block height, so no height is delivered twice, and a message
    is delivered only after the message of every lower height of the window
    that is not absent. *)
Theorem delivery_in_order (provider : MessageProvider) (workers : nat)
    (first : BlockHeight) (lastExclusive : option BlockHeight)
    (s : ParallelProviderStreamer.t) :
  honest provider →
  ParallelProviderStreamer.reachable provider workers first lastExclusive s →
  let delivered := values (ParallelProviderStreamer.queue s) in
  StronglySorted Z.lt (height <$> delivered)
  ∧ NoDup (height <$> delivered)
  ∧ ∀ i m, delivered !! i = Some m →
      ∀ h' m', first ≤ h' < height m → first_return provider h' (Some m') →
        ∃ j, (j < i)%nat ∧ delivered !! j = Some m'.
Proof.
  intros Hh Hr. destruct (reachable_settled _ _ _ _ _ Hh Hr) as [[] _ _]. simpl.
  split_and!; [done | by apply StronglySorted_lt_NoDup |].
  intros i m Hi h' m' Hh' Hfr.
  assert (m ∈ values (ParallelProviderStreamer.queue s)) as Hm
    by (by eapply list_elem_of_lookup_2).
  destruct (inv_delivered _ Hm) as [Hrange _].
  assert (m' ∈ values (ParallelProviderStreamer.queue s)) as Hm'.
  { apply (inv_complete h' (Some m')); [lia | done]. }
  apply list_elem_of_lookup in Hm' as [j Hj]. exists j. split; [| done].
  assert (height m' = h') as Hheight.
  { destruct Hfr as (k & Hk & _). by apply (Hh _ _ _ Hk). }
  destruct (decide (j < i)%nat) as [|Hge]; [done | exfalso].
  destruct (decide (j = i)) as [->|Hne].
  - rewrite Hi in Hj. injection Hj as ->. lia.
  - assert (height m < height m'); [| lia].
    apply (StronglySorted_lookup_lt Z.lt (height <$> values (ParallelProviderStreamer.queue s)) i j);
      [done | by rewrite list_lookup_fmap, Hi | by rewrite list_lookup_fmap, Hj | lia].
Qed.

Lemma flaky_provider_honest : honest flaky_provider.
Proof.
  intros h k m. unfold flaky_provider.
  repeat case_bool_decide; simpl; try done; by intros [= <-].
Qed.

Lemma run_order_reachable provider workers first lastExclusive order :
  ParallelProviderStreamer.reachable provider workers first lastExclusive
    (ParallelProviderStreamer.run_order provider (default MAX_SAFE_INTEGER lastExclusive)
       order (ParallelProviderStreamer.start workers first lastExclusive)).
Proof.
  unfold ParallelProviderStreamer.reachable, ParallelProviderStreamer.run_order.
  induction order as [|i order IH] using rev_ind; simpl; [done|].
  rewrite foldl_app. simpl.
  set (s := foldl _ _ order) in *.
  destruct (ParallelProviderStreamer.waiting s !! i) as [w|] eqn:Hi.
  - eapply rtc_r; [exact IH|]. by constructor.
  - unfold ParallelProviderStreamer.settle. by rewrite Hi.
Qed.

Example out_of_order_run_delivers :
  height <$> values (ParallelProviderStreamer.queue out_of_order_run) = [100; 102; 103]
  ∧ done (ParallelProviderStreamer.queue out_of_order_run) = true
  ∧ ParallelProviderStreamer.waiting out_of_order_run = [].
Proof. vm_compute. done. Qed.

Lemma delivery_in_order_witness :
  let delivered := values (ParallelProviderStreamer.queue out_of_order_run) in
  StronglySorted Z.lt (height <$> delivered)
  ∧ NoDup (height <$> delivered)
  ∧ ∀ i m, delivered !! i = Some m →
      ∀ h' m', 100 ≤ h' < height m → first_return flaky_provider h' (Some m') →
        ∃ j, (j < i)%nat ∧ delivered !! j = Some m'.
Proof.
  exact (delivery_in_order flaky_provider 3 100 (Some 104) out_of_order_run
           flaky_provider_honest
           (run_order_reachable flaky_provider 3 100 (Some 104) [2; 2; 2; 1; 1; 0; 0]%nat)).
Defined.

(** *** The serial pipeline *)

Lemma fetch_settles provider h n : ∀ fuel k r,
  provider h (k + n)%nat = Resolves r →
  (∀ j, (j < n)%nat → provider h (k + j)%nat = Rejects) →
  (n < fuel)%nat →
  ProviderStreamer.fetch fuel provider h k = Some r.
Proof.
  induction n as [|n IH]; intros fuel k r Hres Hrej Hfuel;
    (destruct fuel as [|fuel]; [lia|]); simpl.
  - rewrite Nat.add_0_r in Hres. by rewrite Hres.
  - rewrite <- (Nat.add_0_r k) at 1. rewrite (Hrej 0%nat) by lia.
    apply IH; [| | lia].
    + by replace (S k + n)%nat with (k + S n)%nat by lia.
    + intros j Hj. replace (S k + j)%nat with (k + S j)%nat by lia. apply Hrej. lia.
Qed.

Lemma produce_settles provider fuel (nfail : Z → nat) (res : Z → option StreamerMessage)
    heights q :
  (∀ h, h ∈ heights →
        provider h (nfail h) = Resolves (res h)
        ∧ (∀ j, (j < nfail h)%nat → provider h j = Rejects)
        ∧ (nfail h < fuel)%nat) →
  done q = false →
  ProviderStreamer.produce fuel provider heights q
  = Some {| values := values q ++ omap res heights; done := false |}.
Proof.
  revert q. induction heights as [|h heights IH]; intros q Hall Hd; simpl.
  - rewrite app_nil_r. destruct q. simpl in Hd. by subst.
  - destruct (Hall h) as (Hres & Hrej & Hfuel); [by left|].
    rewrite (fetch_settles provider h (nfail h) fuel 0%nat (res h)); [| done | done | done].
    destruct (push_if_present_open (res h) q Hd) as [Hv Hd'].
    rewrite IH; [| intros h' Hh'; apply Hall; by right | done].
    rewrite Hv, <- app_assoc. by destruct (res h).
Qed.

(** ** Correlation across blocks *)

(** *** The follow-on loop *)

Lemma point_at_lookup hash ids (r2t : gmap string string) r :
  point_at hash ids r2t !! r = if decide (r ∈ ids) then Some hash else r2t !! r.
Proof.
  unfold point_at. revert r2t. induction ids as [|i ids IH]; intros r2t; cbn [foldl].
  - by rewrite decide_False by apply not_elem_of_nil.
  - rewrite IH. destruct (decide (r ∈ ids)) as [Hin|Hnin].
    + by rewrite decide_True by (by right).
    + rewrite lookup_insert. destruct (decide (i = r)) as [->|Hne].
      * by rewrite decide_True by (by left).
      * rewrite decide_False; [done|]. rewrite elem_of_cons. intros [-> | ?]; done.
Qed.

Lemma absorb_follow_ons_r2t txId ids (r2t : gmap string string) m r :
  (absorb_follow_ons txId ids (r2t, m)).1 !! r
  = if decide (r ∈ ids) then Some txId else r2t !! r.
Proof.
  unfold absorb_follow_ons. revert r2t m. induction ids as [|i ids IH]; intros r2t m; cbn [foldl fst snd].
  - by rewrite decide_False by apply not_elem_of_nil.
  - rewrite IH. destruct (decide (r ∈ ids)) as [Hin|Hnin].
    + by rewrite decide_True by (by right).
    + rewrite lookup_insert. destruct (decide (i = r)) as [->|Hne].
      * by rewrite decide_True by (by left).
      * rewrite decide_False; [done|]. rewrite elem_of_cons. intros [-> | ?]; done.
Qed.

Lemma absorb_follow_ons_get txId ids (r2t : gmap string string)
    (m : list (string * option TransactionReceipt)) r :
  JsMap.get r (absorb_follow_ons txId ids (r2t, m)).2
  = match JsMap.get r m with
    | Some v => Some v
    | None => if decide (r ∈ ids) then Some None else None
    end.
Proof.
  unfold absorb_follow_ons. revert r2t m. induction ids as [|i ids IH]; intros r2t m; cbn [foldl fst snd].
  - rewrite decide_False by apply not_elem_of_nil. by destruct (JsMap.get r m).
  - rewrite IH. unfold JsMap.has.
    destruct (JsMap.get i m) as [vi|] eqn:Hi.
    + destruct (JsMap.get r m) as [v|] eqn:Hr; [done|].
      destruct (decide (r ∈ ids)) as [Hin|Hnin].
      * by rewrite decide_True by (by right).
      * rewrite decide_False; [done|]. rewrite elem_of_cons.
        intros [-> | ?]; [congruence | done].
    + rewrite get_set. destruct (decide (i = r)) as [->|Hne].
      * rewrite Hi. by rewrite decide_True by (by left).
      * destruct (JsMap.get r m) as [v|] eqn:Hr; [done|].
        destruct (decide (r ∈ ids)) as [Hin|Hnin].
        -- by rewrite decide_True by (by right).
        -- rewrite decide_False; [done|]. rewrite elem_of_cons. intros [-> | ?]; done.
Qed.

Lemma absorb_follow_ons_NoDup txId ids (r2t : gmap string string)
    (m : list (string * option TransactionReceipt)) :
  NoDup (JsMap.keys m) → NoDup (JsMap.keys (absorb_follow_ons txId ids (r2t, m)).2).
Proof.
  unfold absorb_follow_ons. revert r2t m. induction ids as [|i ids IH]; intros r2t m Hnd; simpl.
  - done.
  - apply IH. simpl. destruct (JsMap.has i m); [done | by apply keys_set_NoDup].
Qed.

Lemma fresh_receipts_get ids r :
  JsMap.get r (fresh_receipts ids) = if decide (r ∈ ids) then Some None else None.
Proof.
  unfold fresh_receipts.
  assert (∀ m : list (string * option TransactionReceipt),
            JsMap.get r (foldl (λ m r, JsMap.set r None m) m ids)
            = if decide (r ∈ ids) then Some None else JsMap.get r m) as H.
  { induction ids as [|i ids IH]; intros m; cbn [foldl].
    - by rewrite decide_False by apply not_elem_of_nil.
    - rewrite IH. destruct (decide (r ∈ ids)) as [Hin|Hnin].
      + by rewrite decide_True by (by right).
      + rewrite get_set. destruct (decide (i = r)) as [->|Hne].
        * by rewrite decide_True by (by left).
        * rewrite decide_False; [done|]. rewrite elem_of_cons. intros [-> | ?]; done. }
  by rewrite H.
Qed.

Lemma fresh_receipts_NoDup ids : NoDup (JsMap.keys (fresh_receipts ids)).
Proof.
  unfold fresh_receipts.
  assert (∀ m : list (string * option TransactionReceipt),
            NoDup (JsMap.keys m) →
            NoDup (JsMap.keys (foldl (λ m r, JsMap.set r None m) m ids))) as H.
  { induction ids as [|i ids IH]; intros m Hm; simpl; [done|].
    by apply IH, keys_set_NoDup. }
  apply H. constructor.
Qed.

(** The values of a map whose keys are the ids [rs], each resolved to the
    receipt at the same position of [ps]. *)
Lemma values_resolved (m : list (string * option TransactionReceipt))
    (rs : list string) (ps : list TransactionReceipt) :
  NoDup (JsMap.keys m) → NoDup rs → length rs = length ps →
  (∀ r, r ∈ JsMap.keys m → r ∈ rs) →
  (∀ j r p, rs !! j = Some r → ps !! j = Some p → JsMap.get r m = Some (Some p)) →
  every_not_null (JsMap.values m) = true ∧ as_receipts (JsMap.values m) ≡ₚ ps.
Proof.
  intros Hm Hrs Hlen Hkeys Hget.
  assert (m ≡ₚ zip rs (Some <$> ps)) as Hperm.
  { apply NoDup_Permutation.
    - by apply NoDup_fmap_1 with (f := fst).
    - apply NoDup_fmap_1 with (f := fst). rewrite fst_zip; [done|].
      rewrite length_fmap. lia.
    - intros [r v]. rewrite (elem_of_get _ _ _ Hm). split.
      + intros Hr.
        assert (r ∈ rs) as Hin by (apply Hkeys, elem_of_keys_get; by rewrite Hr).
        apply list_elem_of_lookup in Hin as [j Hj].
        destruct (ps !! j) as [p|] eqn:Hp.
        * rewrite (Hget _ _ _ Hj Hp) in Hr. injection Hr as <-.
          apply list_elem_of_lookup. exists j.
          apply lookup_zip_with_Some. exists r, (Some p).
          split_and!; [done | done | by rewrite list_lookup_fmap, Hp].
        * apply lookup_lt_Some in Hj. apply lookup_ge_None in Hp. lia.
      + intros Hin. apply list_elem_of_lookup in Hin as [j Hj].
        apply lookup_zip_with_Some in Hj as (r' & v' & [= <- <-] & Hr & Hv).
        rewrite list_lookup_fmap in Hv.
        destruct (ps !! j) as [p|] eqn:Hp; [| done]. injection Hv as <-.
        by eapply Hget. }
  assert (JsMap.values m ≡ₚ Some <$> ps) as Hvals.
  { unfold JsMap.values. rewrite Hperm, snd_zip; [done|]. rewrite length_fmap. lia. }
  split.
  - apply every_not_null_spec. intros k Hin.
    rewrite Hperm in Hin. apply list_elem_of_lookup in Hin as [j Hj].
    apply lookup_zip_with_Some in Hj as (r' & v' & [= <- <-] & Hr & Hv).
    rewrite list_lookup_fmap in Hv. by destruct (ps !! j).
  - unfold as_receipts. rewrite Hvals. clear.
    induction ps as [|p ps IH]; simpl; [done | by rewrite IH].
Qed.

(** *** One transaction followed through consecutive blocks *)

Lemma elem_of_concat {A} (x : A) (ls : list (list A)) :
  x ∈ concat ls ↔ ∃ l, x ∈ l ∧ l ∈ ls.
Proof.
  induction ls as [|l ls IH]; simpl.
  - split; [by intros ?%elem_of_nil | by intros (l & _ & ?%elem_of_nil)].
  - rewrite elem_of_app, IH. split.
    + intros [Hx | (l' & Hx & Hl')]; [exists l; split; [done | by left] |].
      exists l'. split; [done | by right].
    + intros (l' & Hx & Hl'). apply elem_of_cons in Hl' as [-> | Hl']; [by left|].
      right. by exists l'.
Qed.

Lemma completions_app h calls1 calls2 :
  completions h (calls1 ++ calls2) = completions h calls1 ++ completions h calls2.
Proof. apply omap_app. Qed.

Lemma same_view_refl h U w : same_view h U w w.
Proof. done. Qed.

Lemma same_view_trans h U w1 w2 w3 :
  same_view h U w1 w2 → same_view h U w2 w3 → same_view h U w1 w3.
Proof.
  intros (H1 & H2 & H3) (H1' & H2' & H3'). split_and!; [congruence | | congruence].
  intros r Hr. rewrite H2 by done. by apply H2'.
Qed.

Lemma unseen_ret h U : unseen h U (ret tt).
Proof. intros w Hw. by exists w. Qed.

Lemma unseen_bind h U (c k : M InternalIndexerState.t unit) :
  unseen h U c → unseen h U k → unseen h U (c ;;; k).
Proof.
  intros Hc Hk w Hw. destruct (Hc w Hw) as (w1 & E1 & Hw1 & V1).
  destruct (Hk w1 Hw1) as (w2 & E2 & Hw2 & V2).
  exists w2. unfold bind. rewrite E1. split_and!; [done | done |].
  by eapply same_view_trans.
Qed.

Lemma unseen_when h U b c : unseen h U c → unseen h U (when b c).
Proof. destruct b; [done | intros _; apply unseen_ret]. Qed.

Lemma unseen_for_each {X} h U (l : list X) body :
  (∀ x, x ∈ l → unseen h U (body x)) → unseen h U (for_each l body).
Proof.
  induction l as [|x l IH]; intros Hb; simpl.
  - apply unseen_ret.
  - apply unseen_bind; [apply Hb; by left | apply IH; intros y Hy; apply Hb; by right].
Qed.

(** A call that never rejects and is not a completion of [h]. *)
Lemma unseen_call h U indexer e :
  (∀ calls e', throws indexer calls e' = None) →
  completions h [e] = [] →
  unseen h U (await_call (throws indexer) e).
Proof.
  intros Hq He [s calls] Hw. unfold await_call. rewrite Hq. simpl.
  eexists. split; [done|]. split; [done|].
  split_and!; [done | done |]. simpl. by rewrite completions_app, He, app_nil_r.
Qed.

Lemma reaches_bind {S} (P Q R : S * list Event → Prop) (c k : M S unit) :
  reaches P Q c → reaches Q R k → reaches P R (c ;;; k).
Proof.
  intros Hc Hk w Hw. destruct (Hc w Hw) as (w1 & E1 & Hw1).
  destruct (Hk w1 Hw1) as (w2 & E2 & Hw2). exists w2. unfold bind. by rewrite E1.
Qed.

Lemma reaches_post {S} (P Q Q' : S * list Event → Prop) (c : M S unit) :
  (∀ w, Q w → Q' w) → reaches P Q c → reaches P Q' c.
Proof. intros HQ Hc w Hw. destruct (Hc w Hw) as (w' & E & Hw'). exists w'. auto. Qed.

Lemma reaches_app {S X} (P Q : S * list Event → Prop) (l1 l2 : list X) body :
  reaches P Q (for_each l1 body ;;; for_each l2 body) →
  reaches P Q (for_each (l1 ++ l2) body).
Proof. intros H w Hw. rewrite for_each_app. by apply H. Qed.

Lemma reaches_unseen h U P c : framed h U P → unseen h U c → reaches P P c.
Proof.
  intros [Hcommon Hframe] Hc w Hw. destruct (Hc w (Hcommon w Hw)) as (w' & E & Hc' & V).
  exists w'. split; [done|]. by eapply Hframe.
Qed.

Lemma for_each_ext {S X} (l : list X) (f g : X → M S unit) w :
  (∀ x w, f x w = g x w) → for_each l f w = for_each l g w.
Proof.
  intros Hfg. revert w. induction l as [|x l IH]; intros w; simpl; [done|].
  unfold bind. rewrite Hfg. destruct (g x w) as [w1 [[[]|e]|]]; [apply IH | done | done].
Qed.

(** [processBlock] as two flat loops between the two block hooks. *)
Lemma processBlock_flat indexer message options w :
  InternalIndexerState.processBlock indexer message options w
  = (when (has_processBlock indexer && handle_raw_events options)
       (await_call (throws indexer) (CProcessBlock message)) ;;;
     for_each (block_transactions message) (λ tx,
       modify (InternalIndexerState.register_transaction options tx) ;;;
       when (has_processTransaction indexer && handle_raw_events options)
         (await_call (throws indexer) (CProcessTransaction tx message))) ;;;
     for_each (block_outcomes message) (λ r,
       InternalIndexerState.correlate indexer message options r ;;;
       when (has_processReceipt indexer && handle_raw_events options)
         (await_call (throws indexer) (CProcessReceipt r message))) ;;;
     when (has_processBlockEnd indexer)
       (await_call (throws indexer) (CProcessBlockEnd message))) w.
Proof.
  unfold InternalIndexerState.processBlock, block_transactions, block_outcomes, bind.
  destruct (when _ _ w) as [w1 [[[]|e]|]]; [| done | done].
  rewrite <- for_each_nested.
  rewrite (for_each_ext (shards message) _
             (λ shard, for_each (default [] (chunk shard))
                (λ tx, modify (InternalIndexerState.register_transaction options tx) ;;;
                       when (has_processTransaction indexer && handle_raw_events options)
                         (await_call (throws indexer) (CProcessTransaction tx message)))));
    [| by intros shard w'; destruct (chunk shard)].
  destruct (for_each _ _ w1) as [w2 [[[]|e]|]]; [| done | done].
  by rewrite <- for_each_nested.
Qed.

Lemma feed_app {S} (processBlock : StreamerMessage → BlockProcessingOptions → M S unit)
    (l1 l2 : list (StreamerMessage * BlockProcessingOptions)) (w : S * list Event) :
  feed processBlock (l1 ++ l2) w
  = let '(w1, rs1) := feed processBlock l1 w in
    let '(w2, rs2) := feed processBlock l2 w1 in
    (w2, rs1 ++ rs2).
Proof.
  revert w. induction l1 as [|[message options] l1 IH]; intros w; simpl.
  - by destruct (feed processBlock l2 w).
  - destruct (processBlock message options w) as [w' r]. rewrite IH.
    destruct (feed processBlock l1 w') as [w1 rs1].
    by destruct (feed processBlock l2 w1).
Qed.

Lemma resolving_blocks_length U (pre : list (StreamerMessage * BlockProcessingOptions)) :
  length (resolving_blocks U pre)
  = length (concat ((λ input, own_outcomes U input.1) <$> pre)).
Proof.
  unfold resolving_blocks. induction pre as [|input pre IH]; simpl; [done|].
  rewrite !length_app, length_replicate. f_equal. exact IH.
Qed.

Section Followed.
Context (indexer : Indexer) (T : IndexerTransactionWithOutcome)
        (outcomes : list IndexerExecutionOutcomeWithReceipt).
Context (Hquiet : ∀ calls e, throws indexer calls e = None).
Context (Hhook : has_onTransaction indexer = true).
Context (Hhash : tx_hash T ≠ EmptyString).
Context (Hnodup : NoDup (receipt_id <$> outcomes)).
Context (Howed : ∀ k o, outcomes !! k = Some o → receipt_id o ∈ owed T outcomes k).
Context (Hclosed : ∀ r, r ∈ owed T outcomes (length outcomes) → r ∈ receipt_id <$> outcomes).

Local Abbreviation h := (tx_hash T).
Local Abbreviation U := (receipt_id <$> outcomes).

Lemma call_quiet e (w : InternalIndexerState.t * list Event) :
  await_call (throws indexer) e w = ((w.1, w.2 ++ [e]), Ok tt).
Proof. unfold await_call. by rewrite Hquiet. Qed.

Lemma owed_mono k r : r ∈ owed T outcomes k → r ∈ U.
Proof.
  intros Hr. apply Hclosed. unfold owed in *.
  rewrite elem_of_app in *. destruct Hr as [|Hr]; [by left | right].
  rewrite take_ge by done. apply elem_of_concat in Hr as (ids & Hr & Hids).
  apply elem_of_concat. exists ids. split; [done|].
  apply list_elem_of_fmap in Hids as (o & -> & Ho).
  apply list_elem_of_fmap. exists o. split; [done|].
  by apply (subseteq_take k).
Qed.

Lemma owed_S k o :
  outcomes !! k = Some o → owed T outcomes (S k) = owed T outcomes k ++ receipt_ids o.
Proof.
  intros Ho. unfold owed. rewrite (take_S_r _ _ _ Ho), fmap_app, concat_app. simpl.
  by rewrite app_nil_r, app_assoc.
Qed.

(** A foreign transaction of a chunk. *)
Lemma foreign_tx_unseen message options t :
  foreign_tx h U t →
  unseen h U
    (modify (InternalIndexerState.register_transaction options t) ;;;
     when (has_processTransaction indexer && handle_raw_events options)
       (await_call (throws indexer) (CProcessTransaction t message))).
Proof.
  intros [Hne Hids]. apply unseen_bind; [| by apply unseen_when, unseen_call].
  intros [s calls] [Hr2t Hwf]. eexists. split; [done|]. simpl.
  unfold InternalIndexerState.register_transaction.
  destruct (preprocess options); [| done].
  assert (∀ r, point_at (tx_hash t) (tx_receipt_ids t)
                 (InternalIndexerState.receiptToTx s) !! r = Some h →
               InternalIndexerState.receiptToTx s !! r = Some h) as Hpt.
  { intros r. rewrite point_at_lookup. destruct (decide (r ∈ tx_receipt_ids t)); [| done].
    intros [= E]. done. }
  assert (∀ r, r ∈ U →
               InternalIndexerState.receiptToTx s !! r
               = point_at (tx_hash t) (tx_receipt_ids t)
                   (InternalIndexerState.receiptToTx s) !! r) as Hpt'.
  { intros r Hr. rewrite point_at_lookup. rewrite decide_False; [done|].
    intros Hin. by apply (Hids r). }
  unfold common, keyed_by_hash, same_view in *. simpl in *.
  destruct (preprocess_new_transactions options); simpl.
  - split_and!.
    + intros r Hr. by apply Hr2t, Hpt.
    + intros k itx. rewrite lookup_insert. destruct (decide (tx_hash t = k)).
      * by intros [= <-].
      * apply Hwf.
    + by rewrite lookup_insert_ne.
    + done.
    + done.
  - split_and!; try done.
    intros r Hr. by apply Hr2t, Hpt.
Qed.

(** A foreign receipt outcome. *)
Lemma foreign_outcome_unseen message options o :
  foreign_outcome U o →
  unseen h U
    (InternalIndexerState.correlate indexer message options o ;;;
     when (has_processReceipt indexer && handle_raw_events options)
       (await_call (throws indexer) (CProcessReceipt o message))).
Proof.
  intros [Hid Hids]. apply unseen_bind; [| by apply unseen_when, unseen_call].
  intros [s calls] [Hr2t Hwf].
  unfold InternalIndexerState.correlate, bind, get_state. simpl.
  destruct (InternalIndexerState.receiptToTx s !! receipt_id o) as [txId|] eqn:Htx;
    [| by eexists].
  assert (txId ≠ h) as Hne by (intros ->; by apply Hid, Hr2t).
  destruct (truthy txId && preprocess options); [| by eexists].
  destruct (InternalIndexerState.pendingTransactions s !! txId) as [incomplete|] eqn:Hpend;
    [| by eexists].
  assert (∃ calls1,
    when (has_onReceipt indexer && handle_preprocessed_transactions_by_indexer options)
      (await_call (throws indexer)
         (COnReceipt (processed_receipt o message) incomplete message)) (s, calls)
    = ((s, calls1), Ok tt) ∧ completions h calls1 = completions h calls) as (calls1 & -> & Hc1).
  { unfold when. destruct (_ && _); [| by eexists].
    rewrite call_quiet. eexists. split; [done|]. simpl.
    by rewrite completions_app, app_nil_r. }
  simpl. set (a := absorb_follow_ons txId (receipt_ids o) _).
  assert (∀ r, a.1 !! r = Some h → InternalIndexerState.receiptToTx s !! r = Some h) as Ha1.
  { intros r. unfold a. rewrite absorb_follow_ons_r2t.
    destruct (decide (r ∈ receipt_ids o)); [by intros [= ?] | done]. }
  assert (∀ r, r ∈ U → InternalIndexerState.receiptToTx s !! r = a.1 !! r) as Ha1'.
  { intros r Hr. unfold a. rewrite absorb_follow_ons_r2t. rewrite decide_False; [done|].
    intros Hin. by apply (Hids r). }
  assert (tx_hash (transaction incomplete) = txId) as Hkey by (by apply Hwf).
  unfold common, keyed_by_hash, same_view in *. simpl in *.
  destruct (every_not_null (JsMap.values a.2)); unfold modify; simpl.
  - unfold when. destruct (_ && _); [rewrite call_quiet |]; simpl.
    + eexists. split; [done|]. simpl. split_and!.
      * intros r Hr. by apply Hr2t, Ha1.
      * intros k itx. rewrite lookup_delete_Some, lookup_insert_Some.
        intros [? [[? ?] | [? ?]]]; [done | by apply Hwf].
      * by rewrite lookup_delete_ne, lookup_insert_ne.
      * done.
      * rewrite completions_app. simpl. rewrite Hkey, decide_False by done.
        by rewrite app_nil_r.
    + eexists. split; [done|]. simpl. split_and!; try done.
      * intros r Hr. by apply Hr2t, Ha1.
      * intros k itx. rewrite lookup_delete_Some, lookup_insert_Some.
        intros [? [[? ?] | [? ?]]]; [done | by apply Hwf].
      * by rewrite lookup_delete_ne, lookup_insert_ne.
  - eexists. split; [done|]. simpl. split_and!; try done.
    + intros r Hr. by apply Hr2t, Ha1.
    + intros k itx. rewrite lookup_insert_Some.
      intros [[<- <-] | [? ?]]; [done | by apply Hwf].
    + by rewrite lookup_insert_ne.
Qed.

Context (msgs : list StreamerMessage) (calls0 : list Event).
Context (Hlen : length msgs = length outcomes).

Lemma tracked_frame k w w' :
  tracked T outcomes msgs calls0 k w → common h U w' → same_view h U w w' →
  tracked T outcomes msgs calls0 k w'.
Proof.
  intros (m & Hpend & Hnd & Hkeys & Hres & Hunres & Hr2t & _ & Hcomp) Hc' (V1 & V2 & V3).
  exists m. split_and!; try done.
  - by rewrite <- V1.
  - intros r Hr. rewrite <- V2; [by apply Hr2t | by eapply owed_mono].
  - by rewrite <- V3.
Qed.

Lemma finished_frame last w w' :
  finished T outcomes msgs calls0 last w → common h U w' → same_view h U w w' →
  finished T outcomes msgs calls0 last w'.
Proof.
  intros (Hpend & _ & c & Hcomp & Hc) Hc' (V1 & V2 & V3).
  split_and!; [by rewrite <- V1 | done |].
  exists c. by rewrite <- V3.
Qed.

(** The chunk entry of [T] itself, in a block that registers new
    transactions. *)
Lemma register_followed message options w :
  preprocess options = true →
  preprocess_new_transactions options = true →
  common h U w →
  completions h w.2 = completions h calls0 →
  ∃ w',
    (modify (InternalIndexerState.register_transaction options T) ;;;
     when (has_processTransaction indexer && handle_raw_events options)
       (await_call (throws indexer) (CProcessTransaction T message))) w = (w', Ok tt)
    ∧ tracked T outcomes msgs calls0 0 w'.
Proof.
  intros Hpre Hnew [Hr2t Hwf] Hcomp. destruct w as [s calls].
  assert (tracked T outcomes msgs calls0 0
            (InternalIndexerState.register_transaction options T s, calls)) as Htr.
  { unfold InternalIndexerState.register_transaction. rewrite Hpre, Hnew.
    exists (fresh_receipts (tx_receipt_ids T)). simpl.
    assert (∀ r, r ∈ JsMap.keys (fresh_receipts (tx_receipt_ids T)) ↔ r ∈ tx_receipt_ids T)
      as Hk.
    { intros r. rewrite elem_of_keys_get, fresh_receipts_get.
      destruct (decide (r ∈ tx_receipt_ids T)); [by split; eauto |].
      split; [by intros [? ?] | done]. }
    split_and!.
    - apply lookup_insert_eq.
    - apply fresh_receipts_NoDup.
    - intros r. rewrite Hk. unfold owed. simpl. by rewrite app_nil_r.
    - intros j o msg Hj. lia.
    - intros r Hr _. rewrite fresh_receipts_get. apply Hk in Hr. by rewrite decide_True.
    - intros r. unfold owed. simpl. rewrite app_nil_r. intros Hr.
      rewrite point_at_lookup. by rewrite decide_True.
    - split.
      + simpl. intros r. rewrite point_at_lookup.
        destruct (decide (r ∈ tx_receipt_ids T)) as [Hin|]; [| apply Hr2t].
        intros _. apply (owed_mono 0). unfold owed. simpl. by rewrite app_nil_r.
      + intros k itx. simpl. rewrite lookup_insert_Some.
        intros [[<- <-] | [? ?]]; [done | by apply Hwf].
    - done. }
  unfold bind, modify. simpl.
  destruct (unseen_when h U (has_processTransaction indexer && handle_raw_events options) _
              (unseen_call h U indexer (CProcessTransaction T message) Hquiet eq_refl)
              (InternalIndexerState.register_transaction options T s, calls))
    as (w' & -> & Hc' & V); [by destruct Htr as (? & ? & ? & ? & ? & ? & ? & ? & ?) |].
  exists w'. split; [done|]. by eapply tracked_frame.
Qed.

(** The receipt number [k] of [T] is resolved in its block. *)
Lemma resolve_followed k o message options w :
  outcomes !! k = Some o → msgs !! k = Some message →
  preprocess options = true →
  handle_preprocessed_transactions_by_indexer options = true →
  tracked T outcomes msgs calls0 k w →
  ∃ w', InternalIndexerState.correlate indexer message options o w = (w', Ok tt)
        ∧ stage_after T outcomes msgs calls0 k message w'.
Proof.
  intros Ho Hmsg Hpre Hrep
    (m & Hpend & Hnd & Hkeys & Hres & Hunres & Hr2t & [Hc1 Hwf] & Hcomp).
  destruct w as [s calls]. simpl in *.
  set (r := receipt_id o). set (p := processed_receipt o message).
  assert (U !! k = Some r) as HUk by (by rewrite list_lookup_fmap, Ho).
  assert (r ∈ owed T outcomes k) as Hr_owed by (by apply Howed).
  unfold InternalIndexerState.correlate, bind, get_state. simpl.
  fold r. rewrite (Hr2t r Hr_owed).
  assert (truthy h = true) as -> by (by apply bool_decide_eq_true_2).
  rewrite Hpre, Hpend. simpl. fold p.
  assert (∃ calls1,
    when (has_onReceipt indexer && handle_preprocessed_transactions_by_indexer options)
      (await_call (throws indexer)
         (COnReceipt p {| transaction := T; receipts := m |} message)) (s, calls)
    = ((s, calls1), Ok tt) ∧ completions h calls1 = completions h calls) as (calls1 & -> & Hc1').
  { unfold when. destruct (_ && _); [| by eexists].
    rewrite call_quiet. eexists. split; [done|]. simpl.
    by rewrite completions_app, app_nil_r. }
  simpl. fold r p.
  set (a := absorb_follow_ons h (receipt_ids o) _).
  (* the new receipt map *)
  assert (∀ r', JsMap.get r' a.2
                = if decide (r = r') then Some (Some p)
                  else match JsMap.get r' m with
                       | Some v => Some v
                       | None => if decide (r' ∈ receipt_ids o) then Some None else None
                       end) as Hget.
  { intros r'. unfold a. rewrite absorb_follow_ons_get. simpl. rewrite get_set.
    by destruct (decide (r = r')). }
  assert (NoDup (JsMap.keys a.2)) as Hnd'.
  { unfold a. apply absorb_follow_ons_NoDup. simpl. by apply keys_set_NoDup. }
  assert (∀ r', r' ∈ JsMap.keys a.2 ↔ r' ∈ owed T outcomes (S k)) as Hkeys'.
  { intros r'. rewrite (owed_S k o Ho), elem_of_app, <- Hkeys.
    rewrite !elem_of_keys_get, Hget.
    destruct (decide (r = r')) as [<-|Hne].
    - split; [intros _; left; by apply elem_of_keys_get, Hkeys | by eauto].
    - destruct (JsMap.get r' m) as [v|]; [by split; eauto |].
      destruct (decide (r' ∈ receipt_ids o)).
      + split; [by right | by eauto].
      + split; [by intros [? ?] | by intros [[? ?] | ?]]. }
  assert (∀ j o' msg, (j < S k)%nat → outcomes !! j = Some o' → msgs !! j = Some msg →
            JsMap.get (receipt_id o') a.2 = Some (Some (processed_receipt o' msg))) as Hres'.
  { intros j o' msg Hj Ho' Hmsg'. rewrite Hget.
    destruct (decide (j = k)) as [->|Hjk].
    - rewrite Ho in Ho'. injection Ho' as <-. rewrite Hmsg in Hmsg'. injection Hmsg' as <-.
      by rewrite decide_True.
    - rewrite decide_False.
      + rewrite (Hres j o' msg) by (done || lia). done.
      + intros E. apply Hjk.
        apply (NoDup_lookup U j k r); [done | | done].
        rewrite list_lookup_fmap, Ho'. simpl. by rewrite <- E. }
  assert (∀ r', r' ∈ JsMap.keys a.2 → r' ∉ take (S k) U → JsMap.get r' a.2 = Some None)
    as Hunres'.
  { intros r' Hin Hnot. rewrite (take_S_r _ _ _ HUk), not_elem_of_app in Hnot.
    destruct Hnot as [Hnot Hne]. rewrite list_elem_of_singleton in Hne.
    rewrite Hget, decide_False by done.
    apply elem_of_keys_get in Hin. rewrite Hget, decide_False in Hin by done.
    destruct (JsMap.get r' m) as [v|] eqn:E.
    - rewrite <- E. apply Hunres; [| done]. apply elem_of_keys_get. by rewrite E.
    - destruct (decide (r' ∈ receipt_ids o)); [done | by destruct Hin]. }
  assert (∀ r', r' ∈ owed T outcomes (S k) → a.1 !! r' = Some h) as Hr2t'.
  { intros r'. rewrite (owed_S k o Ho), elem_of_app. unfold a.
    rewrite absorb_follow_ons_r2t. intros [Hin | Hin].
    - destruct (decide (r' ∈ receipt_ids o)); [done | by apply Hr2t].
    - by rewrite decide_True. }
  assert (∀ r', a.1 !! r' = Some h → r' ∈ U) as Hc1''.
  { intros r'. unfold a. rewrite absorb_follow_ons_r2t.
    destruct (decide (r' ∈ receipt_ids o)) as [Hin|]; [| apply Hc1].
    intros _. apply (owed_mono (S k)). rewrite (owed_S k o Ho), elem_of_app. by right. }
  unfold stage_after, modify. simpl.
  destruct (decide (S k = length outcomes)) as [Hlast | Hmore].
  - (* the last owed receipt: every entry is resolved *)
    destruct (values_resolved a.2 U (zip_with processed_receipt outcomes msgs))
      as [Hall Hperm]; [done | done | | | |].
    { rewrite length_fmap, length_zip_with. lia. }
    { intros r' Hr'. apply Hkeys' in Hr'. by eapply owed_mono. }
    { intros j r' p' Hj Hp'. rewrite list_lookup_fmap in Hj.
      apply lookup_zip_with_Some in Hp' as (o' & msg & -> & Ho' & Hmsg').
      rewrite Ho' in Hj. injection Hj as <-.
      apply (Hres' j); [| done | done]. apply lookup_lt_Some in Ho'. lia. }
    rewrite Hall. simpl. rewrite Hhook, Hrep. simpl. rewrite call_quiet. simpl.
    eexists. split; [done|]. unfold finished, common, keyed_by_hash. simpl. split_and!.
    + apply lookup_delete_eq.
    + done.
    + intros k' itx.
      rewrite lookup_delete_Some, lookup_insert_Some.
      intros [? [[? ?] | [? ?]]]; [done | by apply Hwf].
    + exists {| c_transaction := T; c_receipts := as_receipts (JsMap.values a.2) |}.
      split_and!; [| done | exact Hperm].
      rewrite completions_app. simpl. rewrite decide_True by done.
      by rewrite Hc1', Hcomp.
  - (* another receipt is still owed *)
    assert (S k < length outcomes)%nat as Hlt.
    { apply lookup_lt_Some in Ho. lia. }
    destruct (lookup_lt_is_Some_2 outcomes (S k) Hlt) as [o' Ho'].
    assert (JsMap.get (receipt_id o') a.2 = Some None) as Hnull.
    { apply Hunres'.
      - apply Hkeys'. by apply Howed.
      - intros Hin. apply elem_of_take in Hin as (j & Hj & Hjk).
        assert (j = S k); [| lia].
        apply (NoDup_lookup U j (S k) (receipt_id o')); [done | done |].
        by rewrite list_lookup_fmap, Ho'. }
    assert (every_not_null (JsMap.values a.2) = false) as ->.
    { destruct (every_not_null (JsMap.values a.2)) eqn:E; [| done].
      exfalso. apply (proj1 (every_not_null_spec a.2) E (receipt_id o')).
      by apply elem_of_get. }
    eexists. split; [done|]. exists a.2. unfold common, keyed_by_hash. simpl.
    split_and!; try done.
    + apply lookup_insert_eq.
    + intros k' itx. rewrite lookup_insert_Some.
      intros [[<- <-] | [? ?]]; [done | by apply Hwf].
    + by rewrite Hc1'.
Qed.

Lemma ready_framed : framed h U (ready T outcomes calls0).
Proof.
  split; [by intros w [? ?] |].
  intros w w' [_ Hc] Hc' (_ & _ & V). split; [done | by rewrite <- V].
Qed.

Lemma tracked_framed k : framed h U (tracked T outcomes msgs calls0 k).
Proof.
  split; [| intros w w'; apply tracked_frame].
  by intros w (? & ? & ? & ? & ? & ? & ? & ? & ?).
Qed.

Lemma finished_framed last : framed h U (finished T outcomes msgs calls0 last).
Proof.
  split; [| intros w w'; apply finished_frame].
  by intros w (? & ? & ?).
Qed.

Lemma stage_after_framed k message : framed h U (stage_after T outcomes msgs calls0 k message).
Proof.
  unfold stage_after. destruct (decide _); [apply finished_framed | apply tracked_framed].
Qed.

Lemma stage_framed k : framed h U (stage T outcomes msgs calls0 k).
Proof.
  unfold stage. destruct (decide _); [apply tracked_framed|]. split.
  - intros w (last & _ & Hf). by apply (proj1 (finished_framed last)).
  - intros w w' (last & Hl & Hf) Hc V. exists last. split; [done|].
    by eapply finished_frame.
Qed.

Lemma stage_after_stage k message w :
  msgs !! k = Some message → (k < length outcomes)%nat →
  stage_after T outcomes msgs calls0 k message w → stage T outcomes msgs calls0 (S k) w.
Proof.
  intros Hm Hk. unfold stage_after, stage.
  destruct (decide (S k = length outcomes)) as [E|E].
  - rewrite decide_False by lia. intros Hf. exists message. split; [| done].
    by replace (length outcomes - 1)%nat with k by lia.
  - by rewrite decide_True by lia.
Qed.

(** The receipts of one block: those of [T] are resolved one after the
    other, the others go unseen. *)
Lemma outcomes_followed message options os :
  preprocess options = true →
  handle_preprocessed_transactions_by_indexer options = true →
  Forall (λ o, receipt_id o ∈ U ∨ foreign_outcome U o) os →
  ∀ resolved rest mdone mrest,
    outcomes = resolved ++ filter (λ o, receipt_id o ∈ U) os ++ rest →
    msgs = mdone ++ replicate (length (filter (λ o, receipt_id o ∈ U) os)) message ++ mrest →
    length mdone = length resolved →
    reaches (stage T outcomes msgs calls0 (length resolved))
      (stage T outcomes msgs calls0
         (length resolved + length (filter (λ o, receipt_id o ∈ U) os)))
      (for_each os (λ r,
         InternalIndexerState.correlate indexer message options r ;;;
         when (has_processReceipt indexer && handle_raw_events options)
           (await_call (throws indexer) (CProcessReceipt r message)))).
Proof.
  intros Hpre Hrep Hos.
  induction Hos as [|o os Ho _ IH]; intros resolved rest mdone mrest Eo Em Hl.
  - simpl. rewrite Nat.add_0_r. intros w Hw. by exists w.
  - destruct (decide (receipt_id o ∈ U)) as [Hin|Hout].
    + rewrite filter_cons_True in Eo, Em |- * by done. simpl in Eo, Em.
      assert (outcomes !! length resolved = Some o) as Hko.
      { rewrite Eo. by rewrite lookup_app_r, Nat.sub_diag by lia. }
      assert (msgs !! length resolved = Some message) as Hkm.
      { rewrite Em, <- Hl. by rewrite lookup_app_r, Nat.sub_diag by lia. }
      assert (length resolved < length outcomes)%nat as Hlt by (by eapply lookup_lt_Some).
      simpl.
      apply reaches_bind with (Q := stage T outcomes msgs calls0 (S (length resolved))).
      { apply reaches_bind with (Q := stage T outcomes msgs calls0 (S (length resolved))).
        - intros w Hw. unfold stage in Hw. rewrite decide_True in Hw by done.
          destruct (resolve_followed _ o message options w Hko Hkm Hpre Hrep Hw)
            as (w' & E & Hw').
          exists w'. split; [done|]. by apply (stage_after_stage _ message).
        - apply (reaches_unseen h U); [apply stage_framed|].
          by apply unseen_when, unseen_call. }
      replace (length resolved + S (length (filter (λ o0, receipt_id o0 ∈ U) os)))%nat
        with (length (resolved ++ [o]) + length (filter (λ o0, receipt_id o0 ∈ U) os))%nat
        by (rewrite length_app; simpl; lia).
      replace (S (length resolved)) with (length (resolved ++ [o]))
        by (rewrite length_app; simpl; lia).
      apply (IH (resolved ++ [o]) rest (mdone ++ [message]) mrest).
      * rewrite <- app_assoc. exact Eo.
      * rewrite <- app_assoc. exact Em.
      * rewrite !length_app. simpl. lia.
    + rewrite filter_cons_False in Eo, Em |- * by done.
      destruct Ho as [? | Hf]; [done|].
      simpl. apply reaches_bind with (Q := stage T outcomes msgs calls0 (length resolved)).
      { apply (reaches_unseen h U); [apply stage_framed | by apply foreign_outcome_unseen]. }
      by apply (IH resolved rest mdone mrest).
Qed.

Context (inputs : list (StreamerMessage * BlockProcessingOptions)).
Context (Hne : outcomes ≠ []).
Context (Houtcomes : concat ((λ input, own_outcomes U input.1) <$> inputs) = outcomes).
Context (Hmsgs : msgs = resolving_blocks U inputs).
Context (Hcarries : ∀ k message options,
           inputs !! k = Some (message, options) → carries T outcomes k message options).

Local Abbreviation own_of pre := (concat ((λ input, own_outcomes U input.1) <$> pre)).

Lemma stage_at_framed pre : framed h U (stage_at T outcomes msgs calls0 pre).
Proof. unfold stage_at. destruct (decide _); [apply ready_framed | apply stage_framed]. Qed.

(** One block of the scenario. *)
Lemma block_followed pre_in post_in message options :
  inputs = pre_in ++ (message, options) :: post_in →
  reaches (stage_at T outcomes msgs calls0 pre_in)
    (stage_at T outcomes msgs calls0 (pre_in ++ [(message, options)]))
    (InternalIndexerState.processBlock indexer message options).
Proof.
  intros Hin.
  destruct (Hcarries (length pre_in) message options) as (Hpre & Hrep & Htxs & Hos).
  { rewrite Hin. apply list_lookup_middle. done. }
  assert (outcomes = own_of pre_in ++ own_outcomes U message ++ own_of post_in) as Eo.
  { rewrite <- Houtcomes at 1. rewrite Hin, fmap_app, concat_app. done. }
  assert (msgs = resolving_blocks U pre_in
                 ++ replicate (length (own_outcomes U message)) message
                 ++ resolving_blocks U post_in) as Em.
  { rewrite Hmsgs, Hin. unfold resolving_blocks. by rewrite fmap_app, concat_app. }
  assert (0 < length outcomes)%nat as Hpos by (destruct outcomes; [done | simpl; lia]).
  intros w Hw. rewrite processBlock_flat. revert w Hw.
  apply reaches_bind with (Q := stage_at T outcomes msgs calls0 pre_in).
  { apply (reaches_unseen h U); [apply stage_at_framed | by apply unseen_when, unseen_call]. }
  apply reaches_bind with (Q := stage T outcomes msgs calls0 (length (own_of pre_in))).
  { unfold stage_at. destruct (decide (pre_in = [])) as [-> | Hpre_in].
    - simpl in Htxs. destruct Htxs as (Hnew & tpre & tpost & -> & Htpre & Htpost).
      change (length (own_of [])) with 0%nat.
      apply reaches_post with (Q := tracked T outcomes msgs calls0 0).
      { intros w' Hw'. unfold stage. by rewrite decide_True. }
      apply reaches_app, reaches_bind with (Q := ready T outcomes calls0).
      { apply (reaches_unseen h U); [apply ready_framed|]. apply unseen_for_each.
        intros t Ht. apply foreign_tx_unseen. rewrite Forall_forall in Htpre. by apply Htpre. }
      simpl. apply reaches_bind with (Q := tracked T outcomes msgs calls0 0).
      { intros w [Hc Hcomp]. by apply register_followed. }
      apply (reaches_unseen h U); [apply tracked_framed|]. apply unseen_for_each.
      intros t Ht. apply foreign_tx_unseen. rewrite Forall_forall in Htpost. by apply Htpost.
    - rewrite decide_False in Htxs by (by destruct pre_in).
      apply (reaches_unseen h U); [apply stage_framed|]. apply unseen_for_each.
      intros t Ht. apply foreign_tx_unseen. rewrite Forall_forall in Htxs. by apply Htxs. }
  apply reaches_bind
    with (Q := stage T outcomes msgs calls0
                 (length (own_of pre_in) + length (own_outcomes U message))).
  { apply (outcomes_followed message options (block_outcomes message) Hpre Hrep Hos
             (own_of pre_in) (own_of post_in)
             (resolving_blocks U pre_in) (resolving_blocks U post_in) Eo Em).
    apply resolving_blocks_length. }
  apply reaches_post
    with (Q := stage T outcomes msgs calls0
                 (length (own_of pre_in) + length (own_outcomes U message))).
  { intros w' Hw'. unfold stage_at. rewrite decide_False by (by destruct pre_in).
    rewrite fmap_app, concat_app, length_app. simpl. by rewrite app_nil_r. }
  apply (reaches_unseen h U); [apply stage_framed |].
  by apply unseen_when, unseen_call.
Qed.

(** A stretch of consecutive blocks of the scenario. *)
Lemma blocks_followed mid :
  ∀ pre_in post_in w,
    inputs = pre_in ++ mid ++ post_in →
    stage_at T outcomes msgs calls0 pre_in w →
    ∃ w', feed (InternalIndexerState.processBlock indexer) mid w
          = (w', replicate (length mid) (Settled (Ok tt)))
          ∧ stage_at T outcomes msgs calls0 (pre_in ++ mid) w'.
Proof.
  induction mid as [|[message options] mid IH]; intros pre_in post_in w Hin Hw.
  - exists w. by rewrite app_nil_r.
  - destruct (block_followed pre_in (mid ++ post_in) message options Hin w Hw)
      as (w1 & E1 & Hw1).
    destruct (IH (pre_in ++ [(message, options)]) post_in w1) as (w2 & E2 & Hw2);
      [by rewrite <- app_assoc | done |].
    exists w2. simpl. rewrite E1, E2. split; [done|].
    by rewrite <- app_assoc in Hw2.
Qed.

(** The whole scenario: [T] is not reported before the last block, and is
    finished by it. *)
Lemma run_followed w0 message options :
  last inputs = Some (message, options) →
  own_outcomes U message ≠ [] →
  ready T outcomes calls0 w0 →
  ∃ w w',
    feed (InternalIndexerState.processBlock indexer) (take (length inputs - 1) inputs) w0
    = (w, replicate (length inputs - 1) (Settled (Ok tt)))
    ∧ completions h w.2 = completions h calls0
    ∧ feed (InternalIndexerState.processBlock indexer) inputs w0
      = (w', replicate (length inputs) (Settled (Ok tt)))
    ∧ finished T outcomes msgs calls0 message w'.
Proof.
  intros Hlast Hown Hw0.
  assert (∃ front, inputs = front ++ [(message, options)]) as [front Hfront].
  { destruct (last_Some inputs (message, options)) as [[l' ->] _]; [done | by eexists]. }
  assert (take (length inputs - 1) inputs = front) as Htake.
  { rewrite Hfront, length_app. simpl.
    replace (length front + 1 - 1)%nat with (length front) by lia.
    by rewrite take_app_length. }
  assert (length outcomes = length (own_of front) + length (own_outcomes U message))%nat
    as HN.
  { rewrite <- Houtcomes at 1. rewrite Hfront, fmap_app, concat_app, length_app. simpl.
    by rewrite app_nil_r. }
  assert (0 < length (own_outcomes U message))%nat as Hpos.
  { destruct (own_outcomes U message); [done | simpl; lia]. }
  assert (stage_at T outcomes msgs calls0 [] w0) as Hstart.
  { unfold stage_at. by rewrite decide_True. }
  destruct (blocks_followed front [] [(message, options)] w0 Hfront Hstart)
    as (w & Ew & Hw).
  destruct (blocks_followed inputs [] [] w0) as (w' & Ew' & Hw');
    [by rewrite app_nil_r | done |].
  exists w, w'. rewrite Htake. simpl in Hw, Hw'.
  replace (length inputs - 1)%nat with (length front)
    by (rewrite Hfront, length_app; simpl; lia).
  split_and!; [done | | done |].
  - unfold stage_at in Hw. destruct (decide (front = [])); [by destruct Hw|].
    unfold stage in Hw. rewrite decide_True in Hw by lia.
    by destruct Hw as (? & ? & ? & ? & ? & ? & ? & ? & ?).
  - unfold stage_at in Hw'. rewrite decide_False in Hw'.
    2: { rewrite Hfront. by destruct front. }
    unfold stage in Hw'. rewrite Houtcomes in Hw'. rewrite decide_False in Hw' by lia.
    destruct Hw' as (last' & Hl' & Hfin).
    assert (last' = message) as ->; [| done].
    rewrite Hmsgs, Hfront in Hl'. unfold resolving_blocks in Hl'.
    rewrite fmap_app, concat_app in Hl'. simpl in Hl'. rewrite app_nil_r in Hl'.
    rewrite lookup_app_r in Hl'.
    2: { fold (resolving_blocks U front). rewrite resolving_blocks_length. lia. }
    apply lookup_replicate in Hl'. by destruct Hl'.
Qed.

(** A block of other transactions only. *)
Lemma foreign_block_unseen message options :
  foreign_block h U message →
  unseen h U (InternalIndexerState.processBlock indexer message options).
Proof.
  intros [Htxs Hos] w Hw. rewrite processBlock_flat. revert w Hw.
  apply unseen_bind; [by apply unseen_when, unseen_call |].
  apply unseen_bind.
  { apply unseen_for_each. intros t Ht. apply foreign_tx_unseen.
    rewrite Forall_forall in Htxs. by apply Htxs. }
  apply unseen_bind; [| by apply unseen_when, unseen_call].
  apply unseen_for_each. intros o Ho. apply foreign_outcome_unseen.
  rewrite Forall_forall in Hos. by apply Hos.
Qed.

Lemma later_blocks_unseen (later : list (StreamerMessage * BlockProcessingOptions)) w :
  Forall (λ input, foreign_block h U input.1) later →
  common h U w →
  ∃ w', feed (InternalIndexerState.processBlock indexer) later w
        = (w', replicate (length later) (Settled (Ok tt)))
        ∧ common h U w' ∧ same_view h U w w'.
Proof.
  intros Hlater. revert w. induction Hlater as [|[message options] later Hb _ IH];
    intros w Hw; simpl.
  - by exists w.
  - destruct (foreign_block_unseen message options Hb w Hw) as (w1 & -> & Hw1 & V1).
    destruct (IH w1 Hw1) as (w2 & -> & Hw2 & V2).
    exists w2. split_and!; [done | done | by eapply same_view_trans].
Qed.

End Followed.

(** The receipts resolved by the blocks, each with the height and the
    timestamp of its block. *)
Lemma zip_resolving_blocks U (inputs : list (StreamerMessage * BlockProcessingOptions)) :
  zip_with processed_receipt
    (concat ((λ input, own_outcomes U input.1) <$> inputs)) (resolving_blocks U inputs)
  = concat ((λ input,
       (λ o, {| receipt := o;
                block_height := height input.1;
                block_timestamp_nanosec := String_of (timestamp_nanosec input.1) |})
       <$> own_outcomes U input.1) <$> inputs).
Proof.
  unfold resolving_blocks. induction inputs as [|input inputs IH]; simpl; [done|].
  rewrite zip_with_app by (by rewrite length_replicate). f_equal; [| exact IH].
  by rewrite zip_with_replicate_r_eq.
Qed.



(** The call made in the scenario above: one [onTransaction] for [T1], at
    height 102, with both receipts and the heights of their blocks. *)
Example staggered_blocks_completion :
  (λ '(c, block),
     (c_transaction c,
      (λ p, (receipt_id (receipt p), block_height p)) <$> c_receipts c, height block))
    <$> completions "T1"
          (feed (InternalIndexerState.processBlock quiet_indexer) staggered_blocks
             (InternalIndexerState.new, [])).1.2
  = [(tx_T1, [("r1"%string, 101); ("r2"%string, 102)], 102)].
Proof. vm_compute. reflexivity. Qed.

(** Both receipts in the registering block: one call, in that block. *)
Example crowded_block_completion :
  (λ '(c, block),
     (c_transaction c,
      (λ p, (receipt_id (receipt p), block_height p)) <$> c_receipts c, height block))
    <$> completions "T1"
          (feed (InternalIndexerState.processBlock quiet_indexer) crowded_block
             (InternalIndexerState.new, [])).1.2
  = [(tx_T1, [("r1"%string, 100); ("r2"%string, 100)], 100)].
Proof. vm_compute. reflexivity. Qed.

(** The call made in the scenario above: one [onTransaction] for [T1], at
    height 101, with both receipts. *)
Example two_blocks_completion :
  (λ '(c, block), (c_transaction c, receipt_id ∘ receipt <$> c_receipts c, height block))
    <$> completions "T1"
          (feed (InternalIndexerState.processBlock quiet_indexer) two_blocks
             (InternalIndexerState.new, [])).1.2
  = [(tx_T1, ["r1"; "r2"], 101)].
Proof. vm_compute. reflexivity. Qed.

(** ** [NeardataProvider] and the end-to-end scenarios *)

(** Range [[100, 103)], no preprocessing: raw hooks for heights 100 to 102,
    no correlated hook. *)
Example scenario_raw_only :
  call_shape <$>
    (run quiet_indexer (NeardataProvider.stream (same_block_fetcher (SuccessValue None)))
       (scenario_options 100 103 None)).1.2
  = [("processBlock", 100); ("processTransaction", 100); ("processReceipt", 100);
     ("processBlockEnd", 100);
     ("processBlock", 101); ("processBlockEnd", 101);
     ("processBlock", 102); ("processBlockEnd", 102);
     ("handle", 0); ("finalize", 0)]%string.
Proof. vm_compute. reflexivity. Qed.

(** Preprocessing with margins 0/0, range [[100, 102)], [r1] fails at height
    100: one [onTransaction], at height 100, not all receipts successful. *)
Example scenario_failed_receipt :
  (λ '(c, block), (height block, allReceiptsSuccessful c)) <$>
    completions "T"
      (run quiet_indexer (NeardataProvider.stream (same_block_fetcher (Failure None)))
         (scenario_options 100 102
            (Some {| prefetch_blocks := 0; postfetch_blocks := 0 |}))).1.2
  = [(100, false)].
Proof. vm_compute. reflexivity. Qed.

(** Preprocessing with a postfetch margin of 2, range [[100, 101)], [r1]
    resolved at height 101: one [onTransaction], at height 101, although
    height 101 gets no raw hook. *)
Example scenario_postfetch_completion :
  call_shape <$>
    (run quiet_indexer (NeardataProvider.stream next_block_fetcher)
       (scenario_options 100 101
          (Some {| prefetch_blocks := 0; postfetch_blocks := 2 |}))).1.2
  = [("processBlock", 100); ("processTransaction", 100); ("processBlockEnd", 100);
     ("onReceipt", 101); ("onTransaction", 101); ("processBlockEnd", 101);
     ("processBlockEnd", 102);
     ("handle", 0); ("finalize", 0)]%string.
Proof. vm_compute. reflexivity. Qed.

(** ** Progress of the parallel pipeline *)

Section Progress.
Import ParallelProviderStreamer.
Context (provider : MessageProvider) (first end_ : BlockHeight).
Context (nfail : Z → nat) (res : Z → option StreamerMessage).
Context (Hhonest : honest provider).
Context (Hsettle : ∀ h, first ≤ h < end_ →
           provider h (nfail h) = Resolves (res h)
           ∧ ∀ j, (j < nfail h)%nat → provider h j = Rejects).

Lemma sum_list_with_delete {A} (f : A → nat) l i x :
  l !! i = Some x → (sum_list_with f (delete i l) + f x = sum_list_with f l)%nat.
Proof.
  intros Hi. rewrite (delete_Permutation l i x Hi) at 2. simpl. lia.
Qed.

Lemma sum_list_with_insert {A} (f : A → nat) l i x y :
  l !! i = Some x →
  (sum_list_with f (<[i:=y]> l) + f x = sum_list_with f l + f y)%nat.
Proof.
  revert i. induction l as [|a l IH]; intros [|i] Hi; simpl in *; try done.
  - injection Hi as ->. lia.
  - specialize (IH i Hi). lia.
Qed.

Lemma drain_waiting fuel s :
  waiting (drain fuel s) = waiting s ∧ scheduled (drain fuel s) = scheduled s.
Proof.
  revert s. induction fuel as [|fuel IH]; intros s; simpl; [done|].
  destruct (results s !! nextToEmit s); [| done]. by destruct (IH
    {| nextToEmit := nextToEmit s + 1; results := delete (nextToEmit s) (results s);
       active := active s; scheduled := scheduled s; waiting := waiting s;
       queue := push_if_present o (queue s) |}).
Qed.

(** A waiting call is for a height of the window and has not used up the
    calls of its height. *)
Lemma waiting_in_window s h k :
  PipelineInvariant.settled provider first end_ s → (h, k) ∈ waiting s →
  first ≤ h < end_ ∧ (k ≤ nfail h)%nat.
Proof.
  intros [[] _ _] Hin. destruct (inv_waiting h k Hin) as (Hh & _ & Hrej).
  assert (first ≤ h < end_) as Hw by lia. split; [done|].
  destruct (Hsettle h Hw) as [Hres _].
  destruct (decide (k ≤ nfail h)%nat) as [|Hgt]; [done | exfalso].
  rewrite Hrej in Hres by lia. done.
Qed.

(** Every settlement uses up exactly one call. *)
Lemma remaining_settle s i :
  PipelineInvariant.settled provider first end_ s → is_Some (waiting s !! i) →
  (remaining nfail end_ (settle provider end_ i s) + 1 = remaining nfail end_ s)%nat.
Proof.
  intros Hs [[h k] Hi].
  destruct (waiting_in_window s h k Hs) as [Hw Hk]; [by eapply list_elem_of_lookup_2|].
  destruct (Hsettle h Hw) as [Hres Hrej].
  unfold settle. rewrite Hi. destruct (provider h k) as [|msg] eqn:Hp.
  - assert (k < nfail h)%nat.
    { destruct (decide (k = nfail h)) as [->|]; [congruence | lia]. }
    unfold remaining. simpl.
    pose proof (sum_list_with_insert (λ w : Z * nat, S (nfail w.1) - w.2)%nat
                  (waiting s) i (h, k) (h, S k) Hi) as E. simpl in E. lia.
  - assert (k = nfail h) as ->.
    { destruct (decide (k = nfail h)) as [|Hne]; [done | exfalso].
      rewrite Hrej in Hp by lia. done. }
    unfold resolved.
    set (s1 := {| nextToEmit := nextToEmit s; results := <[h:=msg]> (results s);
                  active := active s - 1; scheduled := scheduled s;
                  waiting := delete i (waiting s); queue := queue s |}).
    destruct (drain_waiting (size (results s1)) s1) as [Hw2 Hs2].
    set (s2 := drain (size (results s1)) s1) in *.
    pose proof (sum_list_with_delete (λ w : Z * nat, S (nfail w.1) - w.2)%nat
                  (waiting s) i (h, nfail h) Hi) as E. simpl in E.
    assert (remaining nfail end_ s2 + 1 = remaining nfail end_ s)%nat as E2.
    { unfold remaining. rewrite Hw2, Hs2. simpl. lia. }
    destruct (Z.ltb_spec (scheduled s2) end_) as [Hlt | Hge].
    + rewrite <- E2. unfold remaining. simpl.
      rewrite sum_list_with_app. simpl.
      rewrite (seqZ_cons (scheduled s2)) by lia. simpl.
      replace (Z.pred (end_ - scheduled s2)) with (end_ - (scheduled s2 + 1)) by lia.
      replace (Z.succ (scheduled s2)) with (scheduled s2 + 1) by lia. lia.
    + destruct (_ && _); [| done]. rewrite <- E2. unfold remaining. simpl. done.
Qed.

(** Nothing remains exactly when no call is waiting. *)
Lemma remaining_zero s :
  PipelineInvariant.live provider first end_ s →
  remaining nfail end_ s = O ↔ waiting s = [].
Proof.
  intros (Hs & Hbusy & _). unfold remaining. split.
  - intros E. destruct (waiting s) as [|[h k] l] eqn:El; [done | exfalso].
    destruct (waiting_in_window s h k Hs) as [_ Hk]; [rewrite El; by left|].
    simpl in E. lia.
  - intros El. rewrite El. simpl.
    destruct (Z.ltb_spec (scheduled s) end_) as [Hlt | Hge]; [by destruct (Hbusy Hlt)|].
    by rewrite seqZ_nil by lia.
Qed.

Lemma remaining_prime workers s :
  remaining nfail end_ (prime workers end_ s) = remaining nfail end_ s.
Proof.
  revert s. induction workers as [|n IH]; intros s; simpl; [done|].
  destruct (Z.ltb_spec (scheduled s) end_) as [Hlt | Hge]; [| done].
  rewrite IH. unfold remaining. simpl. rewrite sum_list_with_app. simpl.
  rewrite (seqZ_cons (scheduled s)) by lia. simpl.
  replace (Z.pred (end_ - scheduled s)) with (end_ - (scheduled s + 1)) by lia.
  replace (Z.succ (scheduled s)) with (scheduled s + 1) by lia. lia.
Qed.

(** After [n] settlements, [n] of the calls of the window are used up. *)
Lemma remaining_nsteps workers n s :
  (1 ≤ workers)%nat →
  nsteps (step provider end_) n (prime workers end_ (init first)) s →
  PipelineInvariant.live provider first end_ s
  ∧ (remaining nfail end_ s + n
     = sum_list_with (λ h, S (nfail h)) (seqZ first (end_ - first)))%nat.
Proof.
  intros Hw. revert s. induction n as [|n IH]; intros s Hsteps.
  - inversion Hsteps; subst. split; [by apply ParallelFacts.live_start|].
    rewrite remaining_prime. unfold remaining. simpl. lia.
  - apply nsteps_inv_r in Hsteps as (s' & Hsteps & Hstep).
    destruct (IH s' Hsteps) as [Hlive Hrem]. destruct Hstep as [s' i Hi]. split.
    + by apply ParallelFacts.live_settle.
    + pose proof (remaining_settle s' i (proj1 Hlive) Hi). lia.
Qed.

End Progress.

(** C7. Absent heights are skipped, not errors.
    (1) Serial pipeline: when every height of the window resolves after
    finitely many rejected calls, the producer ends and the queue holds, in
    height order, exactly the messages of the heights that are not absent.
    (2) Parallel pipeline, in every state of every run: a delivered message is
    the message its height resolved with, so nothing is delivered for a height
    that resolved absent; and once no call is waiting, every height of the
    window has been fetched, the message of every height that is not absent
    has been delivered, the reorder buffer is empty and the queue is closed.
    (3) The parallel pipeline gets there: when every height of the window
    resolves after [nfail h] rejected calls, every run lets a waiting call
    settle until all the calls of the window are used up, and then no call is
    waiting.
    (4) The delivered heights may then jump by more than one: on a window
    where height 101 is absent both pipelines deliver 100, 102, 103. *)
Theorem absent_heights_skipped :
  (∀ (provider : MessageProvider) (fuel : nat) (nfail : Z → nat)
     (res : Z → option StreamerMessage) (first : BlockHeight)
     (lastExclusive : option BlockHeight),
     (∀ h, first ≤ h < default MAX_SAFE_INTEGER lastExclusive →
           provider h (nfail h) = Resolves (res h)
           ∧ (∀ j, (j < nfail h)%nat → provider h j = Rejects)
           ∧ (nfail h < fuel)%nat) →
     ProviderStreamer.stream fuel provider first lastExclusive
     = Some {| values := omap res (seqZ first (default MAX_SAFE_INTEGER lastExclusive - first));
               done := true |})
  ∧ (∀ (provider : MessageProvider) (workers : nat) (first : BlockHeight)
       (lastExclusive : option BlockHeight) (s : ParallelProviderStreamer.t),
       honest provider →
       (1 ≤ workers)%nat →
       ParallelProviderStreamer.reachable provider workers first lastExclusive s →
       let end_ := default MAX_SAFE_INTEGER lastExclusive in
       let delivered := values (ParallelProviderStreamer.queue s) in
       (∀ m, m ∈ delivered → first_return provider (height m) (Some m))
       ∧ (∀ h m, first_return provider h None → m ∈ delivered → height m ≠ h)
       ∧ (ParallelProviderStreamer.waiting s = [] → first < end_ →
          ParallelProviderStreamer.nextToEmit s = end_
          ∧ ParallelProviderStreamer.results s = ∅
          ∧ done (ParallelProviderStreamer.queue s) = true
          ∧ ∀ h, first ≤ h < end_ →
              ∃ r, first_return provider h r ∧ ∀ m, r = Some m → m ∈ delivered))
  ∧ (∀ (provider : MessageProvider) (workers : nat) (first : BlockHeight)
       (lastExclusive : option BlockHeight) (nfail : Z → nat)
       (res : Z → option StreamerMessage) (n : nat) (s : ParallelProviderStreamer.t),
       honest provider →
       (1 ≤ workers)%nat →
       (∀ h, first ≤ h < default MAX_SAFE_INTEGER lastExclusive →
             provider h (nfail h) = Resolves (res h)
             ∧ ∀ j, (j < nfail h)%nat → provider h j = Rejects) →
       nsteps (ParallelProviderStreamer.step provider (default MAX_SAFE_INTEGER lastExclusive))
         n (ParallelProviderStreamer.start workers first lastExclusive) s →
       let calls := sum_list_with (λ h, S (nfail h))
                      (seqZ first (default MAX_SAFE_INTEGER lastExclusive - first)) in
       (n ≤ calls)%nat
       ∧ ((n < calls)%nat →
            ∃ s', ParallelProviderStreamer.step provider
                    (default MAX_SAFE_INTEGER lastExclusive) s s')
       ∧ (n = calls → ParallelProviderStreamer.waiting s = []))
  ∧ (height <$> values (ParallelProviderStreamer.queue out_of_order_run) = [100; 102; 103]
     ∧ (λ q, height <$> values q) <$> ProviderStreamer.stream 3 flaky_provider 100 (Some 104)
       = Some [100; 102; 103]).
Proof.
  split_and!.
  - intros provider fuel nfail res first lastExclusive Hall.
    unfold ProviderStreamer.stream.
    rewrite (produce_settles provider fuel nfail res); [done | | done].
    intros h Hh. apply Hall. apply elem_of_seqZ in Hh. lia.
  - intros provider workers first lastExclusive s Hh Hw Hr. simpl.
    pose proof (reachable_live _ _ _ _ _ Hh Hw Hr) as Hlive.
    pose proof Hlive as ([Hinv _ _] & _ & Hclosed).
    split_and!.
    + intros m Hm. by apply (PipelineInvariant.inv_delivered _ _ _ _ Hinv).
    + intros h m Habs Hm <-.
      pose proof (PipelineInvariant.inv_delivered _ _ _ _ Hinv m Hm) as [_ Hfr].
      by pose proof (first_return_unique _ _ _ _ Habs Hfr).
    + intros Hq Hlt.
      destruct (ParallelFacts.live_quiescent _ _ _ _ Hlive Hq) as [Hn He]; [lia|].
      split_and!; [done | done | by apply Hclosed |].
      intros h Hrange.
      destruct (PipelineInvariant.inv_fetched _ _ _ _ Hinv h) as [r Hfr]; [lia|].
      exists r. split; [done|]. intros m ->.
      apply (PipelineInvariant.inv_complete _ _ _ _ Hinv h (Some m)); [lia | done].
  - intros provider workers first lastExclusive nfail res n s Hh Hw Hsettle Hsteps. simpl.
    destruct (remaining_nsteps provider first _ nfail res Hh Hsettle workers n s Hw Hsteps)
      as [Hlive Hrem].
    pose proof (remaining_zero provider first _ nfail res Hsettle s Hlive) as Hzero.
    split_and!; [lia | |].
    + intros Hlt.
      destruct (ParallelProviderStreamer.waiting s) as [|w l] eqn:Ew.
      * assert (remaining nfail (default MAX_SAFE_INTEGER lastExclusive) s = 0%nat)
          by (by apply Hzero). lia.
      * eexists. apply (ParallelProviderStreamer.step_settle _ _ s 0%nat).
        rewrite Ew. by eexists.
    + intros Hn. apply Hzero. lia.
  - by vm_compute.
  - by vm_compute.
Qed.


(** * Further properties of the code *)

(** ** Reasoning about whole runs *)

Lemma maintains_intro {S A} (I : S → Prop) (P : Event → Prop) (c : M S A) :
  preserves I c → emits P c → maintains I P c.
Proof. intros Hp He w w' r E HI. split; [by eapply Hp | by eapply He]. Qed.

Lemma maintains_ret {S A} (I : S → Prop) P (a : A) : maintains I P (ret a).
Proof. apply maintains_intro; [apply preserves_ret | apply emits_ret]. Qed.

Lemma maintains_throw {S A} (I : S → Prop) P e : maintains (A:=A) I P (throw e).
Proof.
  apply maintains_intro; [| apply emits_throw]. by intros w w' r [= <- <-].
Qed.

Lemma maintains_call {S} (I : S → Prop) (P : Event → Prop) oracle e :
  P e → maintains I P (await_call oracle e).
Proof.
  intros He. apply maintains_intro; [apply preserves_await_call | by apply emits_await_call].
Qed.

Lemma maintains_bind {S A B} (I : S → Prop) P (c : M S A) (k : A → M S B) :
  maintains I P c → (∀ a, maintains I P (k a)) → maintains I P (bind c k).
Proof.
  intros Hc Hk w w' r. unfold bind. destruct (c w) as [w1 [[a|e]|]] eqn:E.
  - intros Hka HI. destruct (Hc _ _ _ E HI) as (HI1 & ev1 & E1 & F1).
    destruct (Hk a _ _ _ Hka HI1) as (HI2 & ev2 & E2 & F2).
    split; [done|]. exists (ev1 ++ ev2). rewrite E2, E1, app_assoc.
    split; [done | by apply Forall_app].
  - intros [= <- <-] HI. by apply (Hc _ _ _ E).
  - intros [= <- <-] HI. by apply (Hc _ _ _ E).
Qed.

Lemma maintains_when {S} (I : S → Prop) P b (c : M S unit) :
  maintains I P c → maintains I P (when b c).
Proof. destruct b; [done | intros _; apply maintains_ret]. Qed.

Lemma maintains_for_each {S X} (I : S → Prop) P (l : list X) (body : X → M S unit) :
  (∀ x, maintains I P (body x)) → maintains I P (for_each l body).
Proof.
  intros Hb. induction l as [|x l IH]; simpl.
  - apply maintains_ret.
  - apply maintains_bind; [apply Hb | intros _; apply IH].
Qed.

Lemma maintains_try_catch {S A} (I : S → Prop) P (c : M S A) (h : Err → M S A) :
  maintains I P c → (∀ e, maintains I P (h e)) → maintains I P (try_catch c h).
Proof.
  intros Hc Hh w w' r. unfold try_catch. destruct (c w) as [w1 [[a|e]|]] eqn:E.
  - intros [= <- <-] HI. by apply (Hc _ _ _ E).
  - intros Hhe HI. destruct (Hc _ _ _ E HI) as (HI1 & ev1 & E1 & F1).
    destruct (Hh e _ _ _ Hhe HI1) as (HI2 & ev2 & E2 & F2).
    split; [done|]. exists (ev1 ++ ev2). rewrite E2, E1, app_assoc.
    split; [done | by apply Forall_app].
  - intros [= <- <-] HI. by apply (Hc _ _ _ E).
Qed.

Lemma maintains_try_finally {S A} (I : S → Prop) P (c : M S A) (f : M S unit) :
  maintains I P c → maintains I P f → maintains I P (try_finally c f).
Proof.
  intros Hc Hf w w' r. unfold try_finally.
  destruct (c w) as [w1 [r1|]] eqn:E;
    [| intros [= <- <-] HI; by apply (Hc _ _ _ E)].
  destruct (f w1) as [w2 [[[]|e]|]] eqn:E2;
    intros [= <- <-] HI;
    destruct (Hc _ _ _ E HI) as (HI1 & ev1 & E1 & F1);
    destruct (Hf _ _ _ E2 HI1) as (HI2 & ev2 & E3 & F2);
    (split; [done|]); exists (ev1 ++ ev2); rewrite E3, E1, app_assoc;
    (split; [done | by apply Forall_app]).
Qed.

Lemma afterBlock_emits {S} (P : Event → Prop) auto message options stopping :
  P (CAfterBlock message stopping) →
  (stopping = false → P (CSave (height message + 1))) →
  emits (S:=S) P (afterBlock auto message options stopping).
Proof.
  intros H1 H2. unfold afterBlock. apply emits_bind; [by apply emits_log | intros _].
  destruct stopping; simpl; [apply emits_ret | by apply emits_await_call, H2].
Qed.

(** Whatever [processBlock] maintains, the whole run maintains: outside
    [processBlock] the orchestrator does not touch the state machine and calls
    only [load], [afterBlock], [save], the handle and [finalize]. *)
Lemma runIndexer_maintains (I : InternalIndexerState.t → Prop) (P : Event → Prop)
    indexer streamer options :
  P CLoad → P CAwaitHandle → P CFinalize →
  (∀ b s, P (CAfterBlock b s)) → (∀ h, P (CSave h)) →
  (∀ plan message,
     maintains I P (InternalIndexerState.processBlock indexer message
                      (processingOptions options plan message))) →
  maintains I P (runIndexer indexer streamer options).
Proof.
  intros HL HH HF HA HS Hpb. unfold runIndexer.
  apply maintains_bind.
  { unfold resolve_range. destruct (range options); [apply maintains_ret|].
    apply maintains_bind; [| intros; apply maintains_ret].
    unfold AutoContinue_range. apply maintains_bind; [| intros; apply maintains_ret].
    unfold getStartBlock. apply maintains_bind; [| intros; apply maintains_ret].
    intros w w' r. unfold await_load.
    destruct (load _); intros [= <- <-] HI; (split; [done|]);
      exists [CLoad]; (split; [done | by constructor]). }
  intros plan. unfold stream_and_finalize. apply maintains_try_finally.
  - apply maintains_bind.
    + generalize false. induction (receiver _) as [|m ms IH]; intros hs; simpl.
      * apply maintains_ret.
      * apply maintains_bind; [| intros; apply IH].
        unfold on_message. apply maintains_bind.
        { apply maintains_try_catch; [apply Hpb|].
          intros e. destruct (stop_on_error options);
            [apply maintains_throw | apply maintains_ret]. }
        intros _. apply maintains_bind; [| intros; apply maintains_ret].
        destruct (negb _); [| apply maintains_ret].
        destruct (post_processor plan); [| apply maintains_ret].
        unfold afterBlock. apply maintains_bind.
        { intros w w' r [= <- <-] HI. split; [done|]. eexists [_].
          split; [done | by constructor]. }
        intros _. destruct (negb _); [by apply maintains_call | apply maintains_ret].
    + intros _. destruct (receiver_throws _); [apply maintains_throw | apply maintains_ret].
  - apply maintains_bind.
    + intros w w' r. unfold await_handle.
      intros [= <- <-] HI; (split; [done|]);
        exists [CAwaitHandle]; (split; [done | by constructor]).
    + intros _. by apply maintains_when, maintains_call.
Qed.

(** ** Correlation is off unless preprocessing is configured *)

Lemma processBlock_preprocess_off (I : InternalIndexerState.t → Prop)
    indexer message options :
  preprocess options = false →
  maintains I raw_call (InternalIndexerState.processBlock indexer message options).
Proof.
  intros Hoff. unfold InternalIndexerState.processBlock.
  apply maintains_bind; [by apply maintains_when, maintains_call | intros _].
  apply maintains_bind; [| intros _].
  { apply maintains_for_each. intros shard. destruct (chunk shard); [| apply maintains_ret].
    apply maintains_for_each. intros tx.
    apply maintains_bind; [| intros _; by apply maintains_when, maintains_call].
    apply maintains_intro; [| apply emits_modify].
    apply preserves_modify. intros s Hs.
    unfold InternalIndexerState.register_transaction. by rewrite Hoff. }
  apply maintains_bind; [| intros _; by apply maintains_when, maintains_call].
  apply maintains_for_each. intros shard. apply maintains_for_each. intros r.
  apply maintains_bind; [| intros _; by apply maintains_when, maintains_call].
  unfold InternalIndexerState.correlate.
  apply maintains_bind;
    [apply maintains_intro; [apply preserves_get_state | apply emits_get_state] | intros s].
  destruct (InternalIndexerState.receiptToTx s !! receipt_id r) as [txId|];
    [| apply maintains_ret].
  rewrite Hoff, andb_false_r. apply maintains_ret.
Qed.

(** X1. Without [preprocess_transactions] in the options (the value
    [defaultOptions] gives), a run never calls [onTransaction] or [onReceipt],
    whatever the blocks contain, and the state machine ends as empty as it
    started: nothing is registered and nothing is correlated. *)
Theorem correlation_needs_preprocessing (indexer : Indexer) (streamer : MessageStreamer)
    (options : IndexerOptions) :
  preprocess_transactions options = None →
  (run indexer streamer options).1.1 = InternalIndexerState.new
  ∧ Forall raw_call (run indexer streamer options).1.2.
Proof.
  intros Hnone. unfold run.
  destruct (runIndexer indexer streamer options (InternalIndexerState.new, []))
    as [w' r] eqn:E.
  assert (∀ plan message,
            maintains (λ s, s = InternalIndexerState.new) raw_call
              (InternalIndexerState.processBlock indexer message
                 (processingOptions options plan message))) as Hpb.
  { intros plan message. apply processBlock_preprocess_off. simpl. rewrite Hnone.
    apply bool_decide_eq_false_2. by intros [? ?]. }
  destruct (runIndexer_maintains _ raw_call indexer streamer options I I I
              (λ _ _, I) (λ _, I) Hpb _ _ _ E eq_refl) as (Hs & evs & Hevs & F).
  simpl in *. by rewrite Hevs.
Qed.

Lemma correlation_needs_preprocessing_witness :
  (run quiet_indexer (NeardataProvider.stream (same_block_fetcher (SuccessValue None)))
     (scenario_options 100 103 None)).1.1 = InternalIndexerState.new
  ∧ Forall raw_call
      (run quiet_indexer (NeardataProvider.stream (same_block_fetcher (SuccessValue None)))
         (scenario_options 100 103 None)).1.2.
Proof.
  exact (correlation_needs_preprocessing quiet_indexer
           (NeardataProvider.stream (same_block_fetcher (SuccessValue None)))
           (scenario_options 100 103 None) eq_refl).
Defined.

(** ** Which hooks a block can reach *)

Lemma emits_guarded {S} (P : Event → Prop) (b flag : bool) (c : M S unit) :
  (flag = true → emits P c) → emits P (when (b && flag) c).
Proof.
  intros H. destruct flag; [| rewrite andb_false_r; apply emits_ret].
  destruct b; [by apply H | apply emits_ret].
Qed.

(** X2. While [runIndexer] handles a message, the hooks it can call are
    fixed by the region of the height: in the prefetch range only
    [processBlockEnd]; in the postfetch range [onReceipt], [onTransaction],
    [processBlockEnd] and [afterBlock] with [stopping] set; the raw hooks
    [processBlock], [processTransaction], [processReceipt] and [save(height +
    1)] only outside both ranges.  Every call is about this message. *)
Theorem hooks_by_region (indexer : Indexer) (options : IndexerOptions) (plan : Plan)
    (hasSent : bool) (message : StreamerMessage) :
  emits (allowed_call plan message) (on_message indexer options plan hasSent message).
Proof.
  unfold on_message.
  destruct (inPrefetch plan message) eqn:Hpre, (inPostfetch plan message) eqn:Hpost.
  all: apply emits_bind; [| intros _; apply emits_bind; [| intros; apply emits_ret]].
  all: try (simpl; apply emits_ret).
  all: try (simpl; destruct (post_processor plan);
            [apply afterBlock_emits; unfold allowed_call; rewrite ?Hpre, ?Hpost; done
            | apply emits_ret]).
  all: apply emits_try_catch;
    [| intros e; destruct (stop_on_error options); [apply emits_throw | apply emits_ret]].
  all: unfold InternalIndexerState.processBlock, processingOptions; simpl;
    rewrite Hpre, Hpost; simpl.
  all: apply emits_bind;
    [apply emits_guarded; intros ?; try done;
     apply emits_await_call; unfold allowed_call; by rewrite Hpre, Hpost | intros _].
  all: apply emits_bind; [| intros _].
  all: try (apply emits_for_each; intros shard; destruct (chunk shard); [| apply emits_ret];
            apply emits_for_each; intros tx;
            apply emits_bind; [apply emits_modify | intros _];
            apply emits_guarded; intros ?; try done;
            apply emits_await_call; unfold allowed_call; by rewrite Hpre, Hpost).
  all: apply emits_bind;
    [| intros _; apply emits_when, emits_await_call; by unfold allowed_call].
  all: apply emits_for_each; intros shard; apply emits_for_each; intros r.
  all: apply emits_bind;
    [| intros _; apply emits_guarded; intros ?; try done;
       apply emits_await_call; unfold allowed_call; by rewrite Hpre, Hpost].
  all: unfold InternalIndexerState.correlate.
  all: apply emits_bind; [apply emits_get_state | intros s].
  all: destruct (InternalIndexerState.receiptToTx s !! receipt_id r) as [txId|];
    [| apply emits_ret].
  all: destruct (truthy txId && _); [| apply emits_ret].
  all: destruct (InternalIndexerState.pendingTransactions s !! txId) as [incomplete|];
    [| apply emits_ret].
  all: simpl.
  all: apply emits_bind;
    [apply emits_guarded; intros ?; try done;
     apply emits_await_call; unfold allowed_call; by rewrite Hpre | intros _].
  all: apply emits_bind; [apply emits_get_state | intros s1].
  all: apply emits_bind; [apply emits_modify | intros _].
  all: destruct (every_not_null _); [| apply emits_ret].
  all: apply emits_bind; [apply emits_modify | intros _].
  all: apply emits_guarded; intros ?; try done.
  all: apply emits_await_call; unfold allowed_call; by rewrite Hpre.
Qed.

(** ** The cursor over a whole run *)

Lemma saved_app calls1 calls2 : saved (calls1 ++ calls2) = saved calls1 ++ saved calls2.
Proof. apply omap_app. Qed.

Lemma offered_app calls1 calls2 :
  offered (calls1 ++ calls2) = offered calls1 ++ offered calls2.
Proof. apply omap_app. Qed.

Lemma saved_block_hooks message evs : Forall (block_hook message) evs → saved evs = [].
Proof.
  induction 1 as [|e evs He _ IH]; [done|]. by destruct e.
Qed.

Lemma offered_none evs : Forall (λ e, ∀ b, e ≠ CProcessBlock b) evs → offered evs = [].
Proof.
  induction 1 as [|e evs He _ IH]; [done|]. destruct e; try done. by destruct (He block).
Qed.

Lemma processBlock_split indexer message options w :
  InternalIndexerState.processBlock indexer message options w
  = (when (has_processBlock indexer && handle_raw_events options)
       (await_call (throws indexer) (CProcessBlock message)) ;;;
     block_body indexer message options) w.
Proof. apply processBlock_flat. Qed.

Lemma correlate_emits_correlated indexer message options r :
  emits (correlated_hook message) (InternalIndexerState.correlate indexer message options r).
Proof.
  unfold InternalIndexerState.correlate.
  apply emits_bind; [apply emits_get_state | intros s].
  destruct (InternalIndexerState.receiptToTx s !! receipt_id r) as [txId|];
    [| apply emits_ret].
  destruct (truthy txId && preprocess options); [| apply emits_ret].
  destruct (InternalIndexerState.pendingTransactions s !! txId) as [incomplete|];
    [| apply emits_ret].
  apply emits_bind; [by apply emits_when, emits_await_call | intros _].
  apply emits_bind; [apply emits_get_state | intros s1].
  apply emits_bind; [apply emits_modify | intros _].
  destruct (every_not_null _); [| apply emits_ret].
  apply emits_bind; [apply emits_modify | intros _].
  by apply emits_when, emits_await_call.
Qed.

Lemma block_body_emits indexer message options :
  emits (λ e, block_hook message e ∧ ∀ b, e ≠ CProcessBlock b)
    (block_body indexer message options).
Proof.
  unfold block_body.
  apply emits_bind; [| intros _].
  { apply emits_for_each. intros tx.
    apply emits_bind; [apply emits_modify | intros _].
    by apply emits_when, emits_await_call. }
  apply emits_bind; [| intros _; by apply emits_when, emits_await_call].
  apply emits_for_each. intros r.
  apply emits_bind; [| intros _; by apply emits_when, emits_await_call].
  eapply emits_weaken; [| apply correlate_emits_correlated].
  intros e He. by destruct e.
Qed.

(** The calls of [processBlock]: the [processBlock] hook first, when it is
    open, and then no other call of it. *)
Lemma processBlock_calls indexer message options w :
  ∃ s evs r,
    InternalIndexerState.processBlock indexer message options w = ((s, w.2 ++ evs), r)
    ∧ Forall (block_hook message) evs
    ∧ offered evs
      = if has_processBlock indexer && handle_raw_events options then [message] else [].
Proof.
  rewrite processBlock_split. unfold bind.
  destruct (has_processBlock indexer && handle_raw_events options); simpl.
  - unfold await_call. destruct (throws indexer w.2 (CProcessBlock message)) as [err|].
    + eexists _, [_], _. split; [done|]. split; [by repeat constructor | done].
    + destruct (block_body indexer message options (w.1, w.2 ++ [CProcessBlock message]))
        as [[s l] r] eqn:E.
      destruct (block_body_emits _ _ _ _ _ _ E) as (evs & Hl & F). simpl in Hl. subst l.
      exists s, (CProcessBlock message :: evs), r. rewrite <- app_assoc. split; [done|].
      split.
      * constructor; [done|]. eapply Forall_impl; [exact F|]. by intros e [? _].
      * unfold offered at 1. simpl. f_equal. apply offered_none.
        eapply Forall_impl; [exact F|]. by intros e [_ ?].
  - unfold ret. destruct (block_body indexer message options w) as [[s l] r] eqn:E.
    destruct (block_body_emits _ _ _ _ _ _ E) as (evs & Hl & F). simpl in Hl. subst l.
    exists s, evs, r. split; [done|]. split.
    + eapply Forall_impl; [exact F|]. by intros e [? _].
    + apply offered_none. eapply Forall_impl; [exact F|]. by intros e [_ ?].
Qed.

(** The value of [hasSentPostfetchMessage] changes nothing but itself. *)
Lemma on_message_hasSent indexer options plan hs1 hs2 message w :
  (on_message indexer options plan hs1 message w).1
  = (on_message indexer options plan hs2 message w).1
  ∧ ((∃ b1 b2, (on_message indexer options plan hs1 message w).2 = Ok b1
              ∧ (on_message indexer options plan hs2 message w).2 = Ok b2)
     ∨ (∃ e, (on_message indexer options plan hs1 message w).2 = Threw e
             ∧ (on_message indexer options plan hs2 message w).2 = Threw e)
     ∨ ((on_message indexer options plan hs1 message w).2 = Pending
        ∧ (on_message indexer options plan hs2 message w).2 = Pending)).
Proof.
  unfold on_message, bind.
  destruct (try_catch _ _ w) as [w1 [[[]|e]|]];
    [| split; [done | right; left; by eexists] | split; [done | by right; right]].
  match goal with
  | |- context [(if negb (inPrefetch plan message) then ?a else ?b) w1] =>
      destruct ((if negb (inPrefetch plan message) then a else b) w1) as [w2 [[[]|e]|]]
  end; simpl; (split; [done|]);
    [left; by eexists _, _ | right; left; by eexists | by right; right].
Qed.

Lemma receive_hasSent indexer options plan hs1 hs2 messages w :
  receive indexer options plan hs1 messages w = receive indexer options plan hs2 messages w.
Proof.
  revert hs1 hs2 w. induction messages as [|m ms IH]; intros hs1 hs2 w; simpl; [done|].
  unfold bind.
  destruct (on_message_hasSent indexer options plan hs1 hs2 m w) as [E1 E2].
  destruct (on_message indexer options plan hs1 m w) as [w1 r1],
           (on_message indexer options plan hs2 m w) as [w2 r2]. simpl in *. subst w2.
  destruct E2 as [(b1 & b2 & -> & ->) | [(e & -> & ->) | [-> ->]]]; [apply IH | done | done].
Qed.

Lemma receive_app indexer options plan hs l1 l2 w :
  receive indexer options plan hs (l1 ++ l2) w
  = (receive indexer options plan hs l1 ;;; receive indexer options plan hs l2) w.
Proof.
  revert hs w. induction l1 as [|m l1 IH]; intros hs w; simpl; [done|].
  unfold bind in *.
  destruct (on_message indexer options plan hs m w) as [w1 [[hs'|e]|]]; [| done | done].
  rewrite IH. destruct (receive indexer options plan hs' l1 w1) as [w2 [[[]|e]|]];
    [| done | done].
  apply receive_hasSent.
Qed.

(** What the post-processor does for one message when [save] does not
    reject. *)
Lemma post_processor_calls {S} plan message options (w : S * list Event) :
  (∀ auto, post_processor plan = Some auto →
           ∀ calls e, save_throws (save_location auto) calls e = None) →
  (if negb (inPrefetch plan message)
   then match post_processor plan with
        | Some pp => afterBlock pp message options (inPostfetch plan message)
        | None => ret tt
        end
   else ret tt) w
  = ((w.1, w.2 ++ match post_processor plan with
                  | Some _ => post_calls plan message
                  | None => []
                  end), Ok tt).
Proof.
  intros Hsave. unfold post_calls. destruct w as [s l]. simpl.
  destruct (inPrefetch plan message); simpl.
  { unfold ret. simpl. by destruct (post_processor plan); rewrite app_nil_r. }
  destruct (post_processor plan) as [pp|] eqn:Hpp; [| unfold ret; simpl; by rewrite app_nil_r].
  unfold afterBlock, bind, log. simpl.
  destruct (inPostfetch plan message); simpl; [done|].
  unfold await_call. simpl. rewrite (Hsave pp eq_refl). by rewrite <- app_assoc.
Qed.

Lemma saved_post_calls plan message :
  saved (post_calls plan message) = if inRange plan message then [height message + 1] else [].
Proof.
  unfold post_calls, inRange.
  by destruct (inPrefetch plan message), (inPostfetch plan message).
Qed.

Lemma offered_post_calls plan message : offered (post_calls plan message) = [].
Proof.
  unfold post_calls. by destruct (inPrefetch plan message), (inPostfetch plan message).
Qed.

(** One message when nothing can stop the run: the hooks of the block, then
    the post-processor. *)
Lemma on_message_goes_on indexer options plan hs message w :
  stop_on_error options = false →
  (∀ auto, post_processor plan = Some auto →
           ∀ calls e, save_throws (save_location auto) calls e = None) →
  ∃ s evs b,
    on_message indexer options plan hs message w = ((s, w.2 ++ evs), Ok b)
    ∧ saved evs = match post_processor plan with
                  | Some _ => if inRange plan message then [height message + 1] else []
                  | None => []
                  end
    ∧ offered evs
      = if has_processBlock indexer
           && handle_raw_events (processingOptions options plan message)
        then [message] else [].
Proof.
  intros Hstop Hsave. unfold on_message, try_catch, bind. rewrite Hstop.
  pose proof (processBlock_settles indexer message
                (processingOptions options plan message) w) as Hs.
  destruct (processBlock_calls indexer message (processingOptions options plan message) w)
    as (s1 & evs & r1 & E & F & Hoff).
  rewrite E in *.
  assert (match r1 with
          | Settled (Ok a) => ((s1, w.2 ++ evs), Settled (Ok a))
          | Settled (Threw e) => ret () (s1, w.2 ++ evs)
          | Pending => ((s1, w.2 ++ evs), Pending)
          end = ((s1, w.2 ++ evs), Settled (Ok tt))) as ->
    by (by destruct r1 as [[[]|]|]).
  rewrite post_processor_calls by done. simpl.
  eexists s1, _, _. rewrite <- app_assoc. split; [done|].
  rewrite saved_app, offered_app, Hoff, (saved_block_hooks message evs F). simpl.
  destruct (post_processor plan).
  - by rewrite saved_post_calls, offered_post_calls, app_nil_r.
  - by rewrite app_nil_r.
Qed.

Lemma receive_goes_on indexer options plan hs messages w :
  stop_on_error options = false →
  (∀ auto, post_processor plan = Some auto →
           ∀ calls e, save_throws (save_location auto) calls e = None) →
  ∃ s evs,
    receive indexer options plan hs messages w = ((s, w.2 ++ evs), Ok tt)
    ∧ saved evs = match post_processor plan with
                  | Some _ => (λ m, height m + 1) <$> filter (λ m, inRange plan m = true) messages
                  | None => []
                  end
    ∧ (has_processBlock indexer = true →
       offered evs
       = filter (λ m, handle_raw_events (processingOptions options plan m) = true) messages).
Proof.
  intros Hstop Hsave. revert hs w.
  induction messages as [|m ms IH]; intros hs w; simpl.
  - exists w.1, []. rewrite app_nil_r. destruct w. split; [done|].
    split; [by destruct (post_processor plan) | done].
  - unfold bind.
    destruct (on_message_goes_on indexer options plan hs m w Hstop Hsave)
      as (s1 & ev1 & b & -> & Hs1 & Ho1).
    destruct (IH b (s1, w.2 ++ ev1)) as (s2 & ev2 & -> & Hs2 & Ho2). simpl.
    exists s2, (ev1 ++ ev2). rewrite app_assoc. split; [done|].
    rewrite saved_app, offered_app, Hs1, Hs2, Ho1. split.
    + rewrite filter_cons. destruct (post_processor plan); [| done].
      destruct (decide (inRange plan m = true)) as [->|Hn]; [done|].
      apply not_true_is_false in Hn. by rewrite Hn.
    + intros Hpb. rewrite (Ho2 Hpb), Hpb, filter_cons. simpl.
      destruct (decide _) as [Hy|Hn].
      * by rewrite Hy.
      * apply not_true_is_false in Hn. by rewrite Hn.
Qed.

(** The calls of a whole run whose range is resolved and whose receiving loop
    cannot be stopped by a hook. *)
Lemma run_goes_on indexer streamer options plan w w1 :
  stop_on_error options = false →
  resolve_range options w = (w1, Ok plan) →
  (∀ auto, post_processor plan = Some auto →
           ∀ calls e, save_throws (save_location auto) calls e = None) →
  ∃ s evs r,
    runIndexer indexer streamer options w
      = ((s, w1.2 ++ evs ++ CAwaitHandle
                 :: (if has_finalize indexer
                        && match handle (streamer (startWithPrefetch plan)
                                           (endWithPostfetch plan)) with
                           | Settled (Ok _) => true
                           | _ => false
                           end
                     then [CFinalize] else [])), r)
    ∧ saved evs = match post_processor plan with
                  | Some _ =>
                      (λ m, height m + 1) <$>
                        filter (λ m, inRange plan m = true)
                          (receiver (streamer (startWithPrefetch plan) (endWithPostfetch plan)))
                  | None => []
                  end
    ∧ (has_processBlock indexer = true →
       offered evs
       = filter (λ m, handle_raw_events (processingOptions options plan m) = true)
           (receiver (streamer (startWithPrefetch plan) (endWithPostfetch plan))))
    ∧ (handle (streamer (startWithPrefetch plan) (endWithPostfetch plan)) = Ok tt →
       finalize_outcome indexer (w1.2 ++ evs ++ [CAwaitHandle]) = None →
       r = match receiver_throws (streamer (startWithPrefetch plan) (endWithPostfetch plan))
           with
           | Some e => Threw e
           | None => Ok tt
           end).
Proof.
  intros Hstop Hplan Hsave. unfold runIndexer, bind. rewrite Hplan.
  set (stream := streamer _ _).
  unfold stream_and_finalize, try_finally, bind.
  destruct (receive_goes_on indexer options plan false (receiver stream) w1 Hstop Hsave)
    as (s & evs & -> & Hs & Ho).
  exists s, evs.
  assert (match receiver_throws stream with
          | Some e => throw e
          | None => ret ()
          end (s, w1.2 ++ evs)
          = ((s, w1.2 ++ evs),
             Settled match receiver_throws stream with
                     | Some e => Threw e
                     | None => Ok tt
                     end)) as -> by (by destruct (receiver_throws stream)).
  set (r0 := match receiver_throws stream with Some e => Threw e | None => Ok tt end).
  unfold await_handle, finalize_outcome. simpl.
  destruct (handle stream) as [[[]|e]|]; simpl.
  - rewrite andb_true_r. unfold when, await_call. rewrite <- !app_assoc. simpl.
    destruct (has_finalize indexer); simpl.
    + destruct (throws indexer _ CFinalize) as [e|] eqn:Hf; simpl.
      * rewrite <- !app_assoc. simpl. eexists. split; [done|]. split; [done|].
        split; [done|]. by intros _ ?.
      * rewrite <- !app_assoc. simpl. eexists. split; [done|]. split; [done|].
        split; [done|]. intros _ _. unfold r0. by destruct (receiver_throws stream).
    + eexists. split; [done|]. split; [done|]. split; [done|].
      intros _ _. unfold r0. by destruct (receiver_throws stream).
  - rewrite andb_false_r. eexists. rewrite <- app_assoc. split; [done|].
    split; [done|]. split; [done|]. done.
  - rewrite andb_false_r. eexists. rewrite <- app_assoc. split; [done|].
    split; [done|]. split; [done|]. done.
Qed.

Lemma saved_resolved {S} options (w w1 : S * list Event) plan :
  resolve_range options w = (w1, Ok plan) → saved w1.2 = saved w.2 ∧ offered w1.2 = offered w.2.
Proof.
  unfold resolve_range, AutoContinue_range, getStartBlock, await_load, bind, ret.
  destruct (range options) as [|auto]; [by intros [= <- _]|].
  destruct (load (save_location auto)); [| done]. intros [= <- _]. simpl.
  by rewrite saved_app, offered_app, !app_nil_r.
Qed.

(** X3. In a run over an [AutoContinue] range with [stop_on_error] off and a
    cursor store that accepts every [save], the heights saved are, in order,
    [height + 1] for every received message that lies neither in the prefetch
    nor in the postfetch range, and nothing else: the last value saved is one
    above the last in-range block that was received. *)
Theorem saved_cursors (indexer : Indexer) (streamer : MessageStreamer)
    (options : IndexerOptions) (auto : AutoContinue) (plan : Plan)
    (w1 : InternalIndexerState.t * list Event) :
  range options = AutoContinueRange auto →
  stop_on_error options = false →
  (∀ calls e, save_throws (save_location auto) calls e = None) →
  resolve_range options (InternalIndexerState.new, []) = (w1, Ok plan) →
  saved (run indexer streamer options).1.2
  = (λ m, height m + 1) <$>
      filter (λ m, inRange plan m = true)
        (receiver (streamer (startWithPrefetch plan) (endWithPostfetch plan))).
Proof.
  intros Hrange Hstop Hsave Hplan.
  destruct (resolve_range_auto _ _ _ _ _ Hrange Hplan) as (Hpp & _).
  destruct (run_goes_on indexer streamer options plan _ w1 Hstop Hplan)
    as (s & evs & r & E & Hs & _).
  { intros auto' Hpp'. rewrite Hpp in Hpp'. by injection Hpp' as <-. }
  unfold run. rewrite E. simpl.
  destruct (saved_resolved _ _ _ _ Hplan) as [Hw1 _].
  rewrite !saved_app, Hw1, Hs, Hpp. simpl.
  by destruct (_ && _); rewrite app_nil_r.
Qed.

Lemma saved_cursors_witness :
  saved (run quiet_indexer three_blocks (defaultOptions (AutoContinueRange demo_auto))).1.2
  = (λ m, height m + 1) <$>
      filter (λ m, inRange demo_auto_plan m = true)
        (receiver (three_blocks (startWithPrefetch demo_auto_plan)
                     (endWithPostfetch demo_auto_plan))).
Proof.
  exact (saved_cursors quiet_indexer three_blocks (defaultOptions (AutoContinueRange demo_auto))
           demo_auto demo_auto_plan (InternalIndexerState.new, [CLoad])
           eq_refl eq_refl (λ _ _, eq_refl) eq_refl).
Defined.

(** X5. With [stop_on_error] off, no rejection of a per-block hook can end
    the run: when the stream ends normally, the handle resolves, [save] and
    [finalize] do not reject, [runIndexer] resolves, whatever the indexer's
    other hooks did; and every received block whose raw hooks are open was
    offered to the [processBlock] hook, in the order received. *)
Theorem hook_rejections_swallowed (indexer : Indexer) (streamer : MessageStreamer)
    (options : IndexerOptions) (plan : Plan) (w1 : InternalIndexerState.t * list Event) :
  stop_on_error options = false →
  resolve_range options (InternalIndexerState.new, []) = (w1, Ok plan) →
  (∀ auto, post_processor plan = Some auto →
           ∀ calls e, save_throws (save_location auto) calls e = None) →
  receiver_throws (streamer (startWithPrefetch plan) (endWithPostfetch plan)) = None →
  handle (streamer (startWithPrefetch plan) (endWithPostfetch plan)) = Ok tt →
  (∀ calls, finalize_outcome indexer calls = None) →
  (run indexer streamer options).2 = Ok tt
  ∧ (has_processBlock indexer = true →
     offered (run indexer streamer options).1.2
     = filter (λ m, handle_raw_events (processingOptions options plan m) = true)
         (receiver (streamer (startWithPrefetch plan) (endWithPostfetch plan)))).
Proof.
  intros Hstop Hplan Hsave Hrecv Hhandle Hfin.
  destruct (run_goes_on indexer streamer options plan _ w1 Hstop Hplan Hsave)
    as (s & evs & r & E & _ & Ho & Hr).
  unfold run. rewrite E. simpl. split; [by rewrite Hr, ?Hrecv|].
  intros Hpb. destruct (saved_resolved _ _ _ _ Hplan) as [_ Hw1].
  rewrite !offered_app, Hw1, (Ho Hpb). simpl.
  by destruct (_ && _); rewrite app_nil_r.
Qed.

Lemma hook_rejections_swallowed_witness :
  (run rejecting_indexer three_blocks (scenario_options 100 103 None)).2 = Ok tt
  ∧ (has_processBlock rejecting_indexer = true →
     offered (run rejecting_indexer three_blocks (scenario_options 100 103 None)).1.2
     = filter (λ m, handle_raw_events
                      (processingOptions (scenario_options 100 103 None)
                         (make_plan (scenario_options 100 103 None) 100 (Some 103) None) m)
                    = true)
         (receiver (three_blocks
                      (startWithPrefetch
                         (make_plan (scenario_options 100 103 None) 100 (Some 103) None))
                      (endWithPostfetch
                         (make_plan (scenario_options 100 103 None) 100 (Some 103) None))))).
Proof.
  apply (hook_rejections_swallowed rejecting_indexer three_blocks
           (scenario_options 100 103 None)
           (make_plan (scenario_options 100 103 None) 100 (Some 103) None)
           (InternalIndexerState.new, [])); try reflexivity.
  intros auto H. discriminate H.
Defined.

(** ** How a run ends *)

(** X4. Under [stop_on_error], the block in which a hook rejects is the last
    thing the receiving loop does: the post-processor is not called for that
    block (its height is not saved), no later message is looked at, and the
    run goes straight to [await handle].  When the handle resolves,
    [finalize] is called and [runIndexer] rejects with the hook's error
    unless [finalize] rejects as well; when the handle rejects, [finalize] is
    not called and [runIndexer] rejects with the handle's error; when the
    handle never settles, [finalize] is not called and [runIndexer] does not
    settle. *)
Theorem stop_on_error_halts (indexer : Indexer) (options : IndexerOptions) (plan : Plan)
    (stream : Stream) (pre post : list StreamerMessage) (m : StreamerMessage)
    (w w1 w2 : InternalIndexerState.t * list Event) (e : Err) :
  stop_on_error options = true →
  receiver stream = pre ++ m :: post →
  receive indexer options plan false pre w = (w1, Ok tt) →
  InternalIndexerState.processBlock indexer m (processingOptions options plan m) w1
    = (w2, Threw e) →
  stream_and_finalize indexer options plan stream w
  = match handle stream with
    | Settled (Ok _) =>
        ((w2.1, w2.2 ++ CAwaitHandle :: (if has_finalize indexer then [CFinalize] else [])),
         Threw (default e (finalize_outcome indexer (w2.2 ++ [CAwaitHandle]))))
    | Settled (Threw e') => ((w2.1, w2.2 ++ [CAwaitHandle]), Threw e')
    | Pending => ((w2.1, w2.2 ++ [CAwaitHandle]), Pending)
    end.
Proof.
  intros Hstop Hrecv Hpre Hpb.
  unfold stream_and_finalize, try_finally. rewrite Hrecv.
  unfold bind at 1. rewrite receive_app. unfold bind at 1. rewrite Hpre. simpl.
  unfold bind at 1. unfold on_message. unfold bind at 1. unfold try_catch.
  rewrite Hpb, Hstop. simpl.
  unfold bind, await_handle, finalize_outcome.
  destruct (handle stream) as [[[]|e']|]; simpl; [| done | done].
  unfold when, await_call. destruct (has_finalize indexer); simpl.
  - destruct (throws indexer _ CFinalize); simpl; by rewrite <- app_assoc.
  - done.
Qed.

Lemma stop_on_error_halts_witness :
  stream_and_finalize rejecting_indexer stop_options
    (make_plan stop_options 100 (Some 103) None) (three_blocks 100 (Some 103))
    (InternalIndexerState.new, [])
  = ((InternalIndexerState.new, [CProcessBlock (empty_block 100); CAwaitHandle; CFinalize]),
     Threw "boom"%string).
Proof.
  exact (stop_on_error_halts rejecting_indexer stop_options
           (make_plan stop_options 100 (Some 103) None) (three_blocks 100 (Some 103))
           [] [empty_block 101; empty_block 102] (empty_block 100)
           (InternalIndexerState.new, []) (InternalIndexerState.new, [])
           (InternalIndexerState.new, [CProcessBlock (empty_block 100)]) "boom"%string
           eq_refl eq_refl eq_refl eq_refl).
Defined.

(** X6. When the awaited handle rejects, the [finally] block of [runIndexer]
    is left at [await handle]: [finalize] is not called, and the run rejects
    with the handle's error, whatever the receiving loop did before (its own
    error, if any, is lost). *)
Theorem rejected_handle_skips_finalize (indexer : Indexer) (options : IndexerOptions)
    (plan : Plan) (stream : Stream) (w : InternalIndexerState.t * list Event) (e : Err) :
  handle stream = Threw e →
  ∃ s body,
    stream_and_finalize indexer options plan stream w
      = ((s, w.2 ++ body ++ [CAwaitHandle]), Threw e)
    ∧ Forall loop_call body.
Proof.
  intros Hh.
  destruct (stream_and_finalize_calls indexer options plan stream w)
    as (s & body & F & _ & Hrej & _).
  exists s, body. split; [by apply Hrej | done].
Qed.

Lemma rejected_handle_skips_finalize_witness :
  ∃ s body,
    stream_and_finalize quiet_indexer (scenario_options 100 103 None)
      (make_plan (scenario_options 100 103 None) 100 (Some 103) None) broken_handle
      (InternalIndexerState.new, [])
      = ((s, [] ++ body ++ [CAwaitHandle]), Threw "producer crashed"%string)
    ∧ Forall loop_call body.
Proof.
  exact (rejected_handle_skips_finalize quiet_indexer (scenario_options 100 103 None)
           (make_plan (scenario_options 100 103 None) 100 (Some 103) None) broken_handle
           (InternalIndexerState.new, []) "producer crashed"%string eq_refl).
Defined.

(** ** What one correlated receipt does to the state machine *)

Lemma when_call_cases {S} (b : bool) oracle (e : Event) (w : S * list Event) :
  ∃ evs r, when b (await_call oracle e) w = ((w.1, w.2 ++ evs), r)
           ∧ (evs = [] ∨ evs = [e])
           ∧ (r = Ok tt ∨ ∃ err, r = Threw err ∧ evs = [e]).
Proof.
  destruct b; simpl.
  - unfold await_call. destruct (oracle w.2 e) as [err|].
    + exists [e], (Threw err). split; [done|]. split; [by right|]. right. by exists err.
    + exists [e], (Ok tt). split; [done|]. split; [by right | by left].
  - exists [], (Ok tt). unfold ret. rewrite app_nil_r. destruct w.
    split; [done|]. split; by left.
Qed.

(** A receipt either leaves the state machine as it is (at most [onReceipt]
    was called, and rejected), or it is recorded in the open transaction its
    id points at, which is then closed if nothing is left unresolved. *)
Lemma correlate_step indexer message options r w w' res :
  InternalIndexerState.correlate indexer message options r w = (w', res) →
  (w'.1 = w.1
   ∧ ∃ evs, w'.2 = w.2 ++ evs ∧ Forall (λ e, ∃ p itx, e = COnReceipt p itx message) evs)
  ∨ ∃ txId incomplete evs,
      InternalIndexerState.receiptToTx w.1 !! receipt_id r = Some txId
      ∧ InternalIndexerState.pendingTransactions w.1 !! txId = Some incomplete
      ∧ Forall (λ e, ∃ p itx, e = COnReceipt p itx message) evs
      ∧ let a := absorb_follow_ons txId (receipt_ids r)
                   (InternalIndexerState.receiptToTx w.1,
                    JsMap.set (receipt_id r) (Some (processed_receipt r message))
                      (receipts incomplete)) in
        let itx := {| transaction := transaction incomplete; receipts := a.2 |} in
        if every_not_null (JsMap.values a.2)
        then w'.1 = InternalIndexerState.forget txId
                      (InternalIndexerState.store txId itx a.1 w.1)
             ∧ (w'.2 = w.2 ++ evs
                ∨ w'.2 = w.2 ++ evs
                    ++ [COnTransaction {| c_transaction := transaction incomplete;
                                          c_receipts := as_receipts (JsMap.values a.2) |}
                          message])
        else w'.1 = InternalIndexerState.store txId itx a.1 w.1
             ∧ w'.2 = w.2 ++ evs.
Proof.
  destruct w as [s calls]. unfold InternalIndexerState.correlate.
  unfold bind at 1. unfold get_state at 1. cbn [fst snd].
  assert (∀ x : InternalIndexerState.t * list Event,
            (x.1 = x.1 ∧ ∃ evs : list Event, x.2 = x.2 ++ evs
               ∧ Forall (λ e, ∃ p itx, e = COnReceipt p itx message) evs)) as Hnop.
  { intros x. split; [done|]. exists []. by rewrite app_nil_r. }
  destruct (InternalIndexerState.receiptToTx s !! receipt_id r) as [txId|] eqn:Hr2t;
    [| intros [= <- <-]; left; apply (Hnop (s, calls))].
  destruct (truthy txId && preprocess options);
    [| intros [= <- <-]; left; apply (Hnop (s, calls))].
  destruct (InternalIndexerState.pendingTransactions s !! txId) as [incomplete|] eqn:Hpend;
    [| intros [= <- <-]; left; apply (Hnop (s, calls))].
  unfold bind at 1.
  destruct (when_call_cases
              (has_onReceipt indexer && handle_preprocessed_transactions_by_indexer options)
              (throws indexer) (COnReceipt (processed_receipt r message) incomplete message)
              (s, calls)) as (evs & r1 & -> & Hevs & Hr1).
  assert (Forall (λ e, ∃ p itx, e = COnReceipt p itx message) evs) as Fevs.
  { destruct Hevs as [-> | ->]; repeat constructor. by eexists _, _. }
  destruct Hr1 as [-> | (err & -> & _)];
    [| intros [= <- <-]; left; split; [done | by exists evs]].
  intros E. right. exists txId, incomplete, evs.
  split; [done|]. split; [done|]. split; [done|].
  revert E. unfold bind, get_state, modify. cbn [fst snd].
  destruct (every_not_null _); [| by intros [= <- <-]].
  cbn [fst snd].
  match goal with
  | |- when ?b (await_call ?o ?e) ?w = _ → _ =>
      destruct (when_call_cases b o e w) as (evs2 & r2 & -> & Hevs2 & _)
  end.
  intros [= <- <-]. cbn [fst snd]. split; [done|].
  destruct Hevs2 as [-> | ->]; [left; by rewrite app_nil_r | right; by rewrite app_assoc].
Qed.

(** ** The two maps never grow where they should not *)

Lemma point_at_dom hash ids (r2t : gmap string string) :
  dom r2t ⊆ dom (point_at hash ids r2t).
Proof.
  intros r. rewrite !elem_of_dom, point_at_lookup. intros Hr.
  by destruct (decide (r ∈ ids)).
Qed.

Lemma absorb_follow_ons_dom txId ids (r2t : gmap string string) m :
  dom r2t ⊆ dom (absorb_follow_ons txId ids (r2t, m)).1.
Proof.
  intros r. rewrite !elem_of_dom, absorb_follow_ons_r2t. intros Hr.
  by destruct (decide (r ∈ ids)).
Qed.

Lemma processBlock_receiptToTx_grows (D : gset string) indexer message options :
  preserves (λ s, D ⊆ dom (InternalIndexerState.receiptToTx s))
    (InternalIndexerState.processBlock indexer message options).
Proof.
  unfold InternalIndexerState.processBlock.
  apply preserves_bind; [apply preserves_when, preserves_await_call | intros _].
  apply preserves_bind; [| intros _].
  { apply preserves_for_each. intros shard. destruct (chunk shard); [| apply preserves_ret].
    apply preserves_for_each. intros tx.
    apply preserves_bind; [| intros _; apply preserves_when, preserves_await_call].
    apply preserves_modify. intros s Hs. unfold InternalIndexerState.register_transaction.
    destruct (preprocess options); [| done].
    destruct (preprocess_new_transactions options); simpl;
      (etrans; [exact Hs | apply point_at_dom]). }
  apply preserves_bind; [| intros _; apply preserves_when, preserves_await_call].
  apply preserves_for_each. intros shard. apply preserves_for_each. intros r.
  apply preserves_bind; [| intros _; apply preserves_when, preserves_await_call].
  intros w w' res E HD.
  destruct (correlate_step _ _ _ _ _ _ _ E) as [[-> _] | (txId & itx & evs & _ & _ & _ & H)];
    [done|].
  simpl in H. destruct (every_not_null _); destruct H as [-> _]; simpl;
    (etrans; [exact HD | apply absorb_follow_ons_dom]).
Qed.

Lemma processBlock_no_new_transactions (D : gset string) indexer message options :
  preprocess_new_transactions options = false →
  preserves (λ s, dom (InternalIndexerState.pendingTransactions s) ⊆ D)
    (InternalIndexerState.processBlock indexer message options).
Proof.
  intros Hnew. unfold InternalIndexerState.processBlock.
  apply preserves_bind; [apply preserves_when, preserves_await_call | intros _].
  apply preserves_bind; [| intros _].
  { apply preserves_for_each. intros shard. destruct (chunk shard); [| apply preserves_ret].
    apply preserves_for_each. intros tx.
    apply preserves_bind; [| intros _; apply preserves_when, preserves_await_call].
    apply preserves_modify. intros s Hs. unfold InternalIndexerState.register_transaction.
    rewrite Hnew. by destruct (preprocess options). }
  apply preserves_bind; [| intros _; apply preserves_when, preserves_await_call].
  apply preserves_for_each. intros shard. apply preserves_for_each. intros r.
  apply preserves_bind; [| intros _; apply preserves_when, preserves_await_call].
  intros w w' res E HD.
  destruct (correlate_step _ _ _ _ _ _ _ E)
    as [[-> _] | (txId & itx & evs & _ & Hpend & _ & H)]; [done|].
  assert (txId ∈ dom (InternalIndexerState.pendingTransactions w.1)) as Hin
    by (apply elem_of_dom; by eexists).
  simpl in H. destruct (every_not_null _); destruct H as [-> _]; simpl.
  - intros h. rewrite dom_delete_L, dom_insert_L, elem_of_difference, elem_of_union,
      elem_of_singleton. intros [[-> | Hh] Hne]; [done | by apply HD].
  - intros h. rewrite dom_insert_L, elem_of_union, elem_of_singleton.
    intros [-> | Hh]; by apply HD.
Qed.

(** X7. [processBlock] never forgets a receipt id: every id that
    [receiptToTx] knows before a block it still knows after it (the map is
    only ever added to).  And a block processed with
    [preprocess_new_transactions] off, as every postfetch block is, opens no
    transaction: the hashes in [pendingTransactions] afterwards were all there
    before.  Both hold whatever the hooks do, rejections included. *)
Theorem maps_only_grow_where_allowed (indexer : Indexer) (message : StreamerMessage)
    (options : BlockProcessingOptions) (w : InternalIndexerState.t * list Event) :
  let after := (InternalIndexerState.processBlock indexer message options w).1.1 in
  dom (InternalIndexerState.receiptToTx w.1) ⊆ dom (InternalIndexerState.receiptToTx after)
  ∧ (preprocess_new_transactions options = false →
     dom (InternalIndexerState.pendingTransactions after)
     ⊆ dom (InternalIndexerState.pendingTransactions w.1)).
Proof.
  simpl. destruct (InternalIndexerState.processBlock indexer message options w)
    as [w' r] eqn:E. simpl. split.
  - by apply (processBlock_receiptToTx_grows _ _ _ _ _ _ _ E).
  - intros Hnew. by apply (processBlock_no_new_transactions _ _ _ _ Hnew _ _ _ E).
Qed.

(** ** The order of the receipts of a completed transaction *)

Lemma keys_set {V} k (v : V) m :
  JsMap.keys (JsMap.set k v m)
  = if decide (k ∈ JsMap.keys m) then JsMap.keys m else JsMap.keys m ++ [k].
Proof.
  unfold JsMap.keys. induction m as [|[k0 v0] m IH].
  - destruct (decide (k ∈ [].*1)) as [Hin|_]; [by apply elem_of_nil in Hin | done].
  - cbn [JsMap.set]. rewrite fmap_cons. cbn [fst].
    destruct (decide (k0 = k)) as [->|Hne].
    + rewrite fmap_cons. cbn [fst].
      destruct (decide (k ∈ k :: m.*1)) as [_|Hnin]; [done|]. destruct Hnin. by left.
    + rewrite fmap_cons, IH. cbn [fst].
      destruct (decide (k ∈ m.*1)) as [Hin|Hnin];
        destruct (decide (k ∈ k0 :: m.*1)) as [Hin'|Hnin']; try done.
      * destruct Hnin'. by right.
      * apply elem_of_cons in Hin' as [-> | ?]; done.
Qed.

Lemma keys_set_prefix {V} k (v : V) m : JsMap.keys m `prefix_of` JsMap.keys (JsMap.set k v m).
Proof. rewrite keys_set. destruct (decide _); [done | by apply prefix_app_r]. Qed.

Lemma absorb_follow_ons_prefix txId ids (r2t : gmap string string)
    (m : list (string * option TransactionReceipt)) :
  JsMap.keys m `prefix_of` JsMap.keys (absorb_follow_ons txId ids (r2t, m)).2.
Proof.
  unfold absorb_follow_ons. revert r2t m.
  induction ids as [|i ids IH]; intros r2t m; cbn [foldl fst snd]; [done|].
  etrans; [| apply IH]. destruct (JsMap.has i m); [done | apply keys_set_prefix].
Qed.

Lemma fresh_receipts_keys ids : JsMap.keys (fresh_receipts ids) = first_seen ids.
Proof.
  unfold fresh_receipts, first_seen.
  change (@nil string) with (JsMap.keys (@nil (string * option TransactionReceipt))) at 2.
  generalize (@nil (string * option TransactionReceipt)).
  induction ids as [|i ids IH]; intros m; cbn [foldl]; [done|].
  by rewrite IH, keys_set.
Qed.

(** Once every entry is resolved, the receipts read off the map are the
    receipts of the keys, in key order. *)
Lemma as_receipts_ids (m : list (string * option TransactionReceipt)) :
  every_not_null (JsMap.values m) = true →
  (∀ k p, (k, Some p) ∈ m → receipt_id (receipt p) = k) →
  (λ p, receipt_id (receipt p)) <$> as_receipts (JsMap.values m) = JsMap.keys m.
Proof.
  unfold every_not_null, as_receipts, JsMap.values, JsMap.keys.
  induction m as [|[k [p|]] m IH]; simpl; intros Hall Hown; [done | | done].
  f_equal; [apply Hown; by left|].
  apply IH; [done|]. intros k' p' Hin. apply Hown. by right.
Qed.

Lemma register_transaction_well_keyed options tx s :
  well_keyed s → well_keyed (InternalIndexerState.register_transaction options tx s).
Proof.
  intros HI. unfold InternalIndexerState.register_transaction.
  destruct (preprocess options); [| done].
  destruct (preprocess_new_transactions options); [| done].
  intros h itx. simpl. rewrite lookup_insert.
  destruct (decide (tx_hash tx = h)) as [_|Hne]; [| apply HI].
  intros [= <-]. simpl. split_and!.
  - apply fresh_receipts_NoDup.
  - intros k p Hin.
    pose proof (fold_set_null_all_null (tx_receipt_ids tx) [] (Forall_nil_2 _)) as Hnull.
    rewrite Forall_forall in Hnull. by specialize (Hnull _ Hin).
  - by rewrite fresh_receipts_keys.
Qed.

(** The receipt map of an open transaction after one more of its receipts
    is recorded. *)
Lemma recorded_well_keyed txId r message (r2t : gmap string string)
    (m : list (string * option TransactionReceipt)) (ids : list string) :
  NoDup (JsMap.keys m) →
  (∀ k p, (k, Some p) ∈ m → receipt_id (receipt p) = k) →
  ids `prefix_of` JsMap.keys m →
  let m' := (absorb_follow_ons txId (receipt_ids r)
               (r2t, JsMap.set (receipt_id r) (Some (processed_receipt r message)) m)).2 in
  NoDup (JsMap.keys m')
  ∧ (∀ k p, (k, Some p) ∈ m' → receipt_id (receipt p) = k)
  ∧ ids `prefix_of` JsMap.keys m'.
Proof.
  intros Hnd Hown Hpre. simpl. split_and!.
  - by apply absorb_follow_ons_NoDup, keys_set_NoDup.
  - intros k p Hin.
    apply elem_of_get in Hin; [| by apply absorb_follow_ons_NoDup, keys_set_NoDup].
    rewrite absorb_follow_ons_get, get_set in Hin.
    destruct (decide (receipt_id r = k)) as [<-|Hne]; [by injection Hin as <-|].
    destruct (JsMap.get k m) as [v|] eqn:Hget.
    + injection Hin as ->. apply Hown. by apply elem_of_get.
    + by destruct (decide (k ∈ receipt_ids r)).
  - etrans; [exact Hpre|]. etrans; [| apply absorb_follow_ons_prefix]. apply keys_set_prefix.
Qed.

Lemma correlate_well_keyed indexer message options r :
  maintains well_keyed receipts_in_id_order
    (InternalIndexerState.correlate indexer message options r).
Proof.
  intros w w' res E HI.
  destruct (correlate_step _ _ _ _ _ _ _ E)
    as [(-> & evs & -> & F) | (txId & itx & evs & _ & Hpend & F & H)].
  { split; [done|]. exists evs. split; [done|].
    eapply Forall_impl; [exact F|]. by intros e (p & itx & ->). }
  assert (Forall receipts_in_id_order evs) as F'.
  { eapply Forall_impl; [exact F|]. by intros e (p & itx' & ->). }
  destruct (HI _ _ Hpend) as (Hnd & Hown & Hpre).
  destruct (recorded_well_keyed txId r message (InternalIndexerState.receiptToTx w.1)
              (receipts itx) _ Hnd Hown Hpre) as (Hnd' & Hown' & Hpre').
  simpl in H. destruct (every_not_null _) eqn:Hall; destruct H as [-> Hlog].
  - split.
    + intros h itx'. simpl. rewrite lookup_delete.
      destruct (decide (txId = h)); [done|]. rewrite lookup_insert_ne by done. apply HI.
    + destruct Hlog as [-> | ->]; [by exists evs|].
      eexists. split; [done|]. apply Forall_app. split; [done|].
      repeat constructor; unfold completed_ids; simpl; by rewrite as_receipts_ids.
  - split; [| by exists evs].
    intros h itx'. simpl. rewrite lookup_insert.
    destruct (decide (txId = h)); [by intros [= <-] | apply HI].
Qed.

Lemma processBlock_well_keyed indexer message options :
  maintains well_keyed receipts_in_id_order
    (InternalIndexerState.processBlock indexer message options).
Proof.
  unfold InternalIndexerState.processBlock.
  apply maintains_bind; [by apply maintains_when, maintains_call | intros _].
  apply maintains_bind; [| intros _].
  { apply maintains_for_each. intros shard. destruct (chunk shard); [| apply maintains_ret].
    apply maintains_for_each. intros tx.
    apply maintains_bind; [| intros _; by apply maintains_when, maintains_call].
    apply maintains_intro; [| apply emits_modify].
    apply preserves_modify, register_transaction_well_keyed. }
  apply maintains_bind; [| intros _; by apply maintains_when, maintains_call].
  apply maintains_for_each. intros shard. apply maintains_for_each. intros r.
  apply maintains_bind; [apply correlate_well_keyed | intros _].
  by apply maintains_when, maintains_call.
Qed.

(** X8. In every run, each [onTransaction] call lists every receipt once,
    and the receipts the transaction itself announced come first, in the
    order of [receipt_ids] in the transaction outcome (follow-on receipts come
    after them): the list follows the order in which the ids became known,
    not the order in which the receipts were resolved. *)
Theorem completed_receipts_order (indexer : Indexer) (streamer : MessageStreamer)
    (options : IndexerOptions) :
  Forall receipts_in_id_order (run indexer streamer options).1.2.
Proof.
  unfold run.
  destruct (runIndexer indexer streamer options (InternalIndexerState.new, []))
    as [w' r] eqn:E.
  destruct (runIndexer_maintains well_keyed receipts_in_id_order indexer streamer options
              I I I (λ _ _, I) (λ _, I)
              (λ plan message, processBlock_well_keyed indexer message _) _ _ _ E)
    as (_ & evs & Hevs & F).
  - intros h itx. simpl. by rewrite lookup_empty.
  - simpl in *. by rewrite Hevs.
Qed.

(** Receipt [b] is resolved one block before receipt [a]; the completed
    transaction still lists [a] first. *)
Example resolution_order_is_not_list_order :
  (λ '(c, block), (completed_ids c, block_height <$> c_receipts c, height block))
    <$> completions "AB"
          (run quiet_indexer (NeardataProvider.stream b_before_a)
             (scenario_options 100 102
                (Some {| prefetch_blocks := 0; postfetch_blocks := 0 |}))).1.2
  = [(["a"; "b"], [101; 100], 101)].
Proof. vm_compute. reflexivity. Qed.

(** ** The async queue *)

Section AsyncQueueFacts.
Import AsyncQueueClass.
Context {T : Type}.
Implicit Types (q : t T) (ops : list (Op T)).

Lemma closed_snoc ops (op : Op T) :
  closed (ops ++ [op]) = closed ops || match op with Close => true | _ => false end.
Proof. unfold closed. rewrite existsb_app. simpl. by rewrite orb_false_r. Qed.

Lemma accepted_snoc ops (op : Op T) :
  accepted (ops ++ [op])
  = accepted ops ++ (if closed ops then []
                     else match op with Push v => [v] | _ => [] end).
Proof.
  induction ops as [|o ops IH]; [by destruct op|].
  destruct o as [v| |g]; cbn [accepted app closed existsb orb]; [| done |].
  - fold (closed ops). by rewrite IH.
  - fold (closed ops). by rewrite IH.
Qed.

Lemma generator_insert (gens : gmap nat GenState) g g' st :
  default Ready (<[g := st]> gens !! g')
  = if decide (g = g') then st else default Ready (gens !! g').
Proof. rewrite lookup_insert. by destruct (decide (g = g')). Qed.

Lemma queue_inv_new : queue_inv (T:=T) [] new.
Proof.
  split; try done.
  - intros g. split; [by intros ?%elem_of_nil | by intros [? ?]].
  - constructor.
Qed.

Lemma queue_inv_serve ops g requests q :
  queue_inv_but g ops q → queue_inv ops (serve g requests q).
Proof.
  revert q. induction requests as [|queued IH]; intros q
    [Hfifo Hidle Hclosed Hdone Hwait Hrun Hnd Hret].
  - split; simpl; try done.
    + intros g'. unfold generator at 1. simpl. rewrite generator_insert.
      destruct (decide (g = g')) as [<-|Hne]; [| by apply Hwait].
      split; [done | by intros [? ?]].
    + intros g'. unfold generator at 1. simpl. rewrite generator_insert.
      destruct (decide (g = g')); [done | by apply Hret].
  - simpl. destruct (values q) as [|v rest] eqn:Ev.
    + destruct (done q) eqn:Ed.
      * split; simpl; rewrite ?Ed; try done.
        intros g'. unfold generator at 1. simpl. rewrite generator_insert.
        destruct (decide (g = g')) as [<-|Hne]; [| by apply Hwait].
        split; [done | by intros [? ?]].
      * split; simpl; rewrite ?Ed; try done.
        -- intros g'. unfold generator at 1. simpl. rewrite generator_insert.
           rewrite elem_of_app, list_elem_of_singleton.
           destruct (decide (g = g')) as [<-|Hne]; [split; [by eauto | by right]|].
           fold (generator q g'). rewrite <- (Hwait g') by done.
           split; [by intros [? | ?] | by left].
        -- apply NoDup_app. split; [done|]. split; [| apply NoDup_singleton].
           by intros g' Hin ->%list_elem_of_singleton.
        -- intros g'. unfold generator at 1. simpl. rewrite generator_insert.
           destruct (decide (g = g')); [done | by apply Hret].
    + apply IH. split; simpl; try done.
      * rewrite fmap_app, <- Hfifo. simpl. by rewrite <- app_assoc.
      * intros _. by apply Hidle.
Qed.

Lemma queue_inv_push ops q v : queue_inv ops q → queue_inv (ops ++ [Push v]) (push v q).
Proof.
  intros [Hfifo Hidle Hclosed Hdone Hwait Hnd Hret]. unfold push.
  destruct (done q) eqn:Ed.
  { split.
    - by rewrite accepted_snoc, <- Hclosed, app_nil_r.
    - done.
    - by rewrite closed_snoc, <- Hclosed, Ed.
    - intros _. by apply Hdone.
    - done.
    - done.
    - done. }
  destruct (resolvers q) as [|g rest] eqn:Er.
  { split; simpl.
    - by rewrite accepted_snoc, <- Hclosed, app_assoc, Hfifo.
    - by rewrite ?Er.
    - by rewrite closed_snoc, <- Hclosed, orb_false_r.
    - by rewrite ?Er.
    - intros g. by rewrite ?Er.
    - by rewrite ?Er.
    - done. }
  assert (values q = []) as Ev.
  { destruct (values q) eqn:E; [done|]. by discriminate Hidle. }
  apply NoDup_cons in Hnd as [Hnotin Hnd].
  apply queue_inv_serve. split; simpl.
  - rewrite accepted_snoc, <- Hclosed.
    rewrite fmap_app, <- Hfifo, Ev. simpl. by rewrite !app_nil_r.
  - by rewrite ?Ev.
  - by rewrite closed_snoc, <- Hclosed, orb_false_r.
  - by rewrite ?Ed.
  - intros g' Hne.
    change (g' ∈ rest ↔ ∃ queued, generator q g' = Awaiting queued).
    rewrite <- (Hwait g'), elem_of_cons.
    split; [by right | by intros [? | ?]].
  - done.
  - done.
  - intros g' _. apply Hret.
Qed.

Lemma returned_all (gens : gmap nat GenState) (l : list nat) g :
  default Ready (foldr (λ g gens, <[g := Returned]> gens) gens l !! g)
  = if decide (g ∈ l) then Returned else default Ready (gens !! g).
Proof.
  induction l as [|x l IH]; cbn [foldr].
  - destruct (decide (g ∈ [])) as [?%elem_of_nil|]; done.
  - rewrite generator_insert, IH.
    destruct (decide (x = g)) as [->|Hne].
    + destruct (decide (g ∈ g :: l)) as [|Hn]; [done|]. destruct Hn. by left.
    + destruct (decide (g ∈ l)) as [Hin|Hnin];
        destruct (decide (g ∈ x :: l)) as [Hin'|Hnin']; try done.
      * destruct Hnin'. by right.
      * apply elem_of_cons in Hin' as [-> | ?]; done.
Qed.

Lemma queue_inv_close ops q : queue_inv ops q → queue_inv (ops ++ [Close]) (close q).
Proof.
  intros [Hfifo Hidle Hclosed Hdone Hwait Hnd Hret]. unfold close.
  split; simpl.
  - rewrite accepted_snoc. by destruct (closed ops); rewrite app_nil_r.
  - done.
  - by rewrite closed_snoc, orb_true_r.
  - done.
  - intros g. unfold generator. simpl. rewrite returned_all.
    split; [by intros ?%elem_of_nil|].
    destruct (decide (g ∈ resolvers q)) as [|Hnin]; [by intros [? ?]|].
    intros H. destruct Hnin. by apply Hwait.
  - constructor.
  - done.
Qed.

Lemma queue_inv_next ops q g : queue_inv ops q → queue_inv (ops ++ [Next g]) (next g q).
Proof.
  intros [Hfifo Hidle Hclosed Hdone Hwait Hnd Hret]. unfold next.
  assert (accepted (ops ++ [Next g]) = accepted ops) as Ha.
  { rewrite accepted_snoc. by destruct (closed ops); rewrite app_nil_r. }
  assert (closed (ops ++ [Next g]) = closed ops) as Hc
    by (by rewrite closed_snoc, orb_false_r).
  destruct (generator q g) as [|queued|] eqn:Eg.
  - apply queue_inv_serve. split; rewrite ?Ha, ?Hc; try done.
    + intros Hin. apply Hwait in Hin as [? ?]. congruence.
    + intros g' _. apply Hret.
  - split; simpl; rewrite ?Ha, ?Hc; try done.
    + intros g'. unfold generator at 1. simpl. rewrite generator_insert.
      destruct (decide (g = g')) as [<-|Hne]; [| apply Hwait].
      split; [by eauto |]. intros _. apply Hwait. by eauto.
    + intros g'. unfold generator at 1. simpl. rewrite generator_insert.
      destruct (decide (g = g')); [done | apply Hret].
  - by split; rewrite ?Ha, ?Hc.
Qed.

Lemma run_inv ops : queue_inv ops (run ops).
Proof.
  unfold run. induction ops as [|op ops IH] using rev_ind; [apply queue_inv_new|].
  rewrite foldl_app. simpl. destruct op as [v| |g]; simpl.
  - by apply queue_inv_push.
  - by apply queue_inv_close.
  - by apply queue_inv_next.
Qed.

Lemma next_drains q g (n : nat) :
  done q = true → generator q g = Ready → length (values q) = n →
  let q' := foldl apply q (replicate (S n) (Next g)) in
  values q' = [] ∧ generator q' g = Returned
  ∧ delivered q' = delivered q ++ ((λ v, (g, v)) <$> values q).
Proof.
  revert q. induction n as [|n IH]; intros q Hd Hg Hn.
  - destruct (values q) eqn:Ev; [| done]. simpl. unfold next. rewrite Hg. simpl.
    rewrite Ev, Hd. simpl.
    unfold generator. simpl. rewrite lookup_insert_eq. by rewrite app_nil_r.
  - destruct (values q) as [|v rest] eqn:Ev; [done|].
    set (q1 := {| values := rest; resolvers := resolvers q; done := done q;
                  generators := <[g := Ready]> (generators q);
                  delivered := delivered q ++ [(g, v)] |}).
    assert (next g q = q1) as Hstep by (unfold next; rewrite Hg; simpl; by rewrite Ev).
    destruct (IH q1) as (H1 & H2 & H3); [done | | by simpl in *; lia |].
    { unfold generator, q1. simpl. by rewrite lookup_insert_eq. }
    cbn [replicate foldl apply] in *. rewrite Hstep.
    split; [done|]. split; [done|].
    rewrite H3. simpl. by rewrite <- app_assoc.
Qed.

End AsyncQueueFacts.

(** Two [next()] calls made before anything is pushed are both served: the
    second is queued behind the first, and each push is yielded at once. *)
Example queued_requests_are_served :
  let q := AsyncQueueClass.run
             [AsyncQueueClass.Next 0%nat; AsyncQueueClass.Next 0%nat;
              AsyncQueueClass.Push 1; AsyncQueueClass.Push 2] in
  AsyncQueueClass.delivered q = [(0%nat, 1); (0%nat, 2)]
  ∧ AsyncQueueClass.values q = []
  ∧ AsyncQueueClass.generator q 0%nat = AsyncQueueClass.Ready.
Proof. vm_compute. done. Qed.


(** X10. Closing the queue does not discard what is buffered: once
    [close()] has been called, an iterator that keeps calling [next()] is
    handed every value still in the buffer, in order, and then returns; it is
    never left waiting. *)
Theorem async_queue_drains {T} (ops : list (AsyncQueueClass.Op T)) (g : nat) :
  closed ops = true →
  AsyncQueueClass.generator (AsyncQueueClass.run ops) g = AsyncQueueClass.Ready →
  let q := AsyncQueueClass.run ops in
  let q' := AsyncQueueClass.run
              (ops ++ replicate (S (length (AsyncQueueClass.values q)))
                        (AsyncQueueClass.Next g)) in
  AsyncQueueClass.values q' = []
  ∧ AsyncQueueClass.generator q' g = AsyncQueueClass.Returned
  ∧ AsyncQueueClass.resolvers q' = []
  ∧ AsyncQueueClass.delivered q'
    = AsyncQueueClass.delivered q ++ ((λ v, (g, v)) <$> AsyncQueueClass.values q).
Proof.
  intros Hc Hg. cbv zeta.
  set (l := replicate _ _).
  pose proof (run_inv (ops ++ l)) as Hinv.
  assert (AsyncQueueClass.run (ops ++ l)
          = foldl AsyncQueueClass.apply (AsyncQueueClass.run ops) l)
    as Happ by apply foldl_app.
  rewrite Happ in *.
  destruct (run_inv ops) as [_ _ Hclosed _ _ _ _].
  destruct (next_drains (AsyncQueueClass.run ops) g _ (eq_trans Hclosed Hc) Hg eq_refl)
    as (H1 & H2 & H3).
  split; [done|]. split; [done|]. split; [| done].
  apply (qi_done _ _ Hinv). rewrite (qi_closed _ _ Hinv).
  unfold closed. rewrite existsb_app. fold (closed ops). by rewrite Hc.
Qed.

Lemma async_queue_drains_witness :
  let ops := [AsyncQueueClass.Push 1; AsyncQueueClass.Push 2; AsyncQueueClass.Close] in
  let q' := AsyncQueueClass.run (ops ++ replicate 3 (AsyncQueueClass.Next 0%nat)) in
  AsyncQueueClass.values q' = [] ∧ AsyncQueueClass.generator q' 0%nat = AsyncQueueClass.Returned
  ∧ AsyncQueueClass.resolvers q' = []
  ∧ AsyncQueueClass.delivered q' = [] ++ [(0%nat, 1); (0%nat, 2)].
Proof.
  exact (async_queue_drains
           [AsyncQueueClass.Push 1; AsyncQueueClass.Push 2; AsyncQueueClass.Close] 0%nat
           eq_refl eq_refl).
Defined.

(** ** How many fetches are in flight *)

Section InFlight.
Import ParallelProviderStreamer.

Lemma prime_in_flight workers end_ s k :
  in_flight k s → in_flight (k + workers) (prime workers end_ s)
  ∧ (length (waiting (prime workers end_ s)) ≤ length (waiting s) + workers)%nat.
Proof.
  revert s k. induction workers as [|n IH]; intros s k [Hlen Hact]; simpl.
  - split; [split; [lia | done] | lia].
  - destruct (scheduled s <? end_).
    + destruct (IH (schedule_next s) (S k)) as [[H1 H2] H3].
      { split; simpl; rewrite length_app; simpl; lia. }
      simpl in H3. rewrite length_app in H3. simpl in H3.
      split; [split; [lia | done] | lia].
    + split; [split; [lia | done] | lia].
Qed.

Lemma drain_active fuel s : active (drain fuel s) = active s.
Proof.
  revert s. induction fuel as [|fuel IH]; intros s; simpl; [done|].
  destruct (results s !! nextToEmit s); [| done]. by rewrite IH.
Qed.

Lemma settle_in_flight provider end_ workers i s :
  in_flight workers s → in_flight workers (settle provider end_ i s).
Proof.
  intros [Hlen Hact]. unfold settle.
  destruct (waiting s !! i) as [[h retries]|] eqn:Hi; [| done].
  pose proof (lookup_lt_Some _ _ _ Hi) as Hlt.
  destruct (provider h retries) as [|msg].
  - split; simpl; by rewrite length_insert.
  - unfold resolved.
    set (s1 := {| nextToEmit := nextToEmit s; results := <[h:=msg]> (results s);
                  active := active s - 1; scheduled := scheduled s;
                  waiting := delete i (waiting s); queue := queue s |}).
    destruct (drain_waiting (size (results s1)) s1) as [Hw _].
    pose proof (drain_active (size (results s1)) s1) as Ha.
    set (s2 := drain (size (results s1)) s1) in *.
    assert (length (waiting s2) = pred (length (waiting s))) as Hl.
    { rewrite Hw. simpl. rewrite length_delete by (by eexists). lia. }
    assert (active s2 = active s - 1) as Ha' by (by rewrite Ha).
    destruct (scheduled s2 <? end_).
    + split; simpl; rewrite length_app; simpl; lia.
    + destruct (_ && _); split; simpl; lia.
Qed.

End InFlight.

(** X11. The parallel streamer never has more than [workers] calls of
    [getMessage] in flight, in no state of no run, however fetches settle and
    however often they are retried; the counter [active] is exactly the number
    of calls in flight; and, for a source that returns for a height the
    message of that height, no two of them are for the same height. *)
Theorem in_flight_bound (provider : MessageProvider) (workers : nat) (first : BlockHeight)
    (lastExclusive : option BlockHeight) (s : ParallelProviderStreamer.t) :
  ParallelProviderStreamer.reachable provider workers first lastExclusive s →
  (length (ParallelProviderStreamer.waiting s) ≤ workers)%nat
  ∧ ParallelProviderStreamer.active s
    = Z.of_nat (length (ParallelProviderStreamer.waiting s))
  ∧ (honest provider → NoDup (ParallelProviderStreamer.waiting s).*1).
Proof.
  intros Hr.
  assert (in_flight workers s) as [H1 H2].
  { revert s Hr. apply rtc_ind_r.
    - unfold ParallelProviderStreamer.start.
      by destruct (prime_in_flight workers (default MAX_SAFE_INTEGER lastExclusive)
                     (ParallelProviderStreamer.init first) 0%nat) as [? _].
    - intros s1 s2 _ [s0 i _] IH. by apply settle_in_flight. }
  split; [done|]. split; [done|]. intros Hh.
  by destruct (reachable_settled _ _ _ _ _ Hh Hr) as [[] _ _].
Qed.

Lemma in_flight_bound_witness :
  (length (ParallelProviderStreamer.waiting out_of_order_run) ≤ 3)%nat
  ∧ ParallelProviderStreamer.active out_of_order_run
    = Z.of_nat (length (ParallelProviderStreamer.waiting out_of_order_run))
  ∧ (honest flaky_provider → NoDup (ParallelProviderStreamer.waiting out_of_order_run).*1).
Proof.
  exact (in_flight_bound flaky_provider 3 100 (Some 104) out_of_order_run
           (run_order_reachable flaky_provider 3 100 (Some 104) [2; 2; 2; 1; 1; 0; 0]%nat)).
Defined.

(** ** A window without work *)

Lemma prime_idle workers end_ s :
  workers = O ∨ end_ ≤ ParallelProviderStreamer.scheduled s →
  ParallelProviderStreamer.prime workers end_ s = s.
Proof.
  intros [-> | Hle]; [done|]. destruct workers as [|n]; [done|]. simpl.
  destruct (Z.ltb_spec (ParallelProviderStreamer.scheduled s) end_); [lia | done].
Qed.

(** X12. [ParallelProviderStreamer] closes its queue only from a worker's
    [finally] block.  With no worker ([workers = 0]) or an empty window
    ([lastExclusive <= first]) no worker is ever started, so nothing ever
    happens: the only state of the run is the initial one, with nothing
    delivered and the queue still open: a consumer waits for ever.  The serial
    [ProviderStreamer] closes its queue at once on the same empty window. *)
Theorem parallel_idle_never_closes (provider : MessageProvider) (workers : nat)
    (first : BlockHeight) (lastExclusive : option BlockHeight)
    (s : ParallelProviderStreamer.t) :
  workers = O ∨ default MAX_SAFE_INTEGER lastExclusive ≤ first →
  ParallelProviderStreamer.reachable provider workers first lastExclusive s →
  s = ParallelProviderStreamer.init first
  ∧ done (ParallelProviderStreamer.queue s) = false
  ∧ values (ParallelProviderStreamer.queue s) = []
  ∧ (default MAX_SAFE_INTEGER lastExclusive ≤ first →
     ∀ fuel, ProviderStreamer.stream fuel provider first lastExclusive
             = Some {| values := []; done := true |}).
Proof.
  intros Hidle Hr.
  assert (s = ParallelProviderStreamer.init first) as ->.
  { revert s Hr. apply rtc_ind_r.
    - unfold ParallelProviderStreamer.start. by apply prime_idle.
    - intros s1 s2 _ [s0 i [w Hi]] ->. by destruct i. }
  split; [done|]. split; [done|]. split; [done|].
  intros Hle fuel. unfold ProviderStreamer.stream. by rewrite seqZ_nil by lia.
Qed.

Lemma parallel_idle_never_closes_witness :
  ParallelProviderStreamer.start 0 100 (Some 104) = ParallelProviderStreamer.init 100
  ∧ done (ParallelProviderStreamer.queue (ParallelProviderStreamer.start 0 100 (Some 104)))
    = false
  ∧ values (ParallelProviderStreamer.queue (ParallelProviderStreamer.start 0 100 (Some 104)))
    = []
  ∧ (default MAX_SAFE_INTEGER (Some 104) ≤ 100 →
     ∀ fuel, ProviderStreamer.stream fuel flaky_provider 100 (Some 104)
             = Some {| values := []; done := true |}).
Proof.
  exact (parallel_idle_never_closes flaky_provider 0 100 (Some 104)
           (ParallelProviderStreamer.start 0 100 (Some 104))
           (or_introl eq_refl) (rtc_refl _ _)).
Defined.

(** ** The three streamers deliver the same stream *)

Lemma fetch_first_return fuel provider h k r :
  ProviderStreamer.fetch fuel provider h k = Some r →
  (∀ j, (j < k)%nat → provider h j = Rejects) →
  first_return provider h r.
Proof.
  revert k. induction fuel as [|fuel IH]; intros k; simpl; [done|].
  destruct (provider h k) as [|msg] eqn:Hk.
  - intros Hf Hrej. apply (IH (S k) Hf). intros j Hj.
    destruct (decide (j = k)) as [->|]; [done | apply Hrej; lia].
  - intros [= <-] Hrej. by exists k.
Qed.

Lemma produce_results fuel provider heights q0 q1 :
  done q0 = false →
  ProviderStreamer.produce fuel provider heights q0 = Some q1 →
  ∃ rs, Forall2 (first_return provider) heights rs
        ∧ values q1 = values q0 ++ omap id rs ∧ done q1 = false.
Proof.
  revert q0. induction heights as [|h heights IH]; intros q0 Hd; simpl.
  - intros [= <-]. exists []. by rewrite app_nil_r.
  - destruct (ProviderStreamer.fetch fuel provider h 0) as [r|] eqn:Hf; [| done].
    intros Hp. destruct (push_if_present_open r q0 Hd) as [Hv Hd'].
    destruct (IH _ Hd' Hp) as (rs & F & Hvs & Hd1).
    exists (r :: rs). split; [| split; [| done]].
    + constructor; [| done]. apply (fetch_first_return _ _ _ _ _ Hf). intros j Hj. lia.
    + rewrite Hvs, Hv, <- app_assoc. by destruct r.
Qed.

Lemma seqZ_sorted m n : StronglySorted Z.lt (seqZ m n).
Proof.
  remember (Z.to_nat n) as k eqn:Hk. revert m n Hk.
  induction k as [|k IH]; intros m n Hk.
  - rewrite seqZ_nil by lia. constructor.
  - rewrite seqZ_cons by lia. constructor; [apply IH; lia|].
    apply Forall_seqZ. intros h Hh. lia.
Qed.

(** What a serial producer queued, for an honest source: sorted by height,
    and exactly the messages the heights resolved with. *)
Lemma serial_values provider heights rs :
  honest provider →
  StronglySorted Z.lt heights →
  Forall2 (first_return provider) heights rs →
  StronglySorted Z.lt (height <$> omap id rs)
  ∧ ∀ m, m ∈ omap id rs ↔ height m ∈ heights ∧ first_return provider (height m) (Some m).
Proof.
  intros Hh Hs F. induction F as [|h r heights rs Hr F IH].
  - split; [constructor|]. intros m. split; [by intros ?%elem_of_nil|].
    by intros [?%elem_of_nil _].
  - apply StronglySorted_inv in Hs as [Hs Hlt]. destruct (IH Hs) as [IH1 IH2].
    assert (∀ m, r = Some m → height m = h) as Hhm.
    { intros m ->. destruct Hr as (k & Hk & _). by apply (Hh _ _ _ Hk). }
    split.
    + destruct r as [m|]; [| done]. cbn [omap list_omap id]. rewrite fmap_cons.
      constructor; [done|]. rewrite (Hhm m eq_refl).
      apply Forall_fmap, Forall_forall. intros m' Hm'. simpl.
      apply IH2 in Hm' as [Hin _]. rewrite Forall_forall in Hlt. by apply Hlt.
    + intros m. assert (m ∈ omap id (r :: rs) ↔ r = Some m ∨ m ∈ omap id rs) as ->.
      { destruct r as [m'|]; cbn [omap list_omap id].
        - rewrite elem_of_cons. split; (intros [H | H]; [left; congruence | by right]).
        - split; [by right | by intros [? | ?]]. }
      rewrite IH2, elem_of_cons. split.
      * intros [-> | [Hin Hfr]]; [| by split; [right|]].
        rewrite (Hhm m eq_refl). split; [by left | done].
      * intros [[Hm | Hin] Hfr]; [| by right]. left. rewrite Hm in Hfr.
        by apply (first_return_unique _ _ _ _ Hr Hfr).
Qed.

Lemma sorted_same_members (l1 l2 : list StreamerMessage) :
  StronglySorted Z.lt (height <$> l1) → StronglySorted Z.lt (height <$> l2) →
  (∀ m, m ∈ l1 ↔ m ∈ l2) → l1 = l2.
Proof.
  revert l2. induction l1 as [|a l1 IH]; intros l2 H1 H2 Hm.
  - destruct l2 as [|b l2]; [done|]. exfalso. apply (elem_of_nil b), Hm. by left.
  - destruct l2 as [|b l2]; [exfalso; apply (elem_of_nil a), Hm; by left|].
    rewrite !fmap_cons in *. apply StronglySorted_inv in H1 as [H1 F1], H2 as [H2 F2].
    rewrite Forall_fmap, Forall_forall in F1, F2. simpl in F1, F2.
    assert (a = b) as <-.
    { pose proof (proj1 (Hm a) (list_elem_of_here _ _)) as Ha.
      pose proof (proj2 (Hm b) (list_elem_of_here _ _)) as Hb.
      apply elem_of_cons in Ha as [? | Ha]; [done|].
      apply elem_of_cons in Hb as [? | Hb]; [done|].
      specialize (F1 _ Hb). specialize (F2 _ Ha). lia. }
    f_equal. apply IH; [done | done |]. intros m. split; intros Hin.
    + pose proof (proj1 (Hm m) (list_elem_of_further _ _ _ Hin)) as H.
      apply elem_of_cons in H as [-> | ?]; [| done]. specialize (F1 _ Hin). lia.
    + pose proof (proj2 (Hm m) (list_elem_of_further _ _ _ Hin)) as H.
      apply elem_of_cons in H as [-> | ?]; [| done]. specialize (F2 _ Hin). lia.
Qed.

(** X13. The two provider streamers are interchangeable: for a source that
    returns for a height the message of that height, and at least one worker
    on a window that is not empty, whenever the serial [ProviderStreamer]
    finishes its window, every run of the [ParallelProviderStreamer] that has
    no fetch left in flight has put exactly the same messages in its queue,
    in the same order, and has closed it. *)
Theorem streamers_agree (provider : MessageProvider) (workers fuel : nat)
    (first : BlockHeight) (lastExclusive : option BlockHeight)
    (q : AsyncQueue) (s : ParallelProviderStreamer.t) :
  honest provider →
  (1 ≤ workers)%nat →
  first < default MAX_SAFE_INTEGER lastExclusive →
  ProviderStreamer.stream fuel provider first lastExclusive = Some q →
  ParallelProviderStreamer.reachable provider workers first lastExclusive s →
  ParallelProviderStreamer.waiting s = [] →
  ParallelProviderStreamer.queue s = q.
Proof.
  intros Hh Hw Hne Hserial Hr Hq.
  set (end_ := default MAX_SAFE_INTEGER lastExclusive) in *.
  pose proof (reachable_live _ _ _ _ _ Hh Hw Hr) as Hlive.
  pose proof Hlive as ([Hinv _ _] & _ & Hclosed).
  destruct (ParallelFacts.live_quiescent _ _ _ _ Hlive Hq) as [Hn _]; [lia|].
  unfold ProviderStreamer.stream in Hserial. fold end_ in Hserial.
  destruct (ProviderStreamer.produce fuel provider _ AsyncQueue_new) as [q1|] eqn:Hp;
    [| done].
  injection Hserial as <-.
  destruct (produce_results _ _ _ AsyncQueue_new _ eq_refl Hp) as (rs & F & Hvs & _).
  simpl in Hvs.
  destruct (serial_values provider _ rs Hh (seqZ_sorted _ _) F) as [Hsorted Hmem].
  pose proof (PipelineInvariant.inv_sorted _ _ _ _ Hinv) as Hs.
  pose proof (PipelineInvariant.inv_delivered _ _ _ _ Hinv) as Hd.
  pose proof (PipelineInvariant.inv_complete _ _ _ _ Hinv) as Hc.
  specialize (Hclosed Hq Hne). fold end_ in Hn. rewrite Hn in Hd, Hc.
  destruct (ParallelProviderStreamer.queue s) as [vs d]. unfold close.
  simpl in *. subst d. f_equal. rewrite Hvs.
  apply sorted_same_members; [done | done |].
  intros m. rewrite Hmem, elem_of_seqZ. split.
  - intros Hin. destruct (Hd m Hin) as [Hb Hfr]. split; [lia | done].
  - intros [Hb Hfr]. apply (Hc (height m) (Some m)); [lia | done].
Qed.

Lemma streamers_agree_witness :
  ParallelProviderStreamer.queue out_of_order_run
  = {| values := [empty_block 100; empty_block 102; empty_block 103]; done := true |}.
Proof.
  apply (streamers_agree flaky_provider 3 3 100 (Some 104)).
  - exact flaky_provider_honest.
  - lia.
  - simpl. lia.
  - vm_compute. reflexivity.
  - exact (run_order_reachable flaky_provider 3 100 (Some 104) [2; 2; 2; 1; 1; 0; 0]%nat).
  - vm_compute. reflexivity.
Defined.

(** ** [NeardataProvider]: no retry *)

Lemma gen_all_ok fetcher heights :
  (∀ h, h ∈ heights → ∃ msg, fetcher h = Ok msg) →
  NeardataProvider.gen fetcher heights = (omap (fetched fetcher) heights, None).
Proof.
  induction heights as [|h heights IH]; intros Hok; simpl; [done|].
  destruct (Hok h) as [msg Hmsg]; [by left|].
  rewrite IH by (intros h' Hh'; apply Hok; by right).
  unfold fetched at 2. rewrite Hmsg. by destruct msg.
Qed.

Lemma gen_first_failure fetcher pre h post e :
  (∀ h', h' ∈ pre → ∃ msg, fetcher h' = Ok msg) →
  fetcher h = Threw e →
  NeardataProvider.gen fetcher (pre ++ h :: post) = (omap (fetched fetcher) pre, Some e).
Proof.
  intros Hok He. induction pre as [|h' pre IH]; simpl.
  - by rewrite He.
  - destruct (Hok h') as [msg Hmsg]; [by left|].
    rewrite IH by (intros h'' Hh''; apply Hok; by right).
    unfold fetched at 2. rewrite Hmsg. by destruct msg.
Qed.

(** X14. When the fetcher never throws on the window, [NeardataProvider]
    yields exactly the messages the serial [ProviderStreamer] queues for a
    provider that answers like the fetcher (the heights that are not [null],
    in height order), its generator ends normally and its [handle] is
    resolved. *)
Theorem neardata_agrees_with_serial (fetcher : Fetcher) (first : BlockHeight)
    (lastExclusive : option BlockHeight) (fuel : nat) :
  (∀ h, first ≤ h < default MAX_SAFE_INTEGER lastExclusive → ∃ msg, fetcher h = Ok msg) →
  let stream := NeardataProvider.stream fetcher first lastExclusive in
  receiver_throws stream = None
  ∧ handle stream = Ok tt
  ∧ receiver stream
    = omap (fetched fetcher) (seqZ first (default MAX_SAFE_INTEGER lastExclusive - first))
  ∧ ProviderStreamer.stream (S fuel) (provider_of fetcher) first lastExclusive
    = Some {| values := receiver stream; done := true |}.
Proof.
  intros Hok. simpl.
  rewrite gen_all_ok by (intros h Hh; apply Hok; apply elem_of_seqZ in Hh; lia). simpl.
  split; [done|]. split; [done|]. split; [done|].
  unfold ProviderStreamer.stream.
  rewrite (produce_settles (provider_of fetcher) (S fuel) (λ _, O) (fetched fetcher));
    [done | | done].
  intros h Hh. apply elem_of_seqZ in Hh. destruct (Hok h) as [msg Hmsg]; [lia|].
  unfold provider_of, fetched. rewrite Hmsg. split; [done|]. split; [lia | lia].
Qed.

Lemma neardata_agrees_with_serial_witness :
  let stream := NeardataProvider.stream next_block_fetcher 100 (Some 103) in
  receiver_throws stream = None
  ∧ handle stream = Ok tt
  ∧ receiver stream = omap (fetched next_block_fetcher) (seqZ 100 (103 - 100))
  ∧ ProviderStreamer.stream 1 (provider_of next_block_fetcher) 100 (Some 103)
    = Some {| values := receiver stream; done := true |}.
Proof.
  apply (neardata_agrees_with_serial next_block_fetcher 100 (Some 103) 0).
  intros h _. by eexists.
Defined.

(** X15. [NeardataProvider] does not retry.  At the first height of the
    window at which the fetcher throws, its generator throws the same error,
    after having yielded the messages of the heights before it; no later
    height is fetched.  [runIndexer] then rejects with that error even though
    [stop_on_error] is off (unless [finalize] rejects), after the blocks
    before that height were processed. *)
Theorem neardata_failure_ends_run (indexer : Indexer) (fetcher : Fetcher)
    (options : IndexerOptions) (plan : Plan) (w1 : InternalIndexerState.t * list Event)
    (h : BlockHeight) (e : Err) :
  stop_on_error options = false →
  resolve_range options (InternalIndexerState.new, []) = (w1, Ok plan) →
  (∀ auto, post_processor plan = Some auto →
           ∀ calls ev, save_throws (save_location auto) calls ev = None) →
  startWithPrefetch plan ≤ h < default MAX_SAFE_INTEGER (endWithPostfetch plan) →
  fetcher h = Threw e →
  (∀ h', startWithPrefetch plan ≤ h' < h → ∃ msg, fetcher h' = Ok msg) →
  (∀ calls, finalize_outcome indexer calls = None) →
  let stream := NeardataProvider.stream fetcher (startWithPrefetch plan)
                  (endWithPostfetch plan) in
  receiver stream = omap (fetched fetcher) (seqZ (startWithPrefetch plan)
                                              (h - startWithPrefetch plan))
  ∧ receiver_throws stream = Some e
  ∧ (run indexer (NeardataProvider.stream fetcher) options).2 = Threw e.
Proof.
  intros Hstop Hplan Hsave Hh He Hok Hfin. cbv zeta.
  set (first := startWithPrefetch plan) in *.
  set (end_ := default MAX_SAFE_INTEGER (endWithPostfetch plan)) in *.
  assert (NeardataProvider.gen fetcher (seqZ first (end_ - first))
          = (omap (fetched fetcher) (seqZ first (h - first)), Some e)) as Hgen.
  { replace (end_ - first) with ((h - first) + (end_ - h)) by lia.
    rewrite seqZ_app by lia. rewrite (seqZ_cons (first + (h - first))) by lia.
    replace (first + (h - first)) with h by lia.
    apply gen_first_failure; [| done].
    intros h' Hh'. apply Hok. apply elem_of_seqZ in Hh'. lia. }
  assert (receiver (NeardataProvider.stream fetcher first (endWithPostfetch plan))
          = omap (fetched fetcher) (seqZ first (h - first))
          ∧ receiver_throws (NeardataProvider.stream fetcher first (endWithPostfetch plan))
            = Some e) as [Hrecv Hthrow].
  { unfold NeardataProvider.stream. fold end_. by rewrite Hgen. }
  split; [done|]. split; [done|].
  destruct (run_goes_on indexer (NeardataProvider.stream fetcher) options plan _ w1
              Hstop Hplan Hsave) as (s & evs & r & E & _ & _ & Hr).
  unfold run. rewrite E. simpl. fold first in Hr. rewrite Hr, Hthrow; done.
Qed.

Lemma neardata_failure_ends_run_witness :
  let stream := NeardataProvider.stream failing_fetcher 100 (Some 104) in
  receiver stream = omap (fetched failing_fetcher) (seqZ 100 (102 - 100))
  ∧ receiver_throws stream = Some "HTTP 500"%string
  ∧ (run quiet_indexer (NeardataProvider.stream failing_fetcher)
       (scenario_options 100 104 None)).2 = Threw "HTTP 500"%string.
Proof.
  apply (neardata_failure_ends_run quiet_indexer failing_fetcher
           (scenario_options 100 104 None)
           (make_plan (scenario_options 100 104 None) 100 (Some 104) None)
           (InternalIndexerState.new, []) 102 "HTTP 500"%string); try reflexivity.
  - intros auto H. discriminate H.
  - simpl. lia.
  - intros h' Hh'. unfold failing_fetcher. rewrite bool_decide_eq_false_2; [by eexists|].
    simpl in Hh'. lia.
Defined.

(** ** [MultiIndexer]: members are called in order, until one rejects *)

Lemma dispatch_app e ms1 ms2 :
  MultiIndexer.dispatch e (ms1 ++ ms2)
  = match MultiIndexer.dispatch e ms1 with
    | (ms1', Some err) => (ms1' ++ ms2, Some err)
    | (ms1', None) =>
        let '(ms2', r) := MultiIndexer.dispatch e ms2 in (ms1' ++ ms2', r)
    end.
Proof.
  induction ms1 as [|m ms1 IH]; simpl.
  - by destruct (MultiIndexer.dispatch e ms2).
  - destruct (call_member e m) as [m' [err|]]; [done|].
    rewrite IH. destruct (MultiIndexer.dispatch e ms1) as [ms1' [err|]]; [done|].
    by destruct (MultiIndexer.dispatch e ms2).
Qed.

Lemma dispatch_all_resolve e members :
  Forall (λ m, (call_member e m).2 = None) members →
  MultiIndexer.dispatch e members = ((λ m, (call_member e m).1) <$> members, None).
Proof.
  induction 1 as [|m members Hm _ IH]; simpl; [done|].
  destruct (call_member e m) as [m' r]. simpl in *. subst r. by rewrite IH.
Qed.

(** X16. [MultiIndexer] calls its members one after the other and stops at
    the first rejection: when a member rejects a call, the members before it
    (that have the hook) have received the call, the members after it never
    receive it, and the [MultiIndexer]'s own hook rejects with the same error;
    when no member rejects, every member that has the hook receives the call
    and the hook resolves. *)
Theorem multi_indexer_stops_at_rejection (e : Event) (pre post : list Member) (m : Member)
    (err : Err) :
  Forall (λ x, (call_member e x).2 = None) pre →
  (call_member e m).2 = Some err →
  MultiIndexer.dispatch e (pre ++ m :: post)
  = (((λ x, (call_member e x).1) <$> pre) ++ (call_member e m).1 :: post, Some err)
  ∧ (Forall (λ x, (call_member e x).2 = None) post →
     MultiIndexer.dispatch e (pre ++ post)
     = ((λ x, (call_member e x).1) <$> (pre ++ post), None)).
Proof.
  intros Hpre Hm. split.
  - rewrite dispatch_app, (dispatch_all_resolve e pre Hpre). simpl.
    destruct (call_member e m) as [m' r]. simpl in *. by subst r.
  - intros Hpost. apply dispatch_all_resolve. by apply Forall_app.
Qed.

Lemma multi_indexer_stops_at_rejection_witness :
  let e := CProcessReceipt outcome_r2 (block_of 101 [] [outcome_r2]) in
  MultiIndexer.dispatch e ([(block_counter, [])] ++ (picky_indexer, []) :: [(quiet_indexer, [])])
  = (((λ x, (call_member e x).1) <$> [(block_counter, [])])
       ++ (call_member e (picky_indexer, [])).1 :: [(quiet_indexer, [])],
     Some "no receipts for bob"%string)
  ∧ (Forall (λ x, (call_member e x).2 = None) [(quiet_indexer, [])] →
     MultiIndexer.dispatch e ([(block_counter, [])] ++ [(quiet_indexer, [])])
     = ((λ x, (call_member e x).1) <$> ([(block_counter, [])] ++ [(quiet_indexer, [])]),
        None)).
Proof.
  apply (multi_indexer_stops_at_rejection
           (CProcessReceipt outcome_r2 (block_of 101 [] [outcome_r2]))
           [(block_counter, [])] [(quiet_indexer, [])] (picky_indexer, [])
           "no receipts for bob"%string).
  - repeat constructor.
  - reflexivity.
Defined.

(** ** [ParallelMultiIndexer]: every member is called *)

Lemma invoke_members e members :
  (ParallelMultiIndexer.invoke e members).1 = (λ m, (call_member e m).1) <$> members
  ∧ (ParallelMultiIndexer.invoke e members).2
    = omap (λ m, (call_member e m).2) members.
Proof.
  induction members as [|m members [IH1 IH2]]; simpl; [done|].
  destruct (call_member e m) as [m' r].
  destruct (ParallelMultiIndexer.invoke e members) as [rest errs]. simpl in *.
  rewrite IH1, IH2. by destruct r.
Qed.

Lemma parallel_replay indexers calls :
  ParallelMultiIndexer.replay indexers calls
  = (λ i, (i, List.filter (has_hook i) calls)) <$> indexers.
Proof.
  unfold ParallelMultiIndexer.replay.
  induction calls as [|e calls IH] using rev_ind; [done|].
  rewrite foldl_app. simpl. rewrite IH.
  destruct (invoke_members e ((λ i, (i, List.filter (has_hook i) calls)) <$> indexers))
    as [-> _].
  rewrite <- list_fmap_compose. apply list_fmap_ext. intros _ i _. simpl.
  unfold call_member. simpl. rewrite List.filter_app. simpl.
  destruct (has_hook i e); simpl; [done | by rewrite app_nil_r].
Qed.

(** X19. [ParallelMultiIndexer] starts the hook of every member before it
    awaits any: after any calls, every member has received exactly the calls
    for the hooks it has, whatever any member answered (a rejecting member
    starves nobody).  Its own hook resolves exactly when no member rejects,
    and otherwise rejects with the error of one of the members. *)
Theorem parallel_multi_indexer_calls_everyone (race : Err → list Err → Err)
    (indexers : list Indexer) (calls : list Event) (e : Event) :
  ParallelMultiIndexer.replay indexers calls
  = (λ i, (i, List.filter (has_hook i) calls)) <$> indexers
  ∧ (throws (ParallelMultiIndexer.new race indexers) calls e = None ↔
     ∀ i, i ∈ indexers → has_hook i e = true →
          throws i (List.filter (has_hook i) calls) e = None)
  ∧ ((∀ err errs, race err errs ∈ err :: errs) →
     ∀ x, throws (ParallelMultiIndexer.new race indexers) calls e = Some x →
          ∃ i, i ∈ indexers ∧ has_hook i e = true
               ∧ throws i (List.filter (has_hook i) calls) e = Some x).
Proof.
  split; [apply parallel_replay|].
  simpl. rewrite parallel_replay.
  destruct (invoke_members e ((λ i, (i, List.filter (has_hook i) calls)) <$> indexers))
    as [_ ->].
  set (errs := omap _ _).
  assert (∀ x, x ∈ errs ↔ ∃ i, i ∈ indexers ∧ has_hook i e = true
                              ∧ throws i (List.filter (has_hook i) calls) e = Some x)
    as Herrs.
  { intros x. unfold errs. rewrite list_elem_of_omap. split.
    - intros (m & Hm & Hx). apply list_elem_of_fmap in Hm as (i & -> & Hi).
      exists i. split; [done|]. revert Hx. unfold call_member. simpl.
      by destruct (has_hook i e).
    - intros (i & Hi & Hh & Hx). exists (i, List.filter (has_hook i) calls).
      split; [apply list_elem_of_fmap; by exists i|].
      unfold call_member. simpl. by rewrite Hh. }
  split.
  - split.
    + intros Hnone i Hi Hh.
      destruct (throws i (List.filter (has_hook i) calls) e) as [x|] eqn:Hx; [| done].
      assert (x ∈ errs) as Hin by (apply Herrs; by exists i).
      destruct errs; [by apply elem_of_nil in Hin | done].
    + intros Hall. destruct errs as [|x errs']; [done|].
      destruct (proj1 (Herrs x)) as (i & Hi & Hh & Hx); [by left|].
      by rewrite (Hall i Hi Hh) in Hx.
  - intros Hrace x Hx. apply Herrs. destruct errs as [|y errs']; [done|].
    injection Hx as <-. apply Hrace.
Qed.

(** ** [chainIndexers]: flattening changes nothing *)

Lemma replay_snoc indexers calls e :
  MultiIndexer.replay indexers (calls ++ [e])
  = (MultiIndexer.dispatch e (MultiIndexer.replay indexers calls)).1.
Proof. unfold MultiIndexer.replay. by rewrite foldl_app. Qed.

Lemma has_hook_is_hook i e : has_hook i e = true → is_hook e = true.
Proof. by destruct e. Qed.

Lemma dispatch_no_hook e members :
  is_hook e = false → MultiIndexer.dispatch e members = (members, None).
Proof.
  intros He. induction members as [|m members IH]; simpl; [done|].
  unfold call_member. destruct (has_hook m.1 e) eqn:Hh.
  - apply has_hook_is_hook in Hh. congruence.
  - by rewrite IH.
Qed.

Lemma chained_replay l b calls :
  ∃ ha hb,
    MultiIndexer.replay [MultiIndexer.new l; b] calls = [(MultiIndexer.new l, ha); (b, hb)]
    ∧ MultiIndexer.replay (l ++ [b]) calls = MultiIndexer.replay l ha ++ [(b, hb)].
Proof.
  induction calls as [|e calls (ha & hb & IH1 & IH2)] using rev_ind.
  - exists [], []. split; [done|]. unfold MultiIndexer.replay, MultiIndexer.fresh. simpl.
    by rewrite fmap_app.
  - rewrite !replay_snoc, IH1, IH2, dispatch_app.
    destruct (is_hook e) eqn:He.
    + cbn [MultiIndexer.dispatch]. unfold call_member at 1. cbn [fst snd].
      replace (has_hook (MultiIndexer.new l) e) with true by (by destruct e).
      cbn [throws MultiIndexer.new].
      destruct (MultiIndexer.dispatch e (MultiIndexer.replay l ha)) as [ms' [err|]] eqn:Hd.
      * exists (ha ++ [e]), hb. cbn [fst snd]. split; [done|].
        by rewrite replay_snoc, Hd.
      * destruct (call_member e (b, hb)) as [[b' hb'] r] eqn:Hb.
        assert (b' = b) as ->.
        { revert Hb. unfold call_member. simpl. by destruct (has_hook b e); intros [= <- _ _]. }
        exists (ha ++ [e]), hb'. destruct r; cbn [fst snd]; (split; [done|]);
          by rewrite replay_snoc, Hd.
    + rewrite !dispatch_no_hook by done. by exists ha, hb.
Qed.

(** X20. The flattening done by [chainIndexers] cannot be observed.  The
    [MultiIndexer] it returns answers every call, after every history of
    calls, as the two-member [MultiIndexer] of [a] and [b] would; [b] receives
    the same calls in both; and when [a] is itself a [MultiIndexer], its
    members, now members of the result, receive exactly the calls they would
    have received inside [a]. *)
Theorem chainIndexers_flattening (a : IndexerObject) (b : Indexer) (calls : list Event)
    (e : Event) :
  throws (MultiIndexer.new (chainIndexers a b)) calls e
  = throws (MultiIndexer.new [as_indexer a; b]) calls e
  ∧ ∃ ha hb,
      MultiIndexer.replay [as_indexer a; b] calls = [(as_indexer a, ha); (b, hb)]
      ∧ MultiIndexer.replay (chainIndexers a b) calls
        = match a with
          | AMultiIndexer l => MultiIndexer.replay l ha
          | AnIndexer i => [(i, ha)]
          end ++ [(b, hb)].
Proof.
  destruct a as [l|i]; simpl.
  - split.
    + destruct (chained_replay l b (calls ++ [e])) as (ha & hb & H1 & H2).
      rewrite !replay_snoc in H1, H2.
      destruct (chained_replay l b calls) as (ha0 & hb0 & H3 & H4).
      rewrite H3, H4 in *. rewrite dispatch_app.
      destruct (is_hook e) eqn:He.
      * cbn [MultiIndexer.dispatch]. unfold call_member at 2. cbn [fst snd].
        replace (has_hook (MultiIndexer.new l) e) with true by (by destruct e).
        cbn [throws MultiIndexer.new].
        destruct (MultiIndexer.dispatch e (MultiIndexer.replay l ha0)) as [ms' [err|]];
          [done|].
        by destruct (call_member e (b, hb0)) as [m' [err|]].
      * by rewrite !dispatch_no_hook.
    + apply chained_replay.
  - split; [done|].
    assert (∀ ms : list Member, ms.*1 = [i; b] → ∃ ha hb, ms = [(i, ha); (b, hb)]) as Hshape.
    { intros [|[i1 h1] [|[i2 h2] [|]]] [=]; subst. by eexists _, _. }
    assert ((MultiIndexer.replay [i; b] calls).*1 = [i; b]) as Hfst.
    { induction calls as [|e' calls IH] using rev_ind; [done|].
      rewrite replay_snoc. destruct (Hshape _ IH) as (ha & hb & ->). simpl.
      unfold call_member. simpl.
      destruct (has_hook i e'); simpl;
        (destruct (throws i ha e'); simpl; [done|]) || idtac;
        destruct (has_hook b e'); simpl; try done; by destruct (throws b hb e'). }
    destruct (Hshape _ Hfst) as (ha & hb & ->). by exists ha, hb.
Qed.

(** ** A wrapper around an indexer, seen from the orchestrator *)

Section Wrapped.
Context (inner outer : Indexer) (f : Err → Err) (options : IndexerOptions).
Context (Hhooks : ∀ e, is_hook e = true → has_hook outer e = true).
Context (Hthrows : ∀ calls e, is_hook e = true →
           throws outer calls e
           = if has_hook inner e
             then f <$> throws inner (List.filter (kept inner) calls) e
             else None).
Context (Hcursor : cursor_ignores_hooks options).

Lemma wraps_ret {A} (a : A) : wraps inner f (ret a) (ret a).
Proof. by intros w1 w2 Hw. Qed.

Lemma wraps_throw {A} e1 e2 : e2 = e1 ∨ e2 = f e1 → wraps inner f (throw e1 : M _ A) (throw e2).
Proof. by intros He w1 w2 Hw. Qed.

Lemma wraps_get_state : wraps inner f get_state get_state.
Proof. intros w1 w2 [Hs Hl]. by split. Qed.

Lemma wraps_modify g : wraps inner f (modify g) (modify g).
Proof. intros w1 w2 [Hs Hl]. split; [| done]. split; simpl; [by rewrite Hs | done]. Qed.

Lemma wraps_bind {A B} (c1 c2 : M _ A) (k1 k2 : A → M _ B) :
  wraps inner f c1 c2 → (∀ a, wraps inner f (k1 a) (k2 a)) → wraps inner f (bind c1 k1) (bind c2 k2).
Proof.
  intros Hc Hk w1 w2 Hw. unfold bind. destruct (Hc w1 w2 Hw) as [Hw' Hr].
  destruct (c1 w1) as [w1' [[a1|e1]|]], (c2 w2) as [w2' [[a2|e2]|]]; simpl in *; try done.
  subst a2. by apply Hk.
Qed.

Lemma wraps_for_each {X} (l : list X) (body1 body2 : X → M _ unit) :
  (∀ x, wraps inner f (body1 x) (body2 x)) → wraps inner f (for_each l body1) (for_each l body2).
Proof.
  intros Hb. induction l as [|x l IH]; simpl; [apply wraps_ret|].
  apply wraps_bind; [apply Hb | intros _; apply IH].
Qed.

Lemma wraps_try_catch {A} (c1 c2 : M _ A) (h1 h2 : Err → M _ A) :
  wraps inner f c1 c2 → (∀ e1 e2, e2 = e1 ∨ e2 = f e1 → wraps inner f (h1 e1) (h2 e2)) →
  wraps inner f (try_catch c1 h1) (try_catch c2 h2).
Proof.
  intros Hc Hh w1 w2 Hw. unfold try_catch. destruct (Hc w1 w2 Hw) as [Hw' Hr].
  destruct (c1 w1) as [w1' [[a1|e1]|]], (c2 w2) as [w2' [[a2|e2]|]]; simpl in *; try done.
  by apply Hh.
Qed.

Lemma wraps_try_finally {A} (c1 c2 : M _ A) (f1 f2 : M _ unit) :
  wraps inner f c1 c2 → wraps inner f f1 f2 → wraps inner f (try_finally c1 f1) (try_finally c2 f2).
Proof.
  intros Hc Hf w1 w2 Hw. unfold try_finally. destruct (Hc w1 w2 Hw) as [Hw' Hr].
  destruct (c1 w1) as [w1' [r1|]], (c2 w2) as [w2' [r2|]]; simpl in *;
    [| by destruct r1 | by destruct r2 | done].
  destruct (Hf w1' w2' Hw') as [Hw'' Hr'].
  by destruct (f1 w1') as [w1'' [[[]|e1]|]], (f2 w2') as [w2'' [[[]|e2]|]].
Qed.

(** A hook call: made on the wrapper whenever its flag is up, and on the
    wrapped indexer when it has the hook. *)
Lemma wraps_hook (flag : bool) (e : Event) :
  is_hook e = true →
  wraps inner f (when (has_hook inner e && flag) (await_call (throws inner) e))
        (when (has_hook outer e && flag) (await_call (throws outer) e)).
Proof.
  intros He w1 w2 [Hs Hl]. rewrite (Hhooks e He).
  destruct flag; [| rewrite andb_false_r; by split].
  rewrite !andb_true_r. simpl. unfold await_call. rewrite (Hthrows _ _ He).
  destruct (has_hook inner e) eqn:Hi; simpl.
  - rewrite <- Hl.
    assert (List.filter (kept inner) (w2.2 ++ [e]) = w1.2 ++ [e]) as Hlog.
    { rewrite List.filter_app, <- Hl. simpl. unfold kept. by rewrite Hi. }
    destruct (throws inner w1.2 e) as [err|]; simpl; (split; [by split | auto]).
  - split; [| done]. split; [done|]. simpl.
    rewrite List.filter_app. simpl. unfold kept. rewrite Hi, He. simpl.
    by rewrite app_nil_r.
Qed.

Lemma wraps_hook_plain (e : Event) :
  is_hook e = true →
  wraps inner f (when (has_hook inner e) (await_call (throws inner) e))
        (when (has_hook outer e) (await_call (throws outer) e)).
Proof.
  intros He. generalize (wraps_hook true e He). by rewrite !andb_true_r.
Qed.

(** A call that is not a hook is in both logs. *)
Lemma kept_other e : is_hook e = false → kept inner e = true.
Proof. intros He. unfold kept. rewrite He. by rewrite orb_true_r. Qed.

Lemma wraps_log e : is_hook e = false → wraps inner f (log e) (log e).
Proof.
  intros He w1 w2 [Hs Hl]. split; [| done]. split; [done|]. simpl.
  by rewrite List.filter_app, <- Hl; simpl; rewrite (kept_other e He).
Qed.

Lemma filter_others calls :
  List.filter (λ c, negb (is_hook c)) (List.filter (kept inner) calls)
  = List.filter (λ c, negb (is_hook c)) calls.
Proof.
  induction calls as [|c calls IH]; simpl; [done|].
  unfold kept at 1. destruct (is_hook c) eqn:Hc; simpl.
  - destruct (has_hook inner c); simpl; [by rewrite Hc|]; done.
  - rewrite orb_true_r. simpl. by rewrite Hc, IH.
Qed.

Lemma wraps_save auto h :
  range options = AutoContinueRange auto →
  wraps inner f (await_call (save_throws (save_location auto)) (CSave h))
        (await_call (save_throws (save_location auto)) (CSave h)).
Proof.
  intros Hr w1 w2 [Hs Hl]. unfold await_call.
  rewrite (Hcursor auto Hr w1.2), (Hcursor auto Hr w2.2), Hl, filter_others.
  assert (List.filter (kept inner) (w2.2 ++ [CSave h])
          = List.filter (kept inner) w2.2 ++ [CSave h]) as Hlog
    by (by rewrite List.filter_app).
  destruct (save_throws _ _ _); simpl; (split; [by split | auto]).
Qed.

Lemma processBlock_wraps message opts :
  wraps inner f (InternalIndexerState.processBlock inner message opts)
        (InternalIndexerState.processBlock outer message opts).
Proof.
  unfold InternalIndexerState.processBlock.
  apply wraps_bind; [apply (wraps_hook _ (CProcessBlock message) eq_refl) | intros _].
  apply wraps_bind; [| intros _].
  { apply wraps_for_each. intros shard. destruct (chunk shard); [| apply wraps_ret].
    apply wraps_for_each. intros tx.
    apply wraps_bind; [apply wraps_modify | intros _].
    apply (wraps_hook _ (CProcessTransaction tx message) eq_refl). }
  apply wraps_bind; [| intros _; apply (wraps_hook_plain (CProcessBlockEnd message) eq_refl)].
  apply wraps_for_each. intros shard. apply wraps_for_each. intros r.
  apply wraps_bind; [| intros _; apply (wraps_hook _ (CProcessReceipt r message) eq_refl)].
  unfold InternalIndexerState.correlate.
  apply wraps_bind; [apply wraps_get_state | intros s].
  destruct (InternalIndexerState.receiptToTx s !! receipt_id r) as [txId|];
    [| apply wraps_ret].
  destruct (truthy txId && preprocess opts); [| apply wraps_ret].
  destruct (InternalIndexerState.pendingTransactions s !! txId) as [incomplete|];
    [| apply wraps_ret].
  apply wraps_bind; [apply (wraps_hook _ (COnReceipt _ _ _) eq_refl) | intros _].
  apply wraps_bind; [apply wraps_get_state | intros s1].
  apply wraps_bind; [apply wraps_modify | intros _].
  destruct (every_not_null _); [| apply wraps_ret].
  apply wraps_bind; [apply wraps_modify | intros _].
  apply (wraps_hook _ (COnTransaction _ _) eq_refl).
Qed.

Lemma on_message_wraps plan hasSent message :
  (∀ pp, post_processor plan = Some pp → range options = AutoContinueRange pp) →
  wraps inner f (on_message inner options plan hasSent message)
        (on_message outer options plan hasSent message).
Proof.
  intros Hplan. unfold on_message. apply wraps_bind.
  { apply wraps_try_catch; [apply processBlock_wraps|].
    intros e1 e2 He. destruct (stop_on_error options);
      [by apply wraps_throw | apply wraps_ret]. }
  intros _. apply wraps_bind; [| intros; apply wraps_ret].
  destruct (negb _); [| apply wraps_ret].
  destruct (post_processor plan) as [pp|] eqn:Hpp; [| apply wraps_ret].
  unfold afterBlock. apply wraps_bind; [by apply wraps_log | intros _].
  destruct (negb _); [| apply wraps_ret].
  apply wraps_save. by apply Hplan.
Qed.

Lemma receive_wraps plan hasSent messages :
  (∀ pp, post_processor plan = Some pp → range options = AutoContinueRange pp) →
  wraps inner f (receive inner options plan hasSent messages)
        (receive outer options plan hasSent messages).
Proof.
  intros Hplan. revert hasSent.
  induction messages as [|m ms IH]; intros hs; simpl; [apply wraps_ret|].
  apply wraps_bind; [by apply on_message_wraps | intros; apply IH].
Qed.

Lemma stream_and_finalize_wraps plan stream :
  (∀ pp, post_processor plan = Some pp → range options = AutoContinueRange pp) →
  wraps inner f (stream_and_finalize inner options plan stream)
        (stream_and_finalize outer options plan stream).
Proof.
  intros Hplan. unfold stream_and_finalize. apply wraps_try_finally.
  - apply wraps_bind; [by apply receive_wraps | intros _].
    destruct (receiver_throws _); [apply wraps_throw; by left | apply wraps_ret].
  - apply wraps_bind; [| intros _; apply (wraps_hook_plain CFinalize eq_refl)].
    intros w1 w2 [Hs Hl]. unfold await_handle.
    destruct (handle _) as [[[]|e]|]; simpl;
      (split; [split; [done | by simpl; rewrite List.filter_app, <- Hl] | auto]).
Qed.

Lemma runIndexer_wraps streamer :
  wraps inner f (runIndexer inner streamer options) (runIndexer outer streamer options).
Proof.
  unfold runIndexer, resolve_range.
  destruct (range options) as [start_inclusive end_exclusive|auto] eqn:Hr.
  - intros w1 w2 Hw.
    by apply (stream_and_finalize_wraps
                (make_plan options start_inclusive end_exclusive None)).
  - intros w1 w2 [Hs Hl].
    unfold bind at 1 3. unfold bind at 1 2, AutoContinue_range, getStartBlock.
    unfold bind at 1 2, await_load.
    assert (seen_by inner (w1.1, w1.2 ++ [CLoad]) (w2.1, w2.2 ++ [CLoad])) as Hw
      by (split; simpl; [done | by rewrite List.filter_app, <- Hl]).
    destruct (load (save_location auto)) as [h|e]; simpl; [| split; [done | by left]].
    apply stream_and_finalize_wraps; [| done].
    simpl. by intros pp [= <-].
Qed.

End Wrapped.

Lemma filter_kept_hooks inner calls :
  List.filter (has_hook inner) (List.filter (kept inner) calls)
  = List.filter (has_hook inner) calls.
Proof.
  induction calls as [|c calls IH]; simpl; [done|].
  unfold kept at 1. destruct (has_hook inner c) eqn:Hc; simpl.
  - by rewrite Hc, IH.
  - by destruct (negb (is_hook c)); simpl; rewrite ?Hc.
Qed.

(** X18.  Wrapping an indexer in [MapErrorIndexer] changes nothing the
    orchestrator or the wrapped indexer can observe, except the rejection a
    run ends with: the state machine ends in the same state, the wrapped
    indexer and the cursor store receive the same calls in the same order,
    and the run resolves exactly when the run with the bare indexer does;
    when it rejects, the error is the bare run's or its image under [map]. *)
Theorem map_error_indexer_transparent (inner : Indexer) (map : Err → Err)
    (streamer : MessageStreamer) (options : IndexerOptions) :
  own_calls_only inner → cursor_ignores_hooks options →
  let bare := run inner streamer options in
  let wrapped := run (MapErrorIndexer.new inner map) streamer options in
  wrapped.1.1 = bare.1.1
  ∧ List.filter (kept inner) wrapped.1.2 = bare.1.2
  ∧ same_outcome map bare.2 wrapped.2.
Proof.
  intros Hown Hcursor bare wrapped.
  destruct (runIndexer_wraps inner (MapErrorIndexer.new inner map) map options)
    with (streamer := streamer) (w1 := (InternalIndexerState.new, @nil Event))
         (w2 := (InternalIndexerState.new, @nil Event)) as [[Hs Hl] Hr].
  - by intros [].
  - intros calls e He. simpl. destruct (has_hook inner e); [| done].
    by rewrite (Hown (List.filter (kept inner) calls)), filter_kept_hooks.
  - done.
  - by split.
  - by repeat split.
Qed.

Lemma map_error_indexer_transparent_witness :
  let options := defaultOptions (Range 100 (Some 102)) in
  let streamer := λ _ _, {| receiver := [block_of 100 [] [outcome_r2]];
                            receiver_throws := None; handle := Ok tt |} in
  let bare := run picky_indexer streamer options in
  let wrapped := run (MapErrorIndexer.new picky_indexer (λ e, String.append "mapped: " e))
                     streamer options in
  wrapped.1.1 = bare.1.1
  ∧ List.filter (kept picky_indexer) wrapped.1.2 = bare.1.2
  ∧ same_outcome (λ e, String.append "mapped: " e) bare.2 wrapped.2.
Proof.
  apply (map_error_indexer_transparent picky_indexer).
  - intros calls e. reflexivity.
  - intros auto H. discriminate H.
Defined.

(** ** One member of a [MultiIndexer] *)

Lemma call_member_quiet e (m : Member) :
  never_rejects m.1 → (call_member e m).2 = None.
Proof. intros Hm. unfold call_member. destruct (has_hook m.1 e); [apply Hm | done]. Qed.

Lemma call_member_history e i calls :
  (call_member e (i, List.filter (has_hook i) calls)).1
  = (i, List.filter (has_hook i) (calls ++ [e])).
Proof.
  unfold call_member. rewrite List.filter_app. simpl.
  destruct (has_hook i e); simpl; [done | by rewrite app_nil_r].
Qed.

Lemma dispatch_around e (pre post : list Member) (m : Member) :
  Forall (λ x, never_rejects x.1) pre → Forall (λ x, never_rejects x.1) post →
  ∃ post',
    MultiIndexer.dispatch e (pre ++ m :: post)
    = (((λ x, (call_member e x).1) <$> pre) ++ (call_member e m).1 :: post',
       (call_member e m).2)
    ∧ post'.*1 = post.*1.
Proof.
  intros Hpre Hpost. rewrite dispatch_app, dispatch_all_resolve; last first.
  { eapply Forall_impl; [exact Hpre|]. intros x Hx. by apply call_member_quiet. }
  simpl. destruct (call_member e m) as [m' [err|]]; simpl.
  - by exists post.
  - rewrite dispatch_all_resolve; last first.
    { eapply Forall_impl; [exact Hpost|]. intros x Hx. by apply call_member_quiet. }
    eexists. split; [done|]. rewrite <- list_fmap_compose.
    apply list_fmap_ext. intros _ x _. simpl. unfold call_member.
    by destruct (has_hook x.1 e).
Qed.

Lemma replay_around pre i post calls :
  Forall never_rejects pre → Forall never_rejects post →
  ∃ post',
    MultiIndexer.replay (pre ++ i :: post) calls
    = ((λ j, (j, List.filter (has_hook j) calls)) <$> pre)
        ++ (i, List.filter (has_hook i) calls) :: post'
    ∧ post'.*1 = post.
Proof.
  intros Hpre Hpost. induction calls as [|e calls (post' & IH & Hp)] using rev_ind.
  - exists (MultiIndexer.fresh post). unfold MultiIndexer.replay, MultiIndexer.fresh. simpl.
    rewrite fmap_app. split; [done|]. rewrite <- list_fmap_compose. apply list_fmap_id.
  - rewrite replay_snoc, IH.
    destruct (dispatch_around e ((λ j, (j, List.filter (has_hook j) calls)) <$> pre)
                post' (i, List.filter (has_hook i) calls)) as (post'' & Hd & Hp'').
    { apply Forall_fmap. eapply Forall_impl; [exact Hpre |]. intros j Hj. exact Hj. }
    { rewrite <- Hp in Hpost. exact (proj1 (Forall_fmap _ _ _) Hpost). }
    exists post''. rewrite Hd. simpl. split; [| congruence].
    rewrite call_member_history. f_equal. rewrite <- list_fmap_compose.
    apply list_fmap_ext. intros _ j _. simpl. apply call_member_history.
Qed.

(** X17.  An indexer that runs as a member of a [MultiIndexer] whose other
    members never reject runs as it would alone: the run ends in the same
    state and with the same outcome, the member receives the same calls in the
    same order, and so does the cursor store. *)
Theorem multi_indexer_member_runs_as_alone (pre post : list Indexer) (i : Indexer)
    (streamer : MessageStreamer) (options : IndexerOptions) :
  Forall never_rejects pre → Forall never_rejects post →
  own_calls_only i → cursor_ignores_hooks options →
  let alone := run i streamer options in
  let multi := run (MultiIndexer.new (pre ++ i :: post)) streamer options in
  multi.1.1 = alone.1.1
  ∧ multi.2 = alone.2
  ∧ List.filter (kept i) multi.1.2 = alone.1.2
  ∧ MultiIndexer.replay (pre ++ i :: post) multi.1.2 !! length pre
    = Some (i, List.filter (has_hook i) alone.1.2).
Proof.
  intros Hpre Hpost Hown Hcursor alone multi.
  destruct (runIndexer_wraps i (MultiIndexer.new (pre ++ i :: post)) id options)
    with (streamer := streamer) (w1 := (InternalIndexerState.new, @nil Event))
         (w2 := (InternalIndexerState.new, @nil Event)) as [[Hs Hl] Hr].
  - by intros [].
  - intros calls e He. simpl.
    destruct (replay_around pre i post calls Hpre Hpost) as (post' & -> & Hp).
    destruct (dispatch_around e ((λ j, (j, List.filter (has_hook j) calls)) <$> pre)
                post' (i, List.filter (has_hook i) calls)) as (post'' & -> & _).
    { apply Forall_fmap. eapply Forall_impl; [exact Hpre |]. intros j Hj. exact Hj. }
    { rewrite <- Hp in Hpost. exact (proj1 (Forall_fmap _ _ _) Hpost). }
    simpl. unfold call_member. simpl. destruct (has_hook i e); [| done].
    rewrite option_fmap_id.
    by rewrite (Hown (List.filter (kept i) calls)), filter_kept_hooks.
  - done.
  - by split.
  - change (alone.1.1 = multi.1.1) in Hs.
    change (alone.1.2 = List.filter (kept i) multi.1.2) in Hl.
    change (same_outcome id alone.2 multi.2) in Hr.
    repeat split; [done | | done |].
    + revert Hr. generalize (alone.2), (multi.2).
      intros [[[]|e1]|] [[[]|e2]|]; simpl; try done. by intros [-> | ->].
    + destruct (replay_around pre i post multi.1.2 Hpre Hpost) as (post' & -> & _).
      rewrite lookup_app_r; rewrite length_fmap; [| done].
      rewrite Nat.sub_diag. simpl. by rewrite Hl, filter_kept_hooks.
Qed.

Lemma multi_indexer_member_runs_as_alone_witness :
  let options := defaultOptions (Range 100 (Some 102)) in
  let streamer := λ _ _, {| receiver := [block_of 100 [] [outcome_r2]];
                            receiver_throws := None; handle := Ok tt |} in
  let alone := run picky_indexer streamer options in
  let multi := run (MultiIndexer.new ([block_counter] ++ picky_indexer :: [quiet_indexer]))
                   streamer options in
  multi.1.1 = alone.1.1
  ∧ multi.2 = alone.2
  ∧ List.filter (kept picky_indexer) multi.1.2 = alone.1.2
  ∧ MultiIndexer.replay ([block_counter] ++ picky_indexer :: [quiet_indexer]) multi.1.2
      !! length [block_counter]
    = Some (picky_indexer, List.filter (has_hook picky_indexer) alone.1.2).
Proof.
  apply (multi_indexer_member_runs_as_alone [block_counter] [quiet_indexer] picky_indexer).
  - apply Forall_cons. split; [intros calls e; reflexivity | apply Forall_nil_2].
  - apply Forall_cons. split; [intros calls e; reflexivity | apply Forall_nil_2].
  - intros calls e. reflexivity.
  - intros auto H. discriminate H.
Defined.

(** ** Log parsing *)

Lemma string_app_cons x (a b : string) : String x a +:+ b = String x (a +:+ b).
Proof. reflexivity. Qed.

Lemma string_app_nil_l (b : string) : EmptyString +:+ b = b.
Proof. reflexivity. Qed.

Lemma string_app_assoc (a b c : string) : (a +:+ b) +:+ c = a +:+ (b +:+ c).
Proof.
  induction a as [|x a IH]; [done|]. by rewrite !string_app_cons, IH.
Qed.

Lemma string_app_nil_r (a : string) : a +:+ EmptyString = a.
Proof. induction a as [|x a IH]; [done|]. by rewrite string_app_cons, IH. Qed.

Lemma string_length_app (a b : string) :
  String.length (a +:+ b) = (String.length a + String.length b)%nat.
Proof. induction a as [|x a IH]; [done|]. rewrite string_app_cons. simpl. by rewrite IH. Qed.

Lemma startsWith_app s p : JsString.startsWith (p +:+ s) p = true.
Proof.
  induction p as [|a p IH]; [done|]. rewrite string_app_cons. simpl.
  by rewrite Ascii.eqb_refl.
Qed.

Lemma startsWith_true s p : JsString.startsWith s p = true → ∃ r, s = p +:+ r.
Proof.
  revert s. induction p as [|a p IH]; intros s; simpl; [by exists s|].
  destruct s as [|b s]; [done|]. intros [Hab Hs]%andb_true_iff.
  apply Ascii.eqb_eq in Hab as ->. destruct (IH s Hs) as [r ->]. by exists r.
Qed.

Lemma slice_app p s : JsString.slice (String.length p) (p +:+ s) = s.
Proof.
  induction p as [|a p IH]; [by destruct s|]. by rewrite string_app_cons.
Qed.

Lemma mentions_app c a b : mentions c (a +:+ b) = mentions c a || mentions c b.
Proof.
  induction a as [|x a IH]; [done|]. rewrite string_app_cons. simpl.
  by rewrite IH, orb_assoc.
Qed.

Lemma split_from_skip sep x cur s :
  JsString.split_from sep (String.length x) cur (x +:+ s)
  = JsString.split_from sep 0 cur s.
Proof.
  induction x as [|c x IH]; [by destruct s|]. by rewrite string_app_cons.
Qed.

(** At a match the piece read so far is emitted. *)
Lemma split_from_match sep cur r :
  sep ≠ EmptyString →
  JsString.split_from sep 0 cur (sep +:+ r)
  = cur :: JsString.split_from sep 0 EmptyString r.
Proof.
  intros Hsep. destruct sep as [|c sep]; [done|].
  rewrite string_app_cons. cbn [JsString.split_from].
  rewrite <- string_app_cons, startsWith_app. f_equal. simpl String.length.
  replace (S (String.length sep) - 1)%nat with (String.length sep) by lia.
  apply split_from_skip.
Qed.

(** Characters other than the first of the separator are read into the piece. *)
Lemma split_from_free c sep cur a s :
  mentions c a = false →
  JsString.split_from (String c sep) 0 cur (a +:+ s)
  = JsString.split_from (String c sep) 0 (cur +:+ a) s.
Proof.
  revert cur. induction a as [|b a IH]; intros cur Ha.
  - by rewrite string_app_nil_r.
  - simpl in Ha. apply orb_false_iff in Ha as [Hcb Ha].
    rewrite string_app_cons.
    cbn [JsString.split_from JsString.startsWith]. rewrite Hcb. simpl.
    rewrite IH by done. by rewrite string_app_assoc.
Qed.

Lemma split_from_nonempty sep skip cur s : JsString.split_from sep skip cur s ≠ [].
Proof.
  revert skip cur. induction s as [|c s IH]; intros skip cur; [done|].
  cbn [JsString.split_from]. destruct skip; [| apply IH].
  destruct (JsString.startsWith _ _); [done | apply IH].
Qed.

(** Joining the pieces with the separator gives the text back. *)
Lemma join_split_from sep :
  sep ≠ EmptyString →
  ∀ n s cur, (String.length s ≤ n)%nat →
    Array_join sep (JsString.split_from sep 0 cur s) = cur +:+ s.
Proof.
  intros Hsep. induction n as [|n IH]; intros s cur Hn.
  - destruct s; [| simpl in Hn; lia]. simpl. by rewrite string_app_nil_r.
  - destruct s as [|c s]; [simpl; by rewrite string_app_nil_r|].
    destruct (JsString.startsWith (String c s) sep) eqn:Hm.
    + destruct (startsWith_true _ _ Hm) as [r Hr]. rewrite Hr.
      rewrite split_from_match by done.
      assert (String.length r ≤ n)%nat as Hrn.
      { apply (f_equal String.length) in Hr. rewrite string_length_app in Hr.
        destruct sep; [done|]. simpl in Hr, Hn. lia. }
      pose proof (IH r EmptyString Hrn) as Hj.
      destruct (JsString.split_from sep 0 EmptyString r) as [|p ps] eqn:Hs;
        [by apply split_from_nonempty in Hs|].
      change (Array_join sep (cur :: p :: ps))
        with (cur +:+ sep +:+ Array_join sep (p :: ps)).
      by rewrite Hj.
    + cbn [JsString.split_from]. rewrite Hm. rewrite IH by (simpl in Hn; lia).
      by rewrite string_app_assoc.
Qed.

Lemma join_split sep s :
  sep ≠ EmptyString → Array_join sep (JsString.split s sep) = s.
Proof. intros Hsep. by apply (join_split_from sep Hsep (String.length s) s EmptyString). Qed.

Lemma startsWith_mentions c s p :
  mentions c s = false → mentions c p = true → JsString.startsWith s p = false.
Proof.
  intros Hs Hp. destruct (JsString.startsWith s p) eqn:Hm; [| done].
  destruct (startsWith_true _ _ Hm) as [r ->].
  rewrite mentions_app, Hp in Hs. done.
Qed.

Lemma split_free_text c sep a :
  mentions c a = false →
  JsString.split a (String c sep) = [a].
Proof.
  intros Ha. unfold JsString.split.
  rewrite <- (string_app_nil_r a) at 1. rewrite split_from_free by done.
  by rewrite string_app_nil_l.
Qed.

Lemma split_from_step sep cur b s :
  JsString.startsWith (String b s) sep = false →
  JsString.split_from sep 0 cur (String b s)
  = JsString.split_from sep 0 (cur +:+ String b EmptyString) s.
Proof. intros Hm. cbn [JsString.split_from]. by rewrite Hm. Qed.

(** The text after [" from "] has no second [" from "]. *)
Lemma split_from_part (old new : string) :
  mentions space old = false → mentions space new = false →
  JsString.split (old +:+ " to " +:+ new) " from " = [old +:+ " to " +:+ new].
Proof.
  intros Ho Hn. unfold JsString.split.
  rewrite (split_from_free space) by done. rewrite string_app_nil_l.
  rewrite !string_app_cons, string_app_nil_l.
  rewrite !split_from_step by reflexivity.
  rewrite split_from_step.
  2:{ change (JsString.startsWith new "from " = false).
      by apply (startsWith_mentions space). }
  rewrite <- (string_app_nil_r new) at 1.
  rewrite (split_from_free space) by done.
  cbn [JsString.split_from]. by rewrite !string_app_assoc.
Qed.

(** X21.  [deserializeTknFarmTransferLog] reads the line
    ["Transfer <amount> from <old> to <new>"] back into its three parts,
    whatever they are, as long as none of them contains a space. *)
Theorem tkn_farm_log_round_trip (amount old new : string) :
  mentions space amount = false →
  mentions space old = false →
  mentions space new = false →
  deserializeTknFarmTransferLog (tkn_farm_log amount old new)
  = Ok [{| old_owner_id := old; new_owner_id := new; amount := amount; memo := None |}].
Proof.
  intros Ha Ho Hn. unfold deserializeTknFarmTransferLog, tkn_farm_log.
  rewrite startsWith_app, slice_app. cbn [negb].
  assert (JsString.split (amount +:+ " from " +:+ old +:+ " to " +:+ new) " from "
          = [amount; old +:+ " to " +:+ new]) as ->.
  { unfold JsString.split. rewrite (split_from_free space) by done.
    rewrite string_app_nil_l, split_from_match by done.
    f_equal. by apply split_from_part. }
  assert (JsString.split (old +:+ " to " +:+ new) " to " = [old; new]) as ->.
  { unfold JsString.split. rewrite (split_from_free space) by done.
    rewrite string_app_nil_l, split_from_match by done.
    f_equal. by apply (split_free_text space). }
  done.
Qed.

Lemma tkn_farm_log_round_trip_witness :
  deserializeTknFarmTransferLog (tkn_farm_log "1000" "alice.near" "bob.near")
  = Ok [{| old_owner_id := "alice.near"; new_owner_id := "bob.near";
           amount := "1000"; memo := None |}].
Proof. apply tkn_farm_log_round_trip; reflexivity. Defined.

(** X22.  What [deserializeTknFarmTransferLog] accepts is a line of the shape
    ["Transfer <amount> from <old> to <new>"]: when it returns, it returns one
    event without memo, and the log is the line written from the event's
    [amount], [old_owner_id] and [new_owner_id]. *)
Theorem tkn_farm_log_shape (log : string) (events : list FtTransferEvent) :
  deserializeTknFarmTransferLog log = Ok events →
  ∃ ev, events = [ev] ∧ memo ev = None
        ∧ log = tkn_farm_log (amount ev) (old_owner_id ev) (new_owner_id ev).
Proof.
  unfold deserializeTknFarmTransferLog.
  destruct (JsString.startsWith log "Transfer ") eqn:Hp; [| done]. cbn [negb].
  destruct (startsWith_true _ _ Hp) as [tail ->]. rewrite slice_app.
  pose proof (join_split " from " tail) as Hj1.
  destruct (JsString.split tail " from ") as [|a [|rest [|? ?]]]; try done.
  pose proof (join_split " to " rest) as Hj2.
  destruct (JsString.split rest " to ") as [|o [|n [|? ?]]]; try done.
  intros [= <-]. eexists. split; [done|]. split; [done|]. simpl.
  unfold tkn_farm_log. rewrite <- Hj1 by done. simpl. by rewrite <- Hj2.
Qed.

Lemma tkn_farm_log_shape_witness :
  ∃ ev, [{| old_owner_id := "alice.near"; new_owner_id := "bob.near";
            amount := "1000"; memo := None |}] = [ev] ∧ memo ev = None
        ∧ "Transfer 1000 from alice.near to bob.near"%string
          = tkn_farm_log (amount ev) (old_owner_id ev) (new_owner_id ev).
Proof.
  apply (tkn_farm_log_shape "Transfer 1000 from alice.near to bob.near"). reflexivity.
Defined.

Lemma major_is_1_prefix (Number_is_1 : string → bool) (major rest : string) :
  mentions full_stop major = false →
  major_is_1 Number_is_1 (major +:+ "." +:+ rest) = Number_is_1 major
  ∧ major_is_1 Number_is_1 major = Number_is_1 major.
Proof.
  intros Hm. unfold major_is_1. split.
  - unfold JsString.split. rewrite (split_from_free full_stop) by done.
    by rewrite string_app_nil_l, split_from_match.
  - by rewrite (split_free_text full_stop).
Qed.

(** X23.  [validateFtEvent] and [validateNftEvent] read the version only up
    to its first full stop: minor and patch numbers, and anything else that
    follows, do not change the verdict.  No container passes both. *)
Theorem validators_read_major_version_only (Number_is_1 : string → bool) {T}
    (evt : EventLogData T) (eventName major rest : string) :
  mentions full_stop major = false →
  validateFtEvent Number_is_1 (with_version evt (major +:+ "." +:+ rest)) eventName
  = validateFtEvent Number_is_1 (with_version evt major) eventName
  ∧ validateNftEvent Number_is_1 (with_version evt (major +:+ "." +:+ rest)) eventName
    = validateNftEvent Number_is_1 (with_version evt major) eventName
  ∧ ∀ other, validateFtEvent Number_is_1 evt eventName = true →
             validateNftEvent Number_is_1 evt other = false.
Proof.
  intros Hm. destruct (major_is_1_prefix Number_is_1 major rest Hm) as [H1 H2].
  unfold validateFtEvent, validateNftEvent. simpl. rewrite H1, H2.
  split; [done|]. split; [done|].
  intros other [[Hs _]%andb_true_iff _]%andb_true_iff.
  apply String.eqb_eq in Hs. by rewrite Hs.
Qed.

Lemma validators_read_major_version_only_witness :
  let Number_is_1 := String.eqb "1" in
  let evt := {| standard := "nep141"; version := "1.0.0"; event := "ft_transfer";
                data := tt |} in
  validateFtEvent Number_is_1 (with_version evt ("1" +:+ "." +:+ "0.0")) "ft_transfer"
  = validateFtEvent Number_is_1 (with_version evt "1") "ft_transfer"
  ∧ validateNftEvent Number_is_1 (with_version evt ("1" +:+ "." +:+ "0.0")) "ft_transfer"
    = validateNftEvent Number_is_1 (with_version evt "1") "ft_transfer"
  ∧ ∀ other, validateFtEvent Number_is_1 evt "ft_transfer" = true →
             validateNftEvent Number_is_1 evt other = false.
Proof. apply validators_read_major_version_only. reflexivity. Defined.

(** ** The HTTP fetchers *)

Section HttpFacts.
Context {Json : Type} (as_message : Json → StreamerMessage).
Context (truthy_reason : Err → bool).
Context (fetch : list Http.Request → Http.Request → Result (Http.Response (Json:=Json))).
Context (map : option (Json → Result StreamerMessage)).

Lemma multi_loop_first_success requests k msg lastErr calls :
  answers as_message fetch map calls requests !! k = Some (Http.Found msg) →
  (∀ j a, (j < k)%nat → answers as_message fetch map calls requests !! j = Some a →
          is_found a = false) →
  Http.multi_loop as_message truthy_reason fetch map requests lastErr calls
  = (calls ++ take (S k) requests, Ok msg).
Proof.
  revert k lastErr calls. induction requests as [|r rest IH]; intros k lastErr calls; [done|].
  cbn [answers Http.multi_loop]. destruct k as [|k]; simpl.
  - intros [= ->] _. by rewrite take_0.
  - intros Hk Hbefore.
    pose proof (Hbefore 0%nat _ ltac:(lia) eq_refl) as H0.
    assert (∀ e, Http.multi_loop as_message truthy_reason fetch map rest e (calls ++ [r])
                 = (calls ++ r :: take (S k) rest, Ok msg)) as Hrest.
    { intros e. rewrite (IH k e (calls ++ [r])), <- ?app_assoc; [done | done |].
      intros j a Hj Ha. apply (Hbefore (S j) a); [lia | done]. }
    destruct (Http.try_prefix as_message fetch map calls r); [done | apply Hrest..].
Qed.

Lemma multi_loop_no_success requests lastErr calls :
  Forall (λ a, is_found a = false) (answers as_message fetch map calls requests) →
  Http.multi_loop as_message truthy_reason fetch map requests lastErr calls
  = (calls ++ requests,
     match from_option Some lastErr
             (last_failure (answers as_message fetch map calls requests)) with
     | Some e => if truthy_reason e then Threw e else Ok None
     | None => Ok None
     end).
Proof.
  revert lastErr calls. induction requests as [|r rest IH]; intros lastErr calls.
  - intros _. simpl. by rewrite app_nil_r.
  - cbn [answers Http.multi_loop]. intros [H0 Hrest]%Forall_cons.
    unfold last_failure. cbn [omap].
    destruct (Http.try_prefix as_message fetch map calls r) as [msg| |e]; [done | |].
    + rewrite IH by done. by rewrite <- app_assoc.
    + rewrite IH by done. rewrite <- app_assoc. simpl. f_equal.
      unfold last_failure.
      change (list_omap Http.Attempt Err ?g ?l) with (omap g l).
      destruct (omap _ (answers as_message fetch map (calls ++ [r]) rest)) as [|x l];
        [done|].
      rewrite last_cons_cons. by destruct (last (x :: l)) eqn:Hl;
        [| apply last_None in Hl].
Qed.

End HttpFacts.

(** X24.  [makeNeardataHttpFetcherMulti] returns what the first pattern that
    succeeds gives: failures and 404s of the patterns before it are
    forgotten, and no pattern after it is requested. *)
Theorem multi_fetcher_first_success {Json} (as_message : Json → StreamerMessage)
    (truthy_reason : Err → bool)
    (fetch : list Http.Request → Http.Request → Result (Http.Response (Json:=Json)))
    (chain : Http.ChainId) (pathPrefixes : list string) (headers : option Http.Headers)
    (map : option (Json → Result StreamerMessage)) (cfg : Http.FetcherConfig)
    (height : BlockHeight) (calls : list Http.Request)
    (k : nat) (msg : option StreamerMessage) :
  let requests :=
    Http.multi_request (Http.strip_trailing_slash (Http.baseUrlForChain chain))
      headers height <$> pathPrefixes in
  let answered := answers as_message fetch map calls requests in
  answered !! k = Some (Http.Found msg) →
  (∀ j a, (j < k)%nat → answered !! j = Some a → is_found a = false) →
  Http.makeNeardataHttpFetcherMulti as_message truthy_reason (Some fetch) chain pathPrefixes
    headers map cfg height calls
  = (calls ++ take (S k) requests, Ok msg).
Proof.
  intros requests answered Hk Hbefore. unfold Http.makeNeardataHttpFetcherMulti.
  by apply multi_loop_first_success.
Qed.

Lemma multi_fetcher_first_success_witness :
  let requests :=
    Http.multi_request (Http.strip_trailing_slash (Http.baseUrlForChain Http.mainnet))
      None 100 <$> Http.default_pathPrefixes in
  Http.makeNeardataHttpFetcherMulti id (λ _, true) (Some flaky_server) Http.mainnet
    Http.default_pathPrefixes None None mainnet_final 100 []
  = ([] ++ take 2 requests, Ok (Some (empty_block 100))).
Proof.
  apply (multi_fetcher_first_success id (λ _, true) flaky_server Http.mainnet
           Http.default_pathPrefixes None None mainnet_final 100 [] 1).
  - reflexivity.
  - intros [|j] a Hj Ha; [| lia]. vm_compute in Ha. injection Ha as <-. reflexivity.
Defined.

(** X25.  When no pattern succeeds, every pattern has been requested, and
    [makeNeardataHttpFetcherMulti] rejects with the error of the last pattern
    that failed, also when 404s follow it; it resolves with [null] when
    every pattern answered 404 (or the error caught last is falsy). *)
Theorem multi_fetcher_no_success {Json} (as_message : Json → StreamerMessage)
    (truthy_reason : Err → bool)
    (fetch : list Http.Request → Http.Request → Result (Http.Response (Json:=Json)))
    (chain : Http.ChainId) (pathPrefixes : list string) (headers : option Http.Headers)
    (map : option (Json → Result StreamerMessage)) (cfg : Http.FetcherConfig)
    (height : BlockHeight) (calls : list Http.Request) :
  let requests :=
    Http.multi_request (Http.strip_trailing_slash (Http.baseUrlForChain chain))
      headers height <$> pathPrefixes in
  let answered := answers as_message fetch map calls requests in
  Forall (λ a, is_found a = false) answered →
  Http.makeNeardataHttpFetcherMulti as_message truthy_reason (Some fetch) chain pathPrefixes
    headers map cfg height calls
  = (calls ++ requests,
     match last_failure answered with
     | Some e => if truthy_reason e then Threw e else Ok None
     | None => Ok None
     end).
Proof.
  intros requests answered Hnone. unfold Http.makeNeardataHttpFetcherMulti.
  rewrite multi_loop_no_success by done. f_equal.
  fold requests. fold answered. by destruct (last_failure answered).
Qed.

Lemma multi_fetcher_no_success_witness :
  let requests :=
    Http.multi_request (Http.strip_trailing_slash (Http.baseUrlForChain Http.mainnet))
      None 100 <$> Http.default_pathPrefixes in
  Http.makeNeardataHttpFetcherMulti id (λ _, true) (Some down_server) Http.mainnet
    Http.default_pathPrefixes None None mainnet_final 100 []
  = ([] ++ requests,
     match last_failure (answers id down_server None [] requests) with
     | Some e => if (λ _ : Err, true) e then Threw e else Ok None
     | None => Ok None
     end).
Proof.
  apply (multi_fetcher_no_success id (λ _, true) down_server Http.mainnet
           Http.default_pathPrefixes None None mainnet_final 100 []).
  repeat constructor.
Defined.

Lemma strip_trailing_slash_app (b : string) : Http.strip_trailing_slash (b +:+ "/") = b.
Proof.
  induction b as [|c b IH]; [done|]. rewrite string_app_cons.
  cbn [Http.strip_trailing_slash]. rewrite IH.
  destruct b; [done|]. by rewrite string_app_cons.
Qed.

Lemma strip_trailing_slash_id (b : string) :
  ends_with_slash b = false → Http.strip_trailing_slash b = b.
Proof.
  induction b as [|c b IH]; [done|]. cbn [ends_with_slash Http.strip_trailing_slash].
  destruct b as [|c' b]; [by intros -> | intros Hb; by rewrite IH].
Qed.

(** X26.  The fetcher of [makeNeardataHttpFetcher] makes the same request and
    gives the same answer whether its [baseUrl] is written with the final
    solidus or without it.  [makeNeardataHttpFetcherFromChain(chain, ...)]
    is the plain fetcher without [baseUrl], called with the configuration's
    chain replaced by [chain]. *)
Theorem http_fetcher_base_url {Json} (as_message : Json → StreamerMessage)
    (fetchFn : Http.FetchFn) (opts : Http.HttpFetcherOptions (Json:=Json))
    (cfg : Http.FetcherConfig) (height : BlockHeight) (calls : list Http.Request)
    (b : string) (chain : Http.ChainId) :
  ends_with_slash b = false →
  Http.makeNeardataHttpFetcher as_message fetchFn (with_baseUrl opts (Some (b +:+ "/")))
    cfg height calls
  = Http.makeNeardataHttpFetcher as_message fetchFn (with_baseUrl opts (Some b))
      cfg height calls
  ∧ Http.makeNeardataHttpFetcherFromChain as_message fetchFn chain (Http.headers opts)
      (Http.pathBuilder opts) (Http.map opts) cfg height calls
    = Http.makeNeardataHttpFetcher as_message fetchFn (with_baseUrl opts None)
        (with_chain_id cfg chain) height calls.
Proof.
  intros Hb. split; [| done].
  unfold Http.makeNeardataHttpFetcher. simpl.
  by rewrite strip_trailing_slash_app, strip_trailing_slash_id.
Qed.

Lemma http_fetcher_base_url_witness :
  let opts := {| Http.baseUrl := None; Http.headers := None; Http.pathBuilder := None;
                 Http.map := None |} in
  Http.makeNeardataHttpFetcher id (Some flaky_server)
    (with_baseUrl opts (Some ("https://example.org" +:+ "/"))) mainnet_final 100 []
  = Http.makeNeardataHttpFetcher id (Some flaky_server)
      (with_baseUrl opts (Some "https://example.org")) mainnet_final 100 []
  ∧ Http.makeNeardataHttpFetcherFromChain id (Some flaky_server) Http.testnet
      (Http.headers opts) (Http.pathBuilder opts) (Http.map opts) mainnet_final 100 []
    = Http.makeNeardataHttpFetcher id (Some flaky_server) (with_baseUrl opts None)
        (with_chain_id mainnet_final Http.testnet) 100 [].
Proof. apply http_fetcher_base_url. reflexivity. Defined.

(** ** The rate-limited fetcher *)

Lemma attempts_outcome (fetcher : nat → Result (option StreamerMessage))
    (nullDelayMs on429DelayMs : Z) (k rounds made : nat) :
  (k ≤ rounds)%nat →
  (∀ j, (j < k)%nat →
        ∃ e, fetcher (made + j)%nat = Threw e ∧ RateLimit.rate_limited e = true) →
  (k = rounds ∨ ∀ e, fetcher (made + k)%nat = Threw e → RateLimit.rate_limited e = false) →
  RateLimit.attempts fetcher nullDelayMs on429DelayMs rounds made
  = (concat (replicate k [RateLimit.Call; RateLimit.Sleep on429DelayMs])
       ++ RateLimit.Call
          :: (if decide (k < rounds)%nat
              then match fetcher (made + k)%nat with
                   | Ok None => [RateLimit.Sleep nullDelayMs]
                   | _ => []
                   end
              else []),
     fetcher (made + k)%nat).
Proof.
  revert rounds made. induction k as [|k IH]; intros rounds made Hk Hbefore Hat.
  - rewrite Nat.add_0_r in *. simpl. destruct rounds as [|rounds]; [done|].
    destruct Hat as [? | Hat]; [done|]. simpl.
    destruct (fetcher made) as [[msg|]|e] eqn:Hf; try done.
    by rewrite (Hat e eq_refl).
  - destruct rounds as [|rounds]; [lia|].
    destruct (Hbefore 0%nat ltac:(lia)) as (e & He & Hrl). rewrite Nat.add_0_r in He.
    cbn [RateLimit.attempts]. rewrite He, Hrl.
    rewrite (IH rounds (S made)); [| lia | |].
    + replace (S made + k)%nat with (made + S k)%nat by lia. simpl.
      f_equal. f_equal. f_equal. f_equal.
      destruct (decide (k < rounds)%nat), (decide (S k < S rounds)%nat); try done; lia.
    + intros j Hj. replace (S made + j)%nat with (made + S j)%nat by lia.
      apply Hbefore. lia.
    + replace (S made + k)%nat with (made + S k)%nat by lia.
      destruct Hat as [? | Hat]; [left; lia | by right].
Qed.

(** X27.  The fetcher wrapped by [withRateLimitFetcher] answers with the
    first outcome of the inner fetcher that is not a rate-limit rejection; it
    gives up after [maxRetries + 1] rate-limit rejections and answers with
    the next outcome, whatever it is.  It waits [on429DelayMs] after every
    rate-limit rejection it retries, and [nullDelayMs] after a [null], but
    not after the [null] of the last try. *)
Theorem rate_limit_fetcher_outcome (opts : RateLimit.Options)
    (fetcher : nat → Result (option StreamerMessage)) (now1 now2 lastCall : Z) (k : nat) :
  let rounds := Z.to_nat (default 3 (RateLimit.maxRetries opts) + 1) in
  let minIntervalMs := default 400 (RateLimit.minIntervalMs opts) in
  (k ≤ rounds)%nat →
  (∀ j, (j < k)%nat → ∃ e, fetcher j = Threw e ∧ RateLimit.rate_limited e = true) →
  (k = rounds ∨ ∀ e, fetcher k = Threw e → RateLimit.rate_limited e = false) →
  RateLimit.withRateLimitFetcher opts fetcher now1 now2 lastCall
  = (now2,
     (if now1 - lastCall <? minIntervalMs
      then [RateLimit.Sleep (minIntervalMs - (now1 - lastCall))] else [])
     ++ concat (replicate k
                  [RateLimit.Call;
                   RateLimit.Sleep (default 5000 (RateLimit.on429DelayMs opts))])
     ++ RateLimit.Call
        :: (if decide (k < rounds)%nat
            then match fetcher k with
                 | Ok None => [RateLimit.Sleep (default 200 (RateLimit.nullDelayMs opts))]
                 | _ => []
                 end
            else []),
     fetcher k).
Proof.
  intros rounds minIntervalMs Hk Hbefore Hat. unfold RateLimit.withRateLimitFetcher.
  by rewrite (attempts_outcome fetcher _ _ k rounds 0).
Qed.

Lemma rate_limit_fetcher_outcome_witness :
  RateLimit.withRateLimitFetcher default_rate_limit throttled_fetcher 1000 1001 900
  = (1001,
     (if 1000 - 900 <? 400 then [RateLimit.Sleep (400 - (1000 - 900))] else [])
     ++ concat (replicate 2 [RateLimit.Call; RateLimit.Sleep 5000])
     ++ RateLimit.Call
        :: (if decide (2 < Z.to_nat (3 + 1))%nat
            then match throttled_fetcher 2 with
                 | Ok None => [RateLimit.Sleep 200]
                 | _ => []
                 end
            else []),
     throttled_fetcher 2).
Proof.
  apply (rate_limit_fetcher_outcome default_rate_limit throttled_fetcher 1000 1001 900 2).
  - simpl. lia.
  - intros [|[|j]] Hj; [by eexists | by eexists | lia].
  - right. intros e He. discriminate He.
Defined.

Lemma includes_startsWith s sub : JsString.startsWith s sub = true → JsString.includes s sub = true.
Proof. intros H. destruct s; simpl; by rewrite H. Qed.

Lemma includes_app_l a s sub :
  JsString.includes s sub = true → JsString.includes (a +:+ s) sub = true.
Proof.
  intros Hs. induction a as [|c a IH]; [done|]. rewrite string_app_cons.
  cbn [JsString.includes]. rewrite IH. apply orb_true_r.
Qed.

Lemma includes_app_r s b sub :
  JsString.includes s sub = true → JsString.includes (s +:+ b) sub = true.
Proof.
  induction s as [|c s IH].
  - destruct sub as [|x sub]; [by destruct b | done].
  - cbn [JsString.includes]. intros [Hm | Hs]%orb_true_iff.
    + apply includes_startsWith. destruct (startsWith_true _ _ Hm) as [r ->].
      rewrite string_app_assoc. apply startsWith_app.
    + rewrite string_app_cons. cbn [JsString.includes]. rewrite (IH Hs).
      apply orb_true_r.
Qed.

(** X28.  [makeNeardataHttpFetcher] and [withRateLimitFetcher] fit together:
    when the response to the request the fetcher makes is a failed one
    ([ok] is false, the status is not 404) and its status is 429 or its body
    mentions 429, the fetcher rejects with the error
    [Neardata fetch failed <status>: <body>], which the rate limiter takes
    for a rate limit.  A response with status 404 makes the fetcher resolve
    with [null], whatever its body. *)
Theorem throttling_is_recognised {Json} (as_message : Json → StreamerMessage)
    (fetch : list Http.Request → Http.Request → Result (Http.Response (Json:=Json)))
    (opts : Http.HttpFetcherOptions) (cfg : Http.FetcherConfig) (height : BlockHeight)
    (calls : list Http.Request) (request : Http.Request) (res : Http.Response) :
  let out := Http.makeNeardataHttpFetcher as_message (Some fetch) opts cfg height calls in
  last out.1 = Some request →
  fetch calls request = Ok res →
  (Http.status res = 404 → out.2 = Ok None)
  ∧ (Http.status res ≠ 404 → Http.ok res = false →
     Http.status res = 429
     ∨ (∃ body, Http.text res = Ok body ∧ JsString.includes body "429" = true) →
     out.2 = Threw (Http.fetch_failed res)
     ∧ RateLimit.rate_limited (Http.fetch_failed res) = true).
Proof.
  unfold Http.makeNeardataHttpFetcher. cbv zeta. cbn [fst snd].
  rewrite last_snoc. intros [= <-] Hres. rewrite Hres. split.
  - intros ->. done.
  - intros H404 Hok Hthrottled.
    apply Z.eqb_neq in H404. rewrite H404, Hok. simpl. split; [done|].
    unfold RateLimit.rate_limited, Http.fetch_failed. apply orb_true_iff. left.
    destruct Hthrottled as [-> | (body & -> & Hb)].
    + apply includes_app_l, includes_app_r. reflexivity.
    + by do 3 apply includes_app_l.
Qed.

Lemma throttling_is_recognised_witness :
  let opts := {| Http.baseUrl := None; Http.headers := None; Http.pathBuilder := None;
                 Http.map := None |} in
  (Http.makeNeardataHttpFetcher id (Some throttling_server) opts mainnet_final 100 []).2
  = Threw "Neardata fetch failed 429: slow down"%string
  ∧ RateLimit.rate_limited "Neardata fetch failed 429: slow down" = true.
Proof.
  intros opts.
  apply (throttling_is_recognised id throttling_server opts mainnet_final 100 []
           ("https://mainnet.neardata.xyz/v0/block/100"%string,
            {| Http.init_headers := Some ∅ |})
           {| Http.status := 429; Http.ok := false; Http.text := Ok "slow down"%string;
              Http.json := Threw "no body"%string |}).
  - vm_compute. reflexivity.
  - reflexivity.
  - discriminate.
  - reflexivity.
  - left. reflexivity.
Defined.

(** ** The mock fetcher *)

Lemma omap_window_nat {A} (g : Z → A) (a b first : Z) (n : nat) :
  omap (λ h, if (h <? a) || (h >=? b) then None else Some (g h)) (seqZ first (Z.of_nat n))
  = g <$> seqZ (Z.max first a) (Z.min (first + Z.of_nat n) b - Z.max first a).
Proof.
  revert first. induction n as [|n IH]; intros first.
  - rewrite !seqZ_nil by lia. done.
  - rewrite (seqZ_cons first) by lia. cbn [omap list_omap].
    replace (Z.pred (Z.of_nat (S n))) with (Z.of_nat n) by lia.
    change (list_omap Z A ?f ?l) with (omap f l). rewrite IH.
    replace (Z.succ first + Z.of_nat n) with (first + Z.of_nat (S n)) by lia.
    destruct (Z.ltb_spec first a); simpl.
    + by replace (Z.max (Z.succ first) a) with (Z.max first a) by lia.
    + destruct (Z.geb_spec first b); simpl.
      * by rewrite !seqZ_nil by lia.
      * rewrite (seqZ_cons (Z.max first a)) by lia. rewrite fmap_cons.
        replace (Z.max first a) with first by lia.
        replace (Z.max (Z.succ first) a) with (Z.succ first) by lia.
        f_equal. f_equal. f_equal. lia.
Qed.

Lemma omap_window {A} (g : Z → A) (a b first len : Z) :
  omap (λ h, if (h <? a) || (h >=? b) then None else Some (g h)) (seqZ first len)
  = g <$> seqZ (Z.max first a) (Z.min (first + len) b - Z.max first a).
Proof.
  destruct (decide (len < 0)) as [Hneg|Hpos].
  - by rewrite !seqZ_nil by lia.
  - rewrite <- (Z2Nat.id len) by lia. apply omap_window_nat.
Qed.

(** X29.  Streaming the heights from [first] up to [last] from the mock
    fetcher made for [startHeight] yields the blocks of the heights that are
    both in that range and among the three the mock serves, in ascending
    order; each is the block the mock answers for its height, and the stream
    does not fail. *)
Theorem mock_fetcher_stream (startHeight first last : BlockHeight) :
  let s := NeardataProvider.stream (makeMockFetcher startHeight) first (Some last) in
  receiver_throws s = None
  ∧ handle s = Ok tt
  ∧ height <$> receiver s
    = seqZ (Z.max first startHeight)
        (Z.min last (startHeight + 3) - Z.max first startHeight)
  ∧ Forall (λ m, makeMockFetcher startHeight (height m) = Ok (Some m)) (receiver s).
Proof.
  intros s. unfold s, NeardataProvider.stream. simpl.
  rewrite gen_all_ok; last first.
  { intros h _. unfold makeMockFetcher. destruct (_ || _); by eexists. }
  simpl. split; [done|]. split; [done|].
  set (g := λ h, default (empty_block 0) (fetched (makeMockFetcher startHeight) h)).
  assert (∀ h, fetched (makeMockFetcher startHeight) h
               = if (h <? startHeight) || (h >=? startHeight + 3)
                 then None else Some (g h)) as Hserved.
  { intros h. unfold g, fetched, makeMockFetcher. by destruct (_ || _). }
  assert (∀ h, h ∈ seqZ (Z.max first startHeight)
                     (Z.min last (startHeight + 3) - Z.max first startHeight) →
               makeMockFetcher startHeight h = Ok (Some (g h)) ∧ height (g h) = h)
    as Hwindow.
  { intros h Hh%elem_of_seqZ. unfold g, fetched, makeMockFetcher.
    destruct (Z.ltb_spec h startHeight); [lia|].
    destruct (Z.geb_spec h (startHeight + 3)); [lia|]. done. }
  rewrite (list_omap_ext _ (λ h, if (h <? startHeight) || (h >=? startHeight + 3)
                                 then None else Some (g h)) _ (seqZ first (last - first)))
    by (apply Forall2_same_length_lookup_2; [done|]; intros i x y Hx Hy;
        rewrite Hx in Hy; injection Hy as <-; apply Hserved).
  rewrite omap_window. replace (first + (last - first)) with last by lia.
  split.
  - rewrite <- list_fmap_compose. rewrite <- (list_fmap_id (seqZ _ _)) at 2.
    apply list_fmap_ext. intros i h Hh. simpl.
    apply Hwindow. by eapply list_elem_of_lookup_2.
  - apply Forall_fmap, Forall_forall. intros h Hh. simpl.
    destruct (Hwindow h Hh) as [Hm Hheight]. by rewrite Hheight.
Qed.
